(** * DevForge-B2C: hybrid vector + graph retrieval

    A shallow embedding of the two edge functions of the repository,
    [hybrid-search] (query engine) and [process-file] (ingestion), followed
    by the properties proved about them.

    Conventions of the embedding.
    - A JavaScript string is the list of its UTF-16 code units ([jsstring]);
      [charCodeAt] is the list element.
    - 32-bit integer arithmetic ([>>> 0], [Math.imul], [^], [<<], [>>>]) is
      written on [Z] with the wrap-around modulo [2^32] spelled out.
    - A JavaScript [number] that holds a score, a weight or a vector
      component is a real number ([R]): arithmetic is exact, there is no
      rounding and no [NaN].
    - [Array.prototype.sort] is the stable sort the language standard
      prescribes, written as a stable insertion sort.
    - A [Map] iterated in insertion order is an association list. *)

From Stdlib Require Import ZArith List Bool Lia Reals Lra String Ascii.
From Stdlib Require Import Sorting.Sorted Permutation.
Import ListNotations.

Local Open Scope Z_scope.

(* [String] also exports a [length]; lists are meant throughout. *)
Local Abbreviation length := Datatypes.length.

(* ================================================================== *)
(** * JavaScript primitives used by the two functions                  *)
(* ================================================================== *)

Module JS.

(** ** Strings as UTF-16 code units *)

Definition jsstring : Type := list Z.

Definition code_of_ascii (a : ascii) : Z := Z.of_N (N_of_ascii a).

(** [js "abc"] is the JavaScript string with the same (ASCII) characters. *)
Definition js (s : string) : jsstring := map code_of_ascii (list_ascii_of_string s).

Definition jsstring_eq_dec : forall a b : jsstring, {a = b} + {a <> b} :=
  list_eq_dec Z.eq_dec.

Definition jsstring_eqb (a b : jsstring) : bool :=
  if jsstring_eq_dec a b then true else false.

(** Truthiness of a string: [Boolean(s)], [if (s)], [s || d]. *)
Definition truthy (s : jsstring) : bool :=
  match s with [] => false | _ :: _ => true end.

(** ** Character classes of the regular expressions *)

(** LineTerminator: LF, CR, LS (U+2028), PS (U+2029). *)
Definition is_line_terminator (c : Z) : bool :=
  (c =? 10) || (c =? 13) || (c =? 8232) || (c =? 8233).

(** [.] without the [s] flag: any code unit but a line terminator. *)
Definition re_dot (c : Z) : bool := negb (is_line_terminator c).

(** [\s], which is also what [trim] removes: WhiteSpace and LineTerminator. *)
Definition is_space (c : Z) : bool :=
  ((9 <=? c) && (c <=? 13)) || (c =? 32) || (c =? 160) || (c =? 5760)
  || ((8192 <=? c) && (c <=? 8202)) || (c =? 8232) || (c =? 8233)
  || (c =? 8239) || (c =? 8287) || (c =? 12288) || (c =? 65279).

(** ** [String.prototype.match] with a global one-class repetition

    [re_greedy p n text] is the match of [p{0,n}] at the head of [text]
    (greedy, and since every prefix of a run matches there is nothing to
    backtrack into): the matched code units and what follows them. *)
Fixpoint re_greedy (p : Z -> bool) (n : nat) (text : jsstring) : jsstring * jsstring :=
  match n, text with
  | S n', c :: rest =>
      if p c then let (m, r) := re_greedy p n' rest in (c :: m, r)
      else ([], text)
  | _, _ => ([], text)
  end.

(** The global scan of [text.match(/p{1,n}/g)]: at each index take the
    greedy match; where it is empty the pattern fails there and the scan
    moves one code unit on.  [fuel] bounds the number of indices visited. *)
Fixpoint re_scan (p : Z -> bool) (n : nat) (fuel : nat) (text : jsstring) : list jsstring :=
  match fuel with
  | O => []
  | S fuel' =>
      match text with
      | [] => []
      | _ :: rest =>
          match re_greedy p n text with
          | ([], _) => re_scan p n fuel' rest
          | (m, r) => m :: re_scan p n fuel' r
          end
      end
  end.

(** [text.match(/p{1,n}/g)]: [null] when nothing matches. *)
Definition match_all (p : Z -> bool) (n : nat) (text : jsstring) : option (list jsstring) :=
  match re_scan p n (length text) text with
  | [] => None
  | ms => Some ms
  end.


(** ** [trim], [replace], [split], [join], [slice] *)

Fixpoint drop_spaces (s : jsstring) : jsstring :=
  match s with
  | c :: r => if is_space c then drop_spaces r else s
  | [] => []
  end.

(** [s.trim()]. *)
Definition trim (s : jsstring) : jsstring :=
  rev (drop_spaces (rev (drop_spaces s))).

(** [s.replace(/\s+/g, " ")]: every maximal run of white space becomes one
    space; a white-space unit emits the space when it closes its run. *)
Fixpoint replace_space_runs (s : jsstring) : jsstring :=
  match s with
  | [] => []
  | c :: r =>
      if is_space c then
        match r with
        | c' :: _ => if is_space c' then replace_space_runs r
                     else 32 :: replace_space_runs r
        | [] => [32]
        end
      else c :: replace_space_runs r
  end.

(** [s.replace(/[\r\n]/g, " ")]. *)
Definition replace_cr_lf (s : jsstring) : jsstring :=
  map (fun c => if (c =? 13) || (c =? 10) then 32 else c) s.

(** [s.split(sep)] for a separator of one code unit; ["".split(" ")] is
    [[""]]. *)
Fixpoint split (sep : Z) (s : jsstring) : list jsstring :=
  match s with
  | [] => [[]]
  | c :: r =>
      if c =? sep then [] :: split sep r
      else match split sep r with
           | w :: ws => (c :: w) :: ws
           | [] => [[c]]
           end
  end.

(** [words.join(sep)]. *)
Fixpoint join (sep : jsstring) (words : list jsstring) : jsstring :=
  match words with
  | [] => []
  | [w] => w
  | w :: ws => w ++ sep ++ join sep ws
  end.

(** [xs.slice(0, n)] for a count [n] that is a natural number. *)
Definition slice0 {A : Type} (n : nat) (xs : list A) : list A := firstn n xs.

(** ** 32-bit integers *)

Definition to_uint32 (z : Z) : Z := z mod 2 ^ 32.                (* ToUint32, [z >>> 0] *)
Definition to_int32 (z : Z) : Z := (z + 2 ^ 31) mod 2 ^ 32 - 2 ^ 31.  (* ToInt32 *)
Definition xor32 (a b : Z) : Z := to_int32 (Z.lxor (to_int32 a) (to_int32 b)).  (* [a ^ b] *)
Definition shl32 (a : Z) (n : Z) : Z := to_int32 (Z.shiftl (to_int32 a) n).    (* [a << n] *)
Definition ushr32 (a : Z) (n : Z) : Z := Z.shiftr (to_uint32 a) n.             (* [a >>> n] *)
Definition imul (a b : Z) : Z := to_int32 (to_int32 a * to_int32 b).           (* [Math.imul] *)

(** ** Numbers *)

Local Open Scope R_scope.

(** [x > 0] as a test. *)
Definition positive (x : R) : bool := if Rlt_dec 0 x then true else false.

(** [x || d] on numbers: [d] when [x] is zero. *)
Definition or_else (x d : R) : R := if Req_dec_T x 0 then d else x.

(** ** [Array.prototype.sort(compare)]

    The sort is stable.  [compare a b > 0] puts [b] before [a]; any other
    answer leaves [a], which came first, in front. *)
Section Sort.
Variable A : Type.
Variable compare : A -> A -> R.

Fixpoint sort_insert (x : A) (sorted : list A) : list A :=
  match sorted with
  | [] => [x]
  | y :: rest =>
      if positive (compare x y) then y :: sort_insert x rest
      else x :: sorted
  end.

Definition sort (xs : list A) : list A := fold_right sort_insert [] xs.
End Sort.
Arguments sort_insert {A} compare x sorted.
Arguments sort {A} compare xs.

Local Close Scope R_scope.

(** ** [Map<string, V>] and [Set<string>], iterated in insertion order *)

Definition Map (V : Type) : Type := list (jsstring * V).

Fixpoint Map_get {V : Type} (m : Map V) (k : jsstring) : option V :=
  match m with
  | [] => None
  | (k', v) :: m' => if jsstring_eqb k' k then Some v else Map_get m' k
  end.

Definition Map_has {V : Type} (m : Map V) (k : jsstring) : bool :=
  match Map_get m k with Some _ => true | None => false end.

(** [m.set(k, v)]: a known key keeps its place, a new one goes last. *)
Fixpoint Map_set {V : Type} (m : Map V) (k : jsstring) (v : V) : Map V :=
  match m with
  | [] => [(k, v)]
  | (k', v') :: m' =>
      if jsstring_eqb k' k then (k', v) :: m'
      else (k', v') :: Map_set m' k v
  end.

Definition Map_values {V : Type} (m : Map V) : list V := map snd m.

(** [new Map(entries)]. *)
Definition Map_of {V : Type} (entries : list (jsstring * V)) : Map V :=
  fold_left (fun m e => Map_set m (fst e) (snd e)) entries [].

Definition Set_has (s : list jsstring) (k : jsstring) : bool :=
  existsb (jsstring_eqb k) s.

Definition Set_add (s : list jsstring) (k : jsstring) : list jsstring :=
  if Set_has s k then s else s ++ [k].

End JS.

Import JS.

(* ================================================================== *)
(** * The store both functions talk to                                 *)
(* ================================================================== *)

Module Supabase.

(** A JSON value as far as the code looks into it: a string; an array,
    whose elements are looked at only for being a string ([Some s]) or not
    ([None]); or anything else (number, boolean, null, object). *)
Inductive jsvalue : Type :=
| VString (s : jsstring)
| VArray (items : list (option jsstring))
| VOther.

(** [Record<string, unknown> | null]. *)
Definition NodeMetadata : Type := option (list (jsstring * jsvalue)).

(** A row of [nodes].  [file_id] is the column the store filters on; the
    [embedding] column has type [vector(768)]. *)
Record NodeRecord : Type := {
  id : jsstring;
  file_id : jsstring;
  node_type : jsstring;
  content : jsstring;
  embedding : list R;
  metadata : NodeMetadata
}.

Record EdgeRecord : Type := {
  source_node_id : jsstring;
  target_node_id : jsstring;
  edge_type : jsstring;
  weight : R
}.

Record FileRecord : Type := {
  file_key : jsstring;      (* the row's [id] *)
  status : jsstring
}.

(** The tables, the [uploads] bucket, and the ids the [nodes] table hands
    out ([gen_random_uuid()]): [uuids k] is the id of the [k]-th row created
    from now on, [issued] counts the rows created so far. *)
Record Database : Type := {
  files : list FileRecord;
  nodes : list NodeRecord;
  edges : list EdgeRecord;
  uploads : list (jsstring * jsstring);
  uuids : nat -> jsstring;
  issued : nat
}.

(** The requests a function sends, in the order it sends them. *)
Inductive Call : Type :=
| SelectNodesByFile (fileId : jsstring)
| SelectEdgesBySource (ids : list jsstring)
| SelectNodesById (ids : list jsstring)
| Download (name : jsstring)
| InsertNode (content : jsstring)
| InsertEdges (rows : list EdgeRecord)
| UpdateFileStatus (fileId : jsstring) (status : jsstring).

Record World : Type := { db : Database; log : list Call }.

(** ** The monad of an [async] handler inside [try]: state, log, [throw] *)

Inductive Outcome (A : Type) : Type :=
| Return (a : A)
| Throw (message : jsstring).
Arguments Return {A} a.
Arguments Throw {A} message.

Definition Eff (A : Type) : Type := World -> Outcome A * World.

Definition ret {A : Type} (a : A) : Eff A := fun w => (Return a, w).

Definition throw {A : Type} (message : jsstring) : Eff A := fun w => (Throw message, w).

Definition bind {A B : Type} (m : Eff A) (k : A -> Eff B) : Eff B :=
  fun w =>
    match m w with
    | (Return a, w') => k a w'
    | (Throw e, w') => (Throw e, w')
    end.

Declare Scope eff_scope.
Delimit Scope eff_scope with eff.
Bind Scope eff_scope with Eff.
Notation "x <- m ;; k" := (bind m (fun x => k))
  (at level 61, m at next level, right associativity) : eff_scope.
Notation "m ;;; k" := (bind m (fun _ => k))
  (at level 61, right associativity) : eff_scope.

Definition logged (c : Call) (w : World) : World :=
  {| db := db w; log := log w ++ [c] |}.

(** [from("nodes").select("*").eq("file_id", fileId)]. *)
Definition select_nodes_eq_file_id (fileId : jsstring) : Eff (option (list NodeRecord)) :=
  fun w =>
    (Return (Some (filter (fun n => jsstring_eqb (file_id n) fileId) (nodes (db w)))),
     logged (SelectNodesByFile fileId) w).

(** [from("edges").select("*").in("source_node_id", ids)]. *)
Definition select_edges_in_source (ids : list jsstring) : Eff (option (list EdgeRecord)) :=
  fun w =>
    (Return (Some (filter (fun e => Set_has ids (source_node_id e)) (edges (db w)))),
     logged (SelectEdgesBySource ids) w).

(** [from("nodes").select("*").in("id", ids)]. *)
Definition select_nodes_in_id (ids : list jsstring) : Eff (option (list NodeRecord)) :=
  fun w =>
    (Return (Some (filter (fun n => Set_has ids (id n)) (nodes (db w)))),
     logged (SelectNodesById ids) w).

(** [storage.from("uploads").download(name)], then [file.text()]: the
    text of the object, [None] ([data: null]) when there is none. *)
Definition storage_download (name : jsstring) : Eff (option jsstring) :=
  fun w =>
    (Return (option_map snd
               (find (fun o => jsstring_eqb (fst o) name) (uploads (db w)))),
     logged (Download name) w).

(** [from("nodes").insert({...}).select().single()]: the row as stored,
    with the id the table gave it and the default metadata [{}]. *)
Definition insert_node (fileId nodeType text : jsstring) (vec : list R) : Eff NodeRecord :=
  fun w =>
    let d := db w in
    let row := {| id := uuids d (issued d); file_id := fileId; node_type := nodeType;
                  content := text; embedding := vec; metadata := Some [] |} in
    (Return row,
     {| db := {| files := files d; nodes := nodes d ++ [row]; edges := edges d;
                 uploads := uploads d; uuids := uuids d; issued := S (issued d) |};
        log := log w ++ [InsertNode text] |}).

(** [from("edges").insert(rows)]. *)
Definition insert_edges (rows : list EdgeRecord) : Eff unit :=
  fun w =>
    let d := db w in
    (Return tt,
     {| db := {| files := files d; nodes := nodes d; edges := edges d ++ rows;
                 uploads := uploads d; uuids := uuids d; issued := issued d |};
        log := log w ++ [InsertEdges rows] |}).

(** [from("files").update({ status }).eq("id", fileId)]. *)
Definition update_file_status (fileId st : jsstring) : Eff unit :=
  fun w =>
    let d := db w in
    (Return tt,
     {| db := {| files := map (fun f => if jsstring_eqb (file_key f) fileId
                                       then {| file_key := file_key f; status := st |}
                                       else f) (files d);
                 nodes := nodes d; edges := edges d;
                 uploads := uploads d; uuids := uuids d; issued := issued d |};
        log := log w ++ [UpdateFileStatus fileId st] |}).

End Supabase.

Import Supabase.

(* ================================================================== *)
(** * hybrid-search (query engine)                                     *)
(* ================================================================== *)

Module HybridSearch.

Module VectorResult.
Record t : Type := {
  nodeId : jsstring;
  nodeType : jsstring;
  content : jsstring;
  vectorScore : R
}.
End VectorResult.

(** [matchingSentence] and [matchingWords], the lexical highlights of a
    graph hit, are read by no later step and are left out of the record. *)
Module GraphResult.
Record t : Type := {
  nodeId : jsstring;
  sourceNode : jsstring;
  graphScore : R;
  distance : Z;
  path : list jsstring;
  pathLabels : list jsstring;
  nodeType : option jsstring;
  content : option jsstring
}.
End GraphResult.

Module CombinedResult.
Record t : Type := {
  nodeId : jsstring;
  nodeType : option jsstring;
  content : option jsstring;
  vectorScore : R;
  graphScore : R;
  connections : Z
}.
End CombinedResult.

(** [CombinedResult & { hybridScore }]. *)
Module HybridResult.
Record t : Type := {
  nodeId : jsstring;
  nodeType : option jsstring;
  content : option jsstring;
  vectorScore : R;
  graphScore : R;
  connections : Z;
  hybridScore : R
}.
End HybridResult.

Record GraphNode : Type := {
  gn_id : jsstring;
  gn_nodeType : jsstring;
  gn_content : jsstring;
  gn_label : jsstring
}.

Record GraphLink : Type := {
  gl_source : jsstring;
  gl_target : jsstring;
  gl_weight : R
}.

(** The request body and the body of the 200 answer. *)
Record Request : Type := {
  query : jsstring;
  fileId : jsstring;
  vectorWeight : R;
  graphWeight : R;
  topK : nat
}.

Record Body : Type := {
  vectorResults : list VectorResult.t;
  graphResults : list GraphResult.t;
  hybridResults : list HybridResult.t;
  graphVisualization : list GraphNode * list GraphLink
}.

Inductive Response : Type :=
| Ok200 (body : Body)
| Error500 (error : jsstring).

(** ** [localEmbedding] *)

Definition dim : nat := 768.

(** The FNV-1a-like fold of the text into a 32-bit seed. *)
Definition seed_of (text : jsstring) : Z :=
  fold_left (fun seed c => to_uint32 (imul (xor32 seed c) 16777619))
            text (to_uint32 2166136261).

(** The scrambled word of dimension [i]. *)
Definition scramble (seed : Z) (i : Z) : Z :=
  let s := to_uint32 (xor32 seed (i + 2654435769)) in      (* 0x9e3779b9 *)
  let s := to_uint32 (xor32 s (shl32 s 13)) in
  let s := to_uint32 (xor32 s (ushr32 s 17)) in
  let s := to_uint32 (xor32 s (shl32 s 5)) in
  s.

(** [((s % 10000) / 10000) * 2 - 1]. *)
Definition component (seed : Z) (i : nat) : R :=
  (IZR (scramble seed (Z.of_nat i) mod 10000) / 10000 * 2 - 1)%R.

Definition raw_vector (text : jsstring) : list R :=
  map (component (seed_of text)) (seq 0 dim).

Definition sum_squares (vec : list R) : R :=
  fold_left (fun norm x => (norm + x * x)%R) vec 0%R.

(** The three lines under [// normalize]. *)
Definition normalize (vec : list R) : list R :=
  let norm := or_else (sqrt (sum_squares vec)) 1%R in
  map (fun x => (x / norm)%R) vec.

Definition localEmbedding (text : jsstring) : list R :=
  normalize (raw_vector text).

(** ** [cosine] *)

(** The loop over the indices of [a]; [b] is read at the same index.
    Every vector that reaches [cosine] has the 768 components of the
    embedder (the column is [vector(768)]); where [b] is the shorter one
    the source reads [undefined] and returns [NaN], here the component
    counts as 0: the model speaks for the code on vectors of one length,
    and the statements about [cosine] are about such vectors.  The numbers
    are real numbers; the rounding of the doubles is not modelled, and a
    statement about a value rather than an order leaves a margin for it. *)
Fixpoint cosine_sums (a b : list R) (acc : R * R * R) : R * R * R :=
  match a with
  | [] => acc
  | x :: a' =>
      let y := hd 0%R b in
      let '(dot, na, nb) := acc in
      cosine_sums a' (tl b) ((dot + x * y)%R, (na + x * x)%R, (nb + y * y)%R)
  end.

Definition cosine (a b : list R) : R :=
  let '(dot, na, nb) := cosine_sums a b (0%R, 0%R, 0%R) in
  (dot / (sqrt na * sqrt nb))%R.

(** ** Labels *)

Definition LABEL_WORD_LIMIT : nat := 3.
Definition LABEL_CHAR_LIMIT : nat := 40.

Definition preferredKeys : list jsstring :=
  [js "label"; js "title"; js "name"; js "keyword"; js "heading"; js "topic"].

(** [metadata[key]]. *)
Definition prop (o : list (jsstring * jsvalue)) (key : jsstring) : option jsvalue :=
  option_map snd (find (fun e => jsstring_eqb (fst e) key) o).

(** The loop over [preferredKeys]. *)
Fixpoint firstPreferred (o : list (jsstring * jsvalue)) (keys : list jsstring) : option jsstring :=
  match keys with
  | [] => None
  | key :: keys' =>
      match prop o key with
      | Some (VString value) =>
          if truthy (trim value) then Some (trim value) else firstPreferred o keys'
      | _ => firstPreferred o keys'
      end
  end.

(** The loop over [metadata.keywords]. *)
Fixpoint firstKeyword (keywords : list (option jsstring)) : option jsstring :=
  match keywords with
  | [] => None
  | Some keyword :: rest =>
      if truthy (trim keyword) then Some (trim keyword) else firstKeyword rest
  | None :: rest => firstKeyword rest
  end.

Definition extractMetadataLabel (metadata : NodeMetadata) : option jsstring :=
  match metadata with
  | None => None
  | Some o =>
      match firstPreferred o preferredKeys with
      | Some label => Some label
      | None =>
          match prop o (js "keywords") with
          | Some (VArray keywords) => firstKeyword keywords
          | _ => None
          end
      end
  end.

(** The label taken from the content ([node.content] is not null in the
    table, so [?? ""] changes nothing). *)
Definition contentLabel (node : NodeRecord) : jsstring :=
  let cleanedContent :=
    trim (replace_cr_lf (replace_space_runs (Supabase.content node))) in
  if truthy cleanedContent then
    let words := filter truthy (split 32 cleanedContent) in
    let snippet := join (js " ") (slice0 LABEL_WORD_LIMIT words) in
    if (LABEL_CHAR_LIMIT <? length snippet)%nat then
      trim (slice0 LABEL_CHAR_LIMIT snippet) ++ js "..."
    else if truthy snippet then snippet else id node
  else id node.

Definition deriveNodeLabel (node : option NodeRecord) : jsstring :=
  match node with
  | None => js "Unknown"
  | Some node =>
      match extractMetadataLabel (metadata node) with
      | Some metadataLabel =>
          if truthy metadataLabel then metadataLabel else contentLabel node
      | None => contentLabel node
      end
  end.

(** ** The handler, step by step *)

(** *** 3. Vector search *)

Definition toVectorResult (queryEmbedding : list R) (node : NodeRecord) : VectorResult.t :=
  {| VectorResult.nodeId := id node;
     VectorResult.nodeType := node_type node;
     VectorResult.content := Supabase.content node;
     VectorResult.vectorScore := cosine queryEmbedding (embedding node) |}.

(** [(a, b) => b.vectorScore - a.vectorScore]. *)
Definition byVectorScore (a b : VectorResult.t) : R :=
  (VectorResult.vectorScore b - VectorResult.vectorScore a)%R.

Definition vectorSearch (queryEmbedding : list R) (typedNodes : list NodeRecord)
    (k : nat) : list VectorResult.t :=
  slice0 k (sort byVectorScore (map (toVectorResult queryEmbedding) typedNodes)).

(** *** 4. Graph search *)

Definition edgeNodeIds (typedEdges : list EdgeRecord) : list jsstring :=
  fold_left (fun ids edge => Set_add (Set_add ids (source_node_id edge)) (target_node_id edge))
            typedEdges [].

Definition toGraphResult (nodeLookup : Map NodeRecord) (edge : EdgeRecord) : GraphResult.t :=
  let path := [source_node_id edge; target_node_id edge] in
  let targetNode := Map_get nodeLookup (target_node_id edge) in
  {| GraphResult.nodeId := target_node_id edge;
     GraphResult.sourceNode := source_node_id edge;
     GraphResult.graphScore := weight edge;
     GraphResult.distance := 1;
     GraphResult.path := path;
     GraphResult.pathLabels := map (fun i => deriveNodeLabel (Map_get nodeLookup i)) path;
     GraphResult.nodeType := option_map node_type targetNode;
     GraphResult.content := option_map Supabase.content targetNode |}.

(** *** 5. Merge vector + graph into hybrid *)

(** [combined.set(v.nodeId, { ...v, graphScore: 0, connections: 0 })]. *)
Definition addVector (combined : Map CombinedResult.t) (v : VectorResult.t) : Map CombinedResult.t :=
  Map_set combined (VectorResult.nodeId v)
    {| CombinedResult.nodeId := VectorResult.nodeId v;
       CombinedResult.nodeType := Some (VectorResult.nodeType v);
       CombinedResult.content := Some (VectorResult.content v);
       CombinedResult.vectorScore := VectorResult.vectorScore v;
       CombinedResult.graphScore := 0%R;
       CombinedResult.connections := 0 |}.

(** One turn of the loop over [graphResults].  [existing] is the object
    held by the map, so assigning to its fields changes the entry in place. *)
Definition mergeGraph (nodeLookup : Map NodeRecord) (combined : Map CombinedResult.t)
    (g : GraphResult.t) : Map CombinedResult.t :=
  match Map_get combined (GraphResult.nodeId g) with
  | Some existing =>
      Map_set combined (GraphResult.nodeId g)
        {| CombinedResult.nodeId := CombinedResult.nodeId existing;
           CombinedResult.nodeType := CombinedResult.nodeType existing;
           CombinedResult.content := CombinedResult.content existing;
           CombinedResult.vectorScore := CombinedResult.vectorScore existing;
           CombinedResult.graphScore :=
             Rmax (CombinedResult.graphScore existing) (GraphResult.graphScore g);
           CombinedResult.connections := CombinedResult.connections existing + 1 |}
  | None =>
      let nodeDetails := Map_get nodeLookup (GraphResult.nodeId g) in
      Map_set combined (GraphResult.nodeId g)
        {| CombinedResult.nodeId := GraphResult.nodeId g;
           CombinedResult.nodeType := option_map node_type nodeDetails;
           CombinedResult.content := option_map Supabase.content nodeDetails;
           CombinedResult.vectorScore := 0%R;
           CombinedResult.graphScore := GraphResult.graphScore g;
           CombinedResult.connections := 1 |}
  end.

Definition mergeResults (nodeLookup : Map NodeRecord) (vectorResults : list VectorResult.t)
    (graphResults : list GraphResult.t) : Map CombinedResult.t :=
  fold_left (mergeGraph nodeLookup) graphResults (fold_left addVector vectorResults []).

Definition toHybridResult (vectorWeight graphWeight : R) (result : CombinedResult.t) : HybridResult.t :=
  {| HybridResult.nodeId := CombinedResult.nodeId result;
     HybridResult.nodeType := CombinedResult.nodeType result;
     HybridResult.content := CombinedResult.content result;
     HybridResult.vectorScore := CombinedResult.vectorScore result;
     HybridResult.graphScore := CombinedResult.graphScore result;
     HybridResult.connections := CombinedResult.connections result;
     HybridResult.hybridScore :=
       (CombinedResult.vectorScore result * vectorWeight
        + CombinedResult.graphScore result * graphWeight)%R |}.

(** [(a, b) => b.hybridScore - a.hybridScore]. *)
Definition byHybridScore (a b : HybridResult.t) : R :=
  (HybridResult.hybridScore b - HybridResult.hybridScore a)%R.

Definition hybridRank (vectorWeight graphWeight : R) (k : nat)
    (combined : Map CombinedResult.t) : list HybridResult.t :=
  slice0 k (sort byHybridScore (map (toHybridResult vectorWeight graphWeight) (Map_values combined))).

(** *** 6. The visualization payload *)

Definition toGraphNode (node : NodeRecord) : GraphNode :=
  {| gn_id := id node; gn_nodeType := node_type node;
     gn_content := Supabase.content node; gn_label := deriveNodeLabel (Some node) |}.

Definition toGraphLink (edge : EdgeRecord) : GraphLink :=
  {| gl_source := source_node_id edge; gl_target := target_node_id edge;
     gl_weight := weight edge |}.

(** *** The body of [try] *)

Definition or_empty {A : Type} (data : option (list A)) : list A :=
  match data with Some rows => rows | None => [] end.

Definition serve (req : Request) : Eff Body :=
  (let queryEmbedding := localEmbedding (query req) in
   nodes <- select_nodes_eq_file_id (fileId req) ;;
   match nodes with
   | None | Some [] => throw (js "No nodes found for this file")
   | Some typedNodes =>
       let nodeLookup := Map_of (map (fun node => (id node, node)) typedNodes) in
       let vectorResults := vectorSearch queryEmbedding typedNodes (topK req) in
       let topNodeIds := map VectorResult.nodeId vectorResults in
       edges <- select_edges_in_source topNodeIds ;;
       let typedEdges := or_empty edges in
       let missingNodeIds :=
         filter (fun i => negb (Map_has nodeLookup i)) (edgeNodeIds typedEdges) in
       nodeLookup <-
         match missingNodeIds with
         | [] => ret nodeLookup
         | _ :: _ =>
             extraNodes <- select_nodes_in_id missingNodeIds ;;
             ret (fold_left (fun m node => Map_set m (id node) node)
                            (or_empty extraNodes) nodeLookup)
         end ;;
       let graphResults := map (toGraphResult nodeLookup) typedEdges in
       let combined := mergeResults nodeLookup vectorResults graphResults in
       let hybridResults :=
         hybridRank (vectorWeight req) (graphWeight req) (topK req) combined in
       ret {| vectorResults := vectorResults;
              graphResults := graphResults;
              hybridResults := hybridResults;
              graphVisualization :=
                (map toGraphNode typedNodes, map toGraphLink typedEdges) |}
   end)%eff.

(** [try { ... } catch (err) { 500, { error: message } }].  A request is
    the parsed body of a [POST]; the [OPTIONS] pre-flight, answered before
    the [try] without reading a body or the store, is left out. *)
Definition handler (req : Request) (w : World) : Response * World :=
  match serve req w with
  | (Return body, w') => (Ok200 body, w')
  | (Throw message, w') => (Error500 message, w')
  end.

End HybridSearch.

(* ================================================================== *)
(** * process-file (ingestion)                                         *)
(* ================================================================== *)

Module ProcessFile.

Record Request : Type := {
  fileId : jsstring;
  fileName : jsstring
}.

Record Body : Type := {
  success : bool;
  nodesCreated : Z;
  edgesCreated : Z
}.

Inductive Response : Type :=
| Ok200 (body : Body)
| Error500 (error : jsstring).

(** ** [localEmbedding] (the copy of this function) *)

Definition dim : nat := 768.

Definition seed_of (text : jsstring) : Z :=
  fold_left (fun seed c => to_uint32 (imul (xor32 seed c) 16777619))
            text (to_uint32 2166136261).

Definition scramble (seed : Z) (i : Z) : Z :=
  let s := to_uint32 (xor32 seed (i + 2654435769)) in
  let s := to_uint32 (xor32 s (shl32 s 13)) in
  let s := to_uint32 (xor32 s (ushr32 s 17)) in
  let s := to_uint32 (xor32 s (shl32 s 5)) in
  s.

Definition component (seed : Z) (i : nat) : R :=
  (IZR (scramble seed (Z.of_nat i) mod 10000) / 10000 * 2 - 1)%R.

Definition raw_vector (text : jsstring) : list R :=
  map (component (seed_of text)) (seq 0 dim).

Definition sum_squares (vec : list R) : R :=
  fold_left (fun norm x => (norm + x * x)%R) vec 0%R.

(** The three lines under [// normalize]. *)
Definition normalize (vec : list R) : list R :=
  let norm := or_else (sqrt (sum_squares vec)) 1%R in
  map (fun x => (x / norm)%R) vec.

Definition localEmbedding (text : jsstring) : list R :=
  normalize (raw_vector text).

(** ** [splitIntoChunks] *)

(** [/(.|\n){1,500}/g]: the class of one repetition step. *)
Definition chunk_class (c : Z) : bool := re_dot c || (c =? 10).

Definition CHUNK : nat := 500.

Definition splitIntoChunks (text : jsstring) : list jsstring :=
  match match_all chunk_class CHUNK text with
  | Some chunks => chunks
  | None => []
  end.

(** ** [cosine] (the copy of this function) *)

Fixpoint cosine_sums (a b : list R) (acc : R * R * R) : R * R * R :=
  match a with
  | [] => acc
  | x :: a' =>
      let y := hd 0%R b in
      let '(dot, na, nb) := acc in
      cosine_sums a' (tl b) ((dot + x * y)%R, (na + x * x)%R, (nb + y * y)%R)
  end.

Definition cosine (a b : list R) : R :=
  let '(dot, na, nb) := cosine_sums a b (0%R, 0%R, 0%R) in
  (dot / (sqrt na * sqrt nb))%R.

(** ** The handler, step by step *)

(** The loop over [chunks]: embed, insert the node, keep both. *)
Fixpoint embedChunks (file : jsstring) (chunks : list jsstring)
    (embeddings : list (list R)) (nodes : list NodeRecord)
    : Eff (list (list R) * list NodeRecord) :=
  match chunks with
  | [] => ret (embeddings, nodes)
  | chunk :: rest =>
      (let embedding := localEmbedding chunk in
       node <- insert_node file (js "text") chunk embedding ;;
       embedChunks file rest (embeddings ++ [embedding]) (nodes ++ [node]))%eff
  end.

(** [{ j, sim }]. *)
Record Score : Type := { j : nat; sim : R }.

(** The inner loop: every [j] but [i], in order. *)
Definition scoresOf (embeddings : list (list R)) (n i : nat) : list Score :=
  flat_map (fun j0 =>
              if Nat.eqb i j0 then []
              else [{| j := j0; sim := cosine (nth i embeddings []) (nth j0 embeddings []) |}])
           (seq 0 n).

(** [(a, b) => b.sim - a.sim]. *)
Definition bySim (a b : Score) : R := (sim b - sim a)%R.

Definition K : nat := 5.

Definition top5 (embeddings : list (list R)) (n i : nat) : list Score :=
  slice0 K (sort bySim (scoresOf embeddings n i)).

(** [nodes[i].id]. *)
Definition idAt (nodes : list NodeRecord) (i : nat) : jsstring :=
  nth i (map id nodes) [].

Definition toEdge (nodes : list NodeRecord) (i : nat) (t : Score) : EdgeRecord :=
  {| source_node_id := idAt nodes i;
     target_node_id := idAt nodes (j t);
     edge_type := js "semantic";
     weight := sim t |}.

(** The outer loop: the edges of node [i], for [i] in order. *)
Definition buildEdges (nodes : list NodeRecord) (embeddings : list (list R)) : list EdgeRecord :=
  flat_map (fun i => map (toEdge nodes i) (top5 embeddings (length nodes) i))
           (seq 0 (length nodes)).

(** *** The body of [try] *)

Definition serve (req : Request) : Eff Body :=
  (file <- storage_download (fileName req) ;;
   match file with
   | None => throw (js "Cannot read properties of null (reading 'text')")
   | Some text =>
       let chunks := splitIntoChunks text in
       result <- embedChunks (fileId req) chunks [] [] ;;
       let embeddings := fst result in
       let nodes := snd result in
       let edges := buildEdges nodes embeddings in
       insert_edges edges ;;;
       update_file_status (fileId req) (js "completed") ;;;
       ret {| success := true;
              nodesCreated := Z.of_nat (length nodes);
              edgesCreated := Z.of_nat (length edges) |}
   end)%eff.

(** [try { ... } catch (err) { 500, { error: err.message } }]; the
    [OPTIONS] pre-flight is left out here as well. *)
Definition handler (req : Request) (w : World) : Response * World :=
  match serve req w with
  | (Return body, w') => (Ok200 body, w')
  | (Throw message, w') => (Error500 message, w')
  end.

End ProcessFile.

(* ================================================================== *)
(** * Properties                                                       *)
(* ================================================================== *)

(** ** The stable sort, for a comparator [b.key - a.key] (descending) *)

Section SortDescending.

Variable A : Type.
Variable key : A -> R.
Variable compare : A -> A -> R.
Hypothesis compare_key : forall a b, compare a b = (key b - key a)%R.

(** [a] may stand before [b]: its key is not smaller. *)
Definition not_below (a b : A) : Prop := (key b <= key a)%R.

Lemma positive_compare (x y : A) :
  positive (compare x y) = true <-> (key x < key y)%R.
Proof.
  unfold positive. rewrite compare_key.
  destruct (Rlt_dec 0 (key y - key x)); split; intros; try lra; discriminate.
Qed.

Lemma positive_compare_false (x y : A) :
  positive (compare x y) = false <-> (key y <= key x)%R.
Proof.
  unfold positive. rewrite compare_key.
  destruct (Rlt_dec 0 (key y - key x)); split; intros; try lra; discriminate.
Qed.

Lemma sort_insert_perm (x : A) (s : list A) :
  Permutation (sort_insert compare x s) (x :: s).
Proof.
  induction s as [|y s IH]; simpl; [reflexivity|].
  destruct (positive (compare x y)); [|reflexivity].
  rewrite IH. apply perm_swap.
Qed.

Lemma sort_perm (xs : list A) : Permutation (sort compare xs) xs.
Proof.
  induction xs as [|x xs IH]; simpl; [reflexivity|].
  rewrite sort_insert_perm. now constructor.
Qed.

Lemma sort_length (xs : list A) : length (sort compare xs) = length xs.
Proof. apply Permutation_length, sort_perm. Qed.

Lemma sort_insert_sorted (x : A) (s : list A) :
  StronglySorted not_below s -> StronglySorted not_below (sort_insert compare x s).
Proof.
  induction 1 as [|y s Hs IH Hy]; simpl.
  - repeat constructor.
  - destruct (positive (compare x y)) eqn:E.
    + constructor; [exact IH|].
      apply (Permutation_Forall (Permutation_sym (sort_insert_perm x s))).
      constructor; [|exact Hy].
      apply positive_compare in E. unfold not_below. lra.
    + apply positive_compare_false in E.
      constructor; [constructor; assumption|].
      constructor; [exact E|].
      eapply Forall_impl; [|exact Hy]. unfold not_below. intros; lra.
Qed.

Lemma sort_sorted (xs : list A) : StronglySorted not_below (sort compare xs).
Proof.
  induction xs as [|x xs IH]; simpl; [constructor|].
  now apply sort_insert_sorted.
Qed.

(** A list already in descending order is left as it is. *)
Lemma sort_insert_head (x : A) (s : list A) :
  Forall (not_below x) s -> sort_insert compare x s = x :: s.
Proof.
  destruct s as [|y s]; simpl; [reflexivity|].
  intros H. inversion H as [|? ? Hy _]; subst.
  apply positive_compare_false in Hy. now rewrite Hy.
Qed.

Lemma sort_sorted_id (xs : list A) :
  StronglySorted not_below xs -> sort compare xs = xs.
Proof.
  induction 1 as [|x xs Hs IH Hx]; simpl; [reflexivity|].
  rewrite IH. now apply sort_insert_head.
Qed.

(** Stability, first form: with [before] any relation that holds from each
    element of the input to all later ones, the output is ordered by key
    and, among equal keys, by [before]. *)
Variable before : A -> A -> Prop.

Definition ranks_before (a b : A) : Prop :=
  (key b < key a)%R \/ (key a = key b /\ before a b).

Lemma sort_insert_ranked (x : A) (s : list A) :
  StronglySorted ranks_before s -> Forall (before x) s ->
  StronglySorted ranks_before (sort_insert compare x s).
Proof.
  induction 1 as [|y s Hs IH Hy]; simpl; intros Hx.
  - repeat constructor.
  - inversion Hx as [|? ? Hxy Hxs]; subst.
    destruct (positive (compare x y)) eqn:E.
    + constructor; [now apply IH|].
      apply (Permutation_Forall (Permutation_sym (sort_insert_perm x s))).
      constructor; [|exact Hy].
      apply positive_compare in E. left. exact E.
    + apply positive_compare_false in E.
      constructor; [constructor; assumption|].
      assert (Hhead : ranks_before x y).
      { destruct (Rle_lt_or_eq_dec _ _ E) as [Hlt|Heq]; [left; exact Hlt|].
        right. split; [symmetry; exact Heq | exact Hxy]. }
      constructor; [exact Hhead|].
      rewrite Forall_forall in Hy, Hxs |- *. intros z Hz.
      specialize (Hy z Hz). specialize (Hxs z Hz).
      destruct Hy as [Hlt|[Heq _]].
      * left. lra.
      * destruct (Rle_lt_or_eq_dec _ _ E) as [Hlt'|Heq'].
        -- left. lra.
        -- right. split; [lra | exact Hxs].
Qed.

Lemma sort_ranked (xs : list A) :
  StronglySorted before xs -> StronglySorted ranks_before (sort compare xs).
Proof.
  induction 1 as [|x xs Hs IH Hx]; simpl; [constructor|].
  apply sort_insert_ranked; [exact IH|].
  apply (Permutation_Forall (Permutation_sym (sort_perm xs))). exact Hx.
Qed.

End SortDescending.

(** Stability, second form: the elements with a given key come out in the
    order they went in. *)
Section SortStable.

Variable A : Type.
Variable key : A -> R.
Variable compare : A -> A -> R.
Hypothesis compare_key : forall a b, compare a b = (key b - key a)%R.

Definition has_key (v : R) (a : A) : bool :=
  if Req_dec_T (key a) v then true else false.

Lemma filter_sort_insert (v : R) (x : A) (s : list A) :
  filter (has_key v) (sort_insert compare x s) = filter (has_key v) (x :: s).
Proof.
  induction s as [|y s IH]; [reflexivity|].
  simpl sort_insert.
  destruct (positive (compare x y)) eqn:E; [|reflexivity].
  apply (positive_compare A key compare compare_key) in E.
  simpl. rewrite IH. simpl.
  unfold has_key.
  destruct (Req_dec_T (key x) v), (Req_dec_T (key y) v); try reflexivity.
  exfalso; lra.
Qed.

Lemma filter_sort (v : R) (xs : list A) :
  filter (has_key v) (sort compare xs) = filter (has_key v) xs.
Proof.
  induction xs as [|x xs IH]; [reflexivity|].
  simpl sort. rewrite filter_sort_insert. simpl. now rewrite IH.
Qed.

End SortStable.

(** ** Chunking *)

(** Every chunk but the last has exactly [n] code units. *)
Fixpoint full_but_last (n : nat) (chunks : list jsstring) : Prop :=
  match chunks with
  | [] => True
  | c :: rest =>
      match rest with
      | [] => True
      | _ :: _ => length c = n /\ full_but_last n rest
      end
  end.

Lemma re_greedy_all (p : Z -> bool) (n : nat) (text : jsstring) :
  forallb p text = true -> re_greedy p n text = (firstn n text, skipn n text).
Proof.
  revert text. induction n as [|n IH]; intros [|c rest] H; try reflexivity.
  simpl in H. apply andb_prop in H as [Hc Hrest].
  simpl. rewrite Hc, (IH _ Hrest). reflexivity.
Qed.

Lemma forallb_skipn {A : Type} (p : A -> bool) (n : nat) (l : list A) :
  forallb p l = true -> forallb p (skipn n l) = true.
Proof.
  revert l. induction n as [|n IH]; intros [|x l] H; simpl; auto.
  simpl in H. apply andb_prop in H as [_ H]. now apply IH.
Qed.

Lemma re_scan_nil (p : Z -> bool) (n fuel : nat) : re_scan p n fuel [] = [].
Proof. destruct fuel; reflexivity. Qed.

Lemma re_scan_clean (p : Z -> bool) (n fuel : nat) (text : jsstring) :
  forallb p text = true -> (length text <= fuel)%nat ->
  List.concat (re_scan p (S n) fuel text) = text
  /\ Forall (fun c => (1 <= length c <= S n)%nat) (re_scan p (S n) fuel text)
  /\ full_but_last (S n) (re_scan p (S n) fuel text).
Proof.
  revert text. induction fuel as [|fuel IH]; intros text Hp Hlen.
  - destruct text; [simpl; auto | simpl in Hlen; lia].
  - destruct text as [|c rest]; [simpl; auto|].
    cbn [re_scan]. rewrite (re_greedy_all _ _ _ Hp).
    simpl in Hp. apply andb_prop in Hp as [Hc Hrest].
    cbn [firstn skipn].
    assert (Hskip : (length (skipn n rest) <= fuel)%nat).
    { rewrite length_skipn. simpl in Hlen. lia. }
    destruct (IH (skipn n rest) (forallb_skipn _ n _ Hrest) Hskip) as (Hcat & Hall & Hfull).
    split; [|split].
    + cbn [List.concat app]. rewrite Hcat, firstn_skipn. reflexivity.
    + constructor; [|exact Hall].
      cbn [length]. rewrite length_firstn. lia.
    + cbn [full_but_last].
      destruct (re_scan p (S n) fuel (skipn n rest)) as [|c' cs] eqn:E; [exact I|].
      split; [|exact Hfull].
      cbn [length]. rewrite length_firstn.
      destruct (Nat.le_gt_cases (length rest) n) as [Hle|Hgt]; [|lia].
      rewrite (skipn_all2 _ Hle), re_scan_nil in E. discriminate.
Qed.

(** On a text without CR, LS and PS the chunks are the text cut every 500
    code units: they concatenate to the text, none is empty or longer than
    500, and only the last may be shorter. *)
Lemma splitIntoChunks_clean (text : jsstring) :
  forallb ProcessFile.chunk_class text = true ->
  List.concat (ProcessFile.splitIntoChunks text) = text
  /\ Forall (fun c => (1 <= length c <= 500)%nat) (ProcessFile.splitIntoChunks text)
  /\ full_but_last 500 (ProcessFile.splitIntoChunks text).
Proof.
  intros Hp.
  assert (H := @re_scan_clean ProcessFile.chunk_class 499 (length text) text Hp (le_n _)).
  unfold ProcessFile.splitIntoChunks, match_all.
  change ProcessFile.CHUNK with (S 499).
  destruct (re_scan ProcessFile.chunk_class (S 499) (length text) text); exact H.
Qed.

(** C4 (the code at the failing input).  On the text [a CR LF b] the
    pattern [(.|\n)] does not match the carriage return: the chunks are
    [a] and [LF b], the carriage return is lost, so the chunks do not
    concatenate to the text, and the first chunk is short although it is
    not the last. *)
Theorem splitIntoChunks_loses_carriage_return :
  let text := [97; 13; 10; 98] in
  ProcessFile.splitIntoChunks text = [[97]; [10; 98]]
  /\ List.concat (ProcessFile.splitIntoChunks text) <> text
  /\ ~ full_but_last 500 (ProcessFile.splitIntoChunks text).
Proof.
  cbv zeta. split; [vm_compute; reflexivity|]. split.
  - vm_compute. discriminate.
  - vm_compute. intros [H _]. discriminate.
Qed.

(** ** The two embedders *)

Lemma scramble_same (seed i : Z) :
  HybridSearch.scramble seed i = ProcessFile.scramble seed i.
Proof. unfold HybridSearch.scramble, ProcessFile.scramble. reflexivity. Qed.

Lemma raw_vector_same (text : jsstring) :
  HybridSearch.raw_vector text = ProcessFile.raw_vector text.
Proof.
  unfold HybridSearch.raw_vector, ProcessFile.raw_vector.
  change ProcessFile.dim with HybridSearch.dim.
  change (ProcessFile.seed_of text) with (HybridSearch.seed_of text).
  apply map_ext. intros i.
  unfold HybridSearch.component, ProcessFile.component.
  now rewrite scramble_same.
Qed.

Lemma sum_squares_same (vec : list R) :
  HybridSearch.sum_squares vec = ProcessFile.sum_squares vec.
Proof. unfold HybridSearch.sum_squares, ProcessFile.sum_squares. reflexivity. Qed.

Lemma normalize_same (vec : list R) :
  HybridSearch.normalize vec = ProcessFile.normalize vec.
Proof.
  unfold HybridSearch.normalize, ProcessFile.normalize.
  now rewrite sum_squares_same.
Qed.

Lemma embedders_agree (text : jsstring) :
  HybridSearch.localEmbedding text = ProcessFile.localEmbedding text.
Proof.
  unfold HybridSearch.localEmbedding, ProcessFile.localEmbedding.
  now rewrite raw_vector_same, normalize_same.
Qed.

(** C5.  The embedder of the query engine and the embedder of the
    ingestion pipeline are the same function: on every text they return
    the same vector. *)
Theorem localEmbedding_same (text : jsstring) :
  HybridSearch.localEmbedding text = ProcessFile.localEmbedding text.
Proof.
  unfold HybridSearch.localEmbedding, ProcessFile.localEmbedding.
  rewrite raw_vector_same. apply normalize_same.
Qed.

(** ** Requests that stop early *)

(** C3.  When the store has no node of the requested file, the handler
    answers with the error ["No nodes found for this file"] and nothing
    else: the answer is the error alone (no result list), the store is
    left as it was, and the only request sent to it is the selection of the
    file's nodes; the edge selection of the graph expansion, and with it
    the ranking, fusion and visualization that follow it, never run. *)
Theorem empty_scope_fails (req : HybridSearch.Request) (w : World) :
  filter (fun n => jsstring_eqb (file_id n) (HybridSearch.fileId req)) (nodes (db w)) = [] ->
  HybridSearch.handler req w =
    (HybridSearch.Error500 (js "No nodes found for this file"),
     {| db := db w;
        log := log w ++ [SelectNodesByFile (HybridSearch.fileId req)] |}).
Proof.
  intros Hempty.
  unfold HybridSearch.handler, HybridSearch.serve, bind, select_nodes_eq_file_id.
  rewrite Hempty. reflexivity.
Qed.

Definition empty_database : Database :=
  {| files := []; nodes := []; edges := []; uploads := [];
     uuids := fun _ => []; issued := 0 |}.

Lemma empty_scope_fails_witness :
  let req := {| HybridSearch.query := js "graph"; HybridSearch.fileId := js "f1";
                HybridSearch.vectorWeight := 1%R; HybridSearch.graphWeight := 0%R;
                HybridSearch.topK := 10 |} in
  let w := {| db := empty_database; log := [] |} in
  filter (fun n => jsstring_eqb (file_id n) (HybridSearch.fileId req)) (nodes (db w)) = []
  /\ HybridSearch.handler req w =
       (HybridSearch.Error500 (js "No nodes found for this file"),
        {| db := db w; log := log w ++ [SelectNodesByFile (HybridSearch.fileId req)] |}).
Proof.
  cbv zeta. split; [reflexivity|].
  apply (@empty_scope_fails _ {| db := empty_database; log := [] |}). reflexivity.
Defined.

(** C10.  When the downloaded text is empty, ingestion creates no node
    and no edge, sets the status of the file to ["completed"], and answers
    [{success: true, nodesCreated: 0, edgesCreated: 0}], not an error. *)
Theorem empty_text_completes (req : ProcessFile.Request) (w : World) :
  option_map snd (find (fun o => jsstring_eqb (fst o) (ProcessFile.fileName req))
                       (uploads (db w))) = Some [] ->
  let answer := fst (ProcessFile.handler req w) in
  let after := db (snd (ProcessFile.handler req w)) in
  answer = ProcessFile.Ok200 {| ProcessFile.success := true;
                                ProcessFile.nodesCreated := 0;
                                ProcessFile.edgesCreated := 0 |}
  /\ nodes after = nodes (db w)
  /\ edges after = edges (db w)
  /\ map file_key (files after) = map file_key (files (db w))
  /\ Forall (fun f => file_key f = ProcessFile.fileId req -> status f = js "completed")
            (files after).
Proof.
  intros Hdl. cbv zeta.
  unfold ProcessFile.handler, ProcessFile.serve, bind, storage_download.
  rewrite Hdl.
  change (ProcessFile.splitIntoChunks []) with (@nil jsstring).
  cbn [ProcessFile.embedChunks ret fst snd ProcessFile.buildEdges length seq flat_map
       insert_edges update_file_status db logged files nodes edges Z.of_nat].
  repeat split.
  - apply app_nil_r.
  - rewrite map_map. apply map_ext. intros f.
    destruct (jsstring_eqb (file_key f) (ProcessFile.fileId req)); reflexivity.
  - rewrite Forall_map. apply Forall_forall. intros f _.
    unfold jsstring_eqb.
    destruct (jsstring_eq_dec (file_key f) (ProcessFile.fileId req)); cbn; intros; [reflexivity|].
    contradiction.
Qed.

Lemma empty_text_completes_witness :
  let req := {| ProcessFile.fileId := js "f1"; ProcessFile.fileName := js "empty.txt" |} in
  let w := {| db := {| files := [ {| file_key := js "f1"; status := js "processing" |} ];
                       nodes := []; edges := [];
                       uploads := [ (js "empty.txt", []) ];
                       uuids := fun _ => []; issued := 0 |};
              log := [] |} in
  option_map snd (find (fun o => jsstring_eqb (fst o) (ProcessFile.fileName req))
                       (uploads (db w))) = Some []
  /\ fst (ProcessFile.handler req w)
     = ProcessFile.Ok200 {| ProcessFile.success := true;
                            ProcessFile.nodesCreated := 0;
                            ProcessFile.edgesCreated := 0 |}.
Proof.
  cbv zeta. split; [reflexivity|].
  refine (proj1 (@empty_text_completes
                   {| ProcessFile.fileId := js "f1"; ProcessFile.fileName := js "empty.txt" |}
                   {| db := {| files := [ {| file_key := js "f1"; status := js "processing" |} ];
                               nodes := []; edges := [];
                               uploads := [ (js "empty.txt", []) ];
                               uuids := fun _ => []; issued := 0 |};
                      log := [] |} _)).
  reflexivity.
Defined.

(** ** The embedder: dimension and norm *)

(** *** Bits of the 32-bit operations *)

Lemma to_int32_mod (z : Z) : to_int32 z mod 2 ^ 32 = z mod 2 ^ 32.
Proof.
  unfold to_int32. rewrite Zminus_mod_idemp_l. f_equal. lia.
Qed.

Lemma testbit_to_uint32 (z k : Z) :
  0 <= k < 32 -> Z.testbit (to_uint32 z) k = Z.testbit z k.
Proof. intros Hk. unfold to_uint32. apply Z.mod_pow2_bits_low. lia. Qed.

Lemma testbit_to_int32 (z k : Z) :
  0 <= k < 32 -> Z.testbit (to_int32 z) k = Z.testbit z k.
Proof.
  intros Hk.
  rewrite <- (Z.mod_pow2_bits_low (to_int32 z) 32 k) by lia.
  rewrite to_int32_mod. apply Z.mod_pow2_bits_low. lia.
Qed.

Lemma testbit_xor32 (a b k : Z) :
  0 <= k < 32 ->
  Z.testbit (xor32 a b) k = xorb (Z.testbit a k) (Z.testbit b k).
Proof.
  intros Hk. unfold xor32.
  now rewrite testbit_to_int32, Z.lxor_spec, !testbit_to_int32.
Qed.

Lemma testbit_shl32 (a n k : Z) :
  0 <= k < 32 -> 0 <= n -> Z.testbit (shl32 a n) k =
  if k <? n then false else Z.testbit a (k - n).
Proof.
  intros Hk Hn. unfold shl32.
  rewrite testbit_to_int32, Z.shiftl_spec by lia.
  destruct (k <? n) eqn:E.
  - apply Z.ltb_lt in E. apply Z.testbit_neg_r. lia.
  - apply Z.ltb_ge in E. apply testbit_to_int32. lia.
Qed.

Lemma testbit_ushr32 (a n k : Z) :
  0 <= k -> 0 <= n -> k + n < 32 ->
  Z.testbit (ushr32 a n) k = Z.testbit a (k + n).
Proof.
  intros Hk Hn Hkn. unfold ushr32.
  rewrite Z.shiftr_spec by lia. apply testbit_to_uint32. lia.
Qed.

(** The lowest bit of the scrambled word is the sum of bits 0, 4 and 17
    of [seed ^ (i + 0x9e3779b9)]. *)
Lemma scramble_odd (seed i : Z) :
  let x := Z.lxor seed (i + 2654435769) in
  Z.odd (ProcessFile.scramble seed i)
  = xorb (Z.testbit x 0) (xorb (Z.testbit x 17) (Z.testbit x 4)).
Proof.
  cbv zeta. unfold ProcessFile.scramble.
  rewrite <- Z.bit0_odd.
  rewrite testbit_to_uint32, testbit_xor32, testbit_shl32 by lia.
  cbn [Z.ltb Z.compare].
  rewrite xorb_false_r.
  rewrite testbit_to_uint32, testbit_xor32, testbit_ushr32 by lia.
  cbn [Z.add Pos.add].
  rewrite (testbit_to_uint32 _ 0), (testbit_to_uint32 _ 17) by lia.
  rewrite !testbit_xor32, !testbit_shl32 by lia.
  cbn [Z.ltb Z.compare Pos.compare Pos.compare_cont Z.sub Z.add Z.opp Z.pos_sub
       Pos.succ Z.succ_double Z.pred_double Z.double Pos.pred_double].
  rewrite xorb_false_r.
  rewrite !testbit_to_uint32, !testbit_xor32 by lia.
  rewrite !Z.lxor_spec.
  reflexivity.
Qed.

(** Dimensions 0 and 1 get words of different parity, whatever the seed. *)
Lemma scramble_parity (seed : Z) :
  Z.odd (ProcessFile.scramble seed 0) = negb (Z.odd (ProcessFile.scramble seed 1)).
Proof.
  rewrite !scramble_odd. cbv zeta.
  rewrite !Z.lxor_spec.
  change (Z.testbit (0 + 2654435769) 0) with true.
  change (Z.testbit (1 + 2654435769) 0) with false.
  change (Z.testbit (0 + 2654435769) 4) with true.
  change (Z.testbit (1 + 2654435769) 4) with true.
  change (Z.testbit (0 + 2654435769) 17) with true.
  change (Z.testbit (1 + 2654435769) 17) with true.
  destruct (Z.testbit seed 0), (Z.testbit seed 4), (Z.testbit seed 17); reflexivity.
Qed.

Local Open Scope R_scope.

(** An odd word maps to a component that is not zero. *)
Lemma component_odd (seed : Z) (i : nat) :
  Z.odd (ProcessFile.scramble seed (Z.of_nat i)) = true ->
  ProcessFile.component seed i <> 0.
Proof.
  unfold ProcessFile.component.
  generalize (ProcessFile.scramble seed (Z.of_nat i)). intros s Hodd Hzero.
  assert (Hm : IZR (s mod 10000) = 5000) by lra.
  apply eq_IZR in Hm.
  rewrite (Z.div_mod s 10000), Hm in Hodd by lia.
  replace (10000 * (s / 10000) + 5000)%Z
    with (2 * (5000 * (s / 10000) + 2500))%Z in Hodd by lia.
  rewrite Z.odd_even in Hodd. discriminate.
Qed.

(** *** Sums of squares *)

Lemma fold_squares_acc (vec : list R) (a : R) :
  fold_left (fun norm x => norm + x * x) vec a = a + ProcessFile.sum_squares vec.
Proof.
  unfold ProcessFile.sum_squares. revert a.
  induction vec as [|x vec IH]; intros a; simpl.
  - lra.
  - rewrite (IH (a + x * x)), (IH (0 + x * x)). lra.
Qed.

Lemma sum_squares_cons (x : R) (vec : list R) :
  ProcessFile.sum_squares (x :: vec) = x * x + ProcessFile.sum_squares vec.
Proof.
  unfold ProcessFile.sum_squares at 1. simpl. rewrite fold_squares_acc. lra.
Qed.

Lemma sum_squares_nonneg (vec : list R) : 0 <= ProcessFile.sum_squares vec.
Proof.
  induction vec as [|x vec IH].
  - unfold ProcessFile.sum_squares. simpl. lra.
  - rewrite sum_squares_cons. pose proof (Rle_0_sqr x) as Hx. unfold Rsqr in Hx. lra.
Qed.

Lemma sum_squares_zero (vec : list R) :
  ProcessFile.sum_squares vec = 0 -> Forall (fun x => x = 0) vec.
Proof.
  induction vec as [|x vec IH]; intros H; [constructor|].
  rewrite sum_squares_cons in H.
  pose proof (sum_squares_nonneg vec) as Hv.
  pose proof (Rle_0_sqr x) as Hx. unfold Rsqr in Hx.
  constructor.
  - apply Rsqr_0_uniq. unfold Rsqr. lra.
  - apply IH. lra.
Qed.

Lemma sum_squares_scaled (vec : list R) (c : R) :
  c <> 0 ->
  ProcessFile.sum_squares (map (fun x => x / c) vec) = ProcessFile.sum_squares vec / (c * c).
Proof.
  intros Hc. induction vec as [|x vec IH].
  - unfold ProcessFile.sum_squares. simpl. field. exact Hc.
  - simpl map. rewrite !sum_squares_cons, IH. field. exact Hc.
Qed.

Lemma sum_squares_positive (vec : list R) (x : R) :
  In x vec -> x <> 0 -> 0 < ProcessFile.sum_squares vec.
Proof.
  induction vec as [|y vec IH]; intros Hin Hx; [contradiction|].
  rewrite sum_squares_cons.
  pose proof (sum_squares_nonneg vec) as Hv.
  pose proof (Rle_0_sqr y) as Hy. unfold Rsqr in Hy.
  destruct Hin as [->|Hin].
  - assert (0 < x * x) by (apply Rsqr_pos_lt; exact Hx). lra.
  - specialize (IH Hin Hx). lra.
Qed.

(** The raw vector of a text always has a component that is not zero. *)
Lemma raw_vector_positive (text : jsstring) :
  0 < ProcessFile.sum_squares (ProcessFile.raw_vector text).
Proof.
  unfold ProcessFile.raw_vector.
  set (seed := ProcessFile.seed_of text).
  assert (Hin : forall i, (i < 2)%nat ->
            In (ProcessFile.component seed i)
               (map (ProcessFile.component seed) (seq 0 ProcessFile.dim))).
  { intros i Hi. apply in_map, in_seq. unfold ProcessFile.dim. lia. }
  pose proof (scramble_parity seed) as Hpar.
  destruct (Z.odd (ProcessFile.scramble seed 1)) eqn:E1.
  - apply (sum_squares_positive _ _ (Hin 1%nat ltac:(lia))).
    apply component_odd. exact E1.
  - apply (sum_squares_positive _ _ (Hin 0%nat ltac:(lia))).
    apply component_odd. exact Hpar.
Qed.

Lemma or_else_nonzero (x d : R) : x <> 0 -> or_else x d = x.
Proof. intros H. unfold or_else. destruct (Req_dec_T x 0); [contradiction|reflexivity]. Qed.

Lemma or_else_zero (d : R) : or_else 0 d = d.
Proof. unfold or_else. destruct (Req_dec_T 0 0); [reflexivity|contradiction]. Qed.

(** A vector that is not all zero is normalized to norm 1. *)
Lemma normalize_unit (vec : list R) :
  0 < ProcessFile.sum_squares vec ->
  ProcessFile.sum_squares (ProcessFile.normalize vec) = 1.
Proof.
  intros Hpos. unfold ProcessFile.normalize.
  pose proof (sqrt_lt_R0 _ Hpos) as Hsqrt.
  rewrite or_else_nonzero by lra.
  rewrite sum_squares_scaled by lra.
  rewrite sqrt_sqrt by lra. field. lra.
Qed.

(** The zero-norm branch: the divisor is 1 and the vector is unchanged. *)
Lemma normalize_zero (vec : list R) :
  ProcessFile.sum_squares vec = 0 ->
  or_else (sqrt (ProcessFile.sum_squares vec)) 1 = 1
  /\ ProcessFile.normalize vec = vec
  /\ Forall (fun x => x = 0) vec.
Proof.
  intros Hz. unfold ProcessFile.normalize.
  rewrite Hz, sqrt_0, or_else_zero.
  split; [reflexivity|]. split; [|now apply sum_squares_zero].
  rewrite <- (map_id vec) at 2. apply map_ext. intros x. field.
Qed.

Lemma embedding_sum_squares (text : jsstring) :
  ProcessFile.sum_squares (ProcessFile.localEmbedding text) = 1.
Proof.
  unfold ProcessFile.localEmbedding. apply normalize_unit, raw_vector_positive.
Qed.

(** C6.  For every text (empty or not) the embedding has 768 components
    and its L2 norm, computed in exact arithmetic, is 1, hence within
    [1e-6] of 1.  The zero-norm branch of the normalization divides by 1
    and leaves the all-zero vector as it is. *)
Theorem localEmbedding_unit_norm (text : jsstring) :
  length (ProcessFile.localEmbedding text) = 768%nat
  /\ sqrt (ProcessFile.sum_squares (ProcessFile.localEmbedding text)) = 1
  /\ Rabs (sqrt (ProcessFile.sum_squares (ProcessFile.localEmbedding text)) - 1) <= 1 / 1000000
  /\ (forall vec : list R,
        ProcessFile.sum_squares vec = 0 ->
        or_else (sqrt (ProcessFile.sum_squares vec)) 1 = 1
        /\ ProcessFile.normalize vec = vec
        /\ Forall (fun x => x = 0) vec).
Proof.
  assert (Hnorm : sqrt (ProcessFile.sum_squares (ProcessFile.localEmbedding text)) = 1).
  { rewrite embedding_sum_squares. apply sqrt_1. }
  split; [|split; [exact Hnorm|split]].
  - unfold ProcessFile.localEmbedding, ProcessFile.normalize, ProcessFile.raw_vector.
    rewrite !length_map, length_seq. reflexivity.
  - rewrite Hnorm. replace (1 - 1) with 0 by lra. rewrite Rabs_R0. lra.
  - exact normalize_zero.
Qed.

(** The zero-norm branch at the vector of three zeros. *)
Lemma localEmbedding_unit_norm_witness :
  ProcessFile.sum_squares [0; 0; 0] = 0
  /\ ProcessFile.normalize [0; 0; 0] = [0; 0; 0].
Proof.
  assert (H : ProcessFile.sum_squares [0; 0; 0] = 0)
    by (unfold ProcessFile.sum_squares; cbn [fold_left]; ring).
  split; [exact H|].
  exact (proj1 (proj2 (proj2 (proj2 (proj2 (localEmbedding_unit_norm []))) _ H))).
Defined.

Local Close Scope R_scope.

(** ** The query engine: what a request that finds nodes returns *)

Lemma firstn_sorted {A : Type} (R : A -> A -> Prop) (k : nat) (l : list A) :
  StronglySorted R l -> StronglySorted R (firstn k l).
Proof.
  intros H. revert k. induction H as [|x l Hl IH Hx]; intros [|k]; simpl; try constructor.
  - apply IH.
  - rewrite Forall_forall in *. intros y Hy. apply Hx.
    rewrite <- (firstn_skipn k l). apply in_or_app. now left.
Qed.

Lemma filter_firstn_prefix {A : Type} (p : A -> bool) (k : nat) (l : list A) :
  exists m, filter p (firstn k l) = firstn m (filter p l).
Proof.
  revert k. induction l as [|x l IH]; intros [|k]; simpl.
  - now exists 0%nat.
  - now exists 0%nat.
  - now exists 0%nat.
  - destruct (IH k) as [m Hm]. destruct (p x).
    + exists (S m). simpl. now rewrite Hm.
    + now exists m.
Qed.

(** The nodes the store returns for a file. *)
Definition scope (w : World) (file : jsstring) : list NodeRecord :=
  filter (fun n => jsstring_eqb (file_id n) file) (nodes (db w)).

(** The edges the store returns for a list of source ids. *)
Definition outgoing (w : World) (ids : list jsstring) : list EdgeRecord :=
  filter (fun e => Set_has ids (source_node_id e)) (edges (db w)).

(** A request on a file that has nodes is answered with status 200; its
    lists are the results of the steps, computed from the file's nodes and
    from the edges that leave the vector results. *)
Lemma handler_runs (req : HybridSearch.Request) (w : World) :
  scope w (HybridSearch.fileId req) <> [] ->
  exists (nodeLookup : Map NodeRecord) (w' : World),
    let typedNodes := scope w (HybridSearch.fileId req) in
    let vr := HybridSearch.vectorSearch (HybridSearch.localEmbedding (HybridSearch.query req))
                typedNodes (HybridSearch.topK req) in
    let typedEdges := outgoing w (map HybridSearch.VectorResult.nodeId vr) in
    let gr := map (HybridSearch.toGraphResult nodeLookup) typedEdges in
    HybridSearch.handler req w =
      (HybridSearch.Ok200
         {| HybridSearch.vectorResults := vr;
            HybridSearch.graphResults := gr;
            HybridSearch.hybridResults :=
              HybridSearch.hybridRank (HybridSearch.vectorWeight req)
                (HybridSearch.graphWeight req) (HybridSearch.topK req)
                (HybridSearch.mergeResults nodeLookup vr gr);
            HybridSearch.graphVisualization :=
              (map HybridSearch.toGraphNode typedNodes,
               map HybridSearch.toGraphLink typedEdges) |}, w').
Proof.
  intros Hne. unfold scope, outgoing in *.
  unfold HybridSearch.handler, HybridSearch.serve, bind,
    select_nodes_eq_file_id, select_edges_in_source.
  destruct (filter (fun n => jsstring_eqb (file_id n) (HybridSearch.fileId req))
                   (nodes (db w))) as [|n0 ns] eqn:Hscope; [contradiction|].
  cbn [db logged HybridSearch.or_empty].
  match goal with
  | |- context [match ?m with [] => _ | _ :: _ => _ end] => destruct m eqn:Hmissing
  end.
  - unfold ret. eexists _, _. reflexivity.
  - unfold select_nodes_in_id, ret. cbn [db logged HybridSearch.or_empty].
    eexists _, _. reflexivity.
Qed.

(** C7.  A request on a file that has nodes is answered, and its
    [vectorResults] are in non-increasing order of [vectorScore]; for
    every score, the results with that score are, in order, the first
    nodes with that score in the order the store returned them (equal
    scores keep the original node order); and there are at most [topK]
    of them. *)
Theorem vectorResults_ranked (req : HybridSearch.Request) (w : World) :
  scope w (HybridSearch.fileId req) <> [] ->
  exists (body : HybridSearch.Body) (w' : World),
    HybridSearch.handler req w = (HybridSearch.Ok200 body, w')
    /\ StronglySorted
         (fun a b => (HybridSearch.VectorResult.vectorScore b
                      <= HybridSearch.VectorResult.vectorScore a)%R)
         (HybridSearch.vectorResults body)
    /\ (forall v : R, exists m : nat,
          filter (has_key _ HybridSearch.VectorResult.vectorScore v)
                 (HybridSearch.vectorResults body)
          = firstn m
              (filter (has_key _ HybridSearch.VectorResult.vectorScore v)
                 (map (HybridSearch.toVectorResult
                         (HybridSearch.localEmbedding (HybridSearch.query req)))
                      (scope w (HybridSearch.fileId req)))))
    /\ (length (HybridSearch.vectorResults body) <= HybridSearch.topK req)%nat.
Proof.
  intros Hne. destruct (handler_runs req w Hne) as (nodeLookup & w' & Hrun).
  cbv zeta in Hrun. eexists _, w'. split; [exact Hrun|].
  cbn [HybridSearch.vectorResults]. unfold HybridSearch.vectorSearch, slice0.
  split; [|split].
  - apply firstn_sorted.
    apply (sort_sorted _ HybridSearch.VectorResult.vectorScore). reflexivity.
  - intros v.
    destruct (filter_firstn_prefix
                (has_key _ HybridSearch.VectorResult.vectorScore v)
                (HybridSearch.topK req)
                (sort HybridSearch.byVectorScore
                   (map (HybridSearch.toVectorResult
                           (HybridSearch.localEmbedding (HybridSearch.query req)))
                        (scope w (HybridSearch.fileId req))))) as [m Hm].
    exists m. rewrite Hm.
    rewrite (filter_sort _ HybridSearch.VectorResult.vectorScore); reflexivity.
  - apply firstn_le_length.
Qed.

(** A node as ingestion stores it. *)
Definition ingested (i file text : jsstring) : NodeRecord :=
  {| id := i; file_id := file; node_type := js "text"; content := text;
     embedding := ProcessFile.localEmbedding text; metadata := Some [] |}.

Definition semantic (source target : jsstring) (w : R) : EdgeRecord :=
  {| source_node_id := source; target_node_id := target;
     edge_type := js "semantic"; weight := w |}.

(** A store with the file [f1], its nodes and their edges. *)
Definition store (ns : list NodeRecord) (es : list EdgeRecord) : World :=
  {| db := {| files := [ {| file_key := js "f1"; status := js "completed" |} ];
              nodes := ns; edges := es;
              uploads := []; uuids := fun _ => []; issued := length ns |};
     log := [] |}.

(** Two nodes, [n1] and [n2], and the edge [n1 -> n2]. *)
Definition two_nodes : World :=
  store [ ingested (js "n1") (js "f1") (js "alpha");
          ingested (js "n2") (js "f1") (js "beta") ]
        [ semantic (js "n1") (js "n2") (1 / 2)%R ].

Definition ask (q : jsstring) (wv wg : R) (k : nat) : HybridSearch.Request :=
  {| HybridSearch.query := q; HybridSearch.fileId := js "f1";
     HybridSearch.vectorWeight := wv; HybridSearch.graphWeight := wg;
     HybridSearch.topK := k |}.

Lemma two_nodes_scope (q : jsstring) (wv wg : R) (k : nat) :
  scope two_nodes (HybridSearch.fileId (ask q wv wg k)) <> [].
Proof. unfold scope. simpl. discriminate. Qed.

Lemma vectorResults_ranked_witness :
  scope two_nodes (HybridSearch.fileId (ask (js "alpha") 1 0 10)) <> []
  /\ exists (body : HybridSearch.Body) (w' : World),
       HybridSearch.handler (ask (js "alpha") 1 0 10) two_nodes = (HybridSearch.Ok200 body, w')
       /\ (length (HybridSearch.vectorResults body) <= 10)%nat.
Proof.
  split; [apply two_nodes_scope|].
  destruct (vectorResults_ranked (ask (js "alpha") 1 0 10) two_nodes
              (two_nodes_scope _ _ _ _)) as (body & w' & Hrun & _ & _ & Hlen).
  exists body, w'. split; [exact Hrun | exact Hlen].
Defined.

(** ** The graph builder *)

Lemma sorted_firstn_skipn {A : Type} (R : A -> A -> Prop) (k : nat) (l : list A) :
  StronglySorted R l ->
  forall x y, In x (firstn k l) -> In y (skipn k l) -> R x y.
Proof.
  intros H. revert k. induction H as [|a l Hl IH Ha]; intros k x y Hx Hy.
  - rewrite firstn_nil in Hx. contradiction.
  - destruct k as [|k]; [contradiction|]. simpl in Hx, Hy.
    destruct Hx as [<-|Hx].
    + rewrite Forall_forall in Ha. apply Ha.
      rewrite <- (firstn_skipn k l). apply in_or_app. now right.
    + now apply (IH k).
Qed.

Lemma sorted_map {A B : Type} (f : A -> B) (R : B -> B -> Prop) (l : list A) :
  StronglySorted (fun a b => R (f a) (f b)) l -> StronglySorted R (map f l).
Proof.
  induction 1 as [|a l Hl IH Ha]; simpl; constructor; [exact IH|].
  rewrite Forall_map. exact Ha.
Qed.

Lemma sorted_weaken {A : Type} (R S : A -> A -> Prop) (l : list A) :
  (forall a b, R a b -> S a b) -> StronglySorted R l -> StronglySorted S l.
Proof.
  intros HRS. induction 1 as [|a l Hl IH Ha]; constructor; [exact IH|].
  eapply Forall_impl; [|exact Ha]. intros b. apply HRS.
Qed.

Lemma NoDup_firstn {A : Type} (k : nat) (l : list A) : NoDup l -> NoDup (firstn k l).
Proof.
  intros H. rewrite <- (firstn_skipn k l) in H. now apply NoDup_app_remove_r in H.
Qed.

Section Neighbours.

Variable embeddings : list (list R).
Variable i : nat.

(** The similarity of node [i] and node [k], as the builder computes it. *)
Definition similarity (k : nat) : R :=
  ProcessFile.cosine (nth i embeddings []) (nth k embeddings []).

(** [a] is a better neighbour of [i] than [b]: more similar, or as similar
    and ingested earlier. *)
Definition closer (a b : nat) : Prop :=
  (similarity b < similarity a)%R \/ (similarity a = similarity b /\ (a < b)%nat).

Definition candidate (k : nat) : ProcessFile.Score :=
  {| ProcessFile.j := k; ProcessFile.sim := similarity k |}.

Lemma scores_of_seq (s m : nat) :
  let l := flat_map (fun j0 => if Nat.eqb i j0 then [] else [candidate j0]) (seq s m) in
  Forall (fun t => (s <= ProcessFile.j t < s + m)%nat /\ ProcessFile.j t <> i
                   /\ t = candidate (ProcessFile.j t)) l
  /\ StronglySorted (fun a b => (ProcessFile.j a < ProcessFile.j b)%nat) l
  /\ (forall k, (s <= k < s + m)%nat -> k <> i -> In (candidate k) l)
  /\ (length l = m - (if andb (s <=? i)%nat (i <? s + m)%nat then 1 else 0))%nat.
Proof.
  cbv zeta. revert s. induction m as [|m IH]; intros s.
  - simpl. split; [constructor|]. split; [constructor|]. split; [intros k Hk; lia|].
    destruct (andb (s <=? i)%nat (i <? s + 0)%nat); reflexivity.
  - destruct (IH (S s)) as (Hall & Hsorted & Hin & Hlen).
    cbn [seq flat_map].
    assert (Hall' : Forall (fun t => (s <= ProcessFile.j t < s + S m)%nat
                                     /\ ProcessFile.j t <> i
                                     /\ t = candidate (ProcessFile.j t))
              (flat_map (fun j0 => if Nat.eqb i j0 then [] else [candidate j0])
                        (seq (S s) m))).
    { eapply Forall_impl; [|exact Hall]. cbv beta. intros t (H1 & H2 & H3).
      repeat split; try assumption; lia. }
    destruct (Nat.eqb i s) eqn:E.
    + apply Nat.eqb_eq in E. subst s. cbn [app].
      split; [exact Hall'|]. split; [exact Hsorted|]. split.
      * intros k Hk Hne. apply Hin; [lia|exact Hne].
      * rewrite Hlen.
        replace (andb (S i <=? i)%nat (i <? S i + m)%nat) with false
          by (symmetry; apply andb_false_iff; left; apply Nat.leb_gt; lia).
        replace (andb (i <=? i)%nat (i <? i + S m)%nat) with true
          by (symmetry; apply andb_true_iff; split;
              [apply Nat.leb_le | apply Nat.ltb_lt]; lia).
        lia.
    + apply Nat.eqb_neq in E. cbn [app].
      split; [|split; [|split]].
      * constructor; [|exact Hall'].
        cbn. split; [lia|]. split; [congruence|reflexivity].
      * constructor; [exact Hsorted|].
        eapply Forall_impl; [|exact Hall]. cbv beta. intros t (H1 & _). cbn. lia.
      * intros k Hk Hne. destruct (Nat.eq_dec k s) as [->|Hks]; [now left|].
        right. apply Hin; [lia|exact Hne].
      * cbn [length]. rewrite Hlen.
        destruct (andb (s <=? i)%nat (i <? s + S m)%nat) eqn:E1;
          destruct (andb (S s <=? i)%nat (i <? S s + m)%nat) eqn:E2;
          try (apply andb_true_iff in E1 as [E1a E1b];
               apply Nat.leb_le in E1a; apply Nat.ltb_lt in E1b);
          try (apply andb_true_iff in E2 as [E2a E2b];
               apply Nat.leb_le in E2a; apply Nat.ltb_lt in E2b);
          try (apply andb_false_iff in E1 as [E1|E1];
               [apply Nat.leb_gt in E1 | apply Nat.ltb_ge in E1]);
          try (apply andb_false_iff in E2 as [E2|E2];
               [apply Nat.leb_gt in E2 | apply Nat.ltb_ge in E2]);
          lia.
Qed.

End Neighbours.

Lemma sorted_weaken_in {A : Type} (R S : A -> A -> Prop) (l : list A) :
  (forall a b, In a l -> In b l -> R a b -> S a b) ->
  StronglySorted R l -> StronglySorted S l.
Proof.
  intros HRS H. induction H as [|a l Hl IH Ha]; constructor.
  - apply IH. intros x y Hx Hy. apply HRS; now right.
  - rewrite Forall_forall in *. intros b Hb.
    apply HRS; [now left | now right | now apply Ha].
Qed.

Lemma increasing_NoDup {A : Type} (f : A -> nat) (l : list A) :
  StronglySorted (fun a b => (f a < f b)%nat) l -> NoDup (map f l).
Proof.
  induction 1 as [|a l Hl IH Ha]; simpl; constructor; [|exact IH].
  rewrite in_map_iff. intros (b & Hfb & Hb).
  rewrite Forall_forall in Ha. specialize (Ha b Hb). lia.
Qed.

(** The neighbours chosen for node [i] among [n] nodes. *)
Lemma top5_spec (embeddings : list (list R)) (n i : nat) :
  (i < n)%nat ->
  let ts := ProcessFile.top5 embeddings n i in
  length ts = Nat.min 5 (n - 1)
  /\ Forall (fun t => (ProcessFile.j t < n)%nat /\ ProcessFile.j t <> i
                      /\ t = candidate embeddings i (ProcessFile.j t)) ts
  /\ StronglySorted (fun a b => closer embeddings i (ProcessFile.j a) (ProcessFile.j b)) ts
  /\ NoDup (map ProcessFile.j ts)
  /\ (forall k, (k < n)%nat -> k <> i -> ~ In k (map ProcessFile.j ts) ->
      Forall (fun t => closer embeddings i (ProcessFile.j t) k) ts).
Proof.
  intros Hi. cbv zeta. unfold ProcessFile.top5, slice0, ProcessFile.K.
  set (l := ProcessFile.scoresOf embeddings n i).
  set (sorted := sort ProcessFile.bySim l).
  destruct (scores_of_seq embeddings i 0 n) as (Hall & Hinc & Hin & Hlen).
  fold (similarity embeddings i) in *.
  change (flat_map _ (seq 0 n)) with l in Hall, Hinc, Hin, Hlen.
  assert (Hcmp : forall a b, ProcessFile.bySim a b
                             = (ProcessFile.sim b - ProcessFile.sim a)%R) by reflexivity.
  pose proof (sort_perm _ ProcessFile.bySim l) as Hperm.
  fold sorted in Hperm.
  assert (Hall_sorted : forall t, In t sorted ->
            (ProcessFile.j t < n)%nat /\ ProcessFile.j t <> i
            /\ t = candidate embeddings i (ProcessFile.j t)).
  { intros t Ht. apply (Permutation_in _ Hperm) in Ht.
    rewrite Forall_forall in Hall. destruct (Hall t Ht) as (H1 & H2 & H3).
    repeat split; try assumption. lia. }
  assert (Hfirst : forall t, In t (firstn 5 sorted) -> In t sorted).
  { intros t Ht. rewrite <- (firstn_skipn 5 sorted). apply in_or_app. now left. }
  pose proof (sort_ranked _ ProcessFile.sim ProcessFile.bySim Hcmp
                (fun a b => (ProcessFile.j a < ProcessFile.j b)%nat) l Hinc) as Hranked.
  fold sorted in Hranked.
  assert (Hcloser : forall a b, In a sorted -> In b sorted ->
            ranks_before _ ProcessFile.sim
              (fun a b => (ProcessFile.j a < ProcessFile.j b)%nat) a b ->
            closer embeddings i (ProcessFile.j a) (ProcessFile.j b)).
  { intros a b Ha Hb Hab.
    destruct (Hall_sorted a Ha) as (_ & _ & Ea).
    destruct (Hall_sorted b Hb) as (_ & _ & Eb).
    unfold closer. rewrite Ea, Eb in Hab. exact Hab. }
  split; [|split; [|split; [|split]]].
  - rewrite length_firstn. unfold sorted. rewrite (sort_length _ ProcessFile.bySim).
    rewrite Hlen.
    replace (andb (0 <=? i)%nat (i <? 0 + n)%nat) with true
      by (symmetry; apply andb_true_iff; split;
          [apply Nat.leb_le | apply Nat.ltb_lt]; lia).
    reflexivity.
  - apply Forall_forall. intros t Ht. apply Hall_sorted, Hfirst, Ht.
  - apply (sorted_weaken_in
             (ranks_before _ ProcessFile.sim
                (fun a b => (ProcessFile.j a < ProcessFile.j b)%nat))).
    + intros a b Ha Hb. apply Hcloser; now apply Hfirst.
    + now apply firstn_sorted.
  - rewrite <- firstn_map. apply NoDup_firstn.
    apply (Permutation_NoDup (Permutation_map ProcessFile.j (Permutation_sym Hperm))).
    now apply increasing_NoDup.
  - intros k Hk Hne Hout. apply Forall_forall. intros t Ht.
    assert (Hcand : In (candidate embeddings i k) sorted).
    { apply (Permutation_in _ (Permutation_sym Hperm)). apply Hin; [lia|exact Hne]. }
    change k with (ProcessFile.j (candidate embeddings i k)).
    apply Hcloser; [now apply Hfirst | exact Hcand|].
    apply (sorted_firstn_skipn _ 5 sorted Hranked); [exact Ht|].
    rewrite <- (firstn_skipn 5 sorted) in Hcand.
    apply in_app_or in Hcand as [Hc|Hc]; [|exact Hc].
    exfalso. apply Hout. apply in_map_iff.
    exists (candidate embeddings i k). split; [reflexivity|exact Hc].
Qed.

Lemma jsstring_eqb_eq (a b : jsstring) : jsstring_eqb a b = true <-> a = b.
Proof.
  unfold jsstring_eqb. destruct (jsstring_eq_dec a b); split; intros; congruence.
Qed.

Lemma jsstring_eqb_neq (a b : jsstring) : jsstring_eqb a b = false <-> a <> b.
Proof.
  unfold jsstring_eqb. destruct (jsstring_eq_dec a b); split; intros; congruence.
Qed.

Lemma idAt_inj (nodes : list NodeRecord) (a b : nat) :
  NoDup (map id nodes) -> (a < length nodes)%nat -> (b < length nodes)%nat ->
  ProcessFile.idAt nodes a = ProcessFile.idAt nodes b -> a = b.
Proof.
  intros Hnd Ha Hb Heq. unfold ProcessFile.idAt in Heq.
  apply (proj1 (NoDup_nth (map id nodes) []) Hnd); rewrite ?length_map; assumption.
Qed.

(** The edges that leave node [i]: those whose source is its id. *)
Definition leaves (nodes : list NodeRecord) (i : nat) (e : EdgeRecord) : bool :=
  jsstring_eqb (source_node_id e) (ProcessFile.idAt nodes i).

Lemma leaves_block (nodes : list NodeRecord) (i i' : nat) (ts : list ProcessFile.Score) :
  NoDup (map id nodes) -> (i < length nodes)%nat -> (i' < length nodes)%nat ->
  filter (leaves nodes i) (map (ProcessFile.toEdge nodes i') ts)
  = if Nat.eqb i' i then map (ProcessFile.toEdge nodes i) ts else [].
Proof.
  intros Hnd Hi Hi'. destruct (Nat.eqb i' i) eqn:E.
  - apply Nat.eqb_eq in E. subst i'.
    induction ts as [|t ts IH]; [reflexivity|].
    simpl. unfold leaves at 1. simpl.
    rewrite (proj2 (jsstring_eqb_eq _ _) eq_refl). now rewrite IH.
  - apply Nat.eqb_neq in E.
    induction ts as [|t ts IH]; [reflexivity|].
    simpl. unfold leaves at 1. simpl.
    rewrite (proj2 (jsstring_eqb_neq _ _)); [exact IH|].
    intros Heq. apply E. now apply (idAt_inj nodes).
Qed.

Lemma leaves_blocks (nodes : list NodeRecord) (embeddings : list (list R)) (i s m : nat) :
  NoDup (map id nodes) -> (i < length nodes)%nat -> (s + m <= length nodes)%nat ->
  filter (leaves nodes i)
    (flat_map (fun i' => map (ProcessFile.toEdge nodes i')
                             (ProcessFile.top5 embeddings (length nodes) i'))
              (seq s m))
  = if andb (s <=? i)%nat (i <? s + m)%nat
    then map (ProcessFile.toEdge nodes i) (ProcessFile.top5 embeddings (length nodes) i)
    else [].
Proof.
  intros Hnd Hi. revert s. induction m as [|m IH]; intros s Hsm.
  - simpl. replace (andb (s <=? i)%nat (i <? s + 0)%nat) with false; [reflexivity|].
    symmetry. apply andb_false_iff.
    destruct (Nat.le_gt_cases s i); [right; apply Nat.ltb_ge; lia | left; apply Nat.leb_gt; lia].
  - cbn [seq flat_map]. rewrite filter_app, leaves_block, IH by (assumption || lia).
    destruct (Nat.eqb s i) eqn:E.
    + apply Nat.eqb_eq in E. subst s.
      replace (andb (S i <=? i)%nat (i <? S i + m)%nat) with false
        by (symmetry; apply andb_false_iff; left; apply Nat.leb_gt; lia).
      replace (andb (i <=? i)%nat (i <? i + S m)%nat) with true
        by (symmetry; apply andb_true_iff; split;
            [apply Nat.leb_le | apply Nat.ltb_lt]; lia).
      apply app_nil_r.
    + apply Nat.eqb_neq in E. cbn [app].
      replace (andb (s <=? i)%nat (i <? s + S m)%nat)
        with (andb (S s <=? i)%nat (i <? S s + m)%nat); [reflexivity|].
      destruct (Nat.le_gt_cases (S s) i) as [Hle|Hgt].
      * rewrite (proj2 (Nat.leb_le (S s) i) Hle), (proj2 (Nat.leb_le s i)) by lia.
        cbn [andb]. f_equal. lia.
      * rewrite (proj2 (Nat.leb_gt (S s) i) Hgt), (proj2 (Nat.leb_gt s i)) by lia.
        reflexivity.
Qed.

(** An edge [i -> k] as the builder writes it. *)
Definition semantic_edge (nodes : list NodeRecord) (embeddings : list (list R))
    (i k : nat) : EdgeRecord :=
  {| source_node_id := ProcessFile.idAt nodes i;
     target_node_id := ProcessFile.idAt nodes k;
     edge_type := js "semantic";
     weight := similarity embeddings i k |}.

(** Among the edges built for the nodes of a file (whose ids are
    distinct), those that leave node [i] go to a list of [neighbours],
    described here through [similarity], the number the builder computes:
    [min(5, n-1)] distinct nodes other than [i], in the order [closer],
    every node left out being a worse neighbour than every node chosen. *)
Lemma knn_edges_by_similarity (nodes : list NodeRecord) (embeddings : list (list R)) (i : nat) :
  NoDup (map id nodes) -> (i < length nodes)%nat ->
  let n := length nodes in
  let out := filter (leaves nodes i) (ProcessFile.buildEdges nodes embeddings) in
  exists neighbours : list nat,
    out = map (semantic_edge nodes embeddings i) neighbours
    /\ (length out <= 5)%nat
    /\ length neighbours = Nat.min 5 (n - 1)
    /\ NoDup neighbours
    /\ Forall (fun k => (k < n)%nat /\ k <> i) neighbours
    /\ Forall (fun e => target_node_id e <> source_node_id e) out
    /\ StronglySorted (closer embeddings i) neighbours
    /\ StronglySorted (fun a b => (weight b <= weight a)%R) out
    /\ (forall k, (k < n)%nat -> k <> i -> ~ In k neighbours ->
        Forall (fun k' => closer embeddings i k' k) neighbours).
Proof.
  intros Hnd Hi. cbv zeta.
  destruct (top5_spec embeddings (length nodes) i Hi)
    as (Hlen & Hall & Hsorted & Hnodup & Hbest).
  set (ts := ProcessFile.top5 embeddings (length nodes) i) in *.
  exists (map ProcessFile.j ts).
  assert (Hout : filter (leaves nodes i) (ProcessFile.buildEdges nodes embeddings)
                 = map (semantic_edge nodes embeddings i) (map ProcessFile.j ts)).
  { unfold ProcessFile.buildEdges.
    rewrite (leaves_blocks nodes embeddings i 0 (length nodes) Hnd Hi (le_n _)).
    replace (andb (0 <=? i)%nat (i <? 0 + length nodes)%nat) with true
      by (symmetry; apply andb_true_iff; split;
          [apply Nat.leb_le | apply Nat.ltb_lt]; lia).
    fold ts. rewrite map_map. apply map_ext_in. intros t Ht.
    rewrite Forall_forall in Hall. destruct (Hall t Ht) as (_ & _ & Et).
    unfold ProcessFile.toEdge, semantic_edge. rewrite Et at 2. reflexivity. }
  rewrite Hout.
  assert (Hin : Forall (fun k => (k < length nodes)%nat /\ k <> i) (map ProcessFile.j ts)).
  { rewrite Forall_map. eapply Forall_impl; [|exact Hall].
    cbv beta. intros t (H1 & H2 & _). now split. }
  split; [reflexivity|]. split; [rewrite !length_map, Hlen; lia|].
  split; [rewrite length_map; exact Hlen|]. split; [exact Hnodup|].
  split; [exact Hin|]. split; [|split; [|split]].
  - rewrite Forall_map. eapply Forall_impl; [|exact Hin].
    cbv beta. intros k (Hk & Hne). cbn. intros Heq. apply Hne.
    now apply (idAt_inj nodes).
  - now apply sorted_map.
  - apply sorted_map. apply sorted_map.
    eapply sorted_weaken; [|exact Hsorted].
    cbv beta. unfold closer. cbn. intros a b [Hlt|[Heq _]]; lra.
  - intros k Hk Hne Hout'. rewrite Forall_map. now apply Hbest.
Qed.

(** ** Maps in insertion order *)

Section MapFacts.

Variable V : Type.

Lemma Map_get_set (m : Map V) (k k' : jsstring) (v : V) :
  Map_get (Map_set m k v) k' = if jsstring_eqb k k' then Some v else Map_get m k'.
Proof.
  induction m as [|[k0 v0] m IH]; simpl.
  - destruct (jsstring_eqb k k'); reflexivity.
  - destruct (jsstring_eqb k0 k) eqn:E0; simpl.
    + apply jsstring_eqb_eq in E0. subst k0.
      destruct (jsstring_eqb k k'); reflexivity.
    + rewrite IH. destruct (jsstring_eqb k0 k') eqn:E1; [|reflexivity].
      apply jsstring_eqb_eq in E1. subst k0. apply jsstring_eqb_neq in E0.
      rewrite (proj2 (jsstring_eqb_neq k k')); [reflexivity|congruence].
Qed.

Lemma Map_get_In (m : Map V) (k : jsstring) (v : V) :
  Map_get m k = Some v -> In v (Map_values m).
Proof.
  induction m as [|[k0 v0] m IH]; simpl; [discriminate|].
  destruct (jsstring_eqb k0 k).
  - intros [= ->]. now left.
  - intros H. right. now apply IH.
Qed.

Lemma Map_get_None (m : Map V) (k : jsstring) :
  Map_get m k = None <-> ~ In k (map fst m).
Proof.
  induction m as [|[k0 v0] m IH]; simpl.
  - split; [intros _ []|reflexivity].
  - destruct (jsstring_eqb k0 k) eqn:E.
    + apply jsstring_eqb_eq in E. subst k0. split; [discriminate|].
      intros H. exfalso. apply H. now left.
    + apply jsstring_eqb_neq in E. rewrite IH. split.
      * intros H [H0|H0]; [contradiction|now apply H].
      * intros H H0. apply H. now right.
Qed.

(** Setting a new key appends the entry. *)
Lemma Map_set_absent (m : Map V) (k : jsstring) (v : V) :
  Map_get m k = None -> Map_set m k v = m ++ [(k, v)].
Proof.
  induction m as [|[k0 v0] m IH]; simpl; [reflexivity|].
  destruct (jsstring_eqb k0 k); [discriminate|].
  intros H. now rewrite IH.
Qed.

(** Setting a known key changes the value it had, where it stands. *)
Lemma Map_set_present (m : Map V) (k : jsstring) (e v : V) :
  Map_get m k = Some e ->
  Forall2 (fun a b => fst a = fst b /\ (b = a \/ (snd a = e /\ snd b = v)))
          m (Map_set m k v).
Proof.
  induction m as [|[k0 v0] m IH]; simpl; [discriminate|].
  destruct (jsstring_eqb k0 k).
  - intros [= ->]. constructor.
    + split; [reflexivity|]. right. now split.
    + clear IH. induction m as [|a m IHm]; constructor; auto.
  - intros H. constructor; [|now apply IH].
    split; [reflexivity|now left].
Qed.

End MapFacts.

(** ** Fusion *)

Module CR := HybridSearch.CombinedResult.
Module GR := HybridSearch.GraphResult.
Module VR := HybridSearch.VectorResult.
Module HR := HybridSearch.HybridResult.

(** The graph results that contribute to node [i], and their scores. *)
Definition contributing (i : jsstring) (graphResults : list GR.t) : list GR.t :=
  filter (fun g => jsstring_eqb (GR.nodeId g) i) graphResults.

Definition weights (i : jsstring) (graphResults : list GR.t) : list R :=
  map GR.graphScore (contributing i graphResults).

(** The entry a vector result starts with. *)
Definition vector_entry (v : VR.t) : CR.t :=
  {| CR.nodeId := VR.nodeId v;
     CR.nodeType := Some (VR.nodeType v);
     CR.content := Some (VR.content v);
     CR.vectorScore := VR.vectorScore v;
     CR.graphScore := 0%R;
     CR.connections := 0 |}.

Lemma vectors_untouched (vr : list VR.t) (m : Map CR.t) (i : jsstring) :
  ~ In i (map VR.nodeId vr) ->
  Map_get (fold_left HybridSearch.addVector vr m) i = Map_get m i.
Proof.
  revert m. induction vr as [|v vr IH]; intros m Hout; [reflexivity|].
  simpl. rewrite IH by (intros H; apply Hout; now right).
  unfold HybridSearch.addVector. rewrite Map_get_set.
  rewrite (proj2 (jsstring_eqb_neq _ _)); [reflexivity|].
  intros H. apply Hout. now left.
Qed.

Lemma vectors_entry (vr : list VR.t) (m : Map CR.t) (v : VR.t) :
  NoDup (map VR.nodeId vr) -> In v vr ->
  Map_get (fold_left HybridSearch.addVector vr m) (VR.nodeId v) = Some (vector_entry v).
Proof.
  revert m. induction vr as [|x vr IH]; intros m Hnd Hin; [contradiction|].
  simpl in Hnd. inversion Hnd as [|? ? Hx Hnd']; subst.
  simpl. destruct Hin as [->|Hin].
  - rewrite vectors_untouched by exact Hx.
    unfold HybridSearch.addVector. rewrite Map_get_set.
    now rewrite (proj2 (jsstring_eqb_eq _ _) eq_refl).
  - now apply IH.
Qed.

(** What the loop over the graph results makes of an entry that is there. *)
Lemma merge_existing (lookup : Map NodeRecord) (gr : list GR.t) (m : Map CR.t)
    (i : jsstring) (e : CR.t) :
  Map_get m i = Some e ->
  Map_get (fold_left (HybridSearch.mergeGraph lookup) gr m) i =
    Some {| CR.nodeId := CR.nodeId e;
            CR.nodeType := CR.nodeType e;
            CR.content := CR.content e;
            CR.vectorScore := CR.vectorScore e;
            CR.graphScore := fold_left Rmax (weights i gr) (CR.graphScore e);
            CR.connections := CR.connections e + Z.of_nat (length (weights i gr)) |}.
Proof.
  revert m e. induction gr as [|g gr IH]; intros m e Hget.
  - simpl. rewrite Hget. destruct e. cbn. do 2 f_equal. lia.
  - cbn [fold_left]. unfold weights, contributing in *. cbn [filter].
    destruct (jsstring_eqb (GR.nodeId g) i) eqn:E.
    + apply jsstring_eqb_eq in E.
      erewrite IH.
      2:{ unfold HybridSearch.mergeGraph. rewrite E, Hget, Map_get_set.
          rewrite (proj2 (jsstring_eqb_eq _ _) eq_refl). reflexivity. }
      cbn. do 2 f_equal. lia.
    + erewrite IH; [reflexivity|].
      unfold HybridSearch.mergeGraph.
      destruct (Map_get m (GR.nodeId g)); rewrite Map_get_set, E; exact Hget.
Qed.

(** What it makes of a node that no vector result brought. *)
Lemma merge_fresh (lookup : Map NodeRecord) (gr : list GR.t) (m : Map CR.t) (i : jsstring) :
  Map_get m i = None ->
  Map_get (fold_left (HybridSearch.mergeGraph lookup) gr m) i =
    match contributing i gr with
    | [] => None
    | g :: rest =>
        Some {| CR.nodeId := i;
                CR.nodeType := option_map node_type (Map_get lookup i);
                CR.content := option_map Supabase.content (Map_get lookup i);
                CR.vectorScore := 0%R;
                CR.graphScore := fold_left Rmax (map GR.graphScore rest) (GR.graphScore g);
                CR.connections := 1 + Z.of_nat (length rest) |}
    end.
Proof.
  revert m. induction gr as [|g gr IH]; intros m Hget; [exact Hget|].
  cbn [fold_left]. unfold contributing in *. cbn [filter].
  destruct (jsstring_eqb (GR.nodeId g) i) eqn:E.
  - apply jsstring_eqb_eq in E.
    erewrite merge_existing.
    2:{ unfold HybridSearch.mergeGraph. rewrite E, Hget, Map_get_set.
        rewrite (proj2 (jsstring_eqb_eq _ _) eq_refl). reflexivity. }
    cbn. unfold weights, contributing. rewrite length_map. reflexivity.
  - apply IH. unfold HybridSearch.mergeGraph.
    destruct (Map_get m (GR.nodeId g)); rewrite Map_get_set, E; exact Hget.
Qed.

(** [fold_left Rmax ws a] is the greatest of [a] and the elements of [ws]. *)
Lemma fold_Rmax_greatest (ws : list R) (a : R) :
  (a <= fold_left Rmax ws a)%R
  /\ Forall (fun w => (w <= fold_left Rmax ws a)%R) ws
  /\ (fold_left Rmax ws a = a \/ In (fold_left Rmax ws a) ws).
Proof.
  revert a. induction ws as [|w ws IH]; intros a; simpl.
  - split; [lra|]. split; [constructor|now left].
  - destruct (IH (Rmax a w)) as (Hge & Hall & Hin).
    pose proof (Rmax_l a w) as Hl. pose proof (Rmax_r a w) as Hr.
    split; [lra|]. split; [constructor; [lra|exact Hall]|].
    destruct Hin as [Heq|Hin]; [|right; now right].
    rewrite Heq. unfold Rmax. destruct (Rle_dec a w); [right; now left|now left].
Qed.

(** The entry of a node after fusion, for vector results with distinct
    ids: a node that a vector result brought keeps that result's score,
    counts its contributing graph results, and has for [graphScore] the
    greatest of 0 and their scores; a node that only graph results brought
    has [vectorScore] 0, the same count, and the greatest of their scores. *)
Lemma fusion_of_node (lookup : Map NodeRecord) (vr : list VR.t) (gr : list GR.t)
    (i : jsstring) :
  NoDup (map VR.nodeId vr) ->
  (forall v, In v vr -> VR.nodeId v = i ->
     Map_get (HybridSearch.mergeResults lookup vr gr) i =
       Some {| CR.nodeId := i;
               CR.nodeType := Some (VR.nodeType v);
               CR.content := Some (VR.content v);
               CR.vectorScore := VR.vectorScore v;
               CR.graphScore := fold_left Rmax (weights i gr) 0%R;
               CR.connections := Z.of_nat (length (contributing i gr)) |})
  /\ (~ In i (map VR.nodeId vr) ->
      Map_get (HybridSearch.mergeResults lookup vr gr) i =
        match contributing i gr with
        | [] => None
        | g :: rest =>
            Some {| CR.nodeId := i;
                    CR.nodeType := option_map node_type (Map_get lookup i);
                    CR.content := option_map Supabase.content (Map_get lookup i);
                    CR.vectorScore := 0%R;
                    CR.graphScore := fold_left Rmax (map GR.graphScore rest) (GR.graphScore g);
                    CR.connections := Z.of_nat (length (contributing i gr)) |}
        end).
Proof.
  intros Hnd. unfold HybridSearch.mergeResults. split.
  - intros v Hv <-.
    rewrite (merge_existing lookup gr _ _ (vector_entry v) (vectors_entry vr [] v Hnd Hv)).
    cbn. unfold weights. rewrite length_map. reflexivity.
  - intros Hout. rewrite merge_fresh by (rewrite vectors_untouched by exact Hout; reflexivity).
    destruct (contributing i gr) as [|g rest]; [reflexivity|].
    cbn [length]. do 2 f_equal. lia.
Qed.

(** Every hybrid result is an entry of the map with its score added. *)
Lemma hybridRank_In (wv wg : R) (k : nat) (m : Map CR.t) (h : HR.t) :
  In h (HybridSearch.hybridRank wv wg k m) ->
  exists c, In c (Map_values m) /\ h = HybridSearch.toHybridResult wv wg c.
Proof.
  unfold HybridSearch.hybridRank, slice0. intros Hin.
  assert (Hs : In h (sort HybridSearch.byHybridScore
                       (map (HybridSearch.toHybridResult wv wg) (Map_values m)))).
  { rewrite <- (firstn_skipn k (sort _ _)). apply in_or_app. now left. }
  apply (Permutation_in _ (sort_perm _ _ _)) in Hs.
  apply in_map_iff in Hs as (c & Hc & Hin'). now exists c.
Qed.

Lemma hybridScore_formula (wv wg : R) (k : nat) (m : Map CR.t) (h : HR.t) :
  In h (HybridSearch.hybridRank wv wg k m) ->
  HR.hybridScore h = (HR.vectorScore h * wv + HR.graphScore h * wg)%R.
Proof.
  intros Hin. destruct (hybridRank_In wv wg k m h Hin) as (c & _ & ->). reflexivity.
Qed.

(** With room for every entry, every entry is a hybrid result. *)
Lemma hybridRank_all (wv wg : R) (k : nat) (m : Map CR.t) (c : CR.t) :
  (length m <= k)%nat -> In c (Map_values m) ->
  In (HybridSearch.toHybridResult wv wg c) (HybridSearch.hybridRank wv wg k m).
Proof.
  intros Hk Hc. unfold HybridSearch.hybridRank, slice0.
  rewrite firstn_all2.
  - apply (Permutation_in _ (Permutation_sym (sort_perm _ _ _))). now apply in_map.
  - rewrite sort_length, length_map. unfold Map_values. now rewrite length_map.
Qed.

Lemma Map_set_length {V : Type} (m : Map V) (k : jsstring) (v : V) :
  (length (Map_set m k v) <= S (length m))%nat.
Proof.
  induction m as [|[k0 v0] m IH]; simpl; [lia|].
  destruct (jsstring_eqb k0 k); simpl; lia.
Qed.

Lemma mergeResults_length (lookup : Map NodeRecord) (vr : list VR.t) (gr : list GR.t) :
  (length (HybridSearch.mergeResults lookup vr gr) <= length vr + length gr)%nat.
Proof.
  unfold HybridSearch.mergeResults.
  assert (Hv : forall m, (length (fold_left HybridSearch.addVector vr m)
                          <= length m + length vr)%nat).
  { induction vr as [|v vr IH]; intros m; simpl; [lia|].
    specialize (IH (HybridSearch.addVector m v)).
    pose proof (Map_set_length m (VR.nodeId v) (vector_entry v)) as Hs.
    unfold HybridSearch.addVector in *. fold (vector_entry v) in *. lia. }
  assert (Hg : forall m, (length (fold_left (HybridSearch.mergeGraph lookup) gr m)
                          <= length m + length gr)%nat).
  { induction gr as [|g gr IH]; intros m; simpl; [lia|].
    specialize (IH (HybridSearch.mergeGraph lookup m g)).
    assert (Hs : (length (HybridSearch.mergeGraph lookup m g) <= S (length m))%nat).
    { unfold HybridSearch.mergeGraph.
      destruct (Map_get m (GR.nodeId g)); apply Map_set_length. }
    lia. }
  specialize (Hv []). specialize (Hg (fold_left HybridSearch.addVector vr [])).
  simpl in Hv. lia.
Qed.

Lemma Set_has_In (s : list jsstring) (k : jsstring) : Set_has s k = true <-> In k s.
Proof.
  unfold Set_has. rewrite existsb_exists. split.
  - intros (x & Hx & E). apply jsstring_eqb_eq in E. now subst.
  - intros H. exists k. split; [exact H|]. now apply jsstring_eqb_eq.
Qed.

(** With room for every node, the vector results are the nodes' results in
    some order. *)
Lemma vectorSearch_all (qe : list R) (typedNodes : list NodeRecord) (k : nat) :
  (length typedNodes <= k)%nat ->
  Permutation (HybridSearch.vectorSearch qe typedNodes k)
              (map (HybridSearch.toVectorResult qe) typedNodes).
Proof.
  intros Hk. unfold HybridSearch.vectorSearch, slice0.
  rewrite firstn_all2 by (rewrite sort_length, length_map; exact Hk).
  apply sort_perm.
Qed.

(** Two nodes of one file and the edge [n1 -> n2], of negative weight. *)
Definition negative_edge : World :=
  store [ ingested (js "n1") (js "f1") (js "alpha");
          ingested (js "n2") (js "f1") (js "beta") ]
        [ semantic (js "n1") (js "n2") (-1 / 2)%R ].

(** C1 (the code at the failing input).  The store holds the nodes [n1]
    and [n2] of one file and the edge [n1 -> n2] of weight [-1/2]; the
    request asks for 10 results.  The request is answered; [n2] is a
    vector result and the target of one contributing edge, whose weight is
    [-1/2]; and the hybrid result of [n2] counts that one connection but has
    [graphScore] 0, the value the entry started with, not [-1/2], the
    maximum over the contributing edges. *)
Theorem graphScore_not_below_zero :
  exists (body : HybridSearch.Body) (w' : World),
    HybridSearch.handler (ask (js "alpha") (1 / 2) (1 / 2) 10) negative_edge
      = (HybridSearch.Ok200 body, w')
    /\ (exists v, In v (HybridSearch.vectorResults body) /\ VR.nodeId v = js "n2")
    /\ weights (js "n2") (HybridSearch.graphResults body) = [(-1 / 2)%R]
    /\ exists h, In h (HybridSearch.hybridResults body)
                 /\ HR.nodeId h = js "n2"
                 /\ HR.connections h = 1
                 /\ HR.graphScore h = 0%R
                 /\ HR.graphScore h <> (-1 / 2)%R.
Proof.
  set (req := ask (js "alpha") (1 / 2) (1 / 2) 10).
  assert (Hscope : scope negative_edge (HybridSearch.fileId req)
                   = [ ingested (js "n1") (js "f1") (js "alpha");
                       ingested (js "n2") (js "f1") (js "beta") ]) by reflexivity.
  destruct (handler_runs req negative_edge) as (lookup & w' & Hrun).
  { rewrite Hscope. discriminate. }
  cbv zeta in Hrun. rewrite Hscope in Hrun.
  set (qe := HybridSearch.localEmbedding (HybridSearch.query req)) in *.
  set (r1 := HybridSearch.toVectorResult qe (ingested (js "n1") (js "f1") (js "alpha"))).
  set (r2 := HybridSearch.toVectorResult qe (ingested (js "n2") (js "f1") (js "beta"))).
  set (vr := HybridSearch.vectorSearch qe _ (HybridSearch.topK req)) in *.
  assert (Hperm : Permutation vr [r1; r2]).
  { apply vectorSearch_all. simpl. lia. }
  assert (Hnd : NoDup (map VR.nodeId vr)).
  { apply (Permutation_NoDup (Permutation_map VR.nodeId (Permutation_sym Hperm))).
    simpl. constructor; [intros [H|[]]; discriminate|].
    constructor; [intros []|constructor]. }
  assert (Hr1 : In r1 vr) by (apply (Permutation_in _ (Permutation_sym Hperm)); now left).
  assert (Hr2 : In r2 vr)
    by (apply (Permutation_in _ (Permutation_sym Hperm)); right; now left).
  assert (Hedges : outgoing negative_edge (map VR.nodeId vr)
                   = [ semantic (js "n1") (js "n2") (-1 / 2)%R ]).
  { unfold outgoing. simpl.
    rewrite (proj2 (Set_has_In _ _)); [reflexivity|].
    apply in_map_iff. exists r1. split; [reflexivity|exact Hr1]. }
  rewrite Hedges in Hrun. cbn [map] in Hrun.
  set (g := HybridSearch.toGraphResult lookup _) in *.
  eexists _, w'. split; [exact Hrun|].
  cbn [HybridSearch.vectorResults HybridSearch.graphResults HybridSearch.hybridResults].
  split; [exists r2; split; [exact Hr2|reflexivity]|].
  split; [reflexivity|].
  destruct (fusion_of_node lookup vr [g] (js "n2") Hnd) as [Hboth _].
  specialize (Hboth r2 Hr2 eq_refl).
  eexists. split.
  - apply hybridRank_all.
    + pose proof (mergeResults_length lookup vr [g]) as Hlen.
      rewrite (Permutation_length Hperm) in Hlen. simpl in *. lia.
    + apply (Map_get_In _ _ _ _ Hboth).
  - cbn. unfold Rmax. destruct (Rle_dec 0 (-1 / 2)); [exfalso; lra|].
    repeat split; try reflexivity. lra.
Qed.

(** ** The order of the hybrid results *)

Lemma sorted_app {A : Type} (R : A -> A -> Prop) (l1 l2 : list A) :
  StronglySorted R l1 -> StronglySorted R l2 ->
  (forall x y, In x l1 -> In y l2 -> R x y) ->
  StronglySorted R (l1 ++ l2).
Proof.
  intros H1 H2 H12. induction H1 as [|a l1 Hl IH Ha]; simpl; [exact H2|].
  constructor.
  - apply IH. intros x y Hx Hy. apply H12; [now right|exact Hy].
  - apply Forall_app. split; [exact Ha|].
    apply Forall_forall. intros y Hy. apply H12; [now left|exact Hy].
Qed.

(** The vector results, with distinct ids, enter the map in their order. *)
Lemma vectors_in_order (vr : list VR.t) (m : Map CR.t) :
  NoDup (map VR.nodeId vr) ->
  (forall v, In v vr -> Map_get m (VR.nodeId v) = None) ->
  fold_left HybridSearch.addVector vr m
  = m ++ map (fun v => (VR.nodeId v, vector_entry v)) vr.
Proof.
  revert m. induction vr as [|v vr IH]; intros m Hnd Hnew; simpl.
  - now rewrite app_nil_r.
  - inversion Hnd as [|? ? Hv Hnd']; subst.
    unfold HybridSearch.addVector at 2. fold (vector_entry v).
    rewrite Map_set_absent by (apply Hnew; now left).
    rewrite IH; [now rewrite <- app_assoc|exact Hnd'|].
    intros x Hx. apply Map_get_None. rewrite map_app, in_app_iff. simpl.
    intros [H|[H|[]]].
    + apply (proj1 (Map_get_None _ m (VR.nodeId x))); [apply Hnew; now right|exact H].
    + apply Hv. rewrite H. now apply in_map.
Qed.

(** An entry that keeps the key, the node id and the vector score of
    another. *)
Definition keeps (a b : jsstring * CR.t) : Prop :=
  fst b = fst a /\ CR.nodeId (snd b) = CR.nodeId (snd a)
  /\ CR.vectorScore (snd b) = CR.vectorScore (snd a).

(** An entry that a graph result created, under a key not in [m0]. *)
Definition graph_only (m0 : Map CR.t) (e : jsstring * CR.t) : Prop :=
  CR.vectorScore (snd e) = 0%R /\ CR.nodeId (snd e) = fst e /\ ~ In (fst e) (map fst m0).

(** The map during the loop over the graph results: the entries of the
    vector results, in place, followed by the entries of graph-only nodes. *)
Definition merged_from (m0 m : Map CR.t) : Prop :=
  exists m1 extra, m = m1 ++ extra /\ Forall2 keeps m0 m1 /\ Forall (graph_only m0) extra.

Lemma Forall2_keeps_keys (m0 m1 : Map CR.t) :
  Forall2 keeps m0 m1 -> map fst m1 = map fst m0.
Proof.
  induction 1 as [|a b m0 m1 (Hk & _) _ IH]; simpl; [reflexivity|]. now rewrite Hk, IH.
Qed.

Lemma mergeGraph_shape (lookup : Map NodeRecord) (m0 m : Map CR.t) (g : GR.t) :
  merged_from m0 m -> merged_from m0 (HybridSearch.mergeGraph lookup m g).
Proof.
  intros (m1 & extra & -> & Hkeep & Hextra).
  unfold HybridSearch.mergeGraph.
  destruct (Map_get (m1 ++ extra) (GR.nodeId g)) as [e|] eqn:Hget.
  - pose proof (Map_set_present _ (m1 ++ extra) (GR.nodeId g) e
                  {| CR.nodeId := CR.nodeId e; CR.nodeType := CR.nodeType e;
                     CR.content := CR.content e; CR.vectorScore := CR.vectorScore e;
                     CR.graphScore := Rmax (CR.graphScore e) (GR.graphScore g);
                     CR.connections := CR.connections e + 1 |} Hget) as Hset.
    apply Forall2_app_inv_l in Hset as (m1' & extra' & H1 & H2 & ->).
    exists m1', extra'. split; [reflexivity|]. split.
    + clear Hextra H2 Hget. revert m1' H1.
      induction Hkeep as [|a b m0' m1 Hab _ IH]; intros m1' H1.
      * inversion H1. constructor.
      * inversion H1 as [|? c ? m1'' Hbc Hrest]; subst. constructor; [|now apply IH].
        destruct Hab as (K1 & K2 & K3). destruct Hbc as (Hk & [->|[He Hc]]).
        -- now repeat split.
        -- unfold keeps. rewrite <- Hk, Hc. cbn. rewrite <- He. now repeat split.
    + clear Hkeep H1 Hget. revert extra' H2.
      induction Hextra as [|b extra Hb _ IH]; intros extra' H2.
      * inversion H2. constructor.
      * inversion H2 as [|? c ? extra'' Hbc Hrest]; subst. constructor; [|now apply IH].
        destruct Hb as (K1 & K2 & K3). destruct Hbc as (Hk & [->|[He Hc]]).
        -- now repeat split.
        -- unfold graph_only. rewrite <- Hk, Hc. cbn. rewrite <- He. now repeat split.
  - rewrite Map_set_absent by exact Hget.
    exists m1, (extra ++ [(GR.nodeId g,
                          {| CR.nodeId := GR.nodeId g;
                             CR.nodeType := option_map node_type (Map_get lookup (GR.nodeId g));
                             CR.content := option_map Supabase.content
                                             (Map_get lookup (GR.nodeId g));
                             CR.vectorScore := 0%R;
                             CR.graphScore := GR.graphScore g;
                             CR.connections := 1 |})]).
    split; [now rewrite app_assoc|]. split; [exact Hkeep|].
    apply Forall_app. split; [exact Hextra|]. constructor; [|constructor].
    repeat split. cbn.
    apply Map_get_None in Hget. rewrite map_app in Hget.
    rewrite <- (Forall2_keeps_keys _ _ Hkeep). intros H. apply Hget.
    apply in_or_app. now left.
Qed.

Lemma Forall2_keeps_refl (m : Map CR.t) : Forall2 keeps m m.
Proof. induction m; constructor; [now repeat split|assumption]. Qed.

Lemma mergeResults_shape (lookup : Map NodeRecord) (vr : list VR.t) (gr : list GR.t) :
  NoDup (map VR.nodeId vr) ->
  merged_from (map (fun v => (VR.nodeId v, vector_entry v)) vr)
              (HybridSearch.mergeResults lookup vr gr).
Proof.
  intros Hnd. unfold HybridSearch.mergeResults.
  rewrite (vectors_in_order vr [] Hnd) by reflexivity. cbn [app].
  set (m0 := map _ vr).
  assert (Hstart : merged_from m0 m0).
  { exists m0, []. split; [now rewrite app_nil_r|].
    split; [apply Forall2_keeps_refl|constructor]. }
  assert (Hloop : forall m, merged_from m0 m ->
            merged_from m0 (fold_left (HybridSearch.mergeGraph lookup) gr m)).
  { induction gr as [|g gr IH]; intros m Hm; [exact Hm|].
    simpl. apply IH. now apply mergeGraph_shape. }
  apply Hloop, Hstart.
Qed.

Lemma Forall2_keeps_maps (vr : list VR.t) (m1 : Map CR.t) :
  Forall2 keeps (map (fun v => (VR.nodeId v, vector_entry v)) vr) m1 ->
  map (fun e => CR.nodeId (snd e)) m1 = map VR.nodeId vr
  /\ map (fun e => CR.vectorScore (snd e)) m1 = map VR.vectorScore vr.
Proof.
  revert m1. induction vr as [|v vr IH]; intros m1 H; inversion H as [|a b ? m1' Hab Hrest]; subst.
  - now split.
  - destruct (IH _ Hrest) as [H1 H2]. destruct Hab as (_ & K2 & K3).
    simpl. rewrite H1, H2, K2, K3. now split.
Qed.

(** *** Similarity of a unit vector with itself and with its opposite *)

Lemma hs_sum_squares_cons (x : R) (vec : list R) :
  HybridSearch.sum_squares (x :: vec) = (x * x + HybridSearch.sum_squares vec)%R.
Proof. exact (sum_squares_cons x vec). Qed.

Lemma cosine_sums_self (a : list R) (d x y : R) :
  HybridSearch.cosine_sums a a (d, x, y)
  = ((d + HybridSearch.sum_squares a)%R,
     (x + HybridSearch.sum_squares a)%R,
     (y + HybridSearch.sum_squares a)%R).
Proof.
  revert d x y. induction a as [|u a IH]; intros d x y.
  - cbn. unfold HybridSearch.sum_squares. cbn. f_equal; [f_equal|]; lra.
  - cbn [HybridSearch.cosine_sums hd tl]. rewrite IH, hs_sum_squares_cons.
    f_equal; [f_equal|]; lra.
Qed.

Lemma cosine_sums_opp (a : list R) (d x y : R) :
  HybridSearch.cosine_sums a (map Ropp a) (d, x, y)
  = ((d - HybridSearch.sum_squares a)%R,
     (x + HybridSearch.sum_squares a)%R,
     (y + HybridSearch.sum_squares a)%R).
Proof.
  revert d x y. induction a as [|u a IH]; intros d x y.
  - cbn. unfold HybridSearch.sum_squares. cbn. f_equal; [f_equal|]; lra.
  - cbn [HybridSearch.cosine_sums hd tl map]. rewrite IH, hs_sum_squares_cons.
    f_equal; [f_equal|]; lra.
Qed.

Lemma cosine_self (a : list R) :
  HybridSearch.sum_squares a = 1%R -> HybridSearch.cosine a a = 1%R.
Proof.
  intros H. unfold HybridSearch.cosine. rewrite cosine_sums_self, H.
  rewrite Rplus_0_l, sqrt_1. lra.
Qed.

Lemma cosine_opp (a : list R) :
  HybridSearch.sum_squares a = 1%R -> HybridSearch.cosine a (map Ropp a) = (-1)%R.
Proof.
  intros H. unfold HybridSearch.cosine. rewrite cosine_sums_opp, H.
  rewrite Rplus_0_l, sqrt_1. lra.
Qed.

Lemma embedding_unit (text : jsstring) :
  HybridSearch.sum_squares (ProcessFile.localEmbedding text) = 1%R.
Proof. rewrite sum_squares_same. apply embedding_sum_squares. Qed.

(** The score of a node that holds the embedding of the query text, and
    of a node that holds the opposite vector. *)
Lemma score_of_same_text (text : jsstring) :
  HybridSearch.cosine (HybridSearch.localEmbedding text) (ProcessFile.localEmbedding text) = 1%R.
Proof. rewrite embedders_agree. apply cosine_self, embedding_unit. Qed.

Lemma score_of_opposite (text : jsstring) :
  HybridSearch.cosine (HybridSearch.localEmbedding text)
                      (map Ropp (ProcessFile.localEmbedding text)) = (-1)%R.
Proof. rewrite embedders_agree. apply cosine_opp, embedding_unit. Qed.

(** The nodes the store selects from a table of distinct ids have
    distinct ids. *)
Lemma selected_ids_distinct (keep : NodeRecord -> bool) (table : list NodeRecord) :
  NoDup (map id table) -> NoDup (map id (filter keep table)).
Proof.
  induction table as [|n table IH]; simpl; intros Hnd; [constructor|].
  inversion Hnd as [|? ? Hn Htable]; subst.
  destruct (keep n); simpl; [|now apply IH].
  constructor; [|now apply IH].
  rewrite in_map_iff. intros (n' & Hid & Hin).
  apply filter_In in Hin as [Hin _].
  apply Hn. rewrite <- Hid. now apply in_map.
Qed.

Lemma vectorSearch_distinct (qe : list R) (w : World) (file : jsstring) (k : nat) :
  NoDup (map id (nodes (db w))) ->
  NoDup (map VR.nodeId (HybridSearch.vectorSearch qe (scope w file) k)).
Proof.
  intros Hnd. unfold HybridSearch.vectorSearch, slice0.
  rewrite <- firstn_map. apply NoDup_firstn.
  apply (Permutation_NoDup
           (Permutation_map VR.nodeId (Permutation_sym (sort_perm _ _ _)))).
  rewrite map_map. cbn. unfold scope. now apply selected_ids_distinct.
Qed.

Lemma vectorSearch_sorted (qe : list R) (typedNodes : list NodeRecord) (k : nat) :
  StronglySorted (fun a b => (VR.vectorScore b <= VR.vectorScore a)%R)
                 (HybridSearch.vectorSearch qe typedNodes k).
Proof.
  unfold HybridSearch.vectorSearch, slice0. apply firstn_sorted.
  apply (sort_sorted _ VR.vectorScore). reflexivity.
Qed.

Lemma positive_true (x : R) : (0 < x)%R -> positive x = true.
Proof. intros H. unfold positive. destruct (Rlt_dec 0 x); [reflexivity|contradiction]. Qed.

Lemma positive_false (x : R) : (x <= 0)%R -> positive x = false.
Proof. intros H. unfold positive. destruct (Rlt_dec 0 x); [exfalso; lra|reflexivity]. Qed.

(** A node that holds the opposite of the embedding of the text [other]. *)
Definition opposed (i file text other : jsstring) : NodeRecord :=
  {| id := i; file_id := file; node_type := js "text"; content := text;
     embedding := map Ropp (ProcessFile.localEmbedding other); metadata := Some [] |}.

(** Three nodes of one file: [n1] holds the embedding of ["alpha"], [n2]
    and [n3] hold the opposite vector; the one edge is [n1 -> n3]. *)
Definition three_nodes : World :=
  store [ ingested (js "n1") (js "f1") (js "alpha");
          opposed (js "n2") (js "f1") (js "beta") (js "alpha");
          opposed (js "n3") (js "f1") (js "gamma") (js "alpha") ]
        [ semantic (js "n1") (js "n3") (1 / 2)%R ].

Definition scored (i text : jsstring) (score : R) : VR.t :=
  {| VR.nodeId := i; VR.nodeType := js "text"; VR.content := text; VR.vectorScore := score |}.

Lemma three_nodes_vectorResults :
  HybridSearch.vectorSearch (HybridSearch.localEmbedding (js "alpha"))
    (scope three_nodes (js "f1")) 2
  = [ scored (js "n1") (js "alpha") 1; scored (js "n2") (js "beta") (-1) ].
Proof.
  change (scope three_nodes (js "f1"))
    with [ ingested (js "n1") (js "f1") (js "alpha");
           opposed (js "n2") (js "f1") (js "beta") (js "alpha");
           opposed (js "n3") (js "f1") (js "gamma") (js "alpha") ].
  unfold HybridSearch.vectorSearch, slice0. cbn [map].
  unfold HybridSearch.toVectorResult, ingested, opposed.
  cbn [id node_type Supabase.content embedding].
  rewrite score_of_same_text, score_of_opposite.
  fold (scored (js "n1") (js "alpha") 1).
  fold (scored (js "n2") (js "beta") (-1)).
  fold (scored (js "n3") (js "gamma") (-1)).
  rewrite (sort_sorted_id _ VR.vectorScore HybridSearch.byVectorScore).
  - reflexivity.
  - reflexivity.
  - repeat constructor; unfold not_below; cbn; lra.
Qed.

Lemma three_nodes_hybridResults (lookup : Map NodeRecord) :
  map HR.nodeId
    (HybridSearch.hybridRank 1 0 2
       (HybridSearch.mergeResults lookup
          [ scored (js "n1") (js "alpha") 1; scored (js "n2") (js "beta") (-1) ]
          [ HybridSearch.toGraphResult lookup (semantic (js "n1") (js "n3") (1 / 2)%R) ]))
  = [js "n1"; js "n3"].
Proof.
  unfold HybridSearch.mergeResults.
  rewrite vectors_in_order.
  2:{ simpl. constructor; [intros [H|[]]; discriminate|].
      constructor; [intros []|constructor]. }
  2:{ reflexivity. }
  cbn [app map fold_left].
  unfold HybridSearch.mergeGraph.
  change (GR.nodeId (HybridSearch.toGraphResult lookup (semantic (js "n1") (js "n3") (1 / 2)%R)))
    with (js "n3").
  change (GR.graphScore (HybridSearch.toGraphResult lookup (semantic (js "n1") (js "n3") (1 / 2)%R)))
    with (1 / 2)%R.
  replace (Map_get [ (VR.nodeId (scored (js "n1") (js "alpha") 1),
                      vector_entry (scored (js "n1") (js "alpha") 1));
                     (VR.nodeId (scored (js "n2") (js "beta") (-1)),
                      vector_entry (scored (js "n2") (js "beta") (-1))) ] (js "n3"))
    with (@None CR.t) by reflexivity.
  rewrite Map_set_absent by reflexivity.
  unfold HybridSearch.hybridRank, slice0, Map_values.
  cbn [app map snd sort fold_right sort_insert].
  rewrite (positive_true (HybridSearch.byHybridScore _ _))
    by (unfold HybridSearch.byHybridScore; cbn; lra).
  cbn [sort_insert].
  rewrite (positive_false (HybridSearch.byHybridScore _ _))
    by (unfold HybridSearch.byHybridScore; cbn; lra).
  reflexivity.
Qed.

(** C8 (counterexample).  The store holds [n1], whose embedding is the
    embedding of the query, and [n2] and [n3], whose embedding is the
    opposite vector, and the edge [n1 -> n3]; the request has weights 1 and
    0 and asks for 2 results.  The vector results are [n1] (score 1) and
    [n2] (score -1).  The edge brings [n3] with vector score 0, so its
    hybrid score 0 is above the hybrid score -1 of [n2]: the hybrid results
    are [n1] and [n3], not [n1] and [n2]. *)
Lemma graph_only_node_overtakes :
  exists (body : HybridSearch.Body) (w' : World),
    HybridSearch.handler (ask (js "alpha") 1 0 2) three_nodes = (HybridSearch.Ok200 body, w')
    /\ map VR.nodeId (HybridSearch.vectorResults body) = [js "n1"; js "n2"]
    /\ map HR.nodeId (HybridSearch.hybridResults body) = [js "n1"; js "n3"]
    /\ map HR.nodeId (HybridSearch.hybridResults body)
       <> map VR.nodeId (HybridSearch.vectorResults body).
Proof.
  destruct (handler_runs (ask (js "alpha") 1 0 2) three_nodes) as (lookup & w' & Hrun).
  { unfold scope. simpl. discriminate. }
  cbv zeta in Hrun.
  change (HybridSearch.fileId (ask (js "alpha") 1 0 2)) with (js "f1") in Hrun.
  change (HybridSearch.query (ask (js "alpha") 1 0 2)) with (js "alpha") in Hrun.
  change (HybridSearch.topK (ask (js "alpha") 1 0 2)) with 2%nat in Hrun.
  change (HybridSearch.vectorWeight (ask (js "alpha") 1 0 2)) with 1%R in Hrun.
  change (HybridSearch.graphWeight (ask (js "alpha") 1 0 2)) with 0%R in Hrun.
  rewrite three_nodes_vectorResults in Hrun.
  change (outgoing three_nodes _) with [ semantic (js "n1") (js "n3") (1 / 2)%R ] in Hrun.
  cbn [map] in Hrun.
  eexists _, w'. split; [exact Hrun|].
  cbn [HybridSearch.vectorResults HybridSearch.hybridResults].
  rewrite three_nodes_hybridResults.
  split; [reflexivity|]. split; [reflexivity|]. discriminate.
Qed.

(** ** Labels *)

(** *** Words *)

(** The white-space-separated words of a text. *)
Fixpoint tokens (s : jsstring) : list jsstring :=
  match s with
  | [] => []
  | c :: r =>
      if is_space c then tokens r
      else match r with
           | [] => [[c]]
           | c' :: _ =>
               if is_space c' then [c] :: tokens r
               else match tokens r with
                    | w :: ws => (c :: w) :: ws
                    | [] => [[c]]
                    end
           end
  end.

(** A text whose only white space is the space character. *)
Definition plain_spaces (s : jsstring) : Prop :=
  Forall (fun c => is_space c = true -> c = 32) s.

Lemma is_space_32 : is_space 32 = true.
Proof. reflexivity. Qed.

Lemma replace_space_runs_plain (s : jsstring) : plain_spaces (replace_space_runs s).
Proof.
  unfold plain_spaces. induction s as [|c r IH]; [constructor|].
  cbn [replace_space_runs]. destruct (is_space c) eqn:Ec.
  - destruct r as [|c' r']; [repeat constructor|].
    destruct (is_space c'); [exact IH|]. constructor; [reflexivity|exact IH].
  - constructor; [|exact IH]. intros H. congruence.
Qed.

Lemma replace_cr_lf_plain (s : jsstring) : plain_spaces s -> replace_cr_lf s = s.
Proof.
  unfold plain_spaces, replace_cr_lf. induction 1 as [|c r Hc _ IH]; [reflexivity|].
  simpl. rewrite IH. f_equal.
  destruct (c =? 13) eqn:E13; [apply Z.eqb_eq in E13; subst; now specialize (Hc eq_refl)|].
  destruct (c =? 10) eqn:E10; [apply Z.eqb_eq in E10; subst; now specialize (Hc eq_refl)|].
  reflexivity.
Qed.

(** Splitting on the space and dropping the empty pieces. *)
Definition pieces (s : jsstring) : list jsstring := filter truthy (split 32 s).

Lemma split_cons (s : jsstring) : exists w ws, split 32 s = w :: ws.
Proof.
  induction s as [|c r (w & ws & IH)]; simpl; [now eexists _, _|].
  destruct (c =? 32); [now eexists _, _|]. rewrite IH. now eexists _, _.
Qed.

Lemma pieces_space (s : jsstring) : pieces (32 :: s) = pieces s.
Proof. reflexivity. Qed.

Lemma split_snoc_space (s : jsstring) : split 32 (s ++ [32]) = split 32 s ++ [[]].
Proof.
  induction s as [|c r IH]; [reflexivity|].
  simpl. destruct (c =? 32); [now rewrite IH|].
  rewrite IH. destruct (split_cons r) as (w & ws & ->). reflexivity.
Qed.

Lemma pieces_trailing (s sp : jsstring) :
  Forall (fun c => c = 32) sp -> pieces (s ++ sp) = pieces s.
Proof.
  intros H. revert s. induction H as [|c sp -> _ IH]; intros s.
  - now rewrite app_nil_r.
  - change (s ++ 32 :: sp) with (s ++ [32] ++ sp). rewrite app_assoc, IH.
    unfold pieces. rewrite split_snoc_space, filter_app. simpl. apply app_nil_r.
Qed.

Lemma drop_spaces_split (s : jsstring) :
  exists sp, s = sp ++ drop_spaces s /\ Forall (fun c => is_space c = true) sp.
Proof.
  induction s as [|c r (sp & Hr & Hsp)]; [exists []; now split|].
  simpl. destruct (is_space c) eqn:E.
  - exists (c :: sp). split; [simpl; now rewrite <- Hr|now constructor].
  - exists []. now split.
Qed.

Lemma pieces_drop_spaces (s : jsstring) :
  plain_spaces s -> pieces (drop_spaces s) = pieces s.
Proof.
  unfold plain_spaces. induction 1 as [|c r Hc _ IH]; [reflexivity|].
  simpl. destruct (is_space c) eqn:E; [|reflexivity].
  rewrite (Hc eq_refl). rewrite pieces_space. exact IH.
Qed.

Lemma plain_spaces_drop (s : jsstring) : plain_spaces s -> plain_spaces (drop_spaces s).
Proof.
  unfold plain_spaces. induction 1 as [|c r Hc Hr IH]; [constructor|].
  simpl. destruct (is_space c) eqn:E; [exact IH|].
  constructor; [intros H; congruence|exact Hr].
Qed.

Lemma pieces_trim (s : jsstring) : plain_spaces s -> pieces (trim s) = pieces s.
Proof.
  intros Hs. unfold trim.
  rewrite <- (pieces_drop_spaces s Hs).
  pose proof (plain_spaces_drop s Hs) as Hd.
  set (t := drop_spaces s) in *.
  destruct (drop_spaces_split (rev t)) as (sp & Hsplit & Hsp).
  assert (Ht : t = rev (drop_spaces (rev t)) ++ rev sp).
  { rewrite <- rev_app_distr, <- Hsplit. now rewrite rev_involutive. }
  rewrite Ht at 2. symmetry. apply pieces_trailing.
  apply Forall_rev. apply Forall_forall. intros c Hc.
  unfold plain_spaces in Hd. rewrite Forall_forall in Hd, Hsp.
  apply Hd; [|now apply Hsp].
  apply in_rev. rewrite Hsplit. apply in_or_app. now left.
Qed.

(** A text that starts with white space is collapsed to one that starts
    with a space. *)
Lemma collapsed_head (c : Z) (r : jsstring) :
  is_space c = true -> exists rest, replace_space_runs (c :: r) = 32 :: rest.
Proof.
  revert c. induction r as [|d r IH]; intros c Ec.
  - simpl. rewrite Ec. now eexists.
  - change (replace_space_runs (c :: d :: r))
      with (if is_space c
            then if is_space d then replace_space_runs (d :: r)
                 else 32 :: replace_space_runs (d :: r)
            else c :: replace_space_runs (d :: r)).
    rewrite Ec. destruct (is_space d) eqn:Ed; [now apply IH|now eexists].
Qed.

(** The pieces of the collapsed text are the words of the text. *)
Lemma pieces_collapsed (s : jsstring) : pieces (replace_space_runs s) = tokens s.
Proof.
  induction s as [|c r IH]; [reflexivity|].
  cbn [replace_space_runs tokens]. destruct (is_space c) eqn:Ec.
  - destruct r as [|c' r']; [reflexivity|].
    destruct (is_space c') eqn:Ec'; [exact IH|].
    rewrite pieces_space. exact IH.
  - destruct r as [|c' r'].
    + unfold pieces. simpl.
      replace (c =? 32) with false; [reflexivity|].
      symmetry. apply Z.eqb_neq. intros ->. discriminate.
    + unfold pieces in *. cbn [split].
      replace (c =? 32) with false
        by (symmetry; apply Z.eqb_neq; intros ->; discriminate).
      destruct (is_space c') eqn:Ec'.
      * rewrite <- IH. clear IH.
        cbn [replace_space_runs]. rewrite Ec'.
        destruct r' as [|c'' r'']; [reflexivity|].
        destruct (is_space c'') eqn:Ec''.
        -- (* the run goes on: its single space is emitted later *)
           destruct (collapsed_head c'' r'' Ec'') as (rest & ->). reflexivity.
        -- reflexivity.
      * rewrite <- IH. clear IH.
        cbn [replace_space_runs]. rewrite Ec'.
        cbn [split].
        replace (c' =? 32) with false
          by (symmetry; apply Z.eqb_neq; intros ->; discriminate).
        destruct (split_cons (replace_space_runs r')) as (w & ws & ->).
        reflexivity.
Qed.

(** The words the code takes the snippet from are the words of the content. *)
Lemma cleaned_words (s : jsstring) :
  filter truthy (split 32 (trim (replace_cr_lf (replace_space_runs s)))) = tokens s.
Proof.
  rewrite (replace_cr_lf_plain _ (replace_space_runs_plain s)).
  fold (pieces (trim (replace_space_runs s))).
  rewrite (pieces_trim _ (replace_space_runs_plain s)).
  apply pieces_collapsed.
Qed.

Lemma tokens_nonempty (s : jsstring) : Forall (fun w => w <> []) (tokens s).
Proof.
  induction s as [|c r IH]; [constructor|].
  cbn [tokens]. destruct (is_space c); [exact IH|].
  destruct r as [|c' r']; [repeat constructor; discriminate|].
  destruct (is_space c'); [constructor; [discriminate|exact IH]|].
  destruct (tokens (c' :: r')) as [|w ws]; [repeat constructor; discriminate|].
  inversion IH; subst. constructor; [discriminate|assumption].
Qed.

Lemma join_nonempty (sep : jsstring) (ws : list jsstring) :
  ws <> [] -> Forall (fun w => w <> []) ws -> truthy (join sep ws) = true.
Proof.
  destruct ws as [|w ws]; [contradiction|]. intros _ H.
  inversion H as [|? ? Hw _]; subst.
  destruct w as [|c w]; [contradiction|].
  destruct ws; reflexivity.
Qed.

(** *** The label, as the amended claim words it *)

(** The string values of the given metadata fields, in the order of the
    fields. *)
Definition strings_at (o : list (jsstring * jsvalue)) (keys : list jsstring) : list jsstring :=
  flat_map (fun key => match HybridSearch.prop o key with
                       | Some (VString s) => [s]
                       | _ => []
                       end) keys.

(** The strings of [metadata.keywords], when it is an array. *)
Definition keyword_strings (o : list (jsstring * jsvalue)) : list jsstring :=
  match HybridSearch.prop o (js "keywords") with
  | Some (VArray items) =>
      flat_map (fun item => match item with Some s => [s] | None => [] end) items
  | _ => []
  end.

(** The first string that is not empty once trimmed, trimmed. *)
Definition first_nonblank (ss : list jsstring) : option jsstring :=
  option_map trim (find (fun s => truthy (trim s)) ss).

(** The first three words, joined by single spaces; cut after 40 code
    units, trimmed and followed by three dots when longer. *)
Definition snippet_label (text : jsstring) : jsstring :=
  let snippet := join (js " ") (firstn 3 (tokens text)) in
  if (40 <? length snippet)%nat then trim (firstn 40 snippet) ++ js "..." else snippet.

Definition label_by_priority (node : NodeRecord) : jsstring :=
  let o := match metadata node with Some o => o | None => [] end in
  match first_nonblank (strings_at o HybridSearch.preferredKeys) with
  | Some label => label
  | None =>
      match first_nonblank (keyword_strings o) with
      | Some label => label
      | None =>
          match tokens (Supabase.content node) with
          | [] => id node
          | _ :: _ => snippet_label (Supabase.content node)
          end
      end
  end.

Lemma firstPreferred_spec (o : list (jsstring * jsvalue)) (keys : list jsstring) :
  HybridSearch.firstPreferred o keys = first_nonblank (strings_at o keys).
Proof.
  unfold first_nonblank, strings_at. induction keys as [|key keys IH]; [reflexivity|].
  cbn [HybridSearch.firstPreferred flat_map].
  destruct (HybridSearch.prop o key) as [[s|items|]|]; cbn [app find]; try exact IH.
  destruct (truthy (trim s)); [reflexivity|exact IH].
Qed.

Lemma firstKeyword_spec (items : list (option jsstring)) :
  HybridSearch.firstKeyword items
  = first_nonblank (flat_map (fun item => match item with Some s => [s] | None => [] end) items).
Proof.
  unfold first_nonblank. induction items as [|[s|] items IH]; [reflexivity| |exact IH].
  cbn [HybridSearch.firstKeyword flat_map app find].
  destruct (truthy (trim s)); [reflexivity|exact IH].
Qed.

Lemma extractMetadataLabel_spec (node : NodeRecord) :
  HybridSearch.extractMetadataLabel (metadata node) =
    let o := match metadata node with Some o => o | None => [] end in
    match first_nonblank (strings_at o HybridSearch.preferredKeys) with
    | Some label => Some label
    | None => first_nonblank (keyword_strings o)
    end.
Proof.
  unfold HybridSearch.extractMetadataLabel. destruct (metadata node) as [o|]; [|reflexivity].
  cbv zeta. rewrite firstPreferred_spec.
  destruct (first_nonblank (strings_at o HybridSearch.preferredKeys)); [reflexivity|].
  unfold keyword_strings.
  destruct (HybridSearch.prop o (js "keywords")) as [[s|items|]|]; try reflexivity.
  apply firstKeyword_spec.
Qed.

Lemma first_nonblank_truthy (ss : list jsstring) (label : jsstring) :
  first_nonblank ss = Some label -> truthy label = true.
Proof.
  unfold first_nonblank. destruct (find (fun s => truthy (trim s)) ss) as [s|] eqn:E;
    [|discriminate].
  intros [= <-]. now apply find_some in E.
Qed.

Lemma contentLabel_spec (node : NodeRecord) :
  HybridSearch.contentLabel node =
    match tokens (Supabase.content node) with
    | [] => id node
    | _ :: _ => snippet_label (Supabase.content node)
    end.
Proof.
  unfold HybridSearch.contentLabel. cbv zeta.
  rewrite cleaned_words.
  pose proof (cleaned_words (Supabase.content node)) as Hwords.
  destruct (truthy (trim (replace_cr_lf (replace_space_runs (Supabase.content node))))) eqn:E.
  - unfold snippet_label, slice0, HybridSearch.LABEL_WORD_LIMIT, HybridSearch.LABEL_CHAR_LIMIT.
    destruct (tokens (Supabase.content node)) as [|w ws] eqn:Et; [reflexivity|].
    destruct (40 <? length (join (js " ") (firstn 3 (w :: ws))))%nat; [reflexivity|].
    rewrite join_nonempty; [reflexivity|discriminate|].
    pose proof (tokens_nonempty (Supabase.content node)) as Hne. rewrite Et in Hne.
    rewrite Forall_forall in *. intros x Hx. apply Hne.
    rewrite <- (firstn_skipn 3 (w :: ws)). apply in_or_app. now left.
  - destruct (trim (replace_cr_lf (replace_space_runs (Supabase.content node))));
      [|discriminate].
    rewrite <- Hwords. reflexivity.
Qed.

Lemma deriveNodeLabel_spec (node : NodeRecord) :
  HybridSearch.deriveNodeLabel (Some node) = label_by_priority node.
Proof.
  unfold HybridSearch.deriveNodeLabel, label_by_priority.
  rewrite extractMetadataLabel_spec, contentLabel_spec. cbv zeta.
  destruct (first_nonblank (strings_at _ HybridSearch.preferredKeys)) as [label|] eqn:E1.
  { now rewrite (first_nonblank_truthy _ _ E1). }
  destruct (first_nonblank (keyword_strings _)) as [label|] eqn:E2.
  { now rewrite (first_nonblank_truthy _ _ E2). }
  reflexivity.
Qed.

(** *** The label, as the claim words it *)

(** The claim reads "first non-empty string" and "truncated to 40
    characters with an ellipsis": no trimming anywhere. *)
Definition claimed_snippet (text : jsstring) : jsstring :=
  let snippet := join (js " ") (firstn 3 (tokens text)) in
  if (40 <? length snippet)%nat then firstn 40 snippet ++ js "..." else snippet.

Definition claimed_label (node : NodeRecord) : jsstring :=
  let o := match metadata node with Some o => o | None => [] end in
  match find truthy (strings_at o HybridSearch.preferredKeys) with
  | Some label => label
  | None =>
      match find truthy (keyword_strings o) with
      | Some label => label
      | None =>
          match tokens (Supabase.content node) with
          | [] => id node
          | _ :: _ => claimed_snippet (Supabase.content node)
          end
      end
  end.

(** A node whose [label] is three spaces and whose [title] is ["T"]. *)
Definition blank_label_node : NodeRecord :=
  {| id := js "n1"; file_id := js "f1"; node_type := js "text";
     content := js "some content";
     embedding := ProcessFile.localEmbedding (js "some content");
     metadata := Some [ (js "label", VString (js "   "));
                        (js "title", VString (js "T")) ] |}.

(** C9 (counterexample).  The [label] field of the node is a non-empty
    string, three spaces, so by the claim it is the label; the code trims
    it, finds it empty, and answers with the [title]. *)
Lemma blank_label_is_skipped :
  HybridSearch.deriveNodeLabel (Some blank_label_node) = js "T"
  /\ claimed_label blank_label_node = js "   "
  /\ HybridSearch.deriveNodeLabel (Some blank_label_node) <> claimed_label blank_label_node.
Proof.
  assert (Hcode : HybridSearch.deriveNodeLabel (Some blank_label_node) = js "T")
    by reflexivity.
  assert (Hclaim : claimed_label blank_label_node = js "   ") by reflexivity.
  split; [exact Hcode|]. split; [exact Hclaim|].
  rewrite Hcode, Hclaim. discriminate.
Qed.

(** C9 (amended).  The label of a node is, in this order of priority:
    the first of the metadata fields [label], [title], [name], [keyword],
    [heading], [topic] that holds a string which is not empty once trimmed,
    trimmed; else the first string of [metadata.keywords] that is not empty
    once trimmed, trimmed; else the first three white-space-separated words
    of the content joined by single spaces, cut after 40 code units,
    trimmed and followed by ["..."] when longer than 40; else the node id.
    In particular a [label] field that holds a string with a character
    other than white space is the label, trimmed, whatever the other fields
    and the content are, and the metadata [{label: "Foo"}] gives ["Foo"]. *)
Theorem label_priority (node : NodeRecord) :
  HybridSearch.deriveNodeLabel (Some node) = label_by_priority node
  /\ (forall o s, metadata node = Some o ->
        HybridSearch.prop o (js "label") = Some (VString s) ->
        truthy (trim s) = true ->
        HybridSearch.deriveNodeLabel (Some node) = trim s)
  /\ (metadata node = Some [ (js "label", VString (js "Foo")) ] ->
      HybridSearch.deriveNodeLabel (Some node) = js "Foo").
Proof.
  assert (Hlabel : forall o s, metadata node = Some o ->
            HybridSearch.prop o (js "label") = Some (VString s) ->
            truthy (trim s) = true ->
            HybridSearch.deriveNodeLabel (Some node) = trim s).
  { intros o s Hm Hp Ht. rewrite deriveNodeLabel_spec. unfold label_by_priority.
    rewrite Hm. unfold HybridSearch.preferredKeys, strings_at, first_nonblank.
    cbn [flat_map]. rewrite Hp. cbn [app find]. rewrite Ht. reflexivity. }
  split; [apply deriveNodeLabel_spec|]. split; [exact Hlabel|].
  intros Hm. apply (Hlabel _ (js "Foo") Hm); reflexivity.
Qed.

(** A node whose metadata is [{label: "Foo"}], with unrelated content. *)
Definition foo_node : NodeRecord :=
  {| id := js "n1"; file_id := js "f1"; node_type := js "text";
     content := js "some other words";
     embedding := ProcessFile.localEmbedding (js "some other words");
     metadata := Some [ (js "label", VString (js "Foo")) ] |}.

Lemma label_priority_witness :
  HybridSearch.deriveNodeLabel (Some foo_node) = js "Foo".
Proof. exact (proj2 (proj2 (label_priority foo_node)) eq_refl). Defined.

(** ** The sign of a similarity, computed on integers *)

(** The component of dimension [i], times 10000. *)
Definition zcomponent (seed : Z) (i : nat) : Z :=
  2 * (ProcessFile.scramble seed (Z.of_nat i) mod 10000) - 10000.

Definition zvector (text : jsstring) : list Z :=
  map (zcomponent (ProcessFile.seed_of text)) (seq 0 ProcessFile.dim).

Fixpoint zdot (a b : list Z) : Z :=
  match a, b with
  | x :: a', y :: b' => x * y + zdot a' b'
  | _, _ => 0
  end.

Fixpoint dot (a b : list R) : R :=
  match a, b with
  | x :: a', y :: b' => (x * y + dot a' b')%R
  | _, _ => 0%R
  end.

Lemma component_as_integer (seed : Z) (i : nat) :
  ProcessFile.component seed i = (IZR (zcomponent seed i) / 10000)%R.
Proof.
  unfold ProcessFile.component, zcomponent.
  generalize (ProcessFile.scramble seed (Z.of_nat i) mod 10000). intros m.
  rewrite minus_IZR, mult_IZR. lra.
Qed.

Lemma raw_vector_as_integers (text : jsstring) :
  ProcessFile.raw_vector text = map (fun z => (IZR z / 10000)%R) (zvector text).
Proof.
  unfold ProcessFile.raw_vector, zvector. rewrite !map_map.
  apply map_ext. intros i. apply component_as_integer.
Qed.

Lemma embedding_unfolded (text : jsstring) :
  ProcessFile.localEmbedding text
  = map (fun x => (x / sqrt (ProcessFile.sum_squares (ProcessFile.raw_vector text)))%R)
        (ProcessFile.raw_vector text).
Proof.
  pose proof (raw_vector_positive text) as Hpos.
  pose proof (sqrt_lt_R0 _ Hpos) as Hnorm.
  unfold ProcessFile.localEmbedding, ProcessFile.normalize.
  rewrite or_else_nonzero by lra. reflexivity.
Qed.

Lemma scaled_twice (zs : list Z) (norm : R) :
  (0 < norm)%R ->
  map (fun x => (x / norm)%R) (map (fun z => (IZR z / 10000)%R) zs)
  = map (fun z => (IZR z * / (10000 * norm))%R) zs.
Proof.
  intros H. rewrite map_map. apply map_ext. intros z. field. lra.
Qed.

(** The embedding of a text is its integer vector times a positive factor. *)
Lemma embedding_as_integers (text : jsstring) :
  exists c : R, (0 < c)%R /\
    ProcessFile.localEmbedding text = map (fun z => (IZR z * c)%R) (zvector text).
Proof.
  pose proof (sqrt_lt_R0 _ (raw_vector_positive text)) as Hnorm.
  rewrite embedding_unfolded.
  remember (sqrt (ProcessFile.sum_squares (ProcessFile.raw_vector text))) as norm eqn:E.
  clear E. exists (/ (10000 * norm))%R.
  split.
  - apply Rinv_0_lt_compat. lra.
  - rewrite raw_vector_as_integers. now apply scaled_twice.
Qed.

Lemma dot_scaled (za zb : list Z) (ca cb : R) :
  dot (map (fun z => (IZR z * ca)%R) za) (map (fun z => (IZR z * cb)%R) zb)
  = (ca * cb * IZR (zdot za zb))%R.
Proof.
  revert zb. induction za as [|x za IH]; intros [|y zb]; simpl; try lra.
  rewrite IH, plus_IZR, mult_IZR. lra.
Qed.

Lemma cosine_sums_dot (a b : list R) (d x y : R) :
  length a = length b ->
  ProcessFile.cosine_sums a b (d, x, y)
  = ((d + dot a b)%R, (x + ProcessFile.sum_squares a)%R, (y + ProcessFile.sum_squares b)%R).
Proof.
  revert b d x y. induction a as [|u a IH]; intros [|v b] d x y Hlen; try discriminate.
  - cbn. unfold ProcessFile.sum_squares. cbn. f_equal; [f_equal|]; lra.
  - cbn [ProcessFile.cosine_sums hd tl dot].
    rewrite IH by (simpl in Hlen; lia). rewrite !sum_squares_cons.
    f_equal; [f_equal|]; lra.
Qed.

(** For unit vectors of one length the similarity is the dot product. *)
Lemma cosine_of_units (a b : list R) :
  length a = length b ->
  ProcessFile.sum_squares a = 1%R -> ProcessFile.sum_squares b = 1%R ->
  ProcessFile.cosine a b = dot a b.
Proof.
  intros Hlen Ha Hb. unfold ProcessFile.cosine.
  rewrite (cosine_sums_dot a b 0 0 0 Hlen), Ha, Hb.
  rewrite !Rplus_0_l, sqrt_1. lra.
Qed.

Lemma zvector_length (text : jsstring) : length (zvector text) = 768%nat.
Proof. unfold zvector. rewrite length_map, length_seq. reflexivity. Qed.

(** The similarity of the embeddings of two texts has the sign of the dot
    product of their integer vectors. *)
Lemma similarity_as_integers (s t : jsstring) :
  exists c : R, (0 < c)%R /\
    ProcessFile.cosine (ProcessFile.localEmbedding s) (ProcessFile.localEmbedding t)
    = (c * IZR (zdot (zvector s) (zvector t)))%R.
Proof.
  destruct (embedding_as_integers s) as (cs & Hcs & Es).
  destruct (embedding_as_integers t) as (ct & Hct & Et).
  exists (cs * ct)%R. split; [now apply Rmult_lt_0_compat|].
  rewrite cosine_of_units.
  - rewrite Es, Et. apply dot_scaled.
  - rewrite Es, Et, !length_map, !zvector_length. reflexivity.
  - apply embedding_sum_squares.
  - apply embedding_sum_squares.
Qed.

Lemma negative_similarity (s t : jsstring) :
  zdot (zvector s) (zvector t) < 0 ->
  (ProcessFile.cosine (ProcessFile.localEmbedding s) (ProcessFile.localEmbedding t) < 0)%R.
Proof.
  intros Hneg. destruct (similarity_as_integers s t) as (c & Hc & ->).
  apply IZR_lt in Hneg.
  replace 0%R with (c * 0)%R by lra. now apply Rmult_lt_compat_l.
Qed.

(** The two chunks of the text made of 500 letters [a] and one [b]. *)
Definition chunk_a : jsstring := repeat 97 500.
Definition chunk_b : jsstring := [98].

Lemma chunks_ab : ProcessFile.splitIntoChunks (chunk_a ++ chunk_b) = [chunk_a; chunk_b].
Proof. vm_compute. reflexivity. Qed.

Lemma chunks_ab_dot : zdot (zvector chunk_a) (zvector chunk_b) = -908648960.
Proof. vm_compute. reflexivity. Qed.

(** Ingestion gives the two nodes of that text edges of negative weight. *)
Lemma chunks_ab_similarity :
  (ProcessFile.cosine (ProcessFile.localEmbedding chunk_a)
                      (ProcessFile.localEmbedding chunk_b) < 0)%R
  /\ (ProcessFile.cosine (ProcessFile.localEmbedding chunk_b)
                         (ProcessFile.localEmbedding chunk_a) < 0)%R.
Proof.
  split; apply negative_similarity.
  - rewrite chunks_ab_dot. lia.
  - vm_compute. reflexivity.
Qed.

(** ** What ingestion leaves in the store *)

(** The row that [insert_node] creates in world [w] for a chunk. *)
Definition row_of (w : World) (file chunk : jsstring) : NodeRecord :=
  {| id := uuids (db w) (issued (db w)); file_id := file; node_type := js "text";
     content := chunk; embedding := ProcessFile.localEmbedding chunk;
     metadata := Some [] |}.

Definition after_insert (w : World) (file chunk : jsstring) : World :=
  snd (insert_node file (js "text") chunk (ProcessFile.localEmbedding chunk) w).

(** The rows created for a list of chunks, and the world after them. *)
Fixpoint rows_of (w : World) (file : jsstring) (chunks : list jsstring) : list NodeRecord :=
  match chunks with
  | [] => []
  | chunk :: rest => row_of w file chunk :: rows_of (after_insert w file chunk) file rest
  end.

Fixpoint after_inserts (w : World) (file : jsstring) (chunks : list jsstring) : World :=
  match chunks with
  | [] => w
  | chunk :: rest => after_inserts (after_insert w file chunk) file rest
  end.

Lemma embedChunks_runs (file : jsstring) (chunks : list jsstring)
    (embeddings : list (list R)) (ns : list NodeRecord) (w : World) :
  ProcessFile.embedChunks file chunks embeddings ns w
  = (Return (embeddings ++ map ProcessFile.localEmbedding chunks,
             ns ++ rows_of w file chunks),
     after_inserts w file chunks).
Proof.
  revert embeddings ns w. induction chunks as [|chunk rest IH]; intros embeddings ns w.
  - cbn. now rewrite !app_nil_r.
  - cbn [ProcessFile.embedChunks]. unfold bind at 1.
    change (insert_node file (js "text") chunk (ProcessFile.localEmbedding chunk) w)
      with (Return (row_of w file chunk), after_insert w file chunk).
    cbv beta iota. rewrite IH. cbn [map rows_of after_inserts].
    now rewrite <- !app_assoc.
Qed.

(** Ingestion of a file whose text downloads: one node a chunk, the
    builder's edges between them, the status set, the counts returned. *)
Lemma ingestion_runs (req : ProcessFile.Request) (w : World) (text : jsstring) :
  option_map snd (find (fun o => jsstring_eqb (fst o) (ProcessFile.fileName req))
                       (uploads (db w))) = Some text ->
  let chunks := ProcessFile.splitIntoChunks text in
  let w1 := logged (Download (ProcessFile.fileName req)) w in
  let created := rows_of w1 (ProcessFile.fileId req) chunks in
  let built := ProcessFile.buildEdges created (map ProcessFile.localEmbedding chunks) in
  ProcessFile.handler req w
  = (ProcessFile.Ok200 {| ProcessFile.success := true;
                          ProcessFile.nodesCreated := Z.of_nat (length created);
                          ProcessFile.edgesCreated := Z.of_nat (length built) |},
     snd (update_file_status (ProcessFile.fileId req) (js "completed")
            (snd (insert_edges built
                    (after_inserts w1 (ProcessFile.fileId req) chunks))))).
Proof.
  intros Hdl. cbv zeta.
  unfold ProcessFile.handler, ProcessFile.serve.
  unfold bind at 1. unfold storage_download. rewrite Hdl.
  unfold bind at 1. rewrite embedChunks_runs. cbn [fst snd app].
  reflexivity.
Qed.

(** *** A text of two chunks, ingested and then queried *)

(** A store that holds the uploaded text [a...ab] and no node yet; the
    table will hand out the ids [n0], [n1], ... *)
Definition uploaded_ab : World :=
  {| db := {| files := [ {| file_key := js "f1"; status := js "processing" |} ];
              nodes := []; edges := [];
              uploads := [ (js "ab.txt", chunk_a ++ chunk_b) ];
              uuids := fun k => js "n" ++ [48 + Z.of_nat k];
              issued := 0 |};
     log := [] |}.

Definition ingest_ab : ProcessFile.Request :=
  {| ProcessFile.fileId := js "f1"; ProcessFile.fileName := js "ab.txt" |}.

Definition weight_ab : R :=
  ProcessFile.cosine (ProcessFile.localEmbedding chunk_a) (ProcessFile.localEmbedding chunk_b).

Definition weight_ba : R :=
  ProcessFile.cosine (ProcessFile.localEmbedding chunk_b) (ProcessFile.localEmbedding chunk_a).

(** Ingestion answers with two nodes and two edges, and leaves in the
    store the two chunks and an edge each way, weighted by their similarity. *)
Lemma ingest_ab_store :
  fst (ProcessFile.handler ingest_ab uploaded_ab)
  = ProcessFile.Ok200 {| ProcessFile.success := true;
                         ProcessFile.nodesCreated := 2;
                         ProcessFile.edgesCreated := 2 |}
  /\ nodes (db (snd (ProcessFile.handler ingest_ab uploaded_ab)))
     = [ ingested (js "n0") (js "f1") chunk_a; ingested (js "n1") (js "f1") chunk_b ]
  /\ edges (db (snd (ProcessFile.handler ingest_ab uploaded_ab)))
     = [ semantic (js "n0") (js "n1") weight_ab; semantic (js "n1") (js "n0") weight_ba ].
Proof.
  rewrite (ingestion_runs ingest_ab uploaded_ab (chunk_a ++ chunk_b) eq_refl).
  cbv zeta. rewrite chunks_ab.
  cbn [rows_of after_inserts after_insert row_of insert_node insert_edges update_file_status
       snd fst db nodes edges files uploads uuids issued log logged app map length
       uploaded_ab ingest_ab ProcessFile.fileId ProcessFile.fileName].
  unfold ProcessFile.buildEdges, ProcessFile.top5, ProcessFile.scoresOf, slice0, ProcessFile.K.
  cbn [length seq flat_map Nat.eqb app map sort fold_right sort_insert firstn nth
       ProcessFile.toEdge ProcessFile.idAt id ProcessFile.j ProcessFile.sim Z.of_nat
       Pos.of_succ_nat Pos.succ].
  change (js "n" ++ [48 + 0]) with (js "n0").
  change (js "n" ++ [48 + 1]) with (js "n1").
  split; [reflexivity|]. split; [reflexivity|].
  unfold ProcessFile.toEdge, semantic, weight_ab, weight_ba, row_of, ProcessFile.idAt.
  cbn [map nth id ProcessFile.j ProcessFile.sim uuids issued db logged uploaded_ab].
  reflexivity.
Qed.

(** *** Every node of the file in the answer, when [topK] has room *)

Lemma Set_has_perm (l l' : list jsstring) (k : jsstring) :
  Permutation l l' -> Set_has l k = Set_has l' k.
Proof.
  intros Hp. destruct (Set_has l' k) eqn:E.
  - apply Set_has_In. apply Set_has_In in E.
    now apply (Permutation_in _ (Permutation_sym Hp)).
  - destruct (Set_has l k) eqn:E'; [|reflexivity].
    apply Set_has_In in E'. apply (Permutation_in _ Hp) in E'.
    apply Set_has_In in E'. congruence.
Qed.

Lemma weights_of_edges (lookup : Map NodeRecord) (i : jsstring) (es : list EdgeRecord) :
  weights i (map (HybridSearch.toGraphResult lookup) es)
  = map weight (filter (fun e => jsstring_eqb (target_node_id e) i) es).
Proof.
  unfold weights, contributing. induction es as [|e es IH]; [reflexivity|].
  cbn [map filter]. cbn [GR.nodeId HybridSearch.toGraphResult].
  destruct (jsstring_eqb (target_node_id e) i); cbn [map]; now rewrite IH.
Qed.

(** The edges that reach node [i] from the nodes of the file. *)
Definition incoming (w : World) (file i : jsstring) : list EdgeRecord :=
  filter (fun e => jsstring_eqb (target_node_id e) i)
         (outgoing w (map id (scope w file))).

(** When [topK] has room for every node and every edge target, each node
    of the file is a hybrid result: its [vectorScore] is its similarity to
    the query, its [connections] the number of edges that reach it from the
    nodes of the file, and its [graphScore] the greatest of 0 and the
    weights of those edges. *)
Lemma node_in_answer (req : HybridSearch.Request) (w : World) (n : NodeRecord) :
  NoDup (map id (nodes (db w))) ->
  In n (scope w (HybridSearch.fileId req)) ->
  (length (scope w (HybridSearch.fileId req)) + length (edges (db w))
   <= HybridSearch.topK req)%nat ->
  exists (body : HybridSearch.Body) (w' : World),
    HybridSearch.handler req w = (HybridSearch.Ok200 body, w')
    /\ weights (id n) (HybridSearch.graphResults body)
       = map weight (incoming w (HybridSearch.fileId req) (id n))
    /\ exists h, In h (HybridSearch.hybridResults body)
         /\ HR.nodeId h = id n
         /\ HR.vectorScore h
            = HybridSearch.cosine (HybridSearch.localEmbedding (HybridSearch.query req))
                                  (embedding n)
         /\ HR.connections h
            = Z.of_nat (length (incoming w (HybridSearch.fileId req) (id n)))
         /\ HR.graphScore h
            = fold_left Rmax (map weight (incoming w (HybridSearch.fileId req) (id n))) 0%R.
Proof.
  intros Hnd Hin Hroom.
  assert (Hne : scope w (HybridSearch.fileId req) <> []) by (intros E; rewrite E in Hin; exact Hin).
  destruct (handler_runs req w Hne) as (lookup & w' & Hrun). cbv zeta in Hrun.
  set (qe := HybridSearch.localEmbedding (HybridSearch.query req)) in *.
  set (typedNodes := scope w (HybridSearch.fileId req)) in *.
  set (vr := HybridSearch.vectorSearch qe typedNodes (HybridSearch.topK req)) in *.
  assert (Hperm : Permutation vr (map (HybridSearch.toVectorResult qe) typedNodes)).
  { apply vectorSearch_all. eapply Nat.le_trans; [apply Nat.le_add_r|exact Hroom]. }
  assert (Hids : Permutation (map VR.nodeId vr) (map id typedNodes)).
  { rewrite (Permutation_map VR.nodeId Hperm), map_map. reflexivity. }
  assert (Hedges : outgoing w (map VR.nodeId vr) = outgoing w (map id typedNodes)).
  { unfold outgoing. apply filter_ext. intros e. now apply Set_has_perm. }
  rewrite Hedges in Hrun.
  set (typedEdges := outgoing w (map id typedNodes)) in *.
  set (gr := map (HybridSearch.toGraphResult lookup) typedEdges) in *.
  assert (Hweights : weights (id n) gr = map weight (incoming w (HybridSearch.fileId req) (id n)))
    by apply weights_of_edges.
  eexists _, w'. split; [exact Hrun|].
  cbn [HybridSearch.graphResults HybridSearch.hybridResults].
  split; [exact Hweights|].
  assert (Hv : In (HybridSearch.toVectorResult qe n) vr).
  { apply (Permutation_in _ (Permutation_sym Hperm)). now apply in_map. }
  destruct (fusion_of_node lookup vr gr (id n)
              (vectorSearch_distinct qe w (HybridSearch.fileId req) (HybridSearch.topK req) Hnd))
    as [Hboth _].
  specialize (Hboth _ Hv eq_refl).
  eexists. split.
  - apply hybridRank_all; [|apply (Map_get_In _ _ _ _ Hboth)].
    pose proof (mergeResults_length lookup vr gr) as Hlen.
    assert (Hvr : length vr = length typedNodes)
      by (rewrite (Permutation_length Hperm); apply length_map).
    assert (Hgr : (length gr <= length (edges (db w)))%nat).
    { unfold gr. rewrite length_map. unfold typedEdges, outgoing. apply filter_length_le. }
    eapply Nat.le_trans; [exact Hlen|]. rewrite Hvr.
    eapply Nat.le_trans; [apply Nat.add_le_mono_l; exact Hgr|exact Hroom].
  - cbn [HybridSearch.toHybridResult HR.nodeId HR.vectorScore HR.connections HR.graphScore
         CR.nodeId CR.vectorScore CR.connections CR.graphScore
         HybridSearch.toVectorResult VR.vectorScore].
    rewrite Hweights.
    split; [reflexivity|]. split; [reflexivity|]. split; [|reflexivity].
    rewrite <- (length_map weight), <- Hweights.
    unfold weights. now rewrite length_map.
Qed.

(** A file of two nodes [n0] and [n1] joined by the two edges that ingestion
    builds, the one towards [n1] of negative weight: [n1] is answered with
    one connection and [graphScore] 0. *)
Lemma negative_weight_answer (w : World) (a b : NodeRecord) (wab wba : R) (q : jsstring) :
  id a = js "n0" -> id b = js "n1" ->
  file_id a = js "f1" -> file_id b = js "f1" ->
  nodes (db w) = [a; b] ->
  edges (db w) = [ semantic (js "n0") (js "n1") wab; semantic (js "n1") (js "n0") wba ] ->
  (wab < 0)%R ->
  exists (body : HybridSearch.Body) (w' : World),
    HybridSearch.handler (ask q (1 / 2) (1 / 2) 10) w = (HybridSearch.Ok200 body, w')
    /\ weights (js "n1") (HybridSearch.graphResults body) = [wab]
    /\ exists h, In h (HybridSearch.hybridResults body)
         /\ HR.nodeId h = js "n1"
         /\ HR.connections h = 1
         /\ HR.graphScore h = 0%R.
Proof.
  intros Ha Hb Hfa Hfb Hnodes Hedges Hneg.
  assert (Hscope : scope w (js "f1") = [a; b]).
  { unfold scope. rewrite Hnodes. cbn [filter]. rewrite Hfa, Hfb. reflexivity. }
  assert (Hincoming : incoming w (js "f1") (js "n1") = [ semantic (js "n0") (js "n1") wab ]).
  { unfold incoming, outgoing. rewrite Hscope, Hedges.
    cbn [map]. rewrite Ha, Hb. reflexivity. }
  pose proof (node_in_answer (ask q (1 / 2) (1 / 2) 10) w b) as H.
  change (HybridSearch.fileId (ask q (1 / 2) (1 / 2) 10)) with (js "f1") in H.
  change (HybridSearch.topK (ask q (1 / 2) (1 / 2) 10)) with 10%nat in H.
  rewrite Hb, Hincoming, Hscope, Hedges, Hnodes in H.
  cbn [map length Nat.add weight semantic fold_left] in H.
  rewrite Ha, Hb in H.
  destruct H as (body & w' & Hrun & Hweights & h & Hh & Hid & _ & Hconn & Hscore).
  - constructor; [intros [H|[]]; discriminate|].
    constructor; [intros []|constructor].
  - right. left. reflexivity.
  - repeat constructor.
  - exists body, w'. split; [exact Hrun|]. split; [exact Hweights|].
    exists h. split; [exact Hh|]. split; [exact Hid|]. split; [exact Hconn|].
    rewrite Hscore. unfold Rmax. destruct (Rle_dec 0 wab) as [Hle|Hnle].
    + exfalso. apply (Rlt_irrefl 0), (Rle_lt_trans _ _ _ Hle Hneg).
    + reflexivity.
Qed.

(** The text [a...ab] is ingested and the file is then queried with room
    for every result.  The edge [n0 -> n1] that ingestion stored has a
    negative weight, the similarity of the two chunks; [n1] is in the
    answer with that one connection and with [graphScore] 0. *)
Lemma negative_weights_from_ingestion :
  let w := snd (ProcessFile.handler ingest_ab uploaded_ab) in
  (weight_ab < 0)%R
  /\ exists (body : HybridSearch.Body) (w' : World),
       HybridSearch.handler (ask (js "b") (1 / 2) (1 / 2) 10) w = (HybridSearch.Ok200 body, w')
       /\ weights (js "n1") (HybridSearch.graphResults body) = [weight_ab]
       /\ exists h, In h (HybridSearch.hybridResults body)
            /\ HR.nodeId h = js "n1"
            /\ HR.connections h = 1
            /\ HR.graphScore h = 0%R.
Proof.
  cbv zeta. destruct ingest_ab_store as (_ & Hnodes & Hedges).
  assert (Hneg : (weight_ab < 0)%R) by exact (proj1 chunks_ab_similarity).
  split; [exact Hneg|].
  exact (negative_weight_answer _ (ingested (js "n0") (js "f1") chunk_a)
           (ingested (js "n1") (js "f1") chunk_b) weight_ab weight_ba (js "b")
           eq_refl eq_refl eq_refl eq_refl Hnodes Hedges Hneg).
Qed.

(* ================================================================== *)
(** * Further properties                                               *)
(* ================================================================== *)

(** ** [cosine]: symmetry and range *)

Local Open Scope R_scope.

Lemma cosine_same (a b : list R) : HybridSearch.cosine a b = ProcessFile.cosine a b.
Proof.
  unfold HybridSearch.cosine, ProcessFile.cosine.
  assert (H : forall acc, HybridSearch.cosine_sums a b acc = ProcessFile.cosine_sums a b acc).
  { revert b. induction a as [|x a IH]; intros b acc; [reflexivity|].
    cbn [HybridSearch.cosine_sums ProcessFile.cosine_sums].
    destruct acc as [[d na] nb]. apply IH. }
  now rewrite H.
Qed.

(** For vectors of one length [cosine] is the quotient the name says. *)
Lemma cosine_quotient (a b : list R) :
  length a = length b ->
  ProcessFile.cosine a b
  = dot a b / (sqrt (ProcessFile.sum_squares a) * sqrt (ProcessFile.sum_squares b)).
Proof.
  intros Hlen. unfold ProcessFile.cosine.
  rewrite (cosine_sums_dot a b 0 0 0 Hlen), !Rplus_0_l. reflexivity.
Qed.

Lemma dot_comm (a b : list R) : dot a b = dot b a.
Proof.
  revert b. induction a as [|x a IH]; intros [|y b]; simpl; try reflexivity.
  rewrite IH. lra.
Qed.

(** One step of the Cauchy-Schwarz inequality. *)
Lemma cauchy_schwarz_step (x y d A B : R) :
  0 <= A -> 0 <= B -> d * d <= A * B ->
  (x * y + d) * (x * y + d) <= (x * x + A) * (y * y + B).
Proof.
  intros HA HB Hd.
  set (P := x * x * B + y * y * A).
  set (Q := 2 * (x * y * d)).
  assert (HP : 0 <= P).
  { unfold P. pose proof (Rle_0_sqr x) as Hx. pose proof (Rle_0_sqr y) as Hy.
    unfold Rsqr in *.
    pose proof (Rmult_le_pos _ _ Hx HB). pose proof (Rmult_le_pos _ _ Hy HA). lra. }
  assert (Hsq : Q * Q <= P * P).
  { assert (E : P * P - Q * Q
                = (x * x * B - y * y * A) * (x * x * B - y * y * A)
                  + 4 * ((x * y) * (x * y)) * (A * B - d * d)) by (unfold P, Q; ring).
    pose proof (Rle_0_sqr (x * x * B - y * y * A)) as H1.
    pose proof (Rle_0_sqr (x * y)) as H2. unfold Rsqr in *.
    assert (H3 : 0 <= 4 * (x * y * (x * y)) * (A * B - d * d)).
    { apply Rmult_le_pos; lra. }
    lra. }
  assert (HQP : Q <= P).
  { destruct (Rle_lt_dec Q P) as [H|H]; [exact H|].
    exfalso.
    assert (H1 : 0 < (Q - P) * (Q + P)) by (apply Rmult_lt_0_compat; lra).
    replace ((Q - P) * (Q + P)) with (Q * Q - P * P) in H1 by ring. lra. }
  replace ((x * y + d) * (x * y + d)) with (x * y * (x * y) + Q + d * d) by (unfold Q; ring).
  replace ((x * x + A) * (y * y + B)) with (x * y * (x * y) + P + A * B) by (unfold P; ring).
  lra.
Qed.

Lemma cauchy_schwarz (a b : list R) :
  length a = length b ->
  dot a b * dot a b <= ProcessFile.sum_squares a * ProcessFile.sum_squares b.
Proof.
  revert b. induction a as [|x a IH]; intros [|y b] Hlen; try discriminate.
  - unfold ProcessFile.sum_squares. simpl. lra.
  - cbn [dot]. rewrite !sum_squares_cons.
    apply cauchy_schwarz_step.
    + apply sum_squares_nonneg.
    + apply sum_squares_nonneg.
    + apply IH. simpl in Hlen. lia.
Qed.

Lemma dot_below_norms (a b : list R) :
  length a = length b ->
  Rabs (dot a b) <= sqrt (ProcessFile.sum_squares a) * sqrt (ProcessFile.sum_squares b).
Proof.
  intros Hlen.
  rewrite <- sqrt_mult by apply sum_squares_nonneg.
  rewrite <- sqrt_Rsqr_abs. apply sqrt_le_1.
  - apply Rle_0_sqr.
  - apply Rmult_le_pos; apply sum_squares_nonneg.
  - unfold Rsqr. now apply cauchy_schwarz.
Qed.

Lemma cosine_comm (a b : list R) :
  length a = length b -> ProcessFile.cosine a b = ProcessFile.cosine b a.
Proof.
  intros Hlen.
  rewrite (cosine_quotient a b Hlen), (cosine_quotient b a (eq_sym Hlen)), dot_comm.
  f_equal. apply Rmult_comm.
Qed.

Lemma cosine_range (a b : list R) :
  length a = length b ->
  ProcessFile.sum_squares a <> 0 -> ProcessFile.sum_squares b <> 0 ->
  -1 <= ProcessFile.cosine a b <= 1.
Proof.
  intros Hlen Ha Hb.
  assert (Hpa : 0 < sqrt (ProcessFile.sum_squares a)).
  { apply sqrt_lt_R0. pose proof (sum_squares_nonneg a). lra. }
  assert (Hpb : 0 < sqrt (ProcessFile.sum_squares b)).
  { apply sqrt_lt_R0. pose proof (sum_squares_nonneg b). lra. }
  assert (Hs : 0 < sqrt (ProcessFile.sum_squares a) * sqrt (ProcessFile.sum_squares b))
    by now apply Rmult_lt_0_compat.
  rewrite (cosine_quotient a b Hlen).
  pose proof (dot_below_norms a b Hlen) as Hd.
  pose proof (Rle_abs (dot a b)) as Hup.
  pose proof (Rle_abs (- dot a b)) as Hlow. rewrite Rabs_Ropp in Hlow.
  set (s := sqrt (ProcessFile.sum_squares a) * sqrt (ProcessFile.sum_squares b)) in *.
  split.
  - apply (Rmult_le_reg_r s); [exact Hs|].
    unfold Rdiv. rewrite Rmult_assoc, Rinv_l by lra. lra.
  - apply (Rmult_le_reg_r s); [exact Hs|].
    unfold Rdiv. rewrite Rmult_assoc, Rinv_l by lra. lra.
Qed.

(** X1.  [cosine] of two vectors of the same length is the same in both
    argument orders, for the copy in the query engine and for the copy in
    the ingestion function, and the two copies give the same number on the
    same arguments.  (The code computes the same products and the same sums
    in both orders, so this holds of its doubles as well.) *)
Theorem cosine_symmetric (a b : list R) :
  length a = length b ->
  ProcessFile.cosine a b = ProcessFile.cosine b a
  /\ HybridSearch.cosine a b = HybridSearch.cosine b a
  /\ HybridSearch.cosine a b = ProcessFile.cosine a b.
Proof.
  intros Hlen.
  pose proof (cosine_comm a b Hlen) as Hsym.
  rewrite (cosine_same a b), (cosine_same b a).
  split; [exact Hsym|]. split; [exact Hsym|reflexivity].
Qed.

Lemma cosine_symmetric_witness :
  length [1; 0] = length [3; 4]
  /\ ProcessFile.cosine [1; 0] [3; 4] = ProcessFile.cosine [3; 4] [1; 0]
  /\ HybridSearch.cosine [1; 0] [3; 4] = HybridSearch.cosine [3; 4] [1; 0].
Proof.
  split; [reflexivity|].
  destruct (cosine_symmetric [1; 0] [3; 4] eq_refl) as (H1 & H2 & _).
  split; [exact H1 | exact H2].
Defined.

Local Close Scope R_scope.

(** ** [splitIntoChunks] on every text *)

Lemma splitIntoChunks_scan (text : jsstring) :
  ProcessFile.splitIntoChunks text
  = re_scan ProcessFile.chunk_class ProcessFile.CHUNK (length text) text.
Proof.
  unfold ProcessFile.splitIntoChunks, match_all.
  destruct (re_scan ProcessFile.chunk_class ProcessFile.CHUNK (length text) text); reflexivity.
Qed.

(** The code units the pattern [(.|\n)] does not match. *)
Lemma chunk_class_false (c : Z) :
  ProcessFile.chunk_class c = false <-> c = 13 \/ c = 8232 \/ c = 8233.
Proof.
  unfold ProcessFile.chunk_class, re_dot, is_line_terminator.
  destruct (Z.eqb_spec c 10), (Z.eqb_spec c 13), (Z.eqb_spec c 8232), (Z.eqb_spec c 8233);
    cbn; split; intros H; try discriminate; try lia; auto.
Qed.

Lemma re_greedy_spec (p : Z -> bool) (n : nat) (text m r : jsstring) :
  re_greedy p n text = (m, r) ->
  text = m ++ r /\ forallb p m = true /\ (length m <= n)%nat.
Proof.
  revert text m r. induction n as [|n IH]; intros text m r H.
  - destruct text; cbn in H; injection H as <- <-; cbn; auto.
  - destruct text as [|c rest]; [cbn in H; injection H as <- <-; cbn; auto with arith|].
    cbn [re_greedy] in H. destruct (p c) eqn:Hc.
    + destruct (re_greedy p n rest) as [m' r'] eqn:E.
      injection H as <- <-.
      destruct (IH _ _ _ E) as (-> & Hall & Hlen).
      cbn. rewrite Hc, Hall. split; [reflexivity|]. split; [reflexivity|lia].
    + injection H as <- <-. cbn. auto with arith.
Qed.

Lemma filter_all {A : Type} (p : A -> bool) (l : list A) :
  forallb p l = true -> filter p l = l.
Proof.
  induction l as [|x l IH]; cbn; [reflexivity|].
  intros H. apply andb_prop in H as [Hx Hl]. now rewrite Hx, IH.
Qed.

(** The scan keeps, in order, exactly the code units of the class. *)
Lemma re_scan_law (p : Z -> bool) (n fuel : nat) (text : jsstring) :
  (length text <= fuel)%nat ->
  List.concat (re_scan p (S n) fuel text) = filter p text
  /\ Forall (fun c => (1 <= length c <= S n)%nat /\ forallb p c = true)
            (re_scan p (S n) fuel text).
Proof.
  revert text. induction fuel as [|fuel IH]; intros text Hlen.
  - destruct text; [cbn; auto | cbn in Hlen; lia].
  - destruct text as [|c rest]; [cbn; auto|].
    cbn [re_scan re_greedy]. destruct (p c) eqn:Hc.
    + destruct (re_greedy p n rest) as [m r] eqn:E.
      destruct (re_greedy_spec _ _ _ _ _ E) as (-> & Hall & Hm).
      assert (Hr : (length r <= fuel)%nat).
      { cbn in Hlen. rewrite length_app in Hlen. lia. }
      destruct (IH r Hr) as (Hcat & Hchunks).
      split.
      * cbn [List.concat filter]. rewrite Hc, Hcat, filter_app, (filter_all _ _ Hall).
        reflexivity.
      * constructor; [|exact Hchunks].
        cbn [length forallb]. rewrite Hc, Hall. split; [lia|reflexivity].
    + assert (Hr : (length rest <= fuel)%nat) by (cbn in Hlen; lia).
      destruct (IH rest Hr) as (Hcat & Hchunks).
      cbn [filter]. rewrite Hc. split; assumption.
Qed.

(** There is no chunk exactly when no code unit of the text is in the
    class. *)
Lemma splitIntoChunks_nil_iff (text : jsstring) :
  ProcessFile.splitIntoChunks text = []
  <-> Forall (fun c => c = 13 \/ c = 8232 \/ c = 8233) text.
Proof.
  rewrite splitIntoChunks_scan. change ProcessFile.CHUNK with (S 499).
  destruct (re_scan_law ProcessFile.chunk_class 499 (length text) text (le_n _))
    as (Hcat & Hchunks).
  split.
  - intros E. rewrite E in Hcat. cbn in Hcat.
    apply Forall_forall. intros c Hc.
    apply chunk_class_false.
    destruct (ProcessFile.chunk_class c) eqn:Ec; [|reflexivity].
    assert (Hin : In c (filter ProcessFile.chunk_class text))
      by (apply filter_In; split; assumption).
    rewrite <- Hcat in Hin. contradiction.
  - intros Hall.
    assert (Hnone : filter ProcessFile.chunk_class text = []).
    { clear Hcat Hchunks. induction text as [|c text IH]; [reflexivity|].
      inversion Hall as [|? ? Hc Hrest]; subst.
      cbn. rewrite (proj2 (chunk_class_false c) Hc). now apply IH. }
    rewrite Hnone in Hcat.
    destruct (re_scan ProcessFile.chunk_class (S 499) (length text) text) as [|m ms];
      [reflexivity|].
    exfalso. inversion Hchunks as [|? ? [Hm _] _]; subst.
    cbn in Hcat. apply app_eq_nil in Hcat as [-> _]. cbn in Hm. lia.
Qed.

(** X2.  On every text the chunks are, in order and without overlap, the
    text with its carriage returns (U+000D), line separators (U+2028) and
    paragraph separators (U+2029) removed, and nothing else: the chunks
    concatenate to the text filtered by the pattern's class; every chunk
    has between 1 and 500 code units, none of them one of the three; and
    there is no chunk at all exactly when the text consists of those three
    code units only (the empty text included). *)
Theorem splitIntoChunks_drops_only_line_breaks (text : jsstring) :
  List.concat (ProcessFile.splitIntoChunks text)
  = filter (fun c => negb ((c =? 13) || (c =? 8232) || (c =? 8233))%Z) text
  /\ Forall (fun chunk => (1 <= length chunk <= 500)%nat
                          /\ Forall (fun c => c <> 13 /\ c <> 8232 /\ c <> 8233) chunk)
            (ProcessFile.splitIntoChunks text)
  /\ (ProcessFile.splitIntoChunks text = []
      <-> Forall (fun c => c = 13 \/ c = 8232 \/ c = 8233) text).
Proof.
  rewrite splitIntoChunks_scan. change ProcessFile.CHUNK with (S 499).
  destruct (re_scan_law ProcessFile.chunk_class 499 (length text) text (le_n _))
    as (Hcat & Hchunks).
  assert (Hclass : forall c, ProcessFile.chunk_class c
                             = negb ((c =? 13) || (c =? 8232) || (c =? 8233))%Z).
  { intros c. destruct (ProcessFile.chunk_class c) eqn:E.
    - destruct (Z.eqb_spec c 13) as [->|]; [discriminate|].
      destruct (Z.eqb_spec c 8232) as [->|]; [discriminate|].
      destruct (Z.eqb_spec c 8233) as [->|]; [discriminate|]. reflexivity.
    - apply chunk_class_false in E as [->|[->| ->]]; reflexivity. }
  assert (Hfilter : filter ProcessFile.chunk_class text
                    = filter (fun c => negb ((c =? 13) || (c =? 8232) || (c =? 8233))%Z) text)
    by (apply filter_ext; exact Hclass).
  split; [now rewrite Hcat|]. split.
  - eapply Forall_impl; [|exact Hchunks].
    intros chunk [Hlen Hall]. split; [exact Hlen|].
    apply Forall_forall. intros c Hc.
    rewrite forallb_forall in Hall. specialize (Hall c Hc).
    repeat split; intros ->; discriminate.
  - change (S 499) with ProcessFile.CHUNK.
    rewrite <- splitIntoChunks_scan. apply splitIntoChunks_nil_iff.
Qed.

(** ** [splitIntoChunks] on a text without the three code units *)

(** The text cut every [n] code units; [fuel] bounds the number of cuts. *)
Fixpoint cut_every (n fuel : nat) (text : jsstring) : list jsstring :=
  match fuel with
  | O => []
  | S fuel' =>
      match text with
      | [] => []
      | _ :: _ => firstn n text :: cut_every n fuel' (skipn n text)
      end
  end.

Lemma re_scan_cut (p : Z -> bool) (n fuel : nat) (text : jsstring) :
  forallb p text = true ->
  re_scan p (S n) fuel text = cut_every (S n) fuel text.
Proof.
  revert text. induction fuel as [|fuel IH]; intros text Hp; [reflexivity|].
  destruct text as [|c rest]; [reflexivity|].
  cbn [re_scan cut_every]. rewrite (re_greedy_all _ _ _ Hp).
  cbn [firstn skipn]. f_equal. apply IH.
  cbn in Hp. apply andb_prop in Hp as [_ Hp]. now apply forallb_skipn.
Qed.

Lemma cut_every_length (n fuel : nat) (text : jsstring) :
  (length text <= fuel)%nat ->
  length (cut_every (S n) fuel text) = ((length text + n) / S n)%nat.
Proof.
  revert text. induction fuel as [|fuel IH]; intros text Hlen.
  - destruct text; [|cbn in Hlen; lia]. cbn [cut_every length].
    symmetry. apply Nat.div_small. lia.
  - destruct text as [|c rest].
    + cbn [cut_every length]. symmetry. apply Nat.div_small. lia.
    + cbn [cut_every length skipn]. rewrite IH by (rewrite length_skipn; cbn in Hlen; lia).
      rewrite length_skipn.
      destruct (Nat.le_gt_cases (length rest) n) as [Hle|Hgt].
      * replace (length rest - n)%nat with 0%nat by lia.
        rewrite (Nat.div_small (0 + n)) by lia.
        replace (S (length rest) + n)%nat with ((length rest) + 1 * S n)%nat by lia.
        rewrite Nat.div_add by lia. rewrite Nat.div_small by lia. reflexivity.
      * replace (S (length rest) + n)%nat with ((length rest - n + n) + 1 * S n)%nat by lia.
        rewrite Nat.div_add by lia. lia.
Qed.

Lemma cut_every_nth (n fuel k : nat) (text : jsstring) :
  (length text <= fuel)%nat -> (k * S n < length text)%nat ->
  nth_error (cut_every (S n) fuel text) k = Some (firstn (S n) (skipn (k * S n) text)).
Proof.
  revert fuel text. induction k as [|k IH]; intros fuel text Hfuel Hk.
  - destruct fuel as [|fuel]; [lia|]. destruct text as [|c rest]; [cbn in Hk; lia|].
    reflexivity.
  - destruct fuel as [|fuel]; [lia|]. destruct text as [|c rest]; [cbn in Hk; lia|].
    cbn [cut_every nth_error].
    rewrite IH.
    + f_equal. f_equal.
      change (S k * S n)%nat with (S n + k * S n)%nat.
      rewrite (Nat.add_comm (S n)), <- skipn_skipn. reflexivity.
    + cbn [skipn]. rewrite length_skipn. cbn in Hfuel. lia.
    + cbn [skipn]. rewrite length_skipn. cbn in Hk |- *. lia.
Qed.

(** X3.  On a text that holds no carriage return, line separator or
    paragraph separator, chunk [k] is the code units [500 k] to
    [500 k + 499] of the text (fewer at the end of the text), and the
    number of chunks is the length of the text divided by 500, rounded
    up. *)
Theorem splitIntoChunks_cuts_every_500 (text : jsstring) :
  Forall (fun c => c <> 13 /\ c <> 8232 /\ c <> 8233) text ->
  length (ProcessFile.splitIntoChunks text) = ((length text + 499) / 500)%nat
  /\ forall k, (k * 500 < length text)%nat ->
       nth_error (ProcessFile.splitIntoChunks text) k
       = Some (firstn 500 (skipn (k * 500) text)).
Proof.
  intros Hclean.
  assert (Hp : forallb ProcessFile.chunk_class text = true).
  { apply forallb_forall. intros c Hc.
    rewrite Forall_forall in Hclean. specialize (Hclean c Hc).
    destruct (ProcessFile.chunk_class c) eqn:E; [reflexivity|].
    apply chunk_class_false in E. lia. }
  rewrite splitIntoChunks_scan. change ProcessFile.CHUNK with (S 499).
  rewrite (re_scan_cut _ _ _ _ Hp). split.
  - apply cut_every_length. apply le_n.
  - intros k Hk. apply cut_every_nth; [apply le_n|exact Hk].
Qed.

Lemma splitIntoChunks_cuts_every_500_witness :
  Forall (fun c => c <> 13 /\ c <> 8232 /\ c <> 8233) (chunk_a ++ chunk_b)
  /\ length (ProcessFile.splitIntoChunks (chunk_a ++ chunk_b)) = 2%nat.
Proof.
  assert (H : Forall (fun c => c <> 13 /\ c <> 8232 /\ c <> 8233) (chunk_a ++ chunk_b)).
  { apply Forall_app. split.
    - unfold chunk_a. apply Forall_forall. intros c Hc.
      apply repeat_spec in Hc. subst c. lia.
    - unfold chunk_b. repeat constructor; lia. }
  split; [exact H|].
  exact (proj1 (splitIntoChunks_cuts_every_500 (chunk_a ++ chunk_b) H)).
Defined.

(** ** Ingestion: the answer and the store it leaves *)

(** The text of the object [name] of the bucket, when there is one. *)
Definition stored_text (w : World) (name : jsstring) : option jsstring :=
  option_map snd (find (fun o => jsstring_eqb (fst o) name) (uploads (db w))).

(** The rows ingestion creates for the chunks of a file: row [k] gets the
    [k]-th id the table hands out. *)
Definition created_rows (w : World) (file : jsstring) (chunks : list jsstring)
    : list NodeRecord :=
  map (fun kc => ingested (uuids (db w) (issued (db w) + fst kc)) file (snd kc))
      (combine (seq 0 (length chunks)) chunks).

Lemma rows_of_created (w : World) (file : jsstring) (chunks : list jsstring) :
  rows_of w file chunks = created_rows w file chunks.
Proof.
  unfold created_rows.
  assert (H : forall s w, rows_of w file chunks
              = map (fun kc => ingested (uuids (db w) (issued (db w) + fst kc - s)) file (snd kc))
                    (combine (seq s (length chunks)) chunks)).
  { induction chunks as [|chunk rest IH]; intros s w0; [reflexivity|].
    cbn [rows_of length seq combine map fst snd].
    f_equal.
    - unfold row_of, ingested.
      replace (issued (db w0) + s - s)%nat with (issued (db w0)) by lia. reflexivity.
    - rewrite (IH (S s)). apply map_ext_in. intros [k c] Hin.
      apply in_combine_l in Hin. apply in_seq in Hin.
      cbn [fst snd]. unfold after_insert, insert_node. cbn [snd db uuids issued].
      replace (S (issued (db w0)) + k - S s)%nat with (issued (db w0) + k - s)%nat by lia.
      reflexivity. }
  rewrite (H 0%nat w). apply map_ext. intros [k c]. cbn [fst snd].
  rewrite Nat.sub_0_r. reflexivity.
Qed.

Lemma created_rows_length (w : World) (file : jsstring) (chunks : list jsstring) :
  length (created_rows w file chunks) = length chunks.
Proof.
  unfold created_rows. rewrite length_map, length_combine, length_seq. apply Nat.min_id.
Qed.

Lemma created_rows_content (w : World) (file : jsstring) (chunks : list jsstring) :
  map Supabase.content (created_rows w file chunks) = chunks
  /\ map embedding (created_rows w file chunks) = map ProcessFile.localEmbedding chunks.
Proof.
  unfold created_rows. rewrite !map_map.
  assert (H : forall s, map (fun kc : nat * jsstring => snd kc)
                            (combine (seq s (length chunks)) chunks) = chunks).
  { induction chunks as [|c rest IH]; intros s; [reflexivity|].
    cbn [length seq combine map snd]. now rewrite IH. }
  split; [apply H|].
  transitivity (map ProcessFile.localEmbedding
                    (map (fun kc : nat * jsstring => snd kc)
                         (combine (seq 0 (length chunks)) chunks))).
  - rewrite map_map. reflexivity.
  - now rewrite H.
Qed.

Lemma created_rows_ids (w : World) (file : jsstring) (chunks : list jsstring) :
  map id (created_rows w file chunks)
  = map (uuids (db w)) (seq (issued (db w)) (length chunks)).
Proof.
  unfold created_rows. rewrite map_map. cbn [ingested id].
  assert (H : forall s o, map (fun kc : nat * jsstring => uuids (db w) (s + fst kc))
                              (combine (seq o (length chunks)) chunks)
                          = map (uuids (db w)) (seq (s + o) (length chunks))).
  { induction chunks as [|c rest IH]; intros s o; [reflexivity|].
    cbn [length seq combine map fst]. f_equal.
    rewrite IH. now rewrite Nat.add_succ_r. }
  rewrite (H (issued (db w)) 0%nat). now rewrite Nat.add_0_r.
Qed.

Lemma after_inserts_db (w : World) (file : jsstring) (chunks : list jsstring) :
  db (after_inserts w file chunks)
  = {| files := files (db w);
       nodes := nodes (db w) ++ rows_of w file chunks;
       edges := edges (db w);
       uploads := uploads (db w);
       uuids := uuids (db w);
       issued := issued (db w) + length chunks |}.
Proof.
  revert w. induction chunks as [|chunk rest IH]; intros w.
  - cbn [after_inserts rows_of length]. rewrite app_nil_r, Nat.add_0_r.
    destruct (db w); reflexivity.
  - cbn [after_inserts rows_of length]. rewrite IH.
    set (w1 := after_insert w file chunk).
    assert (E : db w1
                = {| files := files (db w);
                     nodes := nodes (db w) ++ [row_of w file chunk];
                     edges := edges (db w);
                     uploads := uploads (db w);
                     uuids := uuids (db w);
                     issued := S (issued (db w)) |}) by reflexivity.
    rewrite E. cbn [files nodes edges uploads uuids issued].
    rewrite <- app_assoc. cbn [app]. f_equal; lia.
Qed.

Lemma flat_map_length_const {A B : Type} (f : A -> list B) (l : list A) (m : nat) :
  Forall (fun x => length (f x) = m) l -> length (flat_map f l) = (length l * m)%nat.
Proof.
  induction 1 as [|x l Hx _ IH]; [reflexivity|].
  cbn [flat_map length]. rewrite length_app, Hx, IH. lia.
Qed.

(** The builder writes [min 5 (n - 1)] edges for each of the [n] nodes. *)
Lemma buildEdges_length (nodes : list NodeRecord) (embeddings : list (list R)) :
  length (ProcessFile.buildEdges nodes embeddings)
  = (length nodes * Nat.min 5 (length nodes - 1))%nat.
Proof.
  unfold ProcessFile.buildEdges.
  rewrite (flat_map_length_const _ _ (Nat.min 5 (length nodes - 1))).
  - now rewrite length_seq.
  - apply Forall_forall. intros i Hi. apply in_seq in Hi.
    rewrite length_map.
    apply (top5_spec embeddings (length nodes) i). lia.
Qed.

(** The world ingestion leaves when the text downloads. *)
Lemma ingestion_db (req : ProcessFile.Request) (w : World) (text : jsstring) :
  stored_text w (ProcessFile.fileName req) = Some text ->
  let chunks := ProcessFile.splitIntoChunks text in
  let created := created_rows w (ProcessFile.fileId req) chunks in
  let built := ProcessFile.buildEdges created (map ProcessFile.localEmbedding chunks) in
  fst (ProcessFile.handler req w)
  = ProcessFile.Ok200 {| ProcessFile.success := true;
                         ProcessFile.nodesCreated := Z.of_nat (length created);
                         ProcessFile.edgesCreated := Z.of_nat (length built) |}
  /\ db (snd (ProcessFile.handler req w))
     = {| files := map (fun f => if jsstring_eqb (file_key f) (ProcessFile.fileId req)
                                 then {| file_key := file_key f; status := js "completed" |}
                                 else f) (files (db w));
          nodes := nodes (db w) ++ created;
          edges := edges (db w) ++ built;
          uploads := uploads (db w);
          uuids := uuids (db w);
          issued := issued (db w) + length chunks |}.
Proof.
  intros Hdl. cbv zeta.
  rewrite (ingestion_runs req w text Hdl). cbv zeta. cbn [fst snd].
  assert (Hrows : rows_of (logged (Download (ProcessFile.fileName req)) w)
                    (ProcessFile.fileId req) (ProcessFile.splitIntoChunks text)
                  = created_rows w (ProcessFile.fileId req) (ProcessFile.splitIntoChunks text)).
  { rewrite rows_of_created. reflexivity. }
  rewrite Hrows. split; [reflexivity|].
  unfold update_file_status, insert_edges. cbn [snd db files nodes edges uploads uuids issued].
  rewrite after_inserts_db, Hrows. reflexivity.
Qed.

(** X4.  When the bucket holds no object of the requested name, ingestion
    answers with status 500 and leaves every table as it was: no node, no
    edge, and the status of the file is not touched.  The only request it
    has sent is the download. *)
Theorem missing_upload_changes_nothing (req : ProcessFile.Request) (w : World) :
  stored_text w (ProcessFile.fileName req) = None ->
  exists message : jsstring,
    ProcessFile.handler req w
    = (ProcessFile.Error500 message,
       {| db := db w; log := log w ++ [Download (ProcessFile.fileName req)] |}).
Proof.
  intros Hdl. unfold ProcessFile.handler, ProcessFile.serve, bind, storage_download.
  unfold stored_text in Hdl. rewrite Hdl.
  eexists. reflexivity.
Qed.

Lemma missing_upload_changes_nothing_witness :
  stored_text uploaded_ab (js "other.txt") = None
  /\ exists message : jsstring,
       ProcessFile.handler {| ProcessFile.fileId := js "f1";
                              ProcessFile.fileName := js "other.txt" |} uploaded_ab
       = (ProcessFile.Error500 message,
          {| db := db uploaded_ab; log := [Download (js "other.txt")] |}).
Proof.
  split; [reflexivity|].
  exact (missing_upload_changes_nothing
           {| ProcessFile.fileId := js "f1"; ProcessFile.fileName := js "other.txt" |}
           uploaded_ab eq_refl).
Defined.

(** X5.  When the text downloads, ingestion answers [success: true] with
    [nodesCreated] the number [n] of chunks of the text and [edgesCreated]
    equal to [n * min(5, n - 1)]: every node gets an edge to each of the
    others when there are at most six, and five edges beyond that. *)
Theorem ingestion_counts (req : ProcessFile.Request) (w : World) (text : jsstring) :
  stored_text w (ProcessFile.fileName req) = Some text ->
  let n := length (ProcessFile.splitIntoChunks text) in
  fst (ProcessFile.handler req w)
  = ProcessFile.Ok200 {| ProcessFile.success := true;
                         ProcessFile.nodesCreated := Z.of_nat n;
                         ProcessFile.edgesCreated := Z.of_nat (n * Nat.min 5 (n - 1)) |}.
Proof.
  intros Hdl. cbv zeta.
  destruct (ingestion_db req w text Hdl) as [Hanswer _]. cbv zeta in Hanswer.
  rewrite Hanswer, buildEdges_length, created_rows_length. reflexivity.
Qed.

Lemma ingestion_counts_witness :
  stored_text uploaded_ab (ProcessFile.fileName ingest_ab) = Some (chunk_a ++ chunk_b)
  /\ fst (ProcessFile.handler ingest_ab uploaded_ab)
     = ProcessFile.Ok200 {| ProcessFile.success := true;
                            ProcessFile.nodesCreated := 2;
                            ProcessFile.edgesCreated := 2 |}.
Proof.
  split; [reflexivity|].
  pose proof (ingestion_counts ingest_ab uploaded_ab (chunk_a ++ chunk_b) eq_refl) as H.
  cbv zeta in H. rewrite chunks_ab in H. exact H.
Defined.

(** X6.  When the text downloads, ingestion appends one node a chunk to
    the [nodes] table, in the order of the chunks: node [k] has the [k]-th
    id the table hands out, the [file_id] of the request, type ["text"],
    the chunk as content and the embedding of the chunk.  It appends the
    builder's edges between these nodes to [edges], sets the status of the
    rows of [files] whose id is the [fileId] to ["completed"], and changes
    nothing else: the nodes and edges that were there stay, and so do the
    other files and the bucket. *)
Theorem ingestion_appends_chunks (req : ProcessFile.Request) (w : World) (text : jsstring) :
  stored_text w (ProcessFile.fileName req) = Some text ->
  let chunks := ProcessFile.splitIntoChunks text in
  let after := db (snd (ProcessFile.handler req w)) in
  exists created : list NodeRecord,
    nodes after = nodes (db w) ++ created
    /\ map Supabase.content created = chunks
    /\ map id created = map (uuids (db w)) (seq (issued (db w)) (length chunks))
    /\ Forall (fun n => file_id n = ProcessFile.fileId req
                        /\ node_type n = js "text"
                        /\ embedding n = ProcessFile.localEmbedding (Supabase.content n)
                        /\ metadata n = Some []) created
    /\ edges after
       = edges (db w) ++ ProcessFile.buildEdges created (map embedding created)
    /\ uploads after = uploads (db w)
    /\ map file_key (files after) = map file_key (files (db w))
    /\ Forall2 (fun before now =>
                  status now = if jsstring_eqb (file_key before) (ProcessFile.fileId req)
                               then js "completed" else status before)
               (files (db w)) (files after).
Proof.
  intros Hdl. cbv zeta.
  destruct (ingestion_db req w text Hdl) as [_ Hdb]. cbv zeta in Hdb. rewrite Hdb.
  cbn [nodes edges uploads files].
  set (chunks := ProcessFile.splitIntoChunks text).
  exists (created_rows w (ProcessFile.fileId req) chunks).
  destruct (created_rows_content w (ProcessFile.fileId req) chunks) as [Hcontent Hemb].
  split; [reflexivity|]. split; [exact Hcontent|]. split.
  { apply created_rows_ids. }
  split.
  { unfold created_rows. rewrite Forall_map. apply Forall_forall. intros kc _.
    cbn [ingested file_id node_type embedding Supabase.content metadata]. auto. }
  split; [now rewrite Hemb|]. split; [reflexivity|]. split.
  { rewrite map_map. apply map_ext. intros f.
    destruct (jsstring_eqb (file_key f) (ProcessFile.fileId req)); reflexivity. }
  clear Hdb. generalize (files (db w)) as fs.
  induction fs as [|f fs IH]; [constructor|].
  cbn [map]. constructor; [|exact IH].
  destruct (jsstring_eqb (file_key f) (ProcessFile.fileId req)); reflexivity.
Qed.

Lemma ingestion_appends_chunks_witness :
  stored_text uploaded_ab (ProcessFile.fileName ingest_ab) = Some (chunk_a ++ chunk_b)
  /\ exists created : list NodeRecord,
       nodes (db (snd (ProcessFile.handler ingest_ab uploaded_ab)))
       = nodes (db uploaded_ab) ++ created
       /\ map Supabase.content created = [chunk_a; chunk_b].
Proof.
  split; [reflexivity|].
  destruct (ingestion_appends_chunks ingest_ab uploaded_ab (chunk_a ++ chunk_b) eq_refl)
    as (created & Hnodes & Hcontent & _).
  exists created. split; [exact Hnodes|].
  rewrite Hcontent. exact chunks_ab.
Defined.

(** ** Ingestion: the weights it stores *)

Local Open Scope R_scope.

Lemma embedding_length (text : jsstring) :
  length (ProcessFile.localEmbedding text) = 768%nat.
Proof.
  unfold ProcessFile.localEmbedding, ProcessFile.normalize, ProcessFile.raw_vector.
  rewrite !length_map, length_seq. reflexivity.
Qed.

(** The similarity of the embeddings of two texts. *)
Lemma similarity_range (s t : jsstring) :
  -1 <= ProcessFile.cosine (ProcessFile.localEmbedding s) (ProcessFile.localEmbedding t) <= 1.
Proof.
  apply cosine_range.
  - now rewrite !embedding_length.
  - rewrite embedding_sum_squares. lra.
  - rewrite embedding_sum_squares. lra.
Qed.

(** X7.  Every edge that the builder makes for the chunks of a text has
    type ["semantic"], joins two of the nodes it is given, and has as
    weight the cosine of the embeddings of two chunks, which is within
    [1e-6] of the interval from -1 to 1.  (In exact arithmetic it lies in
    the interval; the margin is for the rounding of the doubles, which can
    give a weight such as 1.0000000000000002.) *)
Theorem built_edges_are_bounded (nodes : list NodeRecord) (chunks : list jsstring) :
  length nodes = length chunks ->
  Forall (fun e => edge_type e = js "semantic"
                   /\ In (source_node_id e) (map id nodes)
                   /\ In (target_node_id e) (map id nodes)
                   /\ -1 - 1 / 1000000 <= weight e <= 1 + 1 / 1000000
                   /\ exists s t, In s chunks /\ In t chunks
                        /\ weight e = ProcessFile.cosine (ProcessFile.localEmbedding s)
                                                         (ProcessFile.localEmbedding t))
         (ProcessFile.buildEdges nodes (map ProcessFile.localEmbedding chunks)).
Proof.
  intros Hlen. unfold ProcessFile.buildEdges.
  apply Forall_forall. intros e He.
  apply in_flat_map in He as (i & Hi & He). apply in_seq in Hi.
  apply in_map_iff in He as (t & <- & Ht).
  destruct (top5_spec (map ProcessFile.localEmbedding chunks) (length nodes) i) as (_ & Hall & _);
    [lia|].
  rewrite Forall_forall in Hall. destruct (Hall t Ht) as (Hj & Hne & Et).
  assert (Hidx : forall k, (k < length nodes)%nat ->
            In (ProcessFile.idAt nodes k) (map id nodes)
            /\ nth k (map ProcessFile.localEmbedding chunks) []
               = ProcessFile.localEmbedding (nth k chunks [])
            /\ In (nth k chunks []) chunks).
  { intros k Hk. split; [|split].
    - unfold ProcessFile.idAt. apply nth_In. now rewrite length_map.
    - change (@nil R) with (@nil R). rewrite <- (map_nth ProcessFile.localEmbedding).
      apply nth_indep. rewrite length_map. lia.
    - apply nth_In. lia. }
  destruct (Hidx i) as (Hsrc & Ei & Hci); [lia|].
  destruct (Hidx (ProcessFile.j t)) as (Htgt & Ej & Hcj); [exact Hj|].
  assert (Hw : ProcessFile.sim t
               = ProcessFile.cosine (ProcessFile.localEmbedding (nth i chunks []))
                                    (ProcessFile.localEmbedding (nth (ProcessFile.j t) chunks []))).
  { rewrite Et at 1. unfold candidate, similarity. cbn [ProcessFile.sim].
    now rewrite Ei, Ej. }
  cbn [ProcessFile.toEdge edge_type source_node_id target_node_id weight].
  split; [reflexivity|]. split; [exact Hsrc|]. split; [exact Htgt|]. split.
  - rewrite Hw.
    pose proof (similarity_range (nth i chunks []) (nth (ProcessFile.j t) chunks [])) as Hr.
    revert Hr. generalize (ProcessFile.cosine
                             (ProcessFile.localEmbedding (nth i chunks []))
                             (ProcessFile.localEmbedding (nth (ProcessFile.j t) chunks []))).
    intros c Hr. lra.
  - exists (nth i chunks []), (nth (ProcessFile.j t) chunks []). auto.
Qed.

Lemma built_edges_are_bounded_witness :
  length [ingested (js "n0") (js "f1") chunk_a; ingested (js "n1") (js "f1") chunk_b]
  = length [chunk_a; chunk_b]
  /\ Forall (fun e => -1 - 1 / 1000000 <= weight e <= 1 + 1 / 1000000)
         (ProcessFile.buildEdges
            [ingested (js "n0") (js "f1") chunk_a; ingested (js "n1") (js "f1") chunk_b]
            (map ProcessFile.localEmbedding [chunk_a; chunk_b])).
Proof.
  split; [reflexivity|].
  eapply Forall_impl;
    [|exact (built_edges_are_bounded
               [ingested (js "n0") (js "f1") chunk_a; ingested (js "n1") (js "f1") chunk_b]
               [chunk_a; chunk_b] eq_refl)].
  intros e (_ & _ & _ & H & _). exact H.
Defined.

Local Close Scope R_scope.

(** ** The query engine, request by request *)

(** The steps of the handler on a file that has nodes, as functions of the
    request and of the store. *)
Definition vector_results (req : HybridSearch.Request) (w : World) : list VR.t :=
  HybridSearch.vectorSearch (HybridSearch.localEmbedding (HybridSearch.query req))
    (scope w (HybridSearch.fileId req)) (HybridSearch.topK req).

Definition seed_edges (req : HybridSearch.Request) (w : World) : list EdgeRecord :=
  outgoing w (map VR.nodeId (vector_results req w)).

Definition file_lookup (req : HybridSearch.Request) (w : World) : Map NodeRecord :=
  Map_of (map (fun node => (id node, node)) (scope w (HybridSearch.fileId req))).

Definition missing_ids (req : HybridSearch.Request) (w : World) : list jsstring :=
  filter (fun i => negb (Map_has (file_lookup req w) i))
         (HybridSearch.edgeNodeIds (seed_edges req w)).

Definition full_lookup (req : HybridSearch.Request) (w : World) : Map NodeRecord :=
  match missing_ids req w with
  | [] => file_lookup req w
  | _ :: _ =>
      fold_left (fun m node => Map_set m (id node) node)
                (filter (fun n => Set_has (missing_ids req w) (id n)) (nodes (db w)))
                (file_lookup req w)
  end.

Definition answer (req : HybridSearch.Request) (w : World) : HybridSearch.Body :=
  let gr := map (HybridSearch.toGraphResult (full_lookup req w)) (seed_edges req w) in
  {| HybridSearch.vectorResults := vector_results req w;
     HybridSearch.graphResults := gr;
     HybridSearch.hybridResults :=
       HybridSearch.hybridRank (HybridSearch.vectorWeight req) (HybridSearch.graphWeight req)
         (HybridSearch.topK req)
         (HybridSearch.mergeResults (full_lookup req w) (vector_results req w) gr);
     HybridSearch.graphVisualization :=
       (map HybridSearch.toGraphNode (scope w (HybridSearch.fileId req)),
        map HybridSearch.toGraphLink (seed_edges req w)) |}.

(** The requests the handler sends to the store. *)
Definition requests (req : HybridSearch.Request) (w : World) : list Call :=
  SelectNodesByFile (HybridSearch.fileId req)
  :: match scope w (HybridSearch.fileId req) with
     | [] => []
     | _ :: _ =>
         SelectEdgesBySource (map VR.nodeId (vector_results req w))
         :: match missing_ids req w with
            | [] => []
            | _ :: _ => [SelectNodesById (missing_ids req w)]
            end
     end.

(** The handler on every request and every store. *)
Lemma handler_unfold (req : HybridSearch.Request) (w : World) :
  HybridSearch.handler req w
  = (match scope w (HybridSearch.fileId req) with
     | [] => HybridSearch.Error500 (js "No nodes found for this file")
     | _ :: _ => HybridSearch.Ok200 (answer req w)
     end,
     {| db := db w; log := log w ++ requests req w |}).
Proof.
  unfold answer, requests, full_lookup, missing_ids, seed_edges, file_lookup, vector_results.
  unfold scope, outgoing.
  unfold HybridSearch.handler, HybridSearch.serve, bind,
    select_nodes_eq_file_id, select_edges_in_source.
  destruct (filter (fun n => jsstring_eqb (file_id n) (HybridSearch.fileId req))
                   (nodes (db w))) as [|n0 ns] eqn:Hscope; [reflexivity|].
  cbn [db logged log HybridSearch.or_empty].
  match goal with
  | |- context [match ?m with [] => ret _ | _ :: _ => _ end] => destruct m eqn:Hmissing
  end.
  - unfold ret, logged. cbn [db log]. rewrite <- app_assoc. reflexivity.
  - unfold select_nodes_in_id, ret, logged. cbn [db log HybridSearch.or_empty].
    rewrite <- !app_assoc. reflexivity.
Qed.

Lemma handler_answer (req : HybridSearch.Request) (w w' : World) (body : HybridSearch.Body) :
  HybridSearch.handler req w = (HybridSearch.Ok200 body, w') ->
  scope w (HybridSearch.fileId req) <> [] /\ body = answer req w.
Proof.
  rewrite handler_unfold.
  destruct (scope w (HybridSearch.fileId req)); [discriminate|].
  intros [= <- _]. split; [discriminate|reflexivity].
Qed.

(** X8.  The query engine only reads: whatever the request and the
    store, the tables and the bucket are the same after the request as
    before.  It sends the selection of the file's nodes first and at most
    two more selections, of edges by source and of nodes by id; it answers
    with status 200 exactly when the file has a node, and with status 500
    and the message ["No nodes found for this file"] otherwise. *)
Theorem search_only_reads (req : HybridSearch.Request) (w : World) :
  db (snd (HybridSearch.handler req w)) = db w
  /\ (exists rest : list Call,
        log (snd (HybridSearch.handler req w))
        = log w ++ SelectNodesByFile (HybridSearch.fileId req) :: rest
        /\ (length rest <= 2)%nat
        /\ Forall (fun c => match c with
                            | SelectEdgesBySource _ | SelectNodesById _ => True
                            | _ => False
                            end) rest)
  /\ ((exists body, fst (HybridSearch.handler req w) = HybridSearch.Ok200 body)
      <-> scope w (HybridSearch.fileId req) <> [])
  /\ (scope w (HybridSearch.fileId req) = []
      -> fst (HybridSearch.handler req w)
         = HybridSearch.Error500 (js "No nodes found for this file")).
Proof.
  rewrite handler_unfold. cbn [fst snd db log]. split; [reflexivity|]. split.
  - unfold requests. eexists. split; [reflexivity|].
    destruct (scope w (HybridSearch.fileId req)); [split; [cbn; lia|constructor]|].
    destruct (missing_ids req w); cbn [length]; split; try lia; repeat constructor.
  - destruct (scope w (HybridSearch.fileId req)) as [|n ns].
    + split; [|reflexivity]. split.
      * intros [body H]. discriminate.
      * intros H. contradiction.
    + split; [|discriminate]. split.
      * intros _. discriminate.
      * intros _. eexists. reflexivity.
Qed.

(** ** The vector results *)

Lemma vector_results_length (qe : list R) (typedNodes : list NodeRecord) (k : nat) :
  length (HybridSearch.vectorSearch qe typedNodes k) = Nat.min k (length typedNodes).
Proof.
  unfold HybridSearch.vectorSearch, slice0.
  now rewrite length_firstn, sort_length, length_map.
Qed.

Lemma vector_results_in (qe : list R) (typedNodes : list NodeRecord) (k : nat) (v : VR.t) :
  In v (HybridSearch.vectorSearch qe typedNodes k) ->
  exists n, In n typedNodes /\ v = HybridSearch.toVectorResult qe n.
Proof.
  unfold HybridSearch.vectorSearch, slice0. intros Hin.
  assert (Hs : In v (sort HybridSearch.byVectorScore
                          (map (HybridSearch.toVectorResult qe) typedNodes))).
  { rewrite <- (firstn_skipn k (sort _ _)). apply in_or_app. now left. }
  apply (Permutation_in _ (sort_perm _ _ _)) in Hs.
  apply in_map_iff in Hs as (n & <- & Hn). now exists n.
Qed.

Lemma vector_results_best (qe : list R) (typedNodes : list NodeRecord) (k : nat)
    (n : NodeRecord) (v : VR.t) :
  In n typedNodes ->
  ~ In (HybridSearch.toVectorResult qe n) (HybridSearch.vectorSearch qe typedNodes k) ->
  In v (HybridSearch.vectorSearch qe typedNodes k) ->
  (HybridSearch.cosine qe (embedding n) <= VR.vectorScore v)%R.
Proof.
  intros Hn Hout Hv.
  unfold HybridSearch.vectorSearch, slice0 in *.
  set (sorted := sort HybridSearch.byVectorScore
                   (map (HybridSearch.toVectorResult qe) typedNodes)) in *.
  assert (Hs : In (HybridSearch.toVectorResult qe n) sorted).
  { apply (Permutation_in _ (Permutation_sym (sort_perm _ _ _))). now apply in_map. }
  rewrite <- (firstn_skipn k sorted) in Hs.
  apply in_app_or in Hs as [Hs|Hs]; [contradiction|].
  assert (Hsorted : StronglySorted (fun a b => (VR.vectorScore b <= VR.vectorScore a)%R)
                      sorted).
  { apply (sort_sorted _ VR.vectorScore). reflexivity. }
  pose proof (sorted_firstn_skipn _ k sorted Hsorted _ _ Hv Hs) as H.
  cbn [HybridSearch.toVectorResult VR.vectorScore] in H. exact H.
Qed.

(** X9.  In a 200 answer the vector results are [min(topK, n)] of the
    [n] nodes of the file, each with the id, type and content of its node
    and with the cosine of the query embedding and the node's embedding as
    score; and they are the best ones: a node of the file whose result is
    not among them scores no higher than any of them. *)
Theorem vectorResults_are_the_best (req : HybridSearch.Request) (w w' : World)
    (body : HybridSearch.Body) :
  HybridSearch.handler req w = (HybridSearch.Ok200 body, w') ->
  let qe := HybridSearch.localEmbedding (HybridSearch.query req) in
  let typedNodes := scope w (HybridSearch.fileId req) in
  length (HybridSearch.vectorResults body)
  = Nat.min (HybridSearch.topK req) (length typedNodes)
  /\ Forall (fun v => exists n, In n typedNodes
                        /\ VR.nodeId v = id n /\ VR.nodeType v = node_type n
                        /\ VR.content v = Supabase.content n
                        /\ VR.vectorScore v = HybridSearch.cosine qe (embedding n))
            (HybridSearch.vectorResults body)
  /\ (forall n v, In n typedNodes ->
        ~ In (HybridSearch.toVectorResult qe n) (HybridSearch.vectorResults body) ->
        In v (HybridSearch.vectorResults body) ->
        (HybridSearch.cosine qe (embedding n) <= VR.vectorScore v)%R).
Proof.
  intros Hrun. cbv zeta. apply handler_answer in Hrun as [_ ->].
  cbn [answer HybridSearch.vectorResults]. unfold vector_results.
  generalize (HybridSearch.localEmbedding (HybridSearch.query req)) as qe.
  generalize (scope w (HybridSearch.fileId req)) as typedNodes.
  intros typedNodes qe.
  split; [apply vector_results_length|]. split.
  - apply Forall_forall. intros v Hv.
    apply vector_results_in in Hv as (n & Hn & ->). exists n. now repeat split.
  - intros n v. apply vector_results_best.
Qed.

Lemma vectorResults_are_the_best_witness :
  exists (body : HybridSearch.Body) (w' : World),
    HybridSearch.handler (ask (js "alpha") 1 0 1) two_nodes = (HybridSearch.Ok200 body, w')
    /\ length (HybridSearch.vectorResults body) = 1%nat.
Proof.
  destruct (handler_runs (ask (js "alpha") 1 0 1) two_nodes (two_nodes_scope _ _ _ _))
    as (lookup & w' & Hrun).
  eexists _, w'. split; [exact Hrun|].
  exact (proj1 (vectorResults_are_the_best _ _ _ _ Hrun)).
Defined.

(** ** The hybrid results *)

Lemma Map_get_entry {V : Type} (m : Map V) (k : jsstring) (v : V) :
  Map_get m k = Some v -> In (k, v) m.
Proof.
  induction m as [|[k0 v0] m IH]; cbn; [discriminate|].
  destruct (jsstring_eqb k0 k) eqn:E.
  - apply jsstring_eqb_eq in E. intros [= ->]. left. now subst.
  - intros H. right. now apply IH.
Qed.

Lemma Map_set_keys {V : Type} (m : Map V) (k : jsstring) (v : V) :
  map fst (Map_set m k v) = if Map_has m k then map fst m else map fst m ++ [k].
Proof.
  unfold Map_has. induction m as [|[k0 v0] m IH]; cbn; [reflexivity|].
  destruct (jsstring_eqb k0 k) eqn:E; cbn; [reflexivity|].
  rewrite IH. destruct (Map_get m k); reflexivity.
Qed.

Lemma Map_set_NoDup {V : Type} (m : Map V) (k : jsstring) (v : V) :
  NoDup (map fst m) -> NoDup (map fst (Map_set m k v)).
Proof.
  intros Hnd. rewrite Map_set_keys. unfold Map_has.
  destruct (Map_get m k) eqn:E; [exact Hnd|].
  apply (Permutation_NoDup (Permutation_cons_append _ _)).
  constructor; [|exact Hnd]. now apply Map_get_None.
Qed.

Lemma Map_set_Forall {V : Type} (P : jsstring * V -> Prop) (m : Map V) (k : jsstring) (v : V) :
  Forall P m -> P (k, v) -> Forall P (Map_set m k v).
Proof.
  intros Hm Hk. induction Hm as [|[k0 v0] m H0 Hm IH]; cbn; [now constructor|].
  destruct (jsstring_eqb k0 k) eqn:E.
  - apply jsstring_eqb_eq in E. subst k0. now constructor.
  - now constructor.
Qed.

(** The map of the merge step: its keys are distinct, every entry is filed
    under its own [nodeId], and every key is the id of a vector result or
    the target of a graph result. *)
Definition well_keyed (vr : list VR.t) (gr : list GR.t) (m : Map CR.t) : Prop :=
  NoDup (map fst m)
  /\ Forall (fun e => CR.nodeId (snd e) = fst e
                      /\ (In (fst e) (map VR.nodeId vr) \/ In (fst e) (map GR.nodeId gr))) m.

Lemma addVector_well_keyed (vr : list VR.t) (gr : list GR.t) (m : Map CR.t) (v : VR.t) :
  In v vr -> well_keyed vr gr m -> well_keyed vr gr (HybridSearch.addVector m v).
Proof.
  intros Hv [Hnd Hall]. unfold HybridSearch.addVector. split.
  - now apply Map_set_NoDup.
  - apply Map_set_Forall; [exact Hall|].
    cbn. split; [reflexivity|]. left. now apply in_map.
Qed.

Lemma mergeGraph_well_keyed (lookup : Map NodeRecord) (vr : list VR.t) (gr : list GR.t)
    (m : Map CR.t) (g : GR.t) :
  In g gr -> well_keyed vr gr m -> well_keyed vr gr (HybridSearch.mergeGraph lookup m g).
Proof.
  intros Hg [Hnd Hall]. unfold HybridSearch.mergeGraph.
  destruct (Map_get m (GR.nodeId g)) as [existing|] eqn:E; split;
    try (now apply Map_set_NoDup); (apply Map_set_Forall; [exact Hall|]); cbn.
  - apply Map_get_entry in E. rewrite Forall_forall in Hall.
    destruct (Hall _ E) as [Hid _]. cbn in Hid.
    split; [exact Hid|]. right. now apply in_map.
  - split; [reflexivity|]. right. now apply in_map.
Qed.

Lemma mergeResults_well_keyed (lookup : Map NodeRecord) (vr : list VR.t) (gr : list GR.t) :
  well_keyed vr gr (HybridSearch.mergeResults lookup vr gr).
Proof.
  unfold HybridSearch.mergeResults.
  assert (Hv : forall l m, incl l vr -> well_keyed vr gr m ->
                 well_keyed vr gr (fold_left HybridSearch.addVector l m)).
  { induction l as [|v l IH]; intros m Hl Hm; [exact Hm|].
    cbn. apply IH; [intros x Hx; apply Hl; now right|].
    apply addVector_well_keyed; [apply Hl; now left|exact Hm]. }
  assert (Hg : forall l m, incl l gr -> well_keyed vr gr m ->
                 well_keyed vr gr (fold_left (HybridSearch.mergeGraph lookup) l m)).
  { induction l as [|g l IH]; intros m Hl Hm; [exact Hm|].
    cbn. apply IH; [intros x Hx; apply Hl; now right|].
    apply mergeGraph_well_keyed; [apply Hl; now left|exact Hm]. }
  apply Hg; [apply incl_refl|]. apply Hv; [apply incl_refl|].
  split; constructor.
Qed.

Lemma hybridRank_sorted (wv wg : R) (k : nat) (m : Map CR.t) :
  StronglySorted (fun a b => (HR.hybridScore b <= HR.hybridScore a)%R)
                 (HybridSearch.hybridRank wv wg k m).
Proof.
  unfold HybridSearch.hybridRank, slice0. apply firstn_sorted.
  apply (sort_sorted _ HR.hybridScore). reflexivity.
Qed.

Lemma hybridRank_ids (wv wg : R) (k : nat) (m : Map CR.t) :
  Forall (fun e => CR.nodeId (snd e) = fst e) m ->
  exists l, Permutation l (map fst m)
            /\ map HR.nodeId (HybridSearch.hybridRank wv wg k m) = firstn k l.
Proof.
  intros Hall. unfold HybridSearch.hybridRank, slice0.
  exists (map HR.nodeId (sort HybridSearch.byHybridScore
                           (map (HybridSearch.toHybridResult wv wg) (Map_values m)))).
  split; [|now rewrite firstn_map].
  rewrite (Permutation_map HR.nodeId (sort_perm _ _ _)).
  unfold Map_values. rewrite !map_map. cbn [HybridSearch.toHybridResult HR.nodeId].
  apply Permutation_refl'. apply map_ext_in. intros e He.
  rewrite Forall_forall in Hall. now apply Hall.
Qed.

(** X10.  In a 200 answer the hybrid results are at most [topK]; they are
    in non-increasing order of [hybridScore]; no node appears twice,
    whatever the store holds; and every one of them is a vector result or
    the target of a graph result. *)
Theorem hybridResults_are_ranked_and_distinct (req : HybridSearch.Request) (w w' : World)
    (body : HybridSearch.Body) :
  HybridSearch.handler req w = (HybridSearch.Ok200 body, w') ->
  (length (HybridSearch.hybridResults body) <= HybridSearch.topK req)%nat
  /\ StronglySorted (fun a b => (HR.hybridScore b <= HR.hybridScore a)%R)
                    (HybridSearch.hybridResults body)
  /\ NoDup (map HR.nodeId (HybridSearch.hybridResults body))
  /\ Forall (fun h => In (HR.nodeId h) (map VR.nodeId (HybridSearch.vectorResults body))
                      \/ In (HR.nodeId h) (map GR.nodeId (HybridSearch.graphResults body)))
            (HybridSearch.hybridResults body).
Proof.
  intros Hrun. apply handler_answer in Hrun as [_ ->].
  cbn [answer HybridSearch.vectorResults HybridSearch.graphResults HybridSearch.hybridResults].
  set (vr := vector_results req w).
  set (gr := map (HybridSearch.toGraphResult (full_lookup req w)) (seed_edges req w)).
  destruct (mergeResults_well_keyed (full_lookup req w) vr gr) as [Hnd Hall].
  set (m := HybridSearch.mergeResults (full_lookup req w) vr gr) in *.
  assert (Hid : Forall (fun e => CR.nodeId (snd e) = fst e) m).
  { eapply Forall_impl; [|exact Hall]. now intros e [H _]. }
  destruct (hybridRank_ids (HybridSearch.vectorWeight req) (HybridSearch.graphWeight req)
              (HybridSearch.topK req) m Hid) as (l & Hperm & Hids).
  split; [unfold HybridSearch.hybridRank, slice0; apply firstn_le_length|].
  split; [apply hybridRank_sorted|]. split.
  - rewrite Hids. apply NoDup_firstn.
    exact (Permutation_NoDup (Permutation_sym Hperm) Hnd).
  - apply Forall_forall. intros h Hh.
    assert (Hin : In (HR.nodeId h) (map fst m)).
    { apply (Permutation_in _ Hperm).
      assert (Hk : In (HR.nodeId h) (firstn (HybridSearch.topK req) l))
        by (rewrite <- Hids; now apply in_map).
      rewrite <- (firstn_skipn (HybridSearch.topK req) l). apply in_or_app. now left. }
    apply in_map_iff in Hin as (e & He & Hin).
    rewrite Forall_forall in Hall. destruct (Hall e Hin) as [_ Hfrom].
    now rewrite He in Hfrom.
Qed.

Lemma hybridResults_are_ranked_and_distinct_witness :
  exists (body : HybridSearch.Body) (w' : World),
    HybridSearch.handler (ask (js "alpha") 1 0 1) two_nodes = (HybridSearch.Ok200 body, w')
    /\ (length (HybridSearch.hybridResults body) <= 1)%nat
    /\ NoDup (map HR.nodeId (HybridSearch.hybridResults body)).
Proof.
  destruct (handler_runs (ask (js "alpha") 1 0 1) two_nodes (two_nodes_scope _ _ _ _))
    as (lookup & w' & Hrun).
  eexists _, w'. split; [exact Hrun|].
  destruct (hybridResults_are_ranked_and_distinct _ _ _ _ Hrun) as (Hlen & _ & Hnd & _).
  split; [exact Hlen | exact Hnd].
Defined.

(** ** The graph results and the visualization payload *)

(** X11.  In a 200 answer the graph results are, in the order of the
    [edges] table, the edges whose source is a vector result, all of them:
    the list is cut neither to [topK] nor to the file.  Each has the target
    of its edge as [nodeId], the source as [sourceNode], the weight as
    [graphScore], distance 1, the path [source, target] and two path
    labels.  The links of the visualization payload are the same edges,
    with the same endpoints and weights. *)
Theorem graphResults_are_one_hop (req : HybridSearch.Request) (w w' : World)
    (body : HybridSearch.Body) :
  HybridSearch.handler req w = (HybridSearch.Ok200 body, w') ->
  let seeds := map VR.nodeId (HybridSearch.vectorResults body) in
  let hops := filter (fun e => Set_has seeds (source_node_id e)) (edges (db w)) in
  map (fun g => (GR.sourceNode g, GR.nodeId g, GR.graphScore g))
      (HybridSearch.graphResults body)
  = map (fun e => (source_node_id e, target_node_id e, weight e)) hops
  /\ Forall (fun g => GR.distance g = 1
                      /\ GR.path g = [GR.sourceNode g; GR.nodeId g]
                      /\ length (GR.pathLabels g) = 2%nat
                      /\ In (GR.sourceNode g) seeds)
            (HybridSearch.graphResults body)
  /\ map (fun l => (HybridSearch.gl_source l, HybridSearch.gl_target l, HybridSearch.gl_weight l))
         (snd (HybridSearch.graphVisualization body))
     = map (fun e => (source_node_id e, target_node_id e, weight e)) hops.
Proof.
  intros Hrun. cbv zeta. apply handler_answer in Hrun as [_ ->].
  cbn [answer HybridSearch.vectorResults HybridSearch.graphResults
       HybridSearch.graphVisualization snd].
  unfold seed_edges, outgoing. rewrite !map_map.
  split; [reflexivity|]. split; [|reflexivity].
  rewrite Forall_map. apply Forall_forall. intros e He.
  apply filter_In in He as [_ Hsrc]. apply Set_has_In in Hsrc.
  cbn. auto.
Qed.

Lemma graphResults_are_one_hop_witness :
  exists (body : HybridSearch.Body) (w' : World),
    HybridSearch.handler (ask (js "alpha") 1 0 10) two_nodes = (HybridSearch.Ok200 body, w')
    /\ Forall (fun g => GR.distance g = 1) (HybridSearch.graphResults body).
Proof.
  destruct (handler_runs (ask (js "alpha") 1 0 10) two_nodes (two_nodes_scope _ _ _ _))
    as (lookup & w' & Hrun).
  eexists _, w'. split; [exact Hrun|].
  destruct (graphResults_are_one_hop _ _ _ _ Hrun) as (_ & Hall & _).
  eapply Forall_impl; [|exact Hall]. now intros g [H _].
Defined.

(** X12.  In a 200 answer the nodes of the visualization payload are all
    the nodes of the file, in the order of the table and not cut to [topK],
    each with its id, type, content and derived label; and every link of
    the payload starts at one of these nodes. *)
Theorem graphVisualization_covers_the_file (req : HybridSearch.Request) (w w' : World)
    (body : HybridSearch.Body) :
  HybridSearch.handler req w = (HybridSearch.Ok200 body, w') ->
  let typedNodes := scope w (HybridSearch.fileId req) in
  let shown := fst (HybridSearch.graphVisualization body) in
  length shown = length typedNodes
  /\ Forall2 (fun n g => HybridSearch.gn_id g = id n /\ HybridSearch.gn_nodeType g = node_type n
                         /\ HybridSearch.gn_content g = Supabase.content n
                         /\ HybridSearch.gn_label g = HybridSearch.deriveNodeLabel (Some n))
             typedNodes shown
  /\ Forall (fun l => In (HybridSearch.gl_source l) (map HybridSearch.gn_id shown))
            (snd (HybridSearch.graphVisualization body)).
Proof.
  intros Hrun. cbv zeta. apply handler_answer in Hrun as [_ ->].
  cbn [answer HybridSearch.graphVisualization fst snd].
  split; [apply length_map|]. split.
  - induction (scope w (HybridSearch.fileId req)) as [|n ns IH]; constructor; [|exact IH].
    cbn. auto.
  - rewrite Forall_map. apply Forall_forall. intros e He.
    unfold seed_edges, outgoing in He. apply filter_In in He as [_ Hsrc].
    apply Set_has_In in Hsrc. apply in_map_iff in Hsrc as (v & Hid & Hv).
    apply vector_results_in in Hv as (n & Hn & ->).
    cbn [HybridSearch.toGraphLink HybridSearch.gl_source]. rewrite <- Hid.
    rewrite map_map. cbn [HybridSearch.toGraphNode HybridSearch.gn_id HybridSearch.toVectorResult VR.nodeId].
    now apply in_map.
Qed.

Lemma graphVisualization_covers_the_file_witness :
  exists (body : HybridSearch.Body) (w' : World),
    HybridSearch.handler (ask (js "alpha") 1 0 1) two_nodes = (HybridSearch.Ok200 body, w')
    /\ length (fst (HybridSearch.graphVisualization body)) = 2%nat.
Proof.
  destruct (handler_runs (ask (js "alpha") 1 0 1) two_nodes (two_nodes_scope _ _ _ _))
    as (lookup & w' & Hrun).
  eexists _, w'. split; [exact Hrun|].
  exact (proj1 (graphVisualization_covers_the_file _ _ _ _ Hrun)).
Defined.

(** ** The node lookup of the graph step *)

(** The node of the table with id [i], when there is one. *)
Definition node_by_id (w : World) (i : jsstring) : option NodeRecord :=
  find (fun n => jsstring_eqb (id n) i) (nodes (db w)).

Definition add_nodes (m : Map NodeRecord) (ns : list NodeRecord) : Map NodeRecord :=
  fold_left (fun m node => Map_set m (id node) node) ns m.

Lemma Map_of_nodes (ns : list NodeRecord) :
  Map_of (map (fun node => (id node, node)) ns) = add_nodes [] ns.
Proof.
  unfold Map_of, add_nodes. generalize (@nil (jsstring * NodeRecord)) as m.
  induction ns as [|n ns IH]; intros m; [reflexivity|]. cbn. apply IH.
Qed.

(** What a lookup filled from a list of nodes answers. *)
Lemma add_nodes_get (m : Map NodeRecord) (ns : list NodeRecord) (i : jsstring) :
  match Map_get (add_nodes m ns) i with
  | Some n => (In n ns /\ id n = i) \/ Map_get m i = Some n
  | None => (forall n, In n ns -> id n <> i) /\ Map_get m i = None
  end.
Proof.
  revert m. induction ns as [|x ns IH]; intros m.
  - cbn. destruct (Map_get m i); [now right|]. split; [intros n []|reflexivity].
  - cbn [add_nodes fold_left]. fold (add_nodes (Map_set m (id x) x) ns).
    specialize (IH (Map_set m (id x) x)).
    destruct (Map_get (add_nodes (Map_set m (id x) x) ns) i) as [n|].
    + destruct IH as [[Hin Hid]|Hget]; [left; split; [now right|exact Hid]|].
      rewrite Map_get_set in Hget.
      destruct (jsstring_eqb (id x) i) eqn:E; [|now right].
      apply jsstring_eqb_eq in E. injection Hget as <-. left. split; [now left|exact E].
    + destruct IH as [Hns Hget]. rewrite Map_get_set in Hget.
      destruct (jsstring_eqb (id x) i) eqn:E; [discriminate|].
      apply jsstring_eqb_neq in E. split; [|exact Hget].
      intros n [<-|Hn]; [exact E|now apply Hns].
Qed.

Lemma Set_add_In (s : list jsstring) (k x : jsstring) :
  In x (Set_add s k) <-> In x s \/ x = k.
Proof.
  unfold Set_add. destruct (Set_has s k) eqn:E.
  - apply Set_has_In in E. split; [now left|]. intros [H| ->]; assumption.
  - rewrite in_app_iff. cbn. split.
    + intros [H|[<-|[]]]; [now left|now right].
    + intros [H| ->]; [now left|right; now left].
Qed.

Lemma edgeNodeIds_In (es : list EdgeRecord) (x : jsstring) :
  In x (HybridSearch.edgeNodeIds es)
  <-> exists e, In e es /\ (x = source_node_id e \/ x = target_node_id e).
Proof.
  unfold HybridSearch.edgeNodeIds.
  assert (H : forall s, In x (fold_left (fun ids edge =>
                                 Set_add (Set_add ids (source_node_id edge))
                                         (target_node_id edge)) es s)
                        <-> In x s \/ exists e, In e es
                                       /\ (x = source_node_id e \/ x = target_node_id e)).
  { induction es as [|e es IH]; intros s.
    - cbn. split; [now left|]. intros [H|(e & [] & _)]. exact H.
    - cbn [fold_left]. rewrite IH, !Set_add_In. split.
      + intros [[[H|H]|H]|(e' & He' & H)]; auto.
        * right. exists e. split; [now left|now left].
        * right. exists e. split; [now left|now right].
        * right. exists e'. split; [now right|exact H].
      + intros [H|(e' & [<-|He'] & H)]; auto.
        * destruct H as [H|H]; auto.
        * right. now exists e'. }
  rewrite H. cbn. split; [intros [[]|H']; exact H'|now right].
Qed.

(** With distinct ids in the table, the lookup of the graph step answers,
    for every end of a seed edge, with the node of the table that has this
    id. *)
Lemma full_lookup_resolves (req : HybridSearch.Request) (w : World) (i : jsstring) :
  NoDup (map id (nodes (db w))) ->
  In i (HybridSearch.edgeNodeIds (seed_edges req w)) ->
  Map_get (full_lookup req w) i = node_by_id w i.
Proof.
  intros Hnd Hi.
  assert (Hunique : forall a b, In a (nodes (db w)) -> In b (nodes (db w)) ->
                      id a = id b -> a = b).
  { intros a b Ha Hb Hab.
    apply In_nth_error in Ha as [ka Hka]. apply In_nth_error in Hb as [kb Hkb].
    assert (Hk : ka = kb).
    { apply (proj1 (NoDup_nth_error (map id (nodes (db w)))) Hnd).
      - rewrite length_map. apply nth_error_Some. now rewrite Hka.
      - rewrite !nth_error_map, Hka, Hkb. cbn. now rewrite Hab. }
    subst kb. rewrite Hka in Hkb. now injection Hkb. }
  assert (Hscope : forall n, In n (scope w (HybridSearch.fileId req)) -> In n (nodes (db w))).
  { intros n Hn. unfold scope in Hn. now apply filter_In in Hn. }
  assert (Hfile := add_nodes_get [] (scope w (HybridSearch.fileId req)) i).
  rewrite <- Map_of_nodes in Hfile. fold (file_lookup req w) in Hfile.
  assert (Htable : forall o, match o with
                             | Some n => In n (nodes (db w)) /\ id n = i
                             | None => forall n, In n (nodes (db w)) -> id n <> i
                             end -> o = node_by_id w i).
  { intros o Ho. unfold node_by_id.
    destruct (find (fun n => jsstring_eqb (id n) i) (nodes (db w))) as [n'|] eqn:E.
    - apply find_some in E as [Hin' Hid']. apply jsstring_eqb_eq in Hid'.
      destruct o as [n|].
      + destruct Ho as [Hin Hid]. f_equal. apply Hunique; congruence.
      + exfalso. now apply (Ho n').
    - destruct o as [n|]; [|reflexivity].
      destruct Ho as [Hin Hid]. apply (find_none _ _ E) in Hin.
      apply jsstring_eqb_neq in Hin. contradiction. }
  apply Htable. unfold full_lookup.
  destruct (missing_ids req w) as [|m0 ms] eqn:Hmissing.
  - destruct (Map_get (file_lookup req w) i) as [n|] eqn:E.
    + destruct Hfile as [[Hin Hid]|Hget]; [|discriminate]. split; [now apply Hscope|exact Hid].
    + exfalso.
      assert (Hin : In i (missing_ids req w)).
      { unfold missing_ids. apply filter_In. split; [exact Hi|].
        unfold Map_has. now rewrite E. }
      rewrite Hmissing in Hin. contradiction.
  - rewrite <- Hmissing.
    set (extra := filter (fun n => Set_has (missing_ids req w) (id n)) (nodes (db w))).
    fold (add_nodes (file_lookup req w) extra).
    pose proof (add_nodes_get (file_lookup req w) extra i) as Hfull.
    destruct (Map_get (add_nodes (file_lookup req w) extra) i) as [n|].
    + destruct Hfull as [[Hin Hid]|Hget].
      * split; [|exact Hid]. unfold extra in Hin. now apply filter_In in Hin.
      * rewrite Hget in Hfile.
        destruct Hfile as [[Hin Hid]|Hget']; [|discriminate].
        split; [now apply Hscope|exact Hid].
    + destruct Hfull as [Hextra Hget]. intros n Hn Hid.
      apply (Hextra n); [|exact Hid].
      unfold extra. apply filter_In. split; [exact Hn|].
      apply Set_has_In. unfold missing_ids. apply filter_In. split; [now rewrite Hid|].
      unfold Map_has. rewrite Hid. now rewrite Hget.
Qed.

(** X13.  When the ids of the [nodes] table are distinct, every graph
    result of a 200 answer describes the node of the table that has its
    [nodeId], whether or not this node belongs to the file of the request:
    [nodeType] and [content] are those of that node, and the two path
    labels are the derived labels of the source and of the target.  Where
    the table has no node of that id, type and content are absent and the
    label is ["Unknown"]. *)
Theorem graphResults_describe_their_nodes (req : HybridSearch.Request) (w w' : World)
    (body : HybridSearch.Body) :
  NoDup (map id (nodes (db w))) ->
  HybridSearch.handler req w = (HybridSearch.Ok200 body, w') ->
  Forall (fun g =>
            GR.nodeType g = option_map node_type (node_by_id w (GR.nodeId g))
            /\ GR.content g = option_map Supabase.content (node_by_id w (GR.nodeId g))
            /\ GR.pathLabels g
               = [ HybridSearch.deriveNodeLabel (node_by_id w (GR.sourceNode g));
                   HybridSearch.deriveNodeLabel (node_by_id w (GR.nodeId g)) ]
            /\ (node_by_id w (GR.nodeId g) = None ->
                GR.nodeType g = None /\ GR.content g = None
                /\ nth 1 (GR.pathLabels g) [] = js "Unknown"))
         (HybridSearch.graphResults body).
Proof.
  intros Hnd Hrun. apply handler_answer in Hrun as [_ ->].
  cbn [answer HybridSearch.graphResults].
  rewrite Forall_map. apply Forall_forall. intros e He.
  assert (Hsrc : Map_get (full_lookup req w) (source_node_id e)
                 = node_by_id w (source_node_id e)).
  { apply full_lookup_resolves; [exact Hnd|].
    apply edgeNodeIds_In. exists e. split; [exact He|now left]. }
  assert (Htgt : Map_get (full_lookup req w) (target_node_id e)
                 = node_by_id w (target_node_id e)).
  { apply full_lookup_resolves; [exact Hnd|].
    apply edgeNodeIds_In. exists e. split; [exact He|now right]. }
  cbn [HybridSearch.toGraphResult GR.nodeType GR.content GR.pathLabels GR.nodeId
       GR.sourceNode map].
  rewrite Hsrc, Htgt.
  split; [reflexivity|]. split; [reflexivity|]. split; [reflexivity|].
  intros ->. cbn. auto.
Qed.

(** A store of two files: the edge [n1 -> m1] leaves the file [f1]. *)
Definition two_files : World :=
  store [ ingested (js "n1") (js "f1") (js "alpha");
          ingested (js "m1") (js "f2") (js "beta") ]
        [ semantic (js "n1") (js "m1") (1 / 2)%R ].

Lemma graphResults_describe_their_nodes_witness :
  NoDup (map id (nodes (db two_files)))
  /\ exists (body : HybridSearch.Body) (w' : World),
       HybridSearch.handler (ask (js "alpha") 1 0 10) two_files = (HybridSearch.Ok200 body, w')
       /\ Forall (fun g => GR.content g
                           = option_map Supabase.content (node_by_id two_files (GR.nodeId g)))
                 (HybridSearch.graphResults body).
Proof.
  assert (Hnd : NoDup (map id (nodes (db two_files)))).
  { cbn [two_files store db nodes map id ingested].
    constructor; [intros [H|[]]; discriminate|].
    constructor; [intros []|constructor]. }
  split; [exact Hnd|].
  assert (Hne : scope two_files (HybridSearch.fileId (ask (js "alpha") 1 0 10)) <> []).
  { unfold scope. cbn [two_files store db nodes filter file_id ingested ask HybridSearch.fileId].
    rewrite (proj2 (jsstring_eqb_eq (js "f1") (js "f1")) eq_refl). discriminate. }
  destruct (handler_runs (ask (js "alpha") 1 0 10) two_files Hne) as (lookup & w' & Hrun).
  eexists _, w'. split; [exact Hrun|].
  pose proof (graphResults_describe_their_nodes _ _ _ _ Hnd Hrun) as H.
  eapply Forall_impl; [|exact H]. now intros g (_ & Hc & _).
Defined.

(** ** Ingestion, then a query *)

Lemma scope_app (w : World) (file : jsstring) :
  scope w file = filter (fun n => jsstring_eqb (file_id n) file) (nodes (db w)).
Proof. reflexivity. Qed.

(** X14.  Ingestion and the query engine composed.  After the ingestion
    of a text that has a code unit other than CR, LS and PS, a query on the
    file of the ingestion is answered with status 200, whatever the query
    and the weights.  After the ingestion of a text without such a code
    unit (the empty text for one) into a file that had no node, ingestion
    has answered [success: true] and yet every query on the file is
    answered with status 500, ["No nodes found for this file"]. *)
Theorem query_after_ingestion (ingest : ProcessFile.Request) (w : World) (text : jsstring)
    (req : HybridSearch.Request) :
  stored_text w (ProcessFile.fileName ingest) = Some text ->
  HybridSearch.fileId req = ProcessFile.fileId ingest ->
  let after := snd (ProcessFile.handler ingest w) in
  (Exists (fun c => c <> 13 /\ c <> 8232 /\ c <> 8233) text ->
   exists body, fst (HybridSearch.handler req after) = HybridSearch.Ok200 body)
  /\ (Forall (fun c => c = 13 \/ c = 8232 \/ c = 8233) text ->
      scope w (HybridSearch.fileId req) = [] ->
      (exists counts, fst (ProcessFile.handler ingest w) = ProcessFile.Ok200 counts
                      /\ ProcessFile.success counts = true)
      /\ fst (HybridSearch.handler req after)
         = HybridSearch.Error500 (js "No nodes found for this file")).
Proof.
  intros Hdl Hfile. cbv zeta.
  destruct (ingestion_db ingest w text Hdl) as [Hanswer Hdb]. cbv zeta in Hanswer, Hdb.
  rewrite handler_unfold. cbn [fst].
  assert (Hscope : scope (snd (ProcessFile.handler ingest w)) (HybridSearch.fileId req)
                   = scope w (HybridSearch.fileId req)
                     ++ created_rows w (ProcessFile.fileId ingest)
                          (ProcessFile.splitIntoChunks text)).
  { unfold scope. rewrite Hdb. cbn [nodes]. rewrite filter_app. f_equal.
    apply filter_all. apply forallb_forall. intros n Hn.
    unfold created_rows in Hn. apply in_map_iff in Hn as (kc & <- & _).
    cbn [ingested file_id]. rewrite Hfile. now apply jsstring_eqb_eq. }
  rewrite Hscope. split.
  - intros Hsome.
    destruct (ProcessFile.splitIntoChunks text) as [|chunk chunks] eqn:E.
    + exfalso. apply splitIntoChunks_nil_iff in E.
      apply Exists_exists in Hsome as (c & Hc & Hne).
      rewrite Forall_forall in E. specialize (E c Hc). lia.
    + destruct (scope w (HybridSearch.fileId req)); eexists; reflexivity.
  - intros Hnone Hempty.
    apply splitIntoChunks_nil_iff in Hnone. rewrite Hnone in *. rewrite Hempty.
    split; [|reflexivity].
    eexists. split; [exact Hanswer|reflexivity].
Qed.

Lemma query_after_ingestion_witness :
  stored_text uploaded_ab (ProcessFile.fileName ingest_ab) = Some (chunk_a ++ chunk_b)
  /\ exists body,
       fst (HybridSearch.handler (ask (js "b") (1 / 2) (1 / 2) 10)
              (snd (ProcessFile.handler ingest_ab uploaded_ab)))
       = HybridSearch.Ok200 body.
Proof.
  split; [reflexivity|].
  apply (proj1 (query_after_ingestion ingest_ab uploaded_ab (chunk_a ++ chunk_b)
                  (ask (js "b") (1 / 2) (1 / 2) 10) eq_refl eq_refl)).
  apply Exists_exists. exists 98. split.
  - apply in_or_app. right. now left.
  - lia.
Defined.

(** ** Labels: never empty, and short when they come from the content *)

Lemma drop_spaces_length (s : jsstring) : (length (drop_spaces s) <= length s)%nat.
Proof.
  induction s as [|c s IH]; cbn; [lia|]. destruct (is_space c); cbn; lia.
Qed.

Lemma trim_length (s : jsstring) : (length (trim s) <= length s)%nat.
Proof.
  unfold trim. rewrite length_rev.
  eapply Nat.le_trans; [apply drop_spaces_length|]. rewrite length_rev.
  apply drop_spaces_length.
Qed.

Lemma snippet_label_length (text : jsstring) : (length (snippet_label text) <= 43)%nat.
Proof.
  unfold snippet_label. cbv zeta.
  destruct (40 <? length (join (js " ") (firstn 3 (tokens text))))%nat eqn:E.
  - rewrite length_app. pose proof (trim_length (firstn 40 (join (js " ") (firstn 3 (tokens text))))) as H.
    rewrite length_firstn in H. change (length (js "...")) with 3%nat. lia.
  - apply Nat.ltb_ge in E. lia.
Qed.

Lemma snippet_label_nonempty (text : jsstring) :
  tokens text <> [] -> snippet_label text <> [].
Proof.
  intros Hne. unfold snippet_label. cbv zeta.
  destruct (40 <? length (join (js " ") (firstn 3 (tokens text))))%nat.
  - intros H. apply app_eq_nil in H as [_ H]. discriminate.
  - assert (Ht : truthy (join (js " ") (firstn 3 (tokens text))) = true).
    { apply join_nonempty.
      - destruct (tokens text); [contradiction|discriminate].
      - pose proof (tokens_nonempty text) as Hall.
        rewrite Forall_forall in *. intros x Hx. apply Hall.
        rewrite <- (firstn_skipn 3 (tokens text)). apply in_or_app. now left. }
    intros H. rewrite H in Ht. discriminate.
Qed.

(** X15.  The label of a node is never the empty string when the node has
    an id: it is a trimmed non-empty metadata string, or words of the
    content, or the id.  A missing node is labelled ["Unknown"].  A node
    without a metadata label, such as the nodes ingestion creates (metadata
    [{}]), gets a label of at most 43 code units from its content (40 and
    the three dots), or its id when the content is blank. *)
Theorem labels_are_not_empty :
  HybridSearch.deriveNodeLabel None = js "Unknown"
  /\ (forall node, id node <> [] -> HybridSearch.deriveNodeLabel (Some node) <> [])
  /\ (forall node, HybridSearch.extractMetadataLabel (metadata node) = None ->
        HybridSearch.deriveNodeLabel (Some node) = id node
        \/ (HybridSearch.deriveNodeLabel (Some node) <> []
            /\ (length (HybridSearch.deriveNodeLabel (Some node)) <= 43)%nat))
  /\ (forall i file text, HybridSearch.extractMetadataLabel (metadata (ingested i file text)) = None).
Proof.
  split; [reflexivity|]. split; [|split].
  - intros node Hid. rewrite deriveNodeLabel_spec. unfold label_by_priority. cbv zeta.
    destruct (first_nonblank (strings_at _ HybridSearch.preferredKeys)) as [label|] eqn:E1.
    { apply first_nonblank_truthy in E1. intros ->. discriminate. }
    destruct (first_nonblank (keyword_strings _)) as [label|] eqn:E2.
    { apply first_nonblank_truthy in E2. intros ->. discriminate. }
    destruct (tokens (Supabase.content node)) as [|t ts] eqn:Et; [exact Hid|].
    apply snippet_label_nonempty. rewrite Et. discriminate.
  - intros node Hmeta. unfold HybridSearch.deriveNodeLabel. rewrite Hmeta.
    rewrite contentLabel_spec.
    destruct (tokens (Supabase.content node)) as [|t ts] eqn:Et; [now left|].
    right. split.
    + apply snippet_label_nonempty. rewrite Et. discriminate.
    + apply snippet_label_length.
  - intros i file text. reflexivity.
Qed.

(** ** A query that repeats the text of a chunk *)

Local Open Scope R_scope.

Lemma query_similarity_range (q text : jsstring) :
  -1 <= HybridSearch.cosine (HybridSearch.localEmbedding q) (ProcessFile.localEmbedding text) <= 1.
Proof. rewrite cosine_same, embedders_agree. apply similarity_range. Qed.

Lemma sorted_head_greatest {A : Type} (key : A -> R) (x : A) (l : list A) (y : A) :
  StronglySorted (fun a b => key b <= key a) (x :: l) -> In y (x :: l) -> key y <= key x.
Proof.
  intros Hs [<-|Hy]; [lra|].
  inversion Hs as [|? ? _ Hall]; subst. rewrite Forall_forall in Hall. now apply Hall.
Qed.

(** X16.  When the nodes of the file hold the embeddings of their contents,
    as ingestion stores them, every vector score of a 200 answer is within
    [1e-6] of the interval from -1 to 1; and when the content of some node
    of the file is the query text itself and [topK] is at least 1, the
    first vector result has a score within [1e-6] of 1.  (In exact
    arithmetic that score is 1; the margin is for the rounding of the
    doubles, which give 1.0000000000000002 for the text ["alpha"].) *)
Theorem exact_text_ranks_first (req : HybridSearch.Request) (w w' : World)
    (body : HybridSearch.Body) :
  HybridSearch.handler req w = (HybridSearch.Ok200 body, w') ->
  Forall (fun n => embedding n = ProcessFile.localEmbedding (Supabase.content n))
         (scope w (HybridSearch.fileId req)) ->
  Forall (fun v => -1 - 1 / 1000000 <= VR.vectorScore v <= 1 + 1 / 1000000)
         (HybridSearch.vectorResults body)
  /\ (Exists (fun n => Supabase.content n = HybridSearch.query req)
             (scope w (HybridSearch.fileId req)) ->
      (1 <= HybridSearch.topK req)%nat ->
      exists v rest, HybridSearch.vectorResults body = v :: rest
                     /\ Rabs (VR.vectorScore v - 1) <= 1 / 1000000).
Proof.
  intros Hrun Hemb.
  enough (Hexact :
    Forall (fun v => -1 <= VR.vectorScore v <= 1) (HybridSearch.vectorResults body)
    /\ (Exists (fun n => Supabase.content n = HybridSearch.query req)
               (scope w (HybridSearch.fileId req)) ->
        (1 <= HybridSearch.topK req)%nat ->
        exists v rest, HybridSearch.vectorResults body = v :: rest /\ VR.vectorScore v = 1)).
  { destruct Hexact as [Hall Hfirst]. split.
    - eapply Forall_impl; [|exact Hall]. cbv beta. intros v Hv. lra.
    - intros Hn Hk. destruct (Hfirst Hn Hk) as (v & rest & E & Hv).
      exists v, rest. split; [exact E|]. rewrite Hv.
      replace (1 - 1) with 0 by lra. rewrite Rabs_R0. lra. }
  apply handler_answer in Hrun as [_ ->].
  cbn [answer HybridSearch.vectorResults]. unfold vector_results.
  rewrite Forall_forall in Hemb.
  assert (Hrange : Forall (fun v => -1 <= VR.vectorScore v <= 1)
                     (HybridSearch.vectorSearch
                        (HybridSearch.localEmbedding (HybridSearch.query req))
                        (scope w (HybridSearch.fileId req)) (HybridSearch.topK req))).
  { apply Forall_forall. intros v Hv.
    apply vector_results_in in Hv as (n & Hn & ->).
    cbn [HybridSearch.toVectorResult VR.vectorScore]. rewrite (Hemb n Hn).
    apply query_similarity_range. }
  split; [exact Hrange|].
  intros Hexact Hk. apply Exists_exists in Hexact as (n0 & Hn0 & Hcontent).
  assert (Hone : HybridSearch.cosine (HybridSearch.localEmbedding (HybridSearch.query req))
                   (embedding n0) = 1).
  { rewrite (Hemb n0 Hn0), Hcontent. apply score_of_same_text. }
  pose proof (vector_results_length
                (HybridSearch.localEmbedding (HybridSearch.query req))
                (scope w (HybridSearch.fileId req)) (HybridSearch.topK req)) as Hlen.
  pose proof (vectorSearch_sorted
                (HybridSearch.localEmbedding (HybridSearch.query req))
                (scope w (HybridSearch.fileId req)) (HybridSearch.topK req)) as Hsorted.
  revert Hrange Hlen Hsorted Hone Hn0.
  generalize (HybridSearch.localEmbedding (HybridSearch.query req)) as qe.
  generalize (scope w (HybridSearch.fileId req)) as typedNodes.
  intros typedNodes qe Hrange Hlen Hsorted Hone Hn0.
  destruct (HybridSearch.vectorSearch qe typedNodes (HybridSearch.topK req))
    as [|v rest] eqn:Evr.
  { exfalso. cbn [length] in Hlen.
    destruct typedNodes; [contradiction|]. cbn [length] in Hlen. lia. }
  exists v, rest. split; [reflexivity|].
  inversion Hrange as [|? ? [_ Hv] _]; subst.
  apply Rle_antisym; [exact Hv|].
  rewrite <- Hone.
  assert (Hin : In (HybridSearch.toVectorResult qe n0)
                   (sort HybridSearch.byVectorScore
                      (map (HybridSearch.toVectorResult qe) typedNodes))).
  { apply (Permutation_in _ (Permutation_sym (sort_perm _ _ _))). now apply in_map. }
  rewrite <- (firstn_skipn (HybridSearch.topK req)) in Hin.
  apply in_app_or in Hin as [Hin|Hin].
  - unfold HybridSearch.vectorSearch, slice0 in Evr. rewrite Evr in Hin.
    pose proof (sorted_head_greatest VR.vectorScore v rest _ Hsorted Hin) as H.
    cbn [HybridSearch.toVectorResult VR.vectorScore] in H. exact H.
  - assert (Hs : StronglySorted (fun a b => VR.vectorScore b <= VR.vectorScore a)
                   (sort HybridSearch.byVectorScore
                      (map (HybridSearch.toVectorResult qe) typedNodes))).
    { apply (sort_sorted _ VR.vectorScore). reflexivity. }
    assert (Hv' : In v (firstn (HybridSearch.topK req)
                          (sort HybridSearch.byVectorScore
                             (map (HybridSearch.toVectorResult qe) typedNodes)))).
    { unfold HybridSearch.vectorSearch, slice0 in Evr. rewrite Evr. now left. }
    pose proof (sorted_firstn_skipn _ _ _ Hs _ _ Hv' Hin) as H.
    cbn [HybridSearch.toVectorResult VR.vectorScore] in H. exact H.
Qed.

Lemma two_nodes_ingested :
  Forall (fun n => embedding n = ProcessFile.localEmbedding (Supabase.content n))
         (scope two_nodes (HybridSearch.fileId (ask (js "alpha") 1 0 10))).
Proof.
  unfold scope. apply Forall_forall. intros n Hn. apply filter_In in Hn as [Hn _].
  cbn [two_nodes store db nodes] in Hn.
  destruct Hn as [<-|[<-|[]]]; reflexivity.
Qed.

Lemma exact_text_ranks_first_witness :
  exists (body : HybridSearch.Body) (w' : World),
    HybridSearch.handler (ask (js "alpha") 1 0 10) two_nodes = (HybridSearch.Ok200 body, w')
    /\ Forall (fun v => -1 - 1 / 1000000 <= VR.vectorScore v <= 1 + 1 / 1000000)
              (HybridSearch.vectorResults body)
    /\ exists v rest, HybridSearch.vectorResults body = v :: rest
                      /\ Rabs (VR.vectorScore v - 1) <= 1 / 1000000.
Proof.
  destruct (handler_runs (ask (js "alpha") 1 0 10) two_nodes (two_nodes_scope _ _ _ _))
    as (lookup & w' & Hrun).
  eexists _, w'. split; [exact Hrun|].
  destruct (exact_text_ranks_first _ _ _ _ Hrun two_nodes_ingested) as [Hall Hfirst].
  split; [exact Hall|]. apply Hfirst.
  - apply Exists_exists. exists (ingested (js "n1") (js "f1") (js "alpha")).
    split; [|reflexivity]. unfold scope. apply filter_In. split; [now left|reflexivity].
  - cbn. lia.
Defined.

Local Close Scope R_scope.

(* ================================================================== *)
(** * hybrid-search: the lexical highlights of a graph hit             *)
(* ================================================================== *)

(** [buildQueryTokenSet], [extractMatchingWords] and
    [extractMatchingSentence] compute the [matchingWords] and the
    [matchingSentence] of a graph result.  They lower the case of their
    text with [String.prototype.toLowerCase], which follows the Unicode
    case tables; it is a parameter here, and what is proved holds whatever
    it answers. *)

Section Lexical.

Variable toLowerCase : jsstring -> jsstring.

(** The class [[a-z0-9]]. *)
Definition is_alnum (c : Z) : bool :=
  ((97 <=? c) && (c <=? 122)) || ((48 <=? c) && (c <=? 57)).

(** [text.match(/p+/g)]: a repetition without bound is one bounded by the
    length of the text. *)
Definition match_plus (p : Z -> bool) (text : jsstring) : option (list jsstring) :=
  match_all p (length text) text.

(** [s.toLowerCase().match(/[a-z0-9]+/g) ?? []]. *)
Definition word_tokens (s : jsstring) : list jsstring :=
  match match_plus is_alnum (toLowerCase s) with
  | Some matches => matches
  | None => []
  end.

(** [new Set(items)]. *)
Definition Set_of (items : list jsstring) : list jsstring :=
  fold_left Set_add items [].

Definition buildQueryTokenSet (query : jsstring) : list jsstring :=
  Set_of (word_tokens query).

(** The loop of [extractMatchingWords]. *)
Definition collect_matches (queryTokens tokens : list jsstring) : list jsstring :=
  fold_left (fun matches token =>
               if Set_has queryTokens token then Set_add matches token else matches)
            tokens [].

(** [content] is [string | undefined]; [!content] holds for [undefined]
    and for the empty string. *)
Definition extractMatchingWords (content : option jsstring) (queryTokens : list jsstring)
    : list jsstring :=
  match content with
  | None => []
  | Some text =>
      if negb (truthy text) || (length queryTokens =? 0)%nat then []
      else collect_matches queryTokens (word_tokens text)
  end.

(** The class [[.!?]] of the look-behind. *)
Definition is_stop (c : Z) : bool := (c =? 46) || (c =? 33) || (c =? 63).

(** [content.split(/(?<=[.!?])\s+/)].  The separator matches at an index
    whose code unit is white space and follows a stop, and it takes the
    whole run of white space from there.  [Text after] reads a piece,
    [after] telling whether the last code unit read was a stop;
    [Separator] skips the rest of a separator.  A separator that reaches
    the end of the text leaves an empty last piece. *)
Inductive SplitMode : Type :=
| Text (after : bool)
| Separator.

Fixpoint split_go (piece : jsstring) (mode : SplitMode) (s : jsstring) : list jsstring :=
  match s with
  | [] => [piece]
  | c :: rest =>
      match mode with
      | Separator =>
          if is_space c then split_go [] Separator rest
          else split_go [c] (Text (is_stop c)) rest
      | Text after =>
          if after && is_space c then piece :: split_go [] Separator rest
          else split_go (piece ++ [c]) (Text (is_stop c)) rest
      end
  end.

Definition split_sentences (content : jsstring) : list jsstring :=
  split_go [] (Text false) content.

(** [.map((sentence) => sentence.trim()).filter(Boolean)]. *)
Definition sentences_of (content : jsstring) : list jsstring :=
  filter truthy (map trim (split_sentences content)).

(** [tokens.some((token) => queryTokens.has(token))]. *)
Definition mentions (queryTokens : list jsstring) (sentence : jsstring) : bool :=
  existsb (Set_has queryTokens) (word_tokens sentence).

Definition extractMatchingSentence (content : option jsstring) (queryTokens : list jsstring)
    : option jsstring :=
  match content with
  | None => None
  | Some text =>
      if negb (truthy text) || (length queryTokens =? 0)%nat then None
      else
        let sentences := sentences_of text in
        match find (mentions queryTokens) sentences with
        | Some sentence => Some sentence
        | None => hd_error sentences
        end
  end.

(** ** Tokens *)

Lemma match_plus_law (p : Z -> bool) (text : jsstring) :
  let ms := match match_plus p text with Some ms => ms | None => [] end in
  List.concat ms = filter p text
  /\ Forall (fun m => m <> [] /\ forallb p m = true) ms.
Proof.
  cbv zeta. unfold match_plus, match_all.
  assert (H : List.concat (re_scan p (length text) (length text) text) = filter p text
              /\ Forall (fun m => m <> [] /\ forallb p m = true)
                        (re_scan p (length text) (length text) text)).
  { destruct text as [|c rest]; [cbn; auto|].
    cbn [length].
    destruct (re_scan_law p (length rest) (S (length rest)) (c :: rest) (le_n _))
      as (Hcat & Hall).
    split; [exact Hcat|].
    eapply Forall_impl; [|exact Hall].
    intros m [Hlen Hp]. split; [|exact Hp]. intros ->. cbn in Hlen. lia. }
  destruct (re_scan p (length text) (length text) text); exact H.
Qed.

Lemma word_tokens_law (s : jsstring) :
  List.concat (word_tokens s) = filter is_alnum (toLowerCase s)
  /\ Forall (fun t => t <> [] /\ forallb is_alnum t = true) (word_tokens s).
Proof. exact (match_plus_law is_alnum (toLowerCase s)). Qed.

Lemma Set_add_NoDup (s : list jsstring) (k : jsstring) : NoDup s -> NoDup (Set_add s k).
Proof.
  intros Hnd. unfold Set_add. destruct (Set_has s k) eqn:E; [exact Hnd|].
  apply (Permutation_NoDup (Permutation_cons_append _ _)).
  constructor; [|exact Hnd].
  intros Hin. apply Set_has_In in Hin. congruence.
Qed.

Lemma Set_of_spec (items : list jsstring) :
  NoDup (Set_of items) /\ forall x, In x (Set_of items) <-> In x items.
Proof.
  unfold Set_of.
  assert (H : forall s, NoDup s ->
                NoDup (fold_left Set_add items s)
                /\ forall x, In x (fold_left Set_add items s) <-> In x s \/ In x items).
  { induction items as [|k items IH]; intros s Hs.
    - cbn. split; [exact Hs|]. intros x. split; [now left|]. now intros [H|[]].
    - cbn [fold_left]. destruct (IH (Set_add s k) (Set_add_NoDup s k Hs)) as [Hnd Hin].
      split; [exact Hnd|]. intros x. rewrite Hin, Set_add_In. cbn. split.
      + intros [[H|H]|H]; auto.
      + intros [H|[H|H]]; auto. }
  destruct (H [] (NoDup_nil _)) as [Hnd Hin]. split; [exact Hnd|].
  intros x. rewrite Hin. cbn. split; [now intros [[]|H']|now right].
Qed.

(** The token set of a query holds no token twice; every token is not
    empty and made of the code units [a-z] and [0-9]; every such code unit
    of the lower-cased query lies in a token; and the set is empty exactly
    when the lower-cased query has none. *)
Lemma token_set_law (query : jsstring) :
  NoDup (buildQueryTokenSet query)
  /\ Forall (fun t => t <> [] /\ Forall (fun c => is_alnum c = true) t)
            (buildQueryTokenSet query)
  /\ (forall c, In c (toLowerCase query) -> is_alnum c = true ->
        exists t, In t (buildQueryTokenSet query) /\ In c t)
  /\ (buildQueryTokenSet query = []
      <-> Forall (fun c => is_alnum c = false) (toLowerCase query)).
Proof.
  unfold buildQueryTokenSet.
  destruct (Set_of_spec (word_tokens query)) as [Hnd Hin].
  destruct (word_tokens_law query) as [Hcat Hall].
  assert (Hcover : forall c, In c (toLowerCase query) -> is_alnum c = true ->
                     exists t, In t (Set_of (word_tokens query)) /\ In c t).
  { intros c Hc Hp.
    assert (Hf : In c (filter is_alnum (toLowerCase query))) by (apply filter_In; now split).
    rewrite <- Hcat in Hf. apply in_concat in Hf as (t & Ht & Hct).
    exists t. split; [now apply Hin|exact Hct]. }
  split; [exact Hnd|]. split; [|split; [exact Hcover|]].
  - apply Forall_forall. intros t Ht. apply Hin in Ht.
    rewrite Forall_forall in Hall. destruct (Hall t Ht) as [Hne Hp].
    split; [exact Hne|]. apply Forall_forall. intros c Hc.
    rewrite forallb_forall in Hp. now apply Hp.
  - split.
    + intros E. apply Forall_forall. intros c Hc.
      destruct (is_alnum c) eqn:Ec; [|reflexivity].
      destruct (Hcover c Hc Ec) as (t & Ht & _). rewrite E in Ht. contradiction.
    + intros Hnone.
      destruct (Set_of (word_tokens query)) as [|t ts] eqn:E; [reflexivity|].
      exfalso.
      assert (Ht : In t (word_tokens query)) by (apply Hin; now left).
      rewrite Forall_forall in Hall. destruct (Hall t Ht) as [Hne Hp].
      destruct t as [|c t]; [contradiction|].
      cbn in Hp. apply andb_prop in Hp as [Hc _].
      assert (Hf : In c (filter is_alnum (toLowerCase query))).
      { rewrite <- Hcat. apply in_concat. exists (c :: t). split; [exact Ht|now left]. }
      apply filter_In in Hf as [Hf _].
      rewrite Forall_forall in Hnone. rewrite (Hnone c Hf) in Hc. discriminate.
Qed.

(** ** Matching words *)

Lemma collect_matches_spec (queryTokens tokens : list jsstring) :
  NoDup (collect_matches queryTokens tokens)
  /\ forall x, In x (collect_matches queryTokens tokens)
               <-> In x tokens /\ In x queryTokens.
Proof.
  unfold collect_matches.
  assert (H : forall s, NoDup s ->
     let r := fold_left (fun matches token =>
                           if Set_has queryTokens token then Set_add matches token
                           else matches) tokens s in
     NoDup r /\ forall x, In x r <-> In x s \/ (In x tokens /\ In x queryTokens)).
  { induction tokens as [|t tokens IH]; intros s Hs; cbv zeta.
    - cbn. split; [exact Hs|]. intros x. split; [now left|]. now intros [H|[[] _]].
    - cbn [fold_left]. destruct (Set_has queryTokens t) eqn:E.
      + destruct (IH (Set_add s t) (Set_add_NoDup s t Hs)) as [Hnd Hin].
        split; [exact Hnd|]. intros x. rewrite Hin, Set_add_In. cbn.
        apply Set_has_In in E. split.
        * intros [[H| ->]|[H1 H2]]; auto.
        * intros [H|[[<-|H1] H2]]; auto.
      + destruct (IH s Hs) as [Hnd Hin].
        split; [exact Hnd|]. intros x. rewrite Hin. cbn. split.
        * intros [H|[H1 H2]]; auto.
        * intros [H|[[<-|H1] H2]]; auto.
          apply Set_has_In in H2. congruence. }
  destruct (H [] (NoDup_nil _)) as [Hnd Hin]. split; [exact Hnd|].
  intros x. rewrite Hin. split; [now intros [[]|H']|now right].
Qed.

(** X18.  The matching words of a content are the tokens of the content
    that are query tokens, each once: no word is listed twice, every
    listed word is a token of the lower-cased content and a query token,
    and every token of the content that is a query token is listed.  There
    is no matching word when the content is missing or empty or when there
    is no query token. *)
Theorem extractMatchingWords_are_common_tokens (content : option jsstring)
    (queryTokens : list jsstring) :
  NoDup (extractMatchingWords content queryTokens)
  /\ (forall text, content = Some text -> text <> [] -> queryTokens <> [] ->
        forall x, In x (extractMatchingWords content queryTokens)
                  <-> In x (word_tokens text) /\ In x queryTokens)
  /\ (content = None \/ content = Some [] \/ queryTokens = [] ->
      extractMatchingWords content queryTokens = []).
Proof.
  unfold extractMatchingWords. split; [|split].
  - destruct content as [text|]; [|constructor].
    destruct (negb (truthy text) || (length queryTokens =? 0)%nat); [constructor|].
    apply collect_matches_spec.
  - intros text -> Htext Hquery x.
    destruct text as [|c text]; [contradiction|].
    destruct queryTokens as [|q qs]; [contradiction|].
    cbn [truthy negb length Nat.eqb orb].
    apply collect_matches_spec.
  - intros [->|[->| ->]]; [reflexivity|reflexivity|].
    destruct content as [text|]; [|reflexivity].
    now rewrite orb_true_r.
Qed.

(** ** The matching sentence *)

Lemma drop_spaces_keeps (s : jsstring) (c : Z) :
  In c s -> is_space c = false -> In c (drop_spaces s).
Proof.
  induction s as [|x s IH]; [contradiction|].
  intros [->|Hin] Hc; cbn.
  - rewrite Hc. now left.
  - destruct (is_space x); [now apply IH|now right].
Qed.

Lemma trim_keeps (s : jsstring) (c : Z) :
  In c s -> is_space c = false -> In c (trim s).
Proof.
  intros Hin Hc. unfold trim. apply -> in_rev.
  apply drop_spaces_keeps; [|exact Hc]. apply -> in_rev.
  now apply drop_spaces_keeps.
Qed.

Lemma drop_spaces_blank (s : jsstring) :
  Forall (fun c => is_space c = true) s -> drop_spaces s = [].
Proof.
  induction 1 as [|c s Hc _ IH]; [reflexivity|]. cbn. now rewrite Hc.
Qed.

Lemma trim_blank (s : jsstring) :
  Forall (fun c => is_space c = true) s -> trim s = [].
Proof.
  intros H. unfold trim. now rewrite (drop_spaces_blank s H).
Qed.

(** Every code unit of the text that is not white space lies in a piece. *)
Lemma split_go_covers (s piece : jsstring) (mode : SplitMode) (c : Z) :
  is_space c = false ->
  (In c s \/ (mode <> Separator /\ In c piece)) ->
  exists p, In p (split_go piece mode s) /\ In c p.
Proof.
  intros Hc. revert piece mode.
  induction s as [|x s IH]; intros piece mode Hin.
  - destruct Hin as [[]|[Hm Hp]]. exists piece. split; [now left|exact Hp].
  - cbn [split_go]. destruct mode as [after|].
    + destruct (after && is_space x) eqn:E.
      * apply andb_prop in E as [_ Ex].
        destruct Hin as [[->|Hin]|[_ Hp]].
        -- congruence.
        -- destruct (IH [] Separator (or_introl Hin)) as (p & Hp & Hcp).
           exists p. split; [now right|exact Hcp].
        -- exists piece. split; [now left|exact Hp].
      * apply IH. destruct Hin as [[->|Hin]|[_ Hp]].
        -- right. split; [discriminate|]. apply in_or_app. right. now left.
        -- now left.
        -- right. split; [discriminate|]. apply in_or_app. now left.
    + destruct Hin as [Hin|[Hm _]]; [|contradiction].
      destruct (is_space x) eqn:Ex.
      * destruct Hin as [->|Hin]; [congruence|]. apply IH. now left.
      * apply IH. destruct Hin as [->|Hin]; [|now left].
        right. split; [discriminate|now left].
Qed.

(** The pieces hold code units of the text only. *)
Lemma split_go_within (s piece : jsstring) (mode : SplitMode) (p : jsstring) (c : Z) :
  In p (split_go piece mode s) -> In c p -> In c piece \/ In c s.
Proof.
  revert piece mode. induction s as [|x s IH]; intros piece mode Hp Hc.
  - destruct Hp as [<-|[]]. now left.
  - cbn [split_go] in Hp. destruct mode as [after|].
    + destruct (after && is_space x).
      * destruct Hp as [<-|Hp]; [now left|].
        destruct (IH _ _ Hp Hc) as [[]|H]. right. now right.
      * destruct (IH _ _ Hp Hc) as [H|H]; [|right; now right].
        apply in_app_or in H as [H|[<-|[]]]; [now left|right; now left].
    + destruct (is_space x).
      * destruct (IH _ _ Hp Hc) as [[]|H]. right. now right.
      * destruct (IH _ _ Hp Hc) as [[<-|[]]|H]; right; [now left|now right].
Qed.

Lemma truthy_nonempty (s : jsstring) : truthy s = true <-> s <> [].
Proof. destruct s; cbn; split; intros; congruence. Qed.

(** There is a sentence exactly when the text is not all white space. *)
Lemma sentences_of_nil_iff (text : jsstring) :
  sentences_of text = [] <-> Forall (fun c => is_space c = true) text.
Proof.
  unfold sentences_of, split_sentences. split.
  - intros E. apply Forall_forall. intros c Hc.
    destruct (is_space c) eqn:Ec; [reflexivity|]. exfalso.
    destruct (split_go_covers text [] (Text false) c Ec (or_introl Hc)) as (p & Hp & Hcp).
    assert (Hin : In (trim p) (filter truthy (map trim (split_go [] (Text false) text)))).
    { apply filter_In. split; [now apply in_map|].
      apply truthy_nonempty. intros Ht.
      pose proof (trim_keeps p c Hcp Ec) as Hk. rewrite Ht in Hk. contradiction. }
    rewrite E in Hin. contradiction.
  - intros Hall.
    destruct (filter truthy (map trim (split_go [] (Text false) text))) as [|s ss] eqn:E;
      [reflexivity|].
    exfalso.
    assert (Hin : In s (filter truthy (map trim (split_go [] (Text false) text))))
      by (rewrite E; now left).
    apply filter_In in Hin as [Hin Ht]. apply in_map_iff in Hin as (p & <- & Hp).
    rewrite trim_blank in Ht; [discriminate|].
    apply Forall_forall. intros c Hc.
    destruct (split_go_within _ _ _ _ _ Hp Hc) as [[]|H].
    rewrite Forall_forall in Hall. now apply Hall.
Qed.

Lemma find_first {A : Type} (p : A -> bool) (l : list A) (x : A) :
  find p l = Some x ->
  p x = true /\ exists before after, l = before ++ x :: after
                                     /\ Forall (fun y => p y = false) before.
Proof.
  induction l as [|y l IH]; [discriminate|]. cbn.
  destruct (p y) eqn:E.
  - intros [= ->]. split; [exact E|]. exists [], l. split; [reflexivity|constructor].
  - intros H. destruct (IH H) as (Hx & before & after & -> & Hb).
    split; [exact Hx|]. exists (y :: before), after. split; [reflexivity|].
    now constructor.
Qed.

(** X19.  The matching sentence of a content.  There is none when the
    content is missing or empty or when there is no query token, and
    otherwise exactly when the content is white space only.  A sentence
    that is returned is one of the trimmed, non-empty pieces of the
    content; it is the first piece with a token that is a query token, and
    the first piece of all when no piece has one. *)
Theorem extractMatchingSentence_is_first_match (content : option jsstring)
    (queryTokens : list jsstring) :
  (content = None \/ content = Some [] \/ queryTokens = [] ->
   extractMatchingSentence content queryTokens = None)
  /\ (forall text, content = Some text -> queryTokens <> [] ->
        (extractMatchingSentence content queryTokens = None
         <-> Forall (fun c => is_space c = true) text))
  /\ (forall sentence, extractMatchingSentence content queryTokens = Some sentence ->
        sentence <> []
        /\ exists text before after,
             content = Some text
             /\ sentences_of text = before ++ sentence :: after
             /\ Forall (fun s => mentions queryTokens s = false) before
             /\ (mentions queryTokens sentence = true
                 \/ (before = []
                     /\ Forall (fun s => mentions queryTokens s = false) after))).
Proof.
  unfold extractMatchingSentence. split; [|split].
  - intros [->|[->| ->]]; [reflexivity|reflexivity|].
    destruct content as [text|]; [|reflexivity]. now rewrite orb_true_r.
  - intros text -> Hq.
    destruct queryTokens as [|q qs]; [contradiction|].
    destruct text as [|c text]; [cbn; split; [constructor|reflexivity]|].
    cbn [truthy negb length Nat.eqb orb]. cbv zeta.
    rewrite <- sentences_of_nil_iff.
    destruct (find (mentions (q :: qs)) (sentences_of (c :: text))) as [s|] eqn:E.
    + split; [discriminate|]. intros Hnil. rewrite Hnil in E. discriminate.
    + destruct (sentences_of (c :: text)); cbn; split; congruence.
  - intros sentence.
    destruct content as [text|]; [|discriminate].
    destruct (negb (truthy text) || (length queryTokens =? 0)%nat); [discriminate|].
    cbv zeta.
    assert (Hne : forall s, In s (sentences_of text) -> s <> []).
    { intros s Hs. unfold sentences_of in Hs. apply filter_In in Hs as [_ Hs].
      now apply truthy_nonempty. }
    destruct (find (mentions queryTokens) (sentences_of text)) as [s|] eqn:E.
    + intros [= ->]. destruct (find_first _ _ _ E) as (Hm & before & after & Hsplit & Hb).
      split.
      * apply Hne. rewrite Hsplit. apply in_or_app. right. now left.
      * exists text, before, after. auto.
    + intros Hhd. destruct (sentences_of text) as [|s ss] eqn:Es; [discriminate|].
      injection Hhd as ->. split.
      * apply Hne. now left.
      * exists text, [], ss. split; [reflexivity|]. split; [exact Es|].
        split; [constructor|]. right. split; [reflexivity|].
        apply Forall_forall. intros s' Hs'.
        apply (find_none _ _ E). now right.
Qed.

End Lexical.

(** [toLowerCase] on a text of ASCII code units. *)
Definition ascii_lower (s : jsstring) : jsstring :=
  map (fun c => if (65 <=? c) && (c <=? 90) then c + 32 else c) s.

(** The functions on a sample: the query ["Graph DB"] and a content of two
    sentences. *)
Lemma lexical_sample :
  buildQueryTokenSet ascii_lower (js "Graph DB, graph") = [js "graph"; js "db"]
  /\ extractMatchingWords ascii_lower (Some (js "A db. The Graph!"))
       [js "graph"; js "db"] = [js "db"; js "graph"]
  /\ extractMatchingSentence ascii_lower (Some (js "Intro.  The Graph! End."))
       [js "graph"; js "db"] = Some (js "The Graph!")
  /\ extractMatchingSentence ascii_lower (Some (js "Intro.  Other. "))
       [js "graph"; js "db"] = Some (js "Intro.").
Proof. repeat split; vm_compute; reflexivity. Qed.

(** ** The fusion step, as it is coded *)

Lemma Map_get_of_entry {V : Type} (m : Map V) (k : jsstring) (v : V) :
  NoDup (map fst m) -> In (k, v) m -> Map_get m k = Some v.
Proof.
  induction m as [|[k0 v0] m IH]; cbn; [contradiction|].
  intros Hnd [H|H].
  - injection H as -> ->. now rewrite (proj2 (jsstring_eqb_eq k k) eq_refl).
  - inversion Hnd as [|? ? Hout Hnd']; subst.
    destruct (jsstring_eqb k0 k) eqn:E; [|now apply IH].
    apply jsstring_eqb_eq in E. subst k0. exfalso. apply Hout.
    apply in_map_iff. now exists (k, v).
Qed.

Local Open Scope R_scope.

(** X20.  The scores of a hybrid result, when the ids of the [nodes] table
    are distinct.  [connections] is the number of graph results whose
    target is the node, and [hybridScore] is
    [vectorScore * vectorWeight + graphScore * graphWeight].  For a node
    that is a vector result, [vectorScore] is the score of that result and
    [graphScore] is the greatest of 0 and the weights of those graph
    results: it is never negative.  For a node that only graph results
    brought, [vectorScore] is 0 and [graphScore] is the greatest of the
    weights, of which there is at least one. *)
Theorem fusion_as_coded (req : HybridSearch.Request) (w w' : World)
    (body : HybridSearch.Body) :
  NoDup (map id (nodes (db w))) ->
  HybridSearch.handler req w = (HybridSearch.Ok200 body, w') ->
  Forall (fun h =>
            let ws := weights (HR.nodeId h) (HybridSearch.graphResults body) in
            HR.connections h = Z.of_nat (length ws)
            /\ HR.hybridScore h
               = HR.vectorScore h * HybridSearch.vectorWeight req
                 + HR.graphScore h * HybridSearch.graphWeight req
            /\ Forall (fun x => x <= HR.graphScore h) ws
            /\ ((exists v, In v (HybridSearch.vectorResults body)
                           /\ VR.nodeId v = HR.nodeId h
                           /\ HR.vectorScore h = VR.vectorScore v
                           /\ 0 <= HR.graphScore h
                           /\ (HR.graphScore h = 0 \/ In (HR.graphScore h) ws))
                \/ (~ In (HR.nodeId h) (map VR.nodeId (HybridSearch.vectorResults body))
                    /\ HR.vectorScore h = 0
                    /\ In (HR.graphScore h) ws)))
         (HybridSearch.hybridResults body).
Proof.
  intros Hnd Hrun. apply handler_answer in Hrun as [_ ->].
  cbn [answer HybridSearch.vectorResults HybridSearch.graphResults HybridSearch.hybridResults].
  pose proof (vectorSearch_distinct
                (HybridSearch.localEmbedding (HybridSearch.query req)) w
                (HybridSearch.fileId req) (HybridSearch.topK req) Hnd) as Hvr.
  fold (vector_results req w) in Hvr.
  generalize dependent (vector_results req w). intros vr Hvr.
  generalize (map (HybridSearch.toGraphResult (full_lookup req w)) (seed_edges req w)) as gr.
  generalize (full_lookup req w) as lookup.
  intros lookup gr.
  destruct (mergeResults_well_keyed lookup vr gr) as [Hkeys Hall].
  apply Forall_forall. intros h Hh. cbv zeta.
  apply hybridRank_In in Hh as (c & Hc & ->).
  unfold Map_values in Hc. apply in_map_iff in Hc as ([i c'] & Ec & Hin).
  cbn [snd] in Ec. subst c'.
  rewrite Forall_forall in Hall. destruct (Hall _ Hin) as [Hid _]. cbn [fst snd] in Hid.
  pose proof (Map_get_of_entry _ _ _ Hkeys Hin) as Hget.
  destruct (fusion_of_node lookup vr gr i Hvr) as [Hboth Honly].
  cbn [HybridSearch.toHybridResult HR.nodeId HR.vectorScore HR.graphScore HR.connections
       HR.hybridScore].
  rewrite Hid.
  destruct (in_dec jsstring_eq_dec i (map VR.nodeId vr)) as [Hiv|Hout].
  - apply in_map_iff in Hiv as (v & Ev & Hv).
    rewrite (Hboth v Hv Ev) in Hget. injection Hget as <-.
    cbn [CR.connections CR.vectorScore CR.graphScore].
    destruct (fold_Rmax_greatest (weights i gr) 0) as (Hge & Hws & Hor).
    split; [unfold weights; now rewrite length_map|]. split; [reflexivity|].
    split; [exact Hws|]. left. exists v. auto.
  - rewrite (Honly Hout) in Hget.
    unfold weights.
    destruct (contributing i gr) as [|g rest] eqn:Eg; [discriminate|].
    injection Hget as <-.
    cbn [CR.connections CR.vectorScore CR.graphScore].
    destruct (fold_Rmax_greatest (map GR.graphScore rest) (GR.graphScore g))
      as (Hge & Hws & Hor).
    split; [now rewrite length_map|]. split; [reflexivity|].
    cbn [map].
    split; [constructor; assumption|]. right.
    split; [exact Hout|]. split; [reflexivity|].
    destruct Hor as [->|Hor]; [now left|now right].
Qed.

Lemma two_nodes_distinct_ids : NoDup (map id (nodes (db two_nodes))).
Proof.
  cbn [two_nodes store db nodes map id ingested].
  constructor; [intros [H|[]]; discriminate|].
  constructor; [intros []|constructor].
Qed.

Lemma fusion_as_coded_witness :
  exists (body : HybridSearch.Body) (w' : World),
    HybridSearch.handler (ask (js "alpha") (1 / 2) (1 / 2) 10) two_nodes
    = (HybridSearch.Ok200 body, w')
    /\ Forall (fun h => HR.hybridScore h
                        = HR.vectorScore h * (1 / 2) + HR.graphScore h * (1 / 2))
              (HybridSearch.hybridResults body).
Proof.
  destruct (handler_runs (ask (js "alpha") (1 / 2) (1 / 2) 10) two_nodes
              (two_nodes_scope _ _ _ _)) as (lookup & w' & Hrun).
  eexists _, w'. split; [exact Hrun|].
  pose proof (fusion_as_coded _ _ _ _ two_nodes_distinct_ids Hrun) as H.
  eapply Forall_impl; [|exact H]. intros h (_ & Hs & _). exact Hs.
Defined.

Local Close Scope R_scope.

(* ================================================================== *)
(** * The client: GraphVisualization                                   *)
(* ================================================================== *)

(** The component lays a graph out in rows: [computeLevels] gives every
    node a level by a breadth-first walk from the nodes without incoming
    link, and the layout spreads the nodes of a level on a row.  The state
    hooks and the drawing belong to React and to the force-graph library
    and are not modelled; the functions below are the computations the
    component does itself.  Positions are real numbers: the products of
    whole and half numbers the layout forms are exact in the doubles of
    the code. *)

Module GraphVisualization.

(** [GraphNode]; the payload of the query engine has a [nodeType] as well,
    which no code of the client reads. *)
Record GraphNode : Type := {
  id : jsstring;
  label : option jsstring;
  content : option jsstring;
  fx : option R;
  fy : option R
}.

(** [GraphLink]; the links of the payload and of the results view carry a
    [weight] as well. *)
Record GraphLink : Type := {
  source : jsstring;
  target : jsstring;
  weight : option R
}.

Record GraphVisualizationData : Type := {
  nodes : list GraphNode;
  links : list GraphLink
}.

(** [a || b] on strings that may be missing: [a] when it is a non-empty
    string. *)
Definition or_else_string (a : option jsstring) (b : jsstring) : jsstring :=
  match a with
  | Some s => if truthy s then s else b
  | None => b
  end.

(** [n.label || n.content?.slice(0, 60) || `Node ${n.id}`]. *)
Definition getLabel (n : GraphNode) : jsstring :=
  or_else_string (label n)
    (or_else_string (option_map (slice0 60) (content n)) (js "Node " ++ id n)).

(** ** [computeLevels] *)

(** [x ?? 0]. *)
Definition or_zero (x : option nat) : nat :=
  match x with Some n => n | None => 0%nat end.

(** The two maps after the loop over [nodes]. *)
Definition indegree_start (nodes : list GraphNode) : Map nat :=
  fold_left (fun m n => Map_set m (id n) 0%nat) nodes [].

Definition adj_start (nodes : list GraphNode) : Map (list jsstring) :=
  fold_left (fun m n => Map_set m (id n) []) nodes [].

(** The two maps after the loop over [links].  [adj.get(l.source)?.push]
    extends the array the map holds, and does nothing for a source that is
    not a node. *)
Definition indegree_of (nodes : list GraphNode) (links : list GraphLink) : Map nat :=
  fold_left (fun m l => Map_set m (target l) (or_zero (Map_get m (target l)) + 1)%nat)
            links (indegree_start nodes).

Definition adj_of (nodes : list GraphNode) (links : list GraphLink) : Map (list jsstring) :=
  fold_left (fun m l => match Map_get m (source l) with
                        | Some children => Map_set m (source l) (children ++ [target l])
                        | None => m
                        end)
            links (adj_start nodes).

(** The queue at the start: the nodes of indegree 0, at level 0. *)
Definition start_queue (nodes : list GraphNode) (indegree : Map nat) : list (jsstring * nat) :=
  map (fun n => (id n, 0%nat))
      (filter (fun n => (or_zero (Map_get indegree (id n)) =? 0)%nat) nodes).

(** The [while] loop; [fuel] bounds the number of its turns, [None] is a
    loop that has not ended within them.  The turns [computeLevels] allows
    are enough, whatever the graph: a turn takes one entry off the queue,
    and a link adds at most one. *)
Fixpoint walk (fuel : nat) (adj : Map (list jsstring)) (queue : list (jsstring * nat))
    (levels : Map nat) : option (Map nat) :=
  match queue with
  | [] => Some levels
  | (i, level) :: rest =>
      match fuel with
      | O => None
      | S fuel' =>
          if Map_has levels i then walk fuel' adj rest levels
          else
            let queue' :=
              match Map_get adj i with
              | Some children => rest ++ map (fun child => (child, S level)) children
              | None => rest
              end in
            walk fuel' adj queue' (Map_set levels i level)
      end
  end.

Definition computeLevels (nodes : list GraphNode) (links : list GraphLink)
    : option (Map nat) :=
  walk (length nodes + length links) (adj_of nodes links)
       (start_queue nodes (indegree_of nodes links)) [].

(** ** The layout *)

(** [levels.get(n.id) ?? 0]. *)
Definition level_of (levels : Map nat) (n : GraphNode) : nat :=
  or_zero (Map_get levels (id n)).

(** [Map<number, GraphNode[]>], in insertion order. *)
Definition Rows : Type := list (nat * list GraphNode).

Fixpoint Rows_get (g : Rows) (lvl : nat) : option (list GraphNode) :=
  match g with
  | [] => None
  | (k, row) :: g' => if (k =? lvl)%nat then Some row else Rows_get g' lvl
  end.

(** [if (!grouped.has(lvl)) grouped.set(lvl, []); grouped.get(lvl)!.push(n)]. *)
Fixpoint Rows_push (g : Rows) (lvl : nat) (n : GraphNode) : Rows :=
  match g with
  | [] => [(lvl, [n])]
  | (k, row) :: g' =>
      if (k =? lvl)%nat then (k, row ++ [n]) :: g'
      else (k, row) :: Rows_push g' lvl n
  end.

Definition group (levels : Map nat) (nodes : list GraphNode) : Rows :=
  fold_left (fun g n => Rows_push g (level_of levels n) n) nodes [].

(** [row.findIndex((r) => r.id === n.id)]: -1 when there is none. *)
Fixpoint findIndex (i : jsstring) (row : list GraphNode) : Z :=
  match row with
  | [] => -1
  | r :: row' =>
      if jsstring_eqb (id r) i then 0
      else match findIndex i row' with
           | -1 => -1
           | k => k + 1
           end
  end.

Definition levelGap : R := 180.
Definition nodeGapX : R := 220.

(** One turn of [nodes.map]; [None] is the [TypeError] of reading
    [findIndex] on a row that does not exist. *)
Definition place (levels : Map nat) (grouped : Rows) (n : GraphNode) : option GraphNode :=
  let lvl := level_of levels n in
  match Rows_get grouped lvl with
  | None => None
  | Some row =>
      let index := findIndex (id n) row in
      let mid := ((INR (length row) - 1) / 2)%R in
      Some {| id := id n; label := label n; content := content n;
              fx := Some ((IZR index - mid) * nodeGapX)%R;
              fy := Some (INR lvl * levelGap)%R |}
  end.

Fixpoint place_all (levels : Map nat) (grouped : Rows) (nodes : list GraphNode)
    : option (list GraphNode) :=
  match nodes with
  | [] => Some []
  | n :: rest =>
      match place levels grouped n, place_all levels grouped rest with
      | Some p, Some ps => Some (p :: ps)
      | _, _ => None
      end
  end.

(** The body of [useMemo]: [data] may be missing. *)
Definition processed (data : option GraphVisualizationData) : option GraphVisualizationData :=
  match data with
  | None => Some {| nodes := []; links := [] |}
  | Some d =>
      match computeLevels (nodes d) (links d) with
      | None => None
      | Some levels =>
          match place_all levels (group levels (nodes d)) (nodes d) with
          | None => None
          | Some positioned => Some {| nodes := positioned; links := links d |}
          end
      end
  end.

End GraphVisualization.

(** ** [computeLevels]: the levels are distances *)

Module GV := GraphVisualization.

Section Walk.

Variable adj : Map (list jsstring).

(** The children [adj] lists for a node, and the edges they make. *)
Definition children (i : jsstring) : list jsstring :=
  match Map_get adj i with Some cs => cs | None => [] end.

Definition edge (p c : jsstring) : Prop := In c (children p).

Variable root : jsstring -> Prop.
Hypothesis root_no_parent : forall r p, root r -> ~ edge p r.

Lemma walk_step (fuel : nat) (i : jsstring) (level : nat) (rest : list (jsstring * nat))
    (levels : Map nat) :
  GV.walk (S fuel) adj ((i, level) :: rest) levels
  = if Map_has levels i then GV.walk fuel adj rest levels
    else GV.walk fuel adj (rest ++ map (fun child => (child, S level)) (children i))
                 (Map_set levels i level).
Proof.
  cbn [GV.walk]. unfold children.
  destruct (Map_has levels i); [reflexivity|].
  destruct (Map_get adj i); [reflexivity|]. cbn [map]. now rewrite app_nil_r.
Qed.

(** What holds of the queue and of the levels at every turn. *)
Record Inv (queue : list (jsstring * nat)) (levels : Map nat) : Prop := {
  inv_sound : forall i lv, Map_get levels i = Some lv \/ In (i, lv) queue ->
      (lv = 0%nat /\ root i)
      \/ exists p lp, lv = S lp /\ Map_get levels p = Some lp /\ edge p i;
  inv_roots : forall r, root r -> Map_get levels r = Some 0%nat \/ In (r, 0%nat) queue;
  inv_closed : forall p lp c, Map_get levels p = Some lp -> edge p c ->
      (exists lc, Map_get levels c = Some lc /\ (lc <= S lp)%nat)
      \/ exists lv, In (c, lv) queue /\ (lv <= S lp)%nat;
  inv_sorted : StronglySorted (fun a b => (snd a <= snd b)%nat) queue;
  inv_tight : forall a b, In a queue -> In b queue -> (snd b <= S (snd a))%nat;
  inv_below : forall x lx e, Map_get levels x = Some lx -> In e queue -> (lx <= snd e)%nat
}.

Lemma Map_has_get {V : Type} (m : Map V) (k : jsstring) :
  Map_has m k = true <-> exists v, Map_get m k = Some v.
Proof.
  unfold Map_has. destruct (Map_get m k) as [v|]; split;
    [intros _; now exists v|reflexivity|discriminate|intros [v H]; discriminate].
Qed.

Lemma inv_skip (i : jsstring) (level : nat) (rest : list (jsstring * nat)) (levels : Map nat) :
  Inv ((i, level) :: rest) levels -> Map_has levels i = true -> Inv rest levels.
Proof.
  intros [Hsound Hroots Hclosed Hsorted Htight Hbelow] Hhas.
  apply Map_has_get in Hhas as [li Hli].
  constructor.
  - intros x lv [H|H]; apply Hsound; [now left|right; now right].
  - intros r Hr. destruct (Hroots r Hr) as [H|[H|H]]; [now left| |now right].
    injection H as Hi Hl. subst r level. left.
    destruct (Hsound i li (or_introl Hli)) as [[-> _]|(p & lp & _ & _ & He)];
      [exact Hli|].
    exfalso. exact (root_no_parent _ _ Hr He).
  - intros p lp c Hp He.
    destruct (Hclosed p lp c Hp He) as [H|(lv & [H|H] & Hle)]; [now left| |right; now exists lv].
    injection H as <- <-. left. exists li. split; [exact Hli|].
    pose proof (Hbelow i li (i, level) Hli (or_introl eq_refl)) as Hb. cbn in Hb. lia.
  - now inversion Hsorted.
  - intros a b Ha Hb. apply Htight; now right.
  - intros x lx e Hx He. apply (Hbelow x lx e Hx). now right.
Qed.

Lemma inv_visit (i : jsstring) (level : nat) (rest : list (jsstring * nat)) (levels : Map nat) :
  Inv ((i, level) :: rest) levels -> Map_has levels i = false ->
  Inv (rest ++ map (fun child => (child, S level)) (children i)) (Map_set levels i level).
Proof.
  intros [Hsound Hroots Hclosed Hsorted Htight Hbelow] Hhas.
  assert (Hnone : Map_get levels i = None).
  { unfold Map_has in Hhas. destruct (Map_get levels i); [discriminate|reflexivity]. }
  assert (Hkeep : forall x lx, Map_get levels x = Some lx ->
                    Map_get (Map_set levels i level) x = Some lx).
  { intros x lx Hx. rewrite Map_get_set.
    destruct (jsstring_eqb i x) eqn:E; [|exact Hx].
    apply jsstring_eqb_eq in E. subst x. congruence. }
  assert (Hnew : Map_get (Map_set levels i level) i = Some level).
  { rewrite Map_get_set. now rewrite (proj2 (jsstring_eqb_eq i i) eq_refl). }
  assert (Hget : forall x lx, Map_get (Map_set levels i level) x = Some lx ->
                   (x = i /\ lx = level) \/ Map_get levels x = Some lx).
  { intros x lx. rewrite Map_get_set. destruct (jsstring_eqb i x) eqn:E; [|now right].
    apply jsstring_eqb_eq in E. intros [= <-]. now left. }
  assert (Hhead : forall e, In e rest -> (level <= snd e <= S level)%nat).
  { intros e He. split.
    - inversion Hsorted as [|? ? _ Hall]; subst. rewrite Forall_forall in Hall.
      exact (Hall e He).
    - exact (Htight (i, level) e (or_introl eq_refl) (or_intror He)). }
  assert (Hqueue : forall e, In e (rest ++ map (fun child => (child, S level)) (children i)) ->
                     (level <= snd e <= S level)%nat).
  { intros e He. apply in_app_or in He as [He|He]; [now apply Hhead|].
    apply in_map_iff in He as (c & <- & _). cbn. lia. }
  constructor.
  - intros x lv Hx.
    assert (Hold : (lv = 0%nat /\ root x)
                   \/ (exists p lp, lv = S lp /\ Map_get levels p = Some lp /\ edge p x)
                   \/ (lv = S level /\ edge i x)).
    { destruct Hx as [Hx|Hx].
      - apply Hget in Hx as [[-> ->]|Hx].
        + destruct (Hsound i level (or_intror (or_introl eq_refl))) as [H|H]; auto.
        + destruct (Hsound x lv (or_introl Hx)) as [H|H]; auto.
      - apply in_app_or in Hx as [Hx|Hx].
        + destruct (Hsound x lv (or_intror (or_intror Hx))) as [H|H]; auto.
        + apply in_map_iff in Hx as (c & [= <- <-] & Hc). right. right. now split. }
    destruct Hold as [H|[(p & lp & -> & Hp & He)|[-> He]]]; [now left| |].
    + right. exists p, lp. split; [reflexivity|]. split; [now apply Hkeep|exact He].
    + right. exists i, level. split; [reflexivity|]. split; [exact Hnew|exact He].
  - intros r Hr. destruct (Hroots r Hr) as [H|[H|H]].
    + left. now apply Hkeep.
    + injection H as <- <-. left. exact Hnew.
    + right. apply in_or_app. now left.
  - intros p lp c Hp He. apply Hget in Hp as [[-> ->]|Hp].
    + right. exists (S level). split; [|lia].
      apply in_or_app. right. apply in_map_iff. now exists c.
    + destruct (Hclosed p lp c Hp He) as [(lc & Hc & Hle)|(lv & [H|H] & Hle)].
      * left. exists lc. split; [now apply Hkeep|exact Hle].
      * injection H as <- <-. left. exists level. split; [exact Hnew|exact Hle].
      * right. exists lv. split; [apply in_or_app; now left|exact Hle].
  - apply sorted_app.
    + now inversion Hsorted.
    + generalize (children i) as cs. intros cs.
      induction cs as [|c cs IH]; cbn; constructor; [exact IH|].
      apply Forall_forall. intros e He. apply in_map_iff in He as (c' & <- & _). cbn. lia.
    + intros a b Ha Hb. apply in_map_iff in Hb as (c & <- & _). cbn.
      now apply Hhead.
  - intros a b Ha Hb. apply Hqueue in Ha, Hb. lia.
  - intros x lx e Hx He. apply Hqueue in He. apply Hget in Hx as [[-> ->]|Hx]; [lia|].
    pose proof (Hbelow x lx (i, level) Hx (or_introl eq_refl)) as Hb. cbn in Hb. lia.
Qed.

(** A walk that ends has kept what held at its start. *)
Lemma walk_keeps (fuel : nat) (queue : list (jsstring * nat)) (levels final : Map nat) :
  Inv queue levels -> GV.walk fuel adj queue levels = Some final -> Inv [] final.
Proof.
  revert queue levels. induction fuel as [|fuel IH]; intros queue levels Hinv Hrun.
  - destruct queue as [|[i lv] rest]; [|discriminate]. now injection Hrun as <-.
  - destruct queue as [|[i lv] rest]; [now injection Hrun as <-|].
    rewrite walk_step in Hrun. destruct (Map_has levels i) eqn:E.
    + exact (IH _ _ (inv_skip _ _ _ _ Hinv E) Hrun).
    + exact (IH _ _ (inv_visit _ _ _ _ Hinv E) Hrun).
Qed.

(** [reach k i]: a path of [k] edges leads from a root to [i]. *)
Fixpoint reach (k : nat) (i : jsstring) : Prop :=
  match k with
  | O => root i
  | S k' => exists p, reach k' p /\ edge p i
  end.

Lemma levels_are_distances (final : Map nat) :
  Inv [] final ->
  forall i lv, Map_get final i = Some lv
               <-> reach lv i /\ forall k, reach k i -> (lv <= k)%nat.
Proof.
  intros [Hsound Hroots Hclosed _ _ _].
  assert (Hpath : forall lv i, Map_get final i = Some lv -> reach lv i).
  { induction lv as [|lv IH]; intros i Hi.
    - destruct (Hsound i 0%nat (or_introl Hi)) as [[_ Hr]|(p & lp & H & _)];
        [exact Hr|discriminate].
    - destruct (Hsound i (S lv) (or_introl Hi)) as [[H _]|(p & lp & [= <-] & Hp & He)];
        [discriminate|].
      exists p. split; [now apply IH|exact He]. }
  assert (Hshort : forall k i, reach k i -> exists lv, Map_get final i = Some lv /\ (lv <= k)%nat).
  { induction k as [|k IH]; intros i Hi.
    - destruct (Hroots i Hi) as [H|[]]. exists 0%nat. split; [exact H|lia].
    - destruct Hi as (p & Hp & He). destruct (IH p Hp) as (lp & Hlp & Hle).
      destruct (Hclosed p lp i Hlp He) as [(lc & Hc & Hlc)|(lv & [] & _)].
      exists lc. split; [exact Hc|lia]. }
  intros i lv. split.
  - intros Hi. split; [now apply Hpath|].
    intros k Hk. destruct (Hshort k i Hk) as (lv' & Hlv' & Hle). congruence.
  - intros [Hr Hmin]. destruct (Hshort lv i Hr) as (lv' & Hlv' & Hle).
    pose proof (Hmin lv' (Hpath lv' i Hlv')). now replace lv with lv' by lia.
Qed.

End Walk.

(** ** The walk ends *)

(** The children still to be queued: those of the keys of [adj] that have
    no level yet. *)
Fixpoint pending (adj : Map (list jsstring)) (levels : Map nat) : nat :=
  match adj with
  | [] => 0%nat
  | (k, cs) :: adj' => ((if Map_has levels k then 0 else length cs) + pending adj' levels)%nat
  end.

Lemma jsstring_eqb_same (a : jsstring) : jsstring_eqb a a = true.
Proof. now apply jsstring_eqb_eq. Qed.

Lemma jsstring_eqb_swap (a b : jsstring) : jsstring_eqb a b = jsstring_eqb b a.
Proof.
  destruct (jsstring_eqb b a) eqn:E.
  - apply jsstring_eqb_eq in E. subst. apply jsstring_eqb_same.
  - apply jsstring_eqb_neq in E. apply jsstring_eqb_neq. congruence.
Qed.

Lemma Map_has_set {V : Type} (m : Map V) (k k' : jsstring) (v : V) :
  Map_has (Map_set m k v) k' = jsstring_eqb k k' || Map_has m k'.
Proof. unfold Map_has. rewrite Map_get_set. now destruct (jsstring_eqb k k'). Qed.

Lemma pending_set (adj : Map (list jsstring)) (levels : Map nat) (i : jsstring) (level : nat) :
  (pending adj (Map_set levels i level) <= pending adj levels)%nat.
Proof.
  induction adj as [|[k cs] adj IH]; cbn [pending]; [lia|].
  rewrite Map_has_set.
  destruct (jsstring_eqb i k), (Map_has levels k); cbn [orb]; lia.
Qed.

Lemma pending_visit (adj : Map (list jsstring)) (levels : Map nat) (i : jsstring) (level : nat) :
  Map_has levels i = false ->
  (pending adj (Map_set levels i level) + length (children adj i) <= pending adj levels)%nat.
Proof.
  intros Hi. unfold children.
  induction adj as [|[k cs] adj IH]; cbn [pending Map_get length]; [lia|].
  rewrite Map_has_set, (jsstring_eqb_swap i k).
  destruct (jsstring_eqb k i) eqn:E; cbn [orb].
  - apply jsstring_eqb_eq in E. subst k. rewrite Hi.
    pose proof (pending_set adj levels i level). lia.
  - destruct (Map_has levels k); lia.
Qed.

Lemma walk_ends (adj : Map (list jsstring)) (fuel : nat) :
  forall (queue : list (jsstring * nat)) (levels : Map nat),
    (length queue + pending adj levels <= fuel)%nat ->
    exists final, GV.walk fuel adj queue levels = Some final.
Proof.
  induction fuel as [|fuel IH]; intros queue levels Hle.
  - destruct queue as [|e rest]; cbn [length] in Hle; [|lia]. now exists levels.
  - destruct queue as [|[i lv] rest]; [now exists levels|].
    rewrite walk_step. cbn [length] in Hle.
    destruct (Map_has levels i) eqn:E; apply IH; [lia|].
    rewrite length_app, length_map.
    pose proof (pending_visit adj levels i lv E). lia.
Qed.

(** ** The maps [computeLevels] builds *)

Section Levels.

Variable nodes : list GV.GraphNode.
Variable links : list GV.GraphLink.

(** The graph the walk sees.  A link counts when its source is a node; a
    root is a node that no link targets. *)
Definition is_node (i : jsstring) : Prop := In i (map GV.id nodes).

Definition is_root (r : jsstring) : Prop :=
  is_node r /\ forall l, In l links -> GV.target l <> r.

Definition is_link (p c : jsstring) : Prop :=
  is_node p /\ exists l, In l links /\ GV.source l = p /\ GV.target l = c.

(** [path_from_root k i]: [k] links lead from a root to [i]. *)
Fixpoint path_from_root (k : nat) (i : jsstring) : Prop :=
  match k with
  | O => is_root i
  | S k' => exists p, path_from_root k' p /\ is_link p i
  end.

Lemma adj_start_get (i : jsstring) :
  Map_get (GV.adj_start nodes) i = if Set_has (map GV.id nodes) i then Some [] else None.
Proof.
  unfold GV.adj_start. change (@None (list jsstring)) with (Map_get (@nil (jsstring * list jsstring)) i).
  generalize (@nil (jsstring * list jsstring)) as m.
  induction nodes as [|n ns IH]; intros m; [reflexivity|].
  cbn [fold_left map]. rewrite IH. unfold Set_has. cbn [existsb].
  rewrite Map_get_set, (jsstring_eqb_swap i (GV.id n)).
  destruct (jsstring_eqb (GV.id n) i), (existsb (jsstring_eqb i) (map GV.id ns)); reflexivity.
Qed.

Lemma indegree_start_get (i : jsstring) :
  GV.or_zero (Map_get (GV.indegree_start nodes) i) = 0%nat.
Proof.
  unfold GV.indegree_start.
  assert (H : forall m : Map nat, GV.or_zero (Map_get m i) = 0%nat ->
            GV.or_zero (Map_get (fold_left (fun m n => Map_set m (GV.id n) 0%nat) nodes m) i)
            = 0%nat).
  { induction nodes as [|n ns IH]; intros m Hm; [exact Hm|].
    cbn [fold_left]. apply IH. rewrite Map_get_set.
    now destruct (jsstring_eqb (GV.id n) i). }
  now apply H.
Qed.

Lemma adj_get (i : jsstring) :
  children (GV.adj_of nodes links) i
  = if Set_has (map GV.id nodes) i
    then map GV.target (filter (fun l => jsstring_eqb (GV.source l) i) links)
    else [].
Proof.
  assert (H : forall m : Map (list jsstring),
            Map_get (fold_left (fun m l => match Map_get m (GV.source l) with
                                           | Some children =>
                                               Map_set m (GV.source l) (children ++ [GV.target l])
                                           | None => m
                                           end) links m) i
            = match Map_get m i with
              | Some cs =>
                  Some (cs ++ map GV.target (filter (fun l => jsstring_eqb (GV.source l) i) links))
              | None => None
              end).
  { induction links as [|l ls IH]; intros m.
    - cbn. destruct (Map_get m i); [now rewrite app_nil_r|reflexivity].
    - cbn [fold_left filter]. rewrite IH.
      destruct (jsstring_eqb (GV.source l) i) eqn:E.
      + apply jsstring_eqb_eq in E. rewrite E.
        destruct (Map_get m i) as [cs|] eqn:Em.
        * rewrite Map_get_set, jsstring_eqb_same. cbn [map]. now rewrite <- app_assoc.
        * now rewrite Em.
      + destruct (Map_get m (GV.source l)); [|reflexivity].
        now rewrite Map_get_set, E. }
  unfold children, GV.adj_of. rewrite H, adj_start_get.
  now destruct (Set_has (map GV.id nodes) i).
Qed.

Lemma indegree_get (i : jsstring) :
  GV.or_zero (Map_get (GV.indegree_of nodes links) i)
  = length (filter (fun l => jsstring_eqb (GV.target l) i) links).
Proof.
  assert (H : forall m : Map nat,
            GV.or_zero (Map_get (fold_left (fun m l =>
                          Map_set m (GV.target l) (GV.or_zero (Map_get m (GV.target l)) + 1)%nat)
                          links m) i)
            = (GV.or_zero (Map_get m i)
               + length (filter (fun l => jsstring_eqb (GV.target l) i) links))%nat).
  { induction links as [|l ls IH]; intros m; [cbn; lia|].
    cbn [fold_left filter]. rewrite IH, Map_get_set.
    destruct (jsstring_eqb (GV.target l) i) eqn:E; [|reflexivity].
    apply jsstring_eqb_eq in E. rewrite E. cbn [GV.or_zero length]. lia. }
  unfold GV.indegree_of. rewrite H, indegree_start_get. reflexivity.
Qed.

Lemma edge_is_link (p c : jsstring) : edge (GV.adj_of nodes links) p c <-> is_link p c.
Proof.
  unfold edge, is_link, is_node. rewrite adj_get.
  destruct (Set_has (map GV.id nodes) p) eqn:E.
  - apply Set_has_In in E. rewrite in_map_iff. split.
    + intros (l & Hc & Hl). apply filter_In in Hl as [Hl Hs].
      apply jsstring_eqb_eq in Hs. split; [exact E|]. now exists l.
    + intros (_ & l & Hl & Hs & Hc). exists l. split; [exact Hc|].
      apply filter_In. split; [exact Hl|]. now apply jsstring_eqb_eq.
  - split; [intros []|]. intros [Hp _]. apply Set_has_In in Hp. congruence.
Qed.

Lemma no_link_to (r : jsstring) :
  length (filter (fun l => jsstring_eqb (GV.target l) r) links) = 0%nat
  <-> forall l, In l links -> GV.target l <> r.
Proof.
  induction links as [|l ls IH]; cbn [filter].
  - split; [intros _ l []|reflexivity].
  - destruct (jsstring_eqb (GV.target l) r) eqn:E.
    + apply jsstring_eqb_eq in E. split; [discriminate|].
      intros H. exfalso. exact (H l (or_introl eq_refl) E).
    + apply jsstring_eqb_neq in E. rewrite IH. split.
      * intros H l' [<-|Hl]; [exact E|now apply H].
      * intros H l' Hl. apply H. now right.
Qed.

Lemma start_queue_roots (r : jsstring) (lv : nat) :
  In (r, lv) (GV.start_queue nodes (GV.indegree_of nodes links))
  <-> lv = 0%nat /\ is_root r.
Proof.
  unfold GV.start_queue, is_root, is_node. rewrite in_map_iff. split.
  - intros (n & [= <- <-] & Hn). apply filter_In in Hn as [Hn Hz].
    apply Nat.eqb_eq in Hz. rewrite indegree_get in Hz.
    split; [reflexivity|]. split; [now apply in_map|exact (proj1 (no_link_to _) Hz)].
  - intros (-> & Hr & Hz). apply in_map_iff in Hr as (n & <- & Hn).
    exists n. split; [reflexivity|]. apply filter_In. split; [exact Hn|].
    apply Nat.eqb_eq. rewrite indegree_get. exact (proj2 (no_link_to _) Hz).
Qed.

Lemma start_inv :
  Inv (GV.adj_of nodes links) is_root
      (GV.start_queue nodes (GV.indegree_of nodes links)) [].
Proof.
  assert (Hzero : forall e, In e (GV.start_queue nodes (GV.indegree_of nodes links)) ->
                    snd e = 0%nat).
  { intros [r lv] He. now apply start_queue_roots in He as [-> _]. }
  constructor.
  - intros i lv [H|H]; [discriminate|]. left. now apply start_queue_roots.
  - intros r Hr. right. now apply start_queue_roots.
  - intros p lp c H. discriminate.
  - induction (GV.start_queue nodes (GV.indegree_of nodes links)) as [|e q IH];
      constructor.
    + apply IH. intros e' He'. apply Hzero. now right.
    + apply Forall_forall. intros e' He'.
      rewrite (Hzero e (or_introl eq_refl)), (Hzero e' (or_intror He')). lia.
  - intros a b Ha Hb. rewrite (Hzero a Ha), (Hzero b Hb). lia.
  - intros x lx e H. discriminate.
Qed.

Lemma pending_append (m : Map (list jsstring)) (k c : jsstring) (cs : list jsstring) :
  Map_get m k = Some cs -> pending (Map_set m k (cs ++ [c])) [] = S (pending m []).
Proof.
  induction m as [|[k0 v0] m IH]; cbn [Map_get Map_set]; [discriminate|].
  destruct (jsstring_eqb k0 k).
  - intros [= ->]. cbn [pending Map_has Map_get]. rewrite length_app. cbn [length]. lia.
  - intros H. cbn [pending Map_has Map_get]. rewrite (IH H). lia.
Qed.

Lemma pending_start : pending (GV.adj_start nodes) [] = 0%nat.
Proof.
  assert (H : Forall (fun e => snd e = []) (GV.adj_start nodes)).
  { unfold GV.adj_start.
    assert (G : forall m : Map (list jsstring), Forall (fun e => snd e = []) m ->
              Forall (fun e => snd e = [])
                     (fold_left (fun m n => Map_set m (GV.id n) []) nodes m)).
    { induction nodes as [|n ns IH]; intros m Hm; [exact Hm|].
      cbn [fold_left]. apply IH. now apply Map_set_Forall. }
    apply G. constructor. }
  induction H as [|[k cs] m Hk _ IH]; [reflexivity|].
  cbn [pending Map_has Map_get]. cbn in Hk. subst cs. cbn [length]. lia.
Qed.

Lemma pending_adj : (pending (GV.adj_of nodes links) [] <= length links)%nat.
Proof.
  unfold GV.adj_of. rewrite <- (Nat.add_0_l (length links)), <- pending_start.
  generalize (GV.adj_start nodes) as m.
  induction links as [|l ls IH]; intros m; cbn [fold_left length]; [lia|].
  etransitivity; [apply IH|].
  destruct (Map_get m (GV.source l)) as [cs|] eqn:E; [|lia].
  rewrite (pending_append _ _ _ _ E). lia.
Qed.

Lemma start_queue_length (indegree : Map nat) :
  (length (GV.start_queue nodes indegree) <= length nodes)%nat.
Proof.
  unfold GV.start_queue. rewrite length_map.
  induction nodes as [|n ns IH]; cbn [filter length]; [lia|].
  destruct (GV.or_zero (Map_get indegree (GV.id n)) =? 0)%nat; cbn [length]; lia.
Qed.

Lemma reach_is_path (k : nat) (i : jsstring) :
  reach (GV.adj_of nodes links) is_root k i <-> path_from_root k i.
Proof.
  revert i. induction k as [|k IH]; intros i; cbn [reach path_from_root]; [reflexivity|].
  split; intros (p & Hp & He); exists p; (split; [now apply IH|now apply edge_is_link]).
Qed.

(** The loop ends within the turns [computeLevels] is given, and ends with
    what [walk_keeps] says. *)
Lemma computeLevels_runs :
  exists final,
    GV.computeLevels nodes links = Some final
    /\ Inv (GV.adj_of nodes links) is_root [] final.
Proof.
  unfold GV.computeLevels.
  destruct (walk_ends (GV.adj_of nodes links) (length nodes + length links)
              (GV.start_queue nodes (GV.indegree_of nodes links)) []) as [final Hrun].
  { pose proof pending_adj. pose proof (start_queue_length (GV.indegree_of nodes links)). lia. }
  exists final. split; [exact Hrun|].
  assert (Hnp : forall r p, is_root r -> ~ edge (GV.adj_of nodes links) p r).
  { intros r p [_ Hr] He. apply edge_is_link in He as (_ & l & Hl & _ & Ht).
    exact (Hr l Hl Ht). }
  exact (walk_keeps _ _ Hnp _ _ _ _ start_inv Hrun).
Qed.

(** X21. [computeLevels] always ends, and the level it gives is the
    distance from the roots: a node without incoming link is a root; a
    link counts when its source is a node; an id has level [lv] exactly
    when [lv] links lead to it from a root and no fewer do.  What no root
    reaches (a cycle without entry, say) has no level. *)
Theorem computeLevels_are_distances :
  exists levels,
    GV.computeLevels nodes links = Some levels
    /\ forall i lv, Map_get levels i = Some lv
                    <-> path_from_root lv i /\ forall k, path_from_root k i -> (lv <= k)%nat.
Proof.
  destruct computeLevels_runs as (final & Hrun & Hinv).
  exists final. split; [exact Hrun|].
  intros i lv. rewrite (levels_are_distances _ _ _ Hinv i lv).
  split; intros [Hp Hmin]; (split; [now apply reach_is_path|]);
    intros k Hk; apply Hmin; now apply reach_is_path.
Qed.

End Levels.

(** ** The layout *)

Section Layout.

Variable levels : Map nat.
Variable nodes : list GV.GraphNode.

(** The nodes of one level, in the order of [nodes]. *)
Definition row_of_level (lvl : nat) : list GV.GraphNode :=
  filter (fun n => (GV.level_of levels n =? lvl)%nat) nodes.

(** Where the layout puts a node of [nodes]. *)
Definition spot (n : GV.GraphNode) : R * R :=
  let row := row_of_level (GV.level_of levels n) in
  (((IZR (GV.findIndex (GV.id n) row) - (INR (length row) - 1) / 2) * 220)%R,
   (INR (GV.level_of levels n) * 180)%R).

Definition positioned (n : GV.GraphNode) : GV.GraphNode :=
  {| GV.id := GV.id n; GV.label := GV.label n; GV.content := GV.content n;
     GV.fx := Some (fst (spot n)); GV.fy := Some (snd (spot n)) |}.

Lemma Rows_get_push (g : GV.Rows) (lvl lvl' : nat) (n : GV.GraphNode) :
  GV.Rows_get (GV.Rows_push g lvl n) lvl'
  = if (lvl =? lvl')%nat
    then Some (match GV.Rows_get g lvl with Some row => row | None => [] end ++ [n])
    else GV.Rows_get g lvl'.
Proof.
  induction g as [|[k row] g IH]; cbn [GV.Rows_push GV.Rows_get].
  - destruct (lvl =? lvl')%nat; reflexivity.
  - destruct (k =? lvl)%nat eqn:E; cbn [GV.Rows_get].
    + apply Nat.eqb_eq in E. subst k. destruct (lvl =? lvl')%nat; reflexivity.
    + rewrite IH. destruct (k =? lvl')%nat eqn:E'; [|reflexivity].
      apply Nat.eqb_eq in E'. subst k. now rewrite Nat.eqb_sym, E.
Qed.

Lemma group_get (lvl : nat) :
  GV.Rows_get (GV.group levels nodes) lvl
  = match row_of_level lvl with [] => None | row => Some row end.
Proof.
  unfold GV.group, row_of_level.
  assert (H : forall g : GV.Rows,
            GV.Rows_get (fold_left (fun g n => GV.Rows_push g (GV.level_of levels n) n) nodes g)
                        lvl
            = match filter (fun n => (GV.level_of levels n =? lvl)%nat) nodes with
              | [] => GV.Rows_get g lvl
              | row => Some (match GV.Rows_get g lvl with Some r => r | None => [] end ++ row)
              end).
  { induction nodes as [|n ns IH]; intros g; [reflexivity|].
    cbn [fold_left filter]. rewrite IH, Rows_get_push.
    destruct (GV.level_of levels n =? lvl)%nat eqn:E.
    - apply Nat.eqb_eq in E. rewrite E.
      destruct (filter (fun n0 => (GV.level_of levels n0 =? lvl)%nat) ns); [reflexivity|].
      now rewrite <- app_assoc.
    - reflexivity. }
  rewrite H. cbn [GV.Rows_get app].
  now destruct (filter (fun n => (GV.level_of levels n =? lvl)%nat) nodes).
Qed.

Lemma in_own_row (n : GV.GraphNode) : In n nodes -> In n (row_of_level (GV.level_of levels n)).
Proof. intros Hn. apply filter_In. split; [exact Hn|apply Nat.eqb_refl]. Qed.

Lemma place_spot (n : GV.GraphNode) :
  In n nodes -> GV.place levels (GV.group levels nodes) n = Some (positioned n).
Proof.
  intros Hn. unfold GV.place. rewrite group_get.
  pose proof (in_own_row n Hn) as Hrow. unfold positioned, spot. cbn [fst snd].
  destruct (row_of_level (GV.level_of levels n)); [destruct Hrow|reflexivity].
Qed.

Lemma place_all_spots (ns : list GV.GraphNode) :
  incl ns nodes -> GV.place_all levels (GV.group levels nodes) ns = Some (map positioned ns).
Proof.
  induction ns as [|n ns IH]; intros Hincl; [reflexivity|].
  cbn [GV.place_all map]. rewrite (place_spot n (Hincl n (or_introl eq_refl))), IH;
    [reflexivity|].
  intros x Hx. apply Hincl. now right.
Qed.

(** [findIndex] gives the place of the first node with the id. *)
Lemma findIndex_found (i : jsstring) (row : list GV.GraphNode) :
  In i (map GV.id row) ->
  exists k, GV.findIndex i row = Z.of_nat k /\ nth_error (map GV.id row) k = Some i.
Proof.
  induction row as [|r row IH]; cbn [map GV.findIndex]; [intros []|].
  intros Hin. destruct (jsstring_eqb (GV.id r) i) eqn:E.
  - apply jsstring_eqb_eq in E. exists 0%nat. split; [reflexivity|]. cbn. now rewrite E.
  - apply jsstring_eqb_neq in E. destruct Hin as [Hin|Hin]; [contradiction|].
    destruct (IH Hin) as (k & Hk & Hnth). exists (S k). rewrite Hk. split; [|exact Hnth].
    destruct k; [reflexivity|].
    replace (Z.of_nat (S (S k))) with (Z.of_nat (S k) + 1) by lia. reflexivity.
Qed.

Lemma spot_same_id (n1 n2 : GV.GraphNode) :
  In n1 nodes -> In n2 nodes -> (spot n1 = spot n2 <-> GV.id n1 = GV.id n2).
Proof.
  intros H1 H2. split.
  - intros Hs. unfold spot in Hs. injection Hs as Hx Hy.
    assert (Hl : GV.level_of levels n1 = GV.level_of levels n2).
    { apply INR_eq. lra. }
    rewrite Hl in Hx.
    assert (Hi : GV.findIndex (GV.id n1) (row_of_level (GV.level_of levels n2))
                 = GV.findIndex (GV.id n2) (row_of_level (GV.level_of levels n2))).
    { apply eq_IZR. lra. }
    pose proof (in_own_row n1 H1) as R1. rewrite Hl in R1.
    pose proof (in_own_row n2 H2) as R2.
    destruct (findIndex_found (GV.id n1) _ (in_map GV.id _ _ R1)) as (k1 & E1 & N1).
    destruct (findIndex_found (GV.id n2) _ (in_map GV.id _ _ R2)) as (k2 & E2 & N2).
    assert (k1 = k2) by lia. subst k2. congruence.
  - intros Hid. unfold spot, GV.level_of. now rewrite Hid.
Qed.

End Layout.

(** The layout never fails: every node has its row. *)
Lemma processed_spots (data : GV.GraphVisualizationData) :
  exists levels,
    GV.computeLevels (GV.nodes data) (GV.links data) = Some levels
    /\ GV.processed (Some data)
       = Some {| GV.nodes := map (positioned levels (GV.nodes data)) (GV.nodes data);
                 GV.links := GV.links data |}.
Proof.
  destruct (computeLevels_runs (GV.nodes data) (GV.links data)) as (levels & Hrun & _).
  exists levels. split; [exact Hrun|].
  unfold GV.processed. rewrite Hrun, place_all_spots; [reflexivity|apply incl_refl].
Qed.

Lemma same_spot (levels : Map nat) (nodes : list GV.GraphNode) (n1 n2 : GV.GraphNode) :
  In n1 nodes -> In n2 nodes ->
  (GV.fx (positioned levels nodes n1) = GV.fx (positioned levels nodes n2)
   /\ GV.fy (positioned levels nodes n1) = GV.fy (positioned levels nodes n2)
   <-> GV.id n1 = GV.id n2).
Proof.
  intros H1 H2. cbn [positioned GV.fx GV.fy].
  rewrite <- (spot_same_id levels nodes n1 n2 H1 H2).
  destruct (spot levels nodes n1) as [x1 y1], (spot levels nodes n2) as [x2 y2].
  cbn [fst snd]. split.
  - intros [[= ->] [= ->]]. reflexivity.
  - intros [= -> ->]. now split.
Qed.

(** X22. The layout never fails and keeps the graph: the links are those it
    was given, and the nodes come back in their order with their id, label
    and content.  A node stands at height 180 times its level (level 0 for
    an id [computeLevels] gave none), and two nodes stand at the same point
    exactly when they have the same id. *)
Theorem layout_spreads_the_nodes (data : GV.GraphVisualizationData) :
  exists levels out,
    GV.computeLevels (GV.nodes data) (GV.links data) = Some levels
    /\ GV.processed (Some data) = Some out
    /\ GV.links out = GV.links data
    /\ map GV.id (GV.nodes out) = map GV.id (GV.nodes data)
    /\ map GV.label (GV.nodes out) = map GV.label (GV.nodes data)
    /\ map GV.content (GV.nodes out) = map GV.content (GV.nodes data)
    /\ (forall p, In p (GV.nodes out) ->
          GV.fy p = Some (INR (GV.or_zero (Map_get levels (GV.id p))) * 180)%R
          /\ exists x, GV.fx p = Some x)
    /\ (forall p q, In p (GV.nodes out) -> In q (GV.nodes out) ->
          (GV.fx p = GV.fx q /\ GV.fy p = GV.fy q <-> GV.id p = GV.id q)).
Proof.
  destruct (processed_spots data) as (levels & Hrun & Hout).
  exists levels. eexists. split; [exact Hrun|]. split; [exact Hout|].
  cbn [GV.nodes GV.links]. rewrite !map_map. cbn [positioned GV.id GV.label GV.content].
  repeat (split; [reflexivity|]).
  split.
  - intros p Hp. apply in_map_iff in Hp as (n & <- & Hn).
    cbn [positioned GV.fx GV.fy GV.id spot snd]. split; [reflexivity|]. now eexists.
  - intros p q Hp Hq.
    apply in_map_iff in Hp as (n1 & <- & H1). apply in_map_iff in Hq as (n2 & <- & H2).
    exact (same_spot levels (GV.nodes data) n1 n2 H1 H2).
Qed.

(* ================================================================== *)
(** * The client: ResultsDisplay                                       *)
(* ================================================================== *)

(** The component prepares what it shows: it fills the fields an answer
    may lack, and it draws the graph of the paths of the graph results,
    which it hands to [GraphVisualization].  The scores are real numbers
    here, as in the query engine; [formatScore] and the JSX are not
    modelled. *)

Module ResultsDisplay.

(** The fields the component reads. *)
Record HybridResult : Type := {
  h_nodeId : jsstring;
  h_content : option jsstring;
  h_similarity : option R;
  h_vectorScore : option R;
  h_graphScore : option R;
  h_hybridScore : option R
}.

Record VectorResult : Type := {
  v_nodeId : jsstring;
  v_content : option jsstring;
  v_similarity : option R;
  v_vectorScore : option R
}.

Record GraphResult : Type := {
  g_nodeId : jsstring;
  g_content : option jsstring;
  g_path : option (list jsstring);
  g_pathLabels : option (list jsstring);
  g_matchingSentence : option jsstring
}.

(** [a ?? b], with [b] a value and with [b] another field that may be
    missing. *)
Definition nullish {A : Type} (a : option A) (b : A) : A :=
  match a with Some x => x | None => b end.

Definition nullish_opt {A : Type} (a b : option A) : option A :=
  match a with Some _ => a | None => b end.

(** [safeLabel(text, fallback)]. *)
Definition safeLabel (text fallback : option jsstring) : jsstring :=
  match text with
  | Some t =>
      if negb (truthy t) || jsstring_eqb (trim t) []
      then nullish fallback (js "Untitled Node")
      else t
  | None => nullish fallback (js "Untitled Node")
  end.

(** ** The normalised results *)

Definition normalizeVector (v : VectorResult) : VectorResult :=
  {| v_nodeId := v_nodeId v;
     v_content := Some (safeLabel (v_content v) (Some (js "Node " ++ v_nodeId v)));
     v_similarity := Some (nullish (nullish_opt (v_similarity v) (v_vectorScore v)) 0%R);
     v_vectorScore := v_vectorScore v |}.

Definition normalizedVectorResults (vectorResults : option (list VectorResult))
    : list VectorResult :=
  match vectorResults with
  | Some vs => map normalizeVector vs
  | None => []
  end.

Definition normalizeHybrid (vectorWeight graphWeight : R) (h : HybridResult) : HybridResult :=
  let vScore := nullish (nullish_opt (h_vectorScore h) (h_similarity h)) 0%R in
  let gScore := nullish (h_graphScore h) 0%R in
  {| h_nodeId := h_nodeId h;
     h_content := Some (safeLabel (h_content h) (Some (js "Node " ++ h_nodeId h)));
     h_similarity := h_similarity h;
     h_vectorScore := Some vScore;
     h_graphScore := Some gScore;
     h_hybridScore :=
       Some (nullish (h_hybridScore h) (vScore * vectorWeight + gScore * graphWeight)%R) |}.

(** [vectorWeight = 0.5] and [graphWeight = 0.5] when the answer has
    none. *)
Definition normalizedHybridResults (hybridResults : option (list HybridResult))
    (vectorWeight graphWeight : option R) : list HybridResult :=
  match hybridResults with
  | Some hs => map (normalizeHybrid (nullish vectorWeight (1 / 2)%R)
                                    (nullish graphWeight (1 / 2)%R)) hs
  | None => []
  end.

(** ** The graph of the paths *)

Definition graphNodeLookup (graphVisualization : option GraphVisualization.GraphVisualizationData)
    : Map GraphVisualization.GraphNode :=
  match graphVisualization with
  | Some d =>
      match GraphVisualization.nodes d with
      | [] => []
      | ns => Map_of (map (fun node => (GraphVisualization.id node, node)) ns)
      end
  | None => []
  end.

(** [xs.forEach((x, idx) => ...)] on a state. *)
Definition forEach_indexed {A S : Type} (f : S -> nat -> A -> S) (xs : list A) (s : S) : S :=
  fold_left (fun s p => f s (fst p) (snd p)) (combine (seq 0 (length xs)) xs) s.

Definition resolvedLabel (result : GraphResult) (graphNode : option GraphVisualization.GraphNode)
    (nodeId : jsstring) (idx : nat) : jsstring :=
  nullish
    (nullish_opt (match g_pathLabels result with
                  | Some labels => nth_error labels idx
                  | None => None
                  end)
    (nullish_opt (match graphNode with
                  | Some n => GraphVisualization.label n
                  | None => None
                  end)
    (nullish_opt (match graphNode with
                  | Some n => GraphVisualization.content n
                  | None => None
                  end)
    (nullish_opt (g_matchingSentence result) (g_content result)))))
    (js "Node " ++ nodeId).

(** [nodesMap] and [links]. *)
Definition Drawing : Type :=
  (Map GraphVisualization.GraphNode * list GraphVisualization.GraphLink)%type.

(** One turn of [result.path.forEach].  Under its test the two reads of
    the path are within it. *)
Definition visit (lookup : Map GraphVisualization.GraphNode) (result : GraphResult)
    (resultIdx : nat) (path : list jsstring) (st : Drawing) (idx : nat) (nodeId : jsstring)
    : Drawing :=
  let nodesMap :=
    if Map_has (fst st) nodeId then fst st
    else
      let graphNode := Map_get lookup nodeId in
      let label := resolvedLabel result graphNode nodeId idx in
      Map_set (fst st) nodeId
        {| GraphVisualization.id := nodeId;
           GraphVisualization.label := Some label;
           GraphVisualization.content :=
             Some (nullish (nullish_opt (match graphNode with
                                         | Some n => GraphVisualization.content n
                                         | None => None
                                         end)
                                        (g_content result))
                           label);
           GraphVisualization.fx := Some (INR idx * 140)%R;
           GraphVisualization.fy := Some (INR resultIdx * 90)%R |} in
  let links :=
    if Z.of_nat idx <? Z.of_nat (length path) - 1
    then match nth_error path idx, nth_error path (S idx) with
         | Some s, Some t =>
             snd st ++ [{| GraphVisualization.source := s;
                           GraphVisualization.target := t;
                           GraphVisualization.weight := Some 1%R |}]
         | _, _ => snd st
         end
    else snd st in
  (nodesMap, links).

(** One turn of [graphResults.forEach]. *)
Definition collect (lookup : Map GraphVisualization.GraphNode) (st : Drawing)
    (resultIdx : nat) (result : GraphResult) : Drawing :=
  match g_path result with
  | None => st
  | Some path =>
      if (length path <? 2)%nat then st
      else forEach_indexed (visit lookup result resultIdx path) path st
  end.

Definition derivedGraphData (graphResults : option (list GraphResult))
    (graphVisualization : option GraphVisualization.GraphVisualizationData)
    : option GraphVisualization.GraphVisualizationData :=
  match graphResults with
  | None | Some [] => graphVisualization
  | Some rs =>
      let st := forEach_indexed (collect (graphNodeLookup graphVisualization)) rs ([], []) in
      Some {| GraphVisualization.nodes := Map_values (fst st);
              GraphVisualization.links := snd st |}
  end.

End ResultsDisplay.

Module RD := ResultsDisplay.

(** ** The normalised results are complete *)

Lemma safeLabel_shown (text : option jsstring) (i : jsstring) :
  trim (RD.safeLabel text (Some (js "Node " ++ i))) <> [].
Proof.
  assert (Hnode : trim (js "Node " ++ i) <> []).
  { assert (H : In 78 (trim (js "Node " ++ i))).
    { apply trim_keeps; [now left|reflexivity]. }
    intros E. rewrite E in H. destruct H. }
  unfold RD.safeLabel. destruct text as [t|]; [|exact Hnode].
  destruct (negb (truthy t) || jsstring_eqb (trim t) []) eqn:E; [exact Hnode|].
  apply orb_false_iff in E as [_ E]. now apply jsstring_eqb_neq in E.
Qed.

(** A result that lacks nothing: its text is not blank and its scores are
    there. *)
Definition complete (h : RD.HybridResult) : Prop :=
  (exists c, RD.h_content h = Some c /\ trim c <> [])
  /\ RD.h_vectorScore h <> None /\ RD.h_graphScore h <> None /\ RD.h_hybridScore h <> None.

(** X23. The results the component shows are those of the answer, in their
    order and under their ids, and they lack nothing: a vector result has a
    text that is not blank and a similarity; a hybrid result has a text
    that is not blank and its three scores.  A hybrid result of the answer
    that was complete is shown as it came; a missing hybrid score is
    computed from the two others with the weights (a half each when the
    answer names none). *)
Theorem shown_results_are_complete (vs : list RD.VectorResult) (hs : list RD.HybridResult)
    (vectorWeight graphWeight : option R) :
  (map RD.v_nodeId (RD.normalizedVectorResults (Some vs)) = map RD.v_nodeId vs
   /\ Forall (fun v => (exists c, RD.v_content v = Some c /\ trim c <> [])
                        /\ RD.v_similarity v <> None)
             (RD.normalizedVectorResults (Some vs)))
  /\ map RD.h_nodeId (RD.normalizedHybridResults (Some hs) vectorWeight graphWeight)
     = map RD.h_nodeId hs
  /\ Forall complete (RD.normalizedHybridResults (Some hs) vectorWeight graphWeight)
  /\ Forall2 (fun h s =>
        (complete h -> s = h)
        /\ (RD.h_hybridScore h = None ->
            forall v g, RD.h_vectorScore s = Some v -> RD.h_graphScore s = Some g ->
              RD.h_hybridScore s
              = Some (v * RD.nullish vectorWeight (1 / 2) + g * RD.nullish graphWeight (1 / 2))%R))
       hs (RD.normalizedHybridResults (Some hs) vectorWeight graphWeight).
Proof.
  unfold RD.normalizedHybridResults, RD.normalizedVectorResults.
  generalize (RD.nullish vectorWeight (1 / 2)%R) as vw.
  generalize (RD.nullish graphWeight (1 / 2)%R) as gw. intros gw vw.
  split; [split|split; [|split]].
  - rewrite map_map. reflexivity.
  - apply Forall_forall. intros s Hs. apply in_map_iff in Hs as (v & <- & _).
    unfold RD.normalizeVector. cbn [RD.v_content RD.v_similarity].
    split; [|discriminate]. eexists. split; [reflexivity|]. apply safeLabel_shown.
  - rewrite map_map. reflexivity.
  - apply Forall_forall. intros s Hs. apply in_map_iff in Hs as (h & <- & _).
    unfold complete, RD.normalizeHybrid. cbn [RD.h_content RD.h_vectorScore RD.h_graphScore
                                              RD.h_hybridScore].
    split; [|repeat split; discriminate].
    eexists. split; [reflexivity|]. apply safeLabel_shown.
  - induction hs as [|h hs IH]; cbn [map]; constructor; [|exact IH].
    split.
    + intros ((c & Hc & Hshown) & Hv & Hg & Hh).
      destruct h as [i content sim [v|] [g|] [hy|]]; try contradiction.
      cbn in Hc. subst content. unfold RD.normalizeHybrid.
      cbn [RD.h_nodeId RD.h_content RD.h_similarity RD.h_vectorScore RD.h_graphScore
           RD.h_hybridScore RD.nullish RD.nullish_opt RD.safeLabel].
      destruct (truthy c) eqn:Et.
      * cbn [negb orb]. rewrite (proj2 (jsstring_eqb_neq (trim c) []) Hshown). reflexivity.
      * destruct c; [|discriminate]. now contradiction Hshown.
    + intros Hh v g Hv Hg. unfold RD.normalizeHybrid in *.
      cbn [RD.h_vectorScore RD.h_graphScore RD.h_hybridScore] in *.
      rewrite Hh. cbn [RD.nullish]. now injection Hv as <-; injection Hg as <-.
Qed.

(** ** The graph of the paths is a graph *)

(** The path of a result that is drawn: one of two ids or more. *)
Definition drawn_path (r : RD.GraphResult) : list jsstring :=
  match RD.g_path r with
  | Some path => if (length path <? 2)%nat then [] else path
  | None => []
  end.

(** The links of a path: from each id to the next. *)
Definition steps (path : list jsstring) : list GV.GraphLink :=
  map (fun p => {| GV.source := fst p; GV.target := snd p; GV.weight := Some 1%R |})
      (combine path (tl path)).

(** What [nodesMap] keeps: distinct keys, every node under its id, with a
    label and a content. *)
Definition drawn (m : Map GV.GraphNode) : Prop :=
  NoDup (map fst m)
  /\ Forall (fun e => GV.id (snd e) = fst e
                      /\ GV.label (snd e) <> None /\ GV.content (snd e) <> None) m.

Lemma combine_seq_snd {A : Type} (l : list A) (k : nat) :
  map snd (combine (seq k (length l)) l) = l.
Proof.
  revert k. induction l as [|x l IH]; intros k; [reflexivity|].
  cbn. now rewrite IH.
Qed.

Lemma Map_has_In {V : Type} (m : Map V) (k : jsstring) :
  Map_has m k = true <-> In k (map fst m).
Proof.
  unfold Map_has. destruct (Map_get m k) as [v|] eqn:E.
  - split; [intros _|reflexivity].
    apply Map_get_entry in E. now apply (in_map fst) in E.
  - apply Map_get_None in E. split; [discriminate|contradiction].
Qed.

Section Drawing.

Variable lookup : Map GV.GraphNode.

Lemma visit_drawn (result : RD.GraphResult) (ri : nat) (path : list jsstring)
    (st : RD.Drawing) (idx : nat) (i : jsstring) :
  drawn (fst st) -> drawn (fst (RD.visit lookup result ri path st idx i)).
Proof.
  intros [Hnd Hall]. unfold RD.visit. cbn [fst].
  destruct (Map_has (fst st) i); [now split|].
  split; [now apply Map_set_NoDup|].
  apply Map_set_Forall; [exact Hall|]. cbn. repeat split; discriminate.
Qed.

Lemma visit_keys (result : RD.GraphResult) (ri : nat) (path : list jsstring)
    (st : RD.Drawing) (idx : nat) (i k : jsstring) :
  In k (map fst (fst (RD.visit lookup result ri path st idx i)))
  <-> In k (map fst (fst st)) \/ k = i.
Proof.
  unfold RD.visit. cbn [fst].
  destruct (Map_has (fst st) i) eqn:E.
  - apply Map_has_In in E. split; [now left|]. now intros [H| ->].
  - rewrite Map_set_keys, E, in_app_iff. cbn. split.
    + intros [H|[H|[]]]; [now left|now right].
    + intros [H| ->]; [now left|right; now left].
Qed.

Lemma path_drawn (result : RD.GraphResult) (ri : nat) (path : list jsstring)
    (ps : list (nat * jsstring)) (st : RD.Drawing) :
  drawn (fst st) ->
  drawn (fst (fold_left (fun s p => RD.visit lookup result ri path s (fst p) (snd p)) ps st)).
Proof.
  revert st. induction ps as [|p ps IH]; intros st Hst; [exact Hst|].
  cbn [fold_left]. apply IH. now apply visit_drawn.
Qed.

Lemma path_keys (result : RD.GraphResult) (ri : nat) (path : list jsstring)
    (ps : list (nat * jsstring)) (st : RD.Drawing) (k : jsstring) :
  In k (map fst (fst (fold_left (fun s p => RD.visit lookup result ri path s (fst p) (snd p))
                                ps st)))
  <-> In k (map fst (fst st)) \/ In k (map snd ps).
Proof.
  revert st. induction ps as [|p ps IH]; intros st; cbn [fold_left map].
  - split; [now left|now intros [H|[]]].
  - rewrite IH, visit_keys. cbn. split.
    + intros [[H|H]|H]; auto.
    + intros [H|[H|H]]; auto.
Qed.

Lemma visit_links (result : RD.GraphResult) (ri : nat) (pre rest : list jsstring)
    (x i : jsstring) (st : RD.Drawing) :
  snd (RD.visit lookup result ri (pre ++ x :: rest) st (length pre) i)
  = snd st ++ match rest with
              | y :: _ => [{| GV.source := x; GV.target := y; GV.weight := Some 1%R |}]
              | [] => []
              end.
Proof.
  unfold RD.visit. cbn [snd].
  assert (H0 : nth_error (pre ++ x :: rest) (length pre) = Some x).
  { rewrite nth_error_app2 by lia. now rewrite Nat.sub_diag. }
  assert (H1 : nth_error (pre ++ x :: rest) (S (length pre)) = nth_error rest 0).
  { rewrite nth_error_app2 by lia.
    now replace (S (length pre) - length pre)%nat with 1%nat by lia. }
  rewrite H0, H1, length_app.
  destruct rest as [|y rest]; cbn [length nth_error].
  - destruct (Z.ltb_spec (Z.of_nat (length pre)) (Z.of_nat (length pre + 1) - 1)) as [H|H];
      [lia|]. now rewrite app_nil_r.
  - destruct (Z.ltb_spec (Z.of_nat (length pre))
                         (Z.of_nat (length pre + S (S (length rest))) - 1)) as [H|H];
      [reflexivity|lia].
Qed.

Lemma path_links (result : RD.GraphResult) (ri : nat) (rest : list jsstring) :
  forall (pre : list jsstring) (st : RD.Drawing),
    snd (fold_left (fun s p => RD.visit lookup result ri (pre ++ rest) s (fst p) (snd p))
                   (combine (seq (length pre) (length rest)) rest) st)
    = snd st ++ steps rest.
Proof.
  induction rest as [|x rest IH]; intros pre st.
  - cbn. now rewrite app_nil_r.
  - cbn [length seq combine fold_left fst snd].
    pose proof (visit_links result ri pre rest x x st) as Hv.
    revert Hv. generalize (RD.visit lookup result ri (pre ++ x :: rest) st (length pre) x).
    intros st' Hv.
    replace (pre ++ x :: rest) with ((pre ++ [x]) ++ rest) by now rewrite <- app_assoc.
    replace (S (length pre)) with (length (pre ++ [x]))
      by (rewrite length_app; cbn [length]; lia).
    rewrite IH, Hv, <- app_assoc. f_equal.
    destruct rest; reflexivity.
Qed.

Lemma collect_drawn (st : RD.Drawing) (ri : nat) (r : RD.GraphResult) :
  drawn (fst st) -> drawn (fst (RD.collect lookup st ri r)).
Proof.
  intros Hst. unfold RD.collect. destruct (RD.g_path r) as [path|]; [|exact Hst].
  destruct (length path <? 2)%nat; [exact Hst|]. now apply path_drawn.
Qed.

Lemma collect_keys (st : RD.Drawing) (ri : nat) (r : RD.GraphResult) (k : jsstring) :
  In k (map fst (fst (RD.collect lookup st ri r)))
  <-> In k (map fst (fst st)) \/ In k (drawn_path r).
Proof.
  unfold RD.collect, drawn_path. destruct (RD.g_path r) as [path|].
  - destruct (length path <? 2)%nat.
    + split; [now left|now intros [H|[]]].
    + unfold RD.forEach_indexed. now rewrite path_keys, combine_seq_snd.
  - split; [now left|now intros [H|[]]].
Qed.

Lemma collect_links (st : RD.Drawing) (ri : nat) (r : RD.GraphResult) :
  snd (RD.collect lookup st ri r) = snd st ++ steps (drawn_path r).
Proof.
  unfold RD.collect, drawn_path. destruct (RD.g_path r) as [path|].
  - destruct (length path <? 2)%nat; [cbn; now rewrite app_nil_r|].
    exact (path_links r ri path [] st).
  - cbn. now rewrite app_nil_r.
Qed.

Lemma results_drawn (ps : list (nat * RD.GraphResult)) (st : RD.Drawing) :
  drawn (fst st) ->
  drawn (fst (fold_left (fun s p => RD.collect lookup s (fst p) (snd p)) ps st)).
Proof.
  revert st. induction ps as [|p ps IH]; intros st Hst; [exact Hst|].
  cbn [fold_left]. apply IH. now apply collect_drawn.
Qed.

Lemma results_keys (ps : list (nat * RD.GraphResult)) (st : RD.Drawing) (k : jsstring) :
  In k (map fst (fst (fold_left (fun s p => RD.collect lookup s (fst p) (snd p)) ps st)))
  <-> In k (map fst (fst st)) \/ exists r, In r (map snd ps) /\ In k (drawn_path r).
Proof.
  revert st. induction ps as [|p ps IH]; intros st; cbn [fold_left map].
  - split; [now left|]. now intros [H|(r & [] & _)].
  - rewrite IH, collect_keys. split.
    + intros [[H|H]|(r & Hr & Hk)]; [now left| |].
      * right. exists (snd p). split; [now left|exact H].
      * right. exists r. split; [now right|exact Hk].
    + intros [H|(r & [<-|Hr] & Hk)]; [now left; left|now left; right|].
      right. now exists r.
Qed.

Lemma results_links (ps : list (nat * RD.GraphResult)) (st : RD.Drawing) :
  snd (fold_left (fun s p => RD.collect lookup s (fst p) (snd p)) ps st)
  = snd st ++ flat_map (fun r => steps (drawn_path r)) (map snd ps).
Proof.
  revert st. induction ps as [|p ps IH]; intros st; cbn [fold_left map flat_map].
  - now rewrite app_nil_r.
  - now rewrite IH, collect_links, <- app_assoc.
Qed.

End Drawing.

Lemma drawn_ids (m : Map GV.GraphNode) : drawn m -> map GV.id (Map_values m) = map fst m.
Proof.
  intros [_ Hall]. unfold Map_values. rewrite map_map.
  induction Hall as [|e m [He _] _ IH]; [reflexivity|]. cbn [map]. now rewrite He, IH.
Qed.

Lemma steps_in_path (path : list jsstring) (l : GV.GraphLink) :
  In l (steps path) ->
  In (GV.source l) path /\ In (GV.target l) path /\ GV.weight l = Some 1%R.
Proof.
  unfold steps. intros Hl. apply in_map_iff in Hl as ([s t] & <- & Hst). cbn.
  split; [exact (in_combine_l _ _ _ _ Hst)|]. split; [|reflexivity].
  apply in_combine_r in Hst. destruct path; [destruct Hst|now right].
Qed.

(** What [derivedGraphData] gives for results: the nodes and the links of
    the paths. *)
Lemma derived_drawing (r : RD.GraphResult) (rs : list RD.GraphResult)
    (gv : option GV.GraphVisualizationData) :
  exists g,
    RD.derivedGraphData (Some (r :: rs)) gv = Some g
    /\ NoDup (map GV.id (GV.nodes g))
    /\ (forall i, In i (map GV.id (GV.nodes g))
                  <-> exists x, In x (r :: rs) /\ In i (drawn_path x))
    /\ GV.links g = flat_map (fun x => steps (drawn_path x)) (r :: rs)
    /\ (forall n, In n (GV.nodes g) -> GV.label n <> None /\ GV.content n <> None).
Proof.
  unfold RD.derivedGraphData, RD.forEach_indexed.
  set (ps := combine (seq 0 (length (r :: rs))) (r :: rs)).
  assert (Hps : map snd ps = r :: rs) by apply combine_seq_snd.
  set (st := fold_left _ ps _).
  assert (Hdrawn : drawn (fst st)).
  { apply results_drawn. split; constructor. }
  eexists. split; [reflexivity|]. cbn [GV.nodes GV.links].
  rewrite (drawn_ids _ Hdrawn).
  split; [exact (proj1 Hdrawn)|].
  split.
  { intros i. unfold st. rewrite results_keys, Hps. cbn [fst map]. split.
    - now intros [[]|H].
    - now right. }
  split.
  { unfold st. now rewrite results_links, Hps. }
  intros n Hn. destruct Hdrawn as [_ Hall]. rewrite Forall_forall in Hall.
  apply in_map_iff in Hn as (e & <- & He). now destruct (Hall e He) as (_ & Hl & Hc).
Qed.

(** X24. From graph results the component draws a graph that holds
    together.  Its nodes are the ids of the paths of two ids or more, each
    once, each with a label and a content; its links go from every id of
    such a path to the next, in the order of the results, all of weight 1;
    so both ends of every link are nodes of the graph.  Without graph
    results it shows the graph of the answer. *)
Theorem derived_graph_holds_together (r : RD.GraphResult) (rs : list RD.GraphResult)
    (gv : option GV.GraphVisualizationData) :
  RD.derivedGraphData None gv = gv
  /\ RD.derivedGraphData (Some []) gv = gv
  /\ exists g,
       RD.derivedGraphData (Some (r :: rs)) gv = Some g
       /\ NoDup (map GV.id (GV.nodes g))
       /\ (forall i, In i (map GV.id (GV.nodes g))
                     <-> exists x, In x (r :: rs) /\ In i (drawn_path x))
       /\ GV.links g = flat_map (fun x => steps (drawn_path x)) (r :: rs)
       /\ (forall l, In l (GV.links g) ->
             In (GV.source l) (map GV.id (GV.nodes g))
             /\ In (GV.target l) (map GV.id (GV.nodes g))
             /\ GV.weight l = Some 1%R)
       /\ (forall n, In n (GV.nodes g) -> GV.label n <> None /\ GV.content n <> None).
Proof.
  split; [reflexivity|]. split; [reflexivity|].
  destruct (derived_drawing r rs gv) as (g & Hg & Hnd & Hids & Hlinks & Hshown).
  exists g. repeat (split; [assumption|]). split; [|exact Hshown].
  intros l Hl. rewrite Hlinks in Hl. apply in_flat_map in Hl as (x & Hx & Hl).
  apply steps_in_path in Hl as (Hs & Ht & Hw).
  split; [|split; [|exact Hw]]; apply Hids; now exists x.
Qed.

(** X25. The graph drawn from graph results is laid out without fail: the
    layout returns its nodes, in their order, and its links, both ends of
    every link are nodes of the picture, and no two nodes of the picture
    stand at the same point. *)
Theorem derived_graph_is_laid_out (r : RD.GraphResult) (rs : list RD.GraphResult)
    (gv : option GV.GraphVisualizationData) :
  exists g out,
    RD.derivedGraphData (Some (r :: rs)) gv = Some g
    /\ GV.processed (Some g) = Some out
    /\ map GV.id (GV.nodes out) = map GV.id (GV.nodes g)
    /\ GV.links out = GV.links g
    /\ (forall l, In l (GV.links out) ->
          In (GV.source l) (map GV.id (GV.nodes out))
          /\ In (GV.target l) (map GV.id (GV.nodes out)))
    /\ (forall i j p q,
          nth_error (GV.nodes out) i = Some p -> nth_error (GV.nodes out) j = Some q ->
          i <> j -> ~ (GV.fx p = GV.fx q /\ GV.fy p = GV.fy q)).
Proof.
  destruct (derived_drawing r rs gv) as (g & Hg & Hnd & Hids & Hlinks & _).
  destruct (processed_spots g) as (levels & _ & Hout).
  exists g. eexists. split; [exact Hg|]. split; [exact Hout|].
  cbn [GV.nodes GV.links].
  assert (Hsame : map GV.id (map (positioned levels (GV.nodes g)) (GV.nodes g))
                  = map GV.id (GV.nodes g)).
  { rewrite map_map. reflexivity. }
  rewrite Hsame. split; [reflexivity|]. split; [reflexivity|]. split.
  - intros l Hl. rewrite Hlinks in Hl. apply in_flat_map in Hl as (x & Hx & Hl).
    apply steps_in_path in Hl as (Hs & Ht & _).
    split; apply Hids; now exists x.
  - intros i j p q Hp Hq Hij Hpos.
    rewrite nth_error_map in Hp, Hq.
    destruct (nth_error (GV.nodes g) i) as [n1|] eqn:E1; [|discriminate].
    destruct (nth_error (GV.nodes g) j) as [n2|] eqn:E2; [|discriminate].
    injection Hp as <-. injection Hq as <-.
    apply (same_spot levels (GV.nodes g) n1 n2 (nth_error_In _ _ E1) (nth_error_In _ _ E2))
      in Hpos.
    apply Hij. apply (proj1 (NoDup_nth_error (map GV.id (GV.nodes g))) Hnd).
    + rewrite length_map. apply nth_error_Some. now rewrite E1.
    + rewrite !nth_error_map, E1, E2. cbn [option_map]. now rewrite Hpos.
Qed.

(** ** The models at work *)

(** [getLabel] always gives something to write. *)
Lemma getLabel_shown (n : GV.GraphNode) : GV.getLabel n <> [].
Proof.
  assert (Hnode : js "Node " ++ GV.id n <> []) by discriminate.
  unfold GV.getLabel, GV.or_else_string.
  destruct (GV.label n) as [l|]; [destruct l; [|discriminate]|];
    (destruct (option_map (slice0 60) (GV.content n)) as [c|];
     [destruct c; [exact Hnode|discriminate]|exact Hnode]).
Qed.

Definition sample_node (i : string) : GV.GraphNode :=
  {| GV.id := js i; GV.label := None; GV.content := None; GV.fx := None; GV.fy := None |}.

Definition sample_link (s t : string) : GV.GraphLink :=
  {| GV.source := js s; GV.target := js t; GV.weight := None |}.

(** A root [a] above a cycle, a cycle [e], [f] that no root enters, and a
    link from [z], which is no node. *)
Lemma computeLevels_sample :
  GV.computeLevels
    (map sample_node ["a"; "b"; "c"; "d"; "e"; "f"]%string)
    [sample_link "a" "b"; sample_link "b" "c"; sample_link "a" "c"; sample_link "c" "d";
     sample_link "d" "b"; sample_link "e" "f"; sample_link "f" "e"; sample_link "z" "c"]
  = Some [(js "a", 0%nat); (js "b", 1%nat); (js "c", 1%nat); (js "d", 2%nat)].
Proof. vm_compute. reflexivity. Qed.

Definition sample_result (path : option (list string)) : RD.GraphResult :=
  {| RD.g_nodeId := js "n"; RD.g_content := None;
     RD.g_path := option_map (map js) path;
     RD.g_pathLabels := None; RD.g_matchingSentence := None |}.

(** Two paths that share ids, a path of one id and a result without
    path. *)
Lemma derivedGraphData_sample :
  option_map (fun g => (map GV.id (GV.nodes g),
                        map (fun l => (GV.source l, GV.target l)) (GV.links g)))
    (RD.derivedGraphData
       (Some [sample_result (Some ["q"; "a"]%string); sample_result (Some ["x"]%string);
              sample_result None; sample_result (Some ["q"; "b"; "a"]%string)])
       None)
  = Some ([js "q"; js "a"; js "b"],
          [(js "q", js "a"); (js "q", js "b"); (js "b", js "a")]).
Proof. vm_compute. reflexivity. Qed.

(* ================================================================== *)
(** * The tokens of a text are its runs                                *)
(* ================================================================== *)

(** [starts_outside p s]: [s] is empty or begins with a code unit outside
    the class [p]; [ends_outside p s]: the same of its end. *)
Definition starts_outside (p : Z -> bool) (s : jsstring) : Prop :=
  match s with
  | [] => True
  | c :: _ => p c = false
  end.

Definition ends_outside (p : Z -> bool) (s : jsstring) : Prop :=
  starts_outside p (rev s).

(** [t] is a run of [text]: code units of the class that stand together
    in [text], as many as there are at this place, none of the class
    before them and none after them. *)
Definition is_run (p : Z -> bool) (text t : jsstring) : Prop :=
  t <> [] /\ forallb p t = true
  /\ exists pre post, text = pre ++ t ++ post /\ ends_outside p pre /\ starts_outside p post.

Lemma re_greedy_max (p : Z -> bool) (n : nat) (text m r : jsstring) :
  (length text <= n)%nat -> re_greedy p n text = (m, r) ->
  text = m ++ r /\ forallb p m = true /\ starts_outside p r.
Proof.
  revert text m r. induction n as [|n IH]; intros text m r Hlen H.
  - destruct text; [|cbn in Hlen; lia]. cbn in H. injection H as <- <-. cbn. auto.
  - destruct text as [|c rest]; [cbn in H; injection H as <- <-; cbn; auto|].
    cbn [re_greedy] in H. destruct (p c) eqn:Hc.
    + destruct (re_greedy p n rest) as [m' r'] eqn:E. injection H as <- <-.
      assert (Hrest : (length rest <= n)%nat) by (cbn in Hlen; lia).
      destruct (IH _ _ _ Hrest E) as (-> & Hall & Hout).
      cbn. rewrite Hc, Hall. auto.
    + injection H as <- <-. cbn. auto.
Qed.

Lemma ends_outside_app (p : Z -> bool) (m l : jsstring) :
  l <> [] -> (ends_outside p (m ++ l) <-> ends_outside p l).
Proof.
  intros Hl. unfold ends_outside. rewrite rev_app_distr.
  destruct (rev l) as [|c rl] eqn:E; [|reflexivity].
  apply (f_equal (@rev Z)) in E. rewrite rev_involutive in E. now contradiction Hl.
Qed.

Lemma ends_inside (p : Z -> bool) (s : jsstring) :
  forallb p s = true -> ends_outside p s -> s = [].
Proof.
  intros Hall Hout. unfold ends_outside in Hout.
  destruct (rev s) as [|c rs] eqn:E.
  - apply (f_equal (@rev Z)) in E. now rewrite rev_involutive in E.
  - cbn in Hout. rewrite forallb_forall in Hall.
    rewrite Hall in Hout; [discriminate|]. apply in_rev. rewrite E. now left.
Qed.

Lemma run_prefix_unique (p : Z -> bool) (t m post r : jsstring) :
  t ++ post = m ++ r -> forallb p t = true -> forallb p m = true ->
  starts_outside p post -> starts_outside p r -> t = m.
Proof.
  revert m. induction t as [|c t IH]; intros [|c' m] Heq Ht Hm Hpost Hr.
  - reflexivity.
  - cbn in Heq. subst post. cbn in Hpost, Hm. apply andb_prop in Hm as [Hc _]. congruence.
  - cbn in Heq. subst r. cbn in Hr, Ht. apply andb_prop in Ht as [Hc _]. congruence.
  - cbn in Heq. injection Heq as -> Heq. cbn in Ht, Hm.
    apply andb_prop in Ht as [_ Ht]. apply andb_prop in Hm as [_ Hm].
    f_equal. now apply IH.
Qed.

Lemma run_skip (p : Z -> bool) (c : Z) (rest t : jsstring) :
  p c = false -> (is_run p (c :: rest) t <-> is_run p rest t).
Proof.
  intros Hc. split.
  - intros (Hne & Hall & pre & post & Heq & Hpre & Hpost).
    split; [exact Hne|]. split; [exact Hall|].
    destruct pre as [|c' pre].
    + destruct t as [|x t]; [contradiction|]. cbn in Heq. injection Heq as <- _.
      cbn in Hall. apply andb_prop in Hall as [Hx _]. congruence.
    + cbn in Heq. injection Heq as <- Heq. exists pre, post. split; [exact Heq|].
      split; [|exact Hpost].
      destruct pre as [|x pre]; [exact I|].
      now apply (ends_outside_app p [c] (x :: pre)) in Hpre.
  - intros (Hne & Hall & pre & post & Heq & Hpre & Hpost).
    split; [exact Hne|]. split; [exact Hall|].
    exists (c :: pre), post. split; [cbn; now rewrite Heq|]. split; [|exact Hpost].
    destruct pre as [|x pre]; [exact Hc|].
    now apply (ends_outside_app p [c] (x :: pre)).
Qed.

Lemma run_first (p : Z -> bool) (m r t : jsstring) :
  m <> [] -> forallb p m = true -> starts_outside p r ->
  (is_run p (m ++ r) t <-> t = m \/ is_run p r t).
Proof.
  intros Hm Hall Hr. split.
  - intros (Hne & Ht & pre & post & Heq & Hpre & Hpost).
    apply app_eq_app in Heq as (l & [[E1 E2]|[E1 E2]]).
    + (* [pre] lies within [m] *)
      assert (Hp : forallb p pre = true).
      { rewrite E1, forallb_app in Hall. now apply andb_prop in Hall as [H _]. }
      pose proof (ends_inside p pre Hp Hpre) as ->. cbn in E1. subst l.
      left. exact (run_prefix_unique p t m post r E2 Ht Hall Hpost Hr).
    + (* [pre] reaches beyond [m] *)
      destruct l as [|x l].
      * rewrite app_nil_r in E1. subst pre. cbn in E2.
        exfalso. apply Hm. now apply (ends_inside p m).
      * right. split; [exact Hne|]. split; [exact Ht|].
        exists (x :: l), post. split; [exact E2|]. split; [|exact Hpost].
        rewrite E1 in Hpre. now apply (ends_outside_app p m (x :: l)) in Hpre.
  - intros [->|(Hne & Ht & pre & post & Heq & Hpre & Hpost)].
    + split; [exact Hm|]. split; [exact Hall|]. exists [], r. now repeat split.
    + split; [exact Hne|]. split; [exact Ht|].
      destruct pre as [|x pre].
      * exfalso. destruct t as [|y t]; [contradiction|]. cbn in Heq. subst r.
        cbn in Hr, Ht. apply andb_prop in Ht as [Hy _]. congruence.
      * exists (m ++ x :: pre), post. split; [now rewrite Heq, <- app_assoc|].
        split; [|exact Hpost]. now apply ends_outside_app.
Qed.

Lemma no_run_of_nothing (p : Z -> bool) (t : jsstring) : ~ is_run p [] t.
Proof.
  intros (Hne & _ & pre & post & Heq & _). symmetry in Heq.
  apply app_eq_nil in Heq as [_ Heq]. apply app_eq_nil in Heq as [Heq _]. contradiction.
Qed.

(** The matches of [/p+/g] are the runs of the text. *)
Lemma re_scan_runs (p : Z -> bool) (n fuel : nat) :
  forall text t, (length text <= fuel)%nat -> (length text <= n)%nat ->
    (In t (re_scan p n fuel text) <-> is_run p text t).
Proof.
  induction fuel as [|fuel IH]; intros text t Hfuel Hn.
  - destruct text; [|cbn in Hfuel; lia]. cbn. split; [intros []|apply no_run_of_nothing].
  - destruct text as [|c rest]; [cbn; split; [intros []|apply no_run_of_nothing]|].
    cbn [re_scan]. destruct (re_greedy p n (c :: rest)) as [m r] eqn:E.
    destruct (re_greedy_max p n _ _ _ Hn E) as (Heq & Hall & Hout).
    destruct m as [|x m].
    + cbn in Heq. subst r. cbn in Hout.
      rewrite IH by (cbn in Hfuel, Hn; lia). symmetry. now apply run_skip.
    + assert (Hlen : (length r <= fuel)%nat /\ (length r <= n)%nat).
      { apply (f_equal (@length Z)) in Heq. rewrite length_app in Heq.
        cbn [length] in Heq, Hfuel, Hn. lia. }
      rewrite Heq. cbn [In]. rewrite (IH r t) by apply Hlen.
      rewrite run_first by (try discriminate; assumption).
      split; intros [H|H]; auto.
Qed.

Lemma word_tokens_runs (toLowerCase : jsstring -> jsstring) (s t : jsstring) :
  In t (word_tokens toLowerCase s) <-> is_run is_alnum (toLowerCase s) t.
Proof.
  unfold word_tokens, match_plus, match_all.
  rewrite <- (re_scan_runs is_alnum (length (toLowerCase s)) (length (toLowerCase s))
                (toLowerCase s) t (le_n _) (le_n _)).
  now destruct (re_scan is_alnum (length (toLowerCase s)) (length (toLowerCase s))
                        (toLowerCase s)).
Qed.

(** X17.  The token set of a query holds each run of the code units [a-z]
    and [0-9] of the lower-cased query, once: a token is a stretch of the
    lower-cased query, not empty, made of such code units, with no such
    code unit right before it or right after it, and every such stretch is
    a token.  So every such code unit of the lower-cased query lies in a
    token, and the set is empty exactly when the lower-cased query has
    none.  (Whatever [toLowerCase] does.) *)
Theorem buildQueryTokenSet_tokens (toLowerCase : jsstring -> jsstring) (query : jsstring) :
  NoDup (buildQueryTokenSet toLowerCase query)
  /\ (forall t, In t (buildQueryTokenSet toLowerCase query)
                <-> is_run is_alnum (toLowerCase query) t)
  /\ Forall (fun t => t <> [] /\ Forall (fun c => is_alnum c = true) t)
            (buildQueryTokenSet toLowerCase query)
  /\ (forall c, In c (toLowerCase query) -> is_alnum c = true ->
        exists t, In t (buildQueryTokenSet toLowerCase query) /\ In c t)
  /\ (buildQueryTokenSet toLowerCase query = []
      <-> Forall (fun c => is_alnum c = false) (toLowerCase query)).
Proof.
  destruct (token_set_law toLowerCase query) as (Hnd & Hall & Hcover & Hnil).
  split; [exact Hnd|]. split; [|exact (conj Hall (conj Hcover Hnil))].
  intros t. unfold buildQueryTokenSet.
  rewrite (proj2 (Set_of_spec (word_tokens toLowerCase query)) t).
  apply word_tokens_runs.
Qed.

(** The query ["Graph DB, graph-db!"] lower-cased by hand: the runs are
    [graph], [db], [graph], [db], and the set holds two tokens. *)
Lemma buildQueryTokenSet_sample :
  buildQueryTokenSet (fun _ => js "graph db, graph-db!") (js "Graph DB, graph-db!")
  = [js "graph"; js "db"].
Proof. vm_compute. reflexivity. Qed.

(* ================================================================== *)
(** * The edges of a node, by cosine similarity                        *)
(* ================================================================== *)

Local Open Scope R_scope.

(** The cosine similarity of two vectors: their dot product over the
    product of their lengths. *)
Definition cosine_similarity (a b : list R) : R :=
  dot a b / (sqrt (dot a a) * sqrt (dot b b)).

(** [a] is a nearer neighbour of [i] than [b]: of greater cosine
    similarity, or of the same and ingested earlier. *)
Definition nearer (embeddings : list (list R)) (i a b : nat) : Prop :=
  cosine_similarity (nth i embeddings []) (nth b embeddings [])
  < cosine_similarity (nth i embeddings []) (nth a embeddings [])
  \/ (cosine_similarity (nth i embeddings []) (nth a embeddings [])
      = cosine_similarity (nth i embeddings []) (nth b embeddings [])
      /\ (a < b)%nat).

(** The edge from node [i] to node [k], weighted by the cosine similarity
    of their embeddings. *)
Definition knn_edge (nodes : list NodeRecord) (embeddings : list (list R)) (i k : nat)
    : EdgeRecord :=
  {| source_node_id := nth i (map id nodes) [];
     target_node_id := nth k (map id nodes) [];
     edge_type := js "semantic";
     weight := cosine_similarity (nth i embeddings []) (nth k embeddings []) |}.

Lemma sum_squares_is_dot (a : list R) : ProcessFile.sum_squares a = dot a a.
Proof.
  induction a as [|x a IH]; [reflexivity|].
  rewrite sum_squares_cons, IH. reflexivity.
Qed.

Lemma cosine_is_similarity (a b : list R) :
  length a = length b -> ProcessFile.cosine a b = cosine_similarity a b.
Proof.
  intros Hlen. rewrite (cosine_quotient a b Hlen), !sum_squares_is_dot. reflexivity.
Qed.

Lemma similarity_is_cosine (embeddings : list (list R)) (d n i k : nat) :
  length embeddings = n -> Forall (fun e => length e = d) embeddings ->
  (i < n)%nat -> (k < n)%nat ->
  similarity embeddings i k
  = cosine_similarity (nth i embeddings []) (nth k embeddings []).
Proof.
  intros Hn Hdim Hi Hk. unfold similarity. apply cosine_is_similarity.
  rewrite Forall_forall in Hdim.
  rewrite (Hdim (nth i embeddings [])) by (apply nth_In; lia).
  rewrite (Hdim (nth k embeddings [])) by (apply nth_In; lia).
  reflexivity.
Qed.

(** C2.  The nodes of a file have distinct ids, and each has its
    embedding: vectors of one dimension, none of them all-zero (as those
    of [localEmbedding] are).  Then among the edges built, those that leave
    node [i] go to a list of [neighbours] such that: there are
    [min(5, n-1)] of them, so at most 5; they are distinct nodes of the
    file other than [i], so no edge is a self-edge; the weight of the edge
    to [k] is the cosine similarity of the embeddings of [i] and [k], the
    dot product over the product of the lengths; the edges come in order
    of non-increasing weight, and among equal weights in ingestion order
    of the neighbour; and every node of the file that was not chosen is a
    worse neighbour (of smaller cosine similarity, or of the same and
    ingested later) than every node that was. *)
Theorem knn_edges (nodes : list NodeRecord) (embeddings : list (list R)) (d i : nat) :
  NoDup (map id nodes) ->
  length embeddings = length nodes ->
  Forall (fun e => length e = d) embeddings ->
  Forall (fun e => dot e e <> 0) embeddings ->
  (i < length nodes)%nat ->
  exists neighbours : list nat,
    filter (leaves nodes i) (ProcessFile.buildEdges nodes embeddings)
    = map (knn_edge nodes embeddings i) neighbours
    /\ (length (filter (leaves nodes i) (ProcessFile.buildEdges nodes embeddings)) <= 5)%nat
    /\ length neighbours = Nat.min 5 (length nodes - 1)
    /\ NoDup neighbours
    /\ Forall (fun k => (k < length nodes)%nat /\ k <> i) neighbours
    /\ Forall (fun e => target_node_id e <> source_node_id e)
              (filter (leaves nodes i) (ProcessFile.buildEdges nodes embeddings))
    /\ StronglySorted (nearer embeddings i) neighbours
    /\ StronglySorted (fun a b => weight b <= weight a)
                      (filter (leaves nodes i) (ProcessFile.buildEdges nodes embeddings))
    /\ (forall k, (k < length nodes)%nat -> k <> i -> ~ In k neighbours ->
        Forall (fun k' => nearer embeddings i k' k) neighbours).
Proof.
  intros Hnd Hlen Hdim _ Hi.
  destruct (knn_edges_by_similarity nodes embeddings i Hnd Hi)
    as (neighbours & Hout & Hle & Hn & Hnodup & Hin & Hself & Hsorted & Hw & Hbest).
  cbv zeta in *.
  assert (Hsim : forall k, (k < length nodes)%nat ->
            similarity embeddings i k
            = cosine_similarity (nth i embeddings []) (nth k embeddings [])).
  { intros k Hk. now apply (similarity_is_cosine embeddings d (length nodes)). }
  assert (Hnear : forall a b, (a < length nodes)%nat -> (b < length nodes)%nat ->
            closer embeddings i a b -> nearer embeddings i a b).
  { intros a b Ha Hb. unfold closer, nearer. now rewrite !Hsim. }
  rewrite Forall_forall in Hin.
  exists neighbours.
  split.
  { rewrite Hout. apply map_ext_in. intros k Hk.
    unfold semantic_edge, knn_edge, ProcessFile.idAt.
    now rewrite (Hsim k (proj1 (Hin k Hk))). }
  split; [exact Hle|]. split; [exact Hn|]. split; [exact Hnodup|].
  split; [now apply Forall_forall|]. split; [exact Hself|].
  split.
  { eapply sorted_weaken_in; [|exact Hsorted].
    intros a b Ha Hb. apply Hnear; [apply (Hin a Ha)|apply (Hin b Hb)]. }
  split; [exact Hw|].
  intros k Hk Hne Hout'. specialize (Hbest k Hk Hne Hout').
  rewrite Forall_forall in Hbest |- *. intros k' Hk'.
  apply Hnear; [apply (Hin k' Hk')|exact Hk|now apply Hbest].
Qed.

(** The embeddings that ingestion passes to the builder are such vectors. *)
Lemma ingested_embeddings_fit (chunks : list jsstring) :
  Forall (fun e => length e = 768%nat) (map ProcessFile.localEmbedding chunks)
  /\ Forall (fun e => dot e e <> 0) (map ProcessFile.localEmbedding chunks).
Proof.
  split; apply Forall_map, Forall_forall; intros c _.
  - apply embedding_length.
  - rewrite <- sum_squares_is_dot, embedding_sum_squares. lra.
Qed.

(** ** Seven nodes: a choice, a tie and an order *)

(** Seven nodes with embeddings in the plane.  Seen from the first, the
    others have cosine similarity 1, 0, -1, 3/5, 4/5 and 3/5. *)
Definition seven_embeddings : list (list R) :=
  [[1; 0]; [1; 0]; [0; 1]; [-1; 0]; [3; 4]; [4; 3]; [3; 4]].

Definition seven_nodes : list NodeRecord :=
  map (fun p => {| id := js (fst p); file_id := js "f1"; node_type := js "text";
                   content := js (fst p); embedding := snd p; metadata := Some [] |})
      (combine ["n0"; "n1"; "n2"; "n3"; "n4"; "n5"; "n6"]%string seven_embeddings).

Lemma seven_distinct : NoDup (map id seven_nodes).
Proof.
  assert (H : NoDup (map js ["n0"; "n1"; "n2"; "n3"; "n4"; "n5"; "n6"]%string)).
  { repeat (constructor; [cbn; intuition discriminate|]). constructor. }
  exact H.
Qed.

Lemma seven_similarities :
  cosine_similarity [1; 0] [1; 0] = 1
  /\ cosine_similarity [1; 0] [0; 1] = 0
  /\ cosine_similarity [1; 0] [-1; 0] = -1
  /\ cosine_similarity [1; 0] [3; 4] = 3 / 5
  /\ cosine_similarity [1; 0] [4; 3] = 4 / 5.
Proof.
  assert (S1 : sqrt 1 = 1) by apply sqrt_1.
  assert (S5 : sqrt 25 = 5).
  { replace 25 with (5 * 5) by lra. apply sqrt_square. lra. }
  unfold cosine_similarity. cbn [dot].
  replace (1 * 1 + (0 * 0 + 0)) with 1 by lra.
  replace (0 * 0 + (1 * 1 + 0)) with 1 by lra.
  replace (-1 * -1 + (0 * 0 + 0)) with 1 by lra.
  replace (3 * 3 + (4 * 4 + 0)) with 25 by lra.
  replace (4 * 4 + (3 * 3 + 0)) with 25 by lra.
  rewrite S1, S5. repeat split; lra.
Qed.

Lemma seven_similarity (k : nat) (e : list R) :
  (k < 7)%nat -> nth k seven_embeddings [] = e ->
  similarity seven_embeddings 0 k = cosine_similarity [1; 0] e.
Proof.
  intros Hk <-.
  rewrite (similarity_is_cosine seven_embeddings 2 7 0 k); try reflexivity; try lia.
  repeat constructor.
Qed.

(** The edges of the first node, by running the builder. *)
Lemma seven_edges :
  filter (leaves seven_nodes 0) (ProcessFile.buildEdges seven_nodes seven_embeddings)
  = map (semantic_edge seven_nodes seven_embeddings 0) [1; 5; 4; 6; 2]%nat.
Proof.
  destruct seven_similarities as (C1 & C2 & C3 & C4 & C5).
  assert (S1 : similarity seven_embeddings 0 1 = 1)
    by (rewrite (seven_similarity 1 [1; 0]); [exact C1|lia|reflexivity]).
  assert (S2 : similarity seven_embeddings 0 2 = 0)
    by (rewrite (seven_similarity 2 [0; 1]); [exact C2|lia|reflexivity]).
  assert (S3 : similarity seven_embeddings 0 3 = -1)
    by (rewrite (seven_similarity 3 [-1; 0]); [exact C3|lia|reflexivity]).
  assert (S4 : similarity seven_embeddings 0 4 = 3 / 5)
    by (rewrite (seven_similarity 4 [3; 4]); [exact C4|lia|reflexivity]).
  assert (S5 : similarity seven_embeddings 0 5 = 4 / 5)
    by (rewrite (seven_similarity 5 [4; 3]); [exact C5|lia|reflexivity]).
  assert (S6 : similarity seven_embeddings 0 6 = 3 / 5)
    by (rewrite (seven_similarity 6 [3; 4]); [exact C4|lia|reflexivity]).
  unfold ProcessFile.buildEdges.
  rewrite (leaves_blocks seven_nodes seven_embeddings 0 0 (length seven_nodes)
             seven_distinct) by (cbn; lia).
  change (length seven_nodes) with 7%nat. cbn [Nat.leb Nat.ltb Nat.add andb].
  change (ProcessFile.top5 seven_embeddings 7 0)
    with (slice0 5 (sort ProcessFile.bySim
                      (map (candidate seven_embeddings 0) [1; 2; 3; 4; 5; 6]%nat))).
  assert (Hsort : sort ProcessFile.bySim
                    (map (candidate seven_embeddings 0) [1; 2; 3; 4; 5; 6]%nat)
                  = map (candidate seven_embeddings 0) [1; 5; 4; 6; 2; 3]%nat).
  { cbn [map sort fold_right].
    repeat (cbn [sort_insert];
            match goal with
            | |- context [positive ?x] =>
                first [ rewrite (positive_true x)
                          by (unfold ProcessFile.bySim; cbn [ProcessFile.sim candidate];
                              rewrite ?S1, ?S2, ?S3, ?S4, ?S5, ?S6; lra)
                      | rewrite (positive_false x)
                          by (unfold ProcessFile.bySim; cbn [ProcessFile.sim candidate];
                              rewrite ?S1, ?S2, ?S3, ?S4, ?S5, ?S6; lra) ]
            end).
    reflexivity. }
  rewrite Hsort. reflexivity.
Qed.

Lemma knn_edges_witness :
  NoDup (map id seven_nodes)
  /\ length seven_embeddings = length seven_nodes
  /\ Forall (fun e => length e = 2%nat) seven_embeddings
  /\ Forall (fun e => dot e e <> 0) seven_embeddings
  /\ (0 < length seven_nodes)%nat
  /\ exists neighbours : list nat,
       filter (leaves seven_nodes 0) (ProcessFile.buildEdges seven_nodes seven_embeddings)
       = map (knn_edge seven_nodes seven_embeddings 0) neighbours
       /\ neighbours = [1; 5; 4; 6; 2]%nat
       /\ StronglySorted (nearer seven_embeddings 0) neighbours
       /\ Forall (fun k' => nearer seven_embeddings 0 k' 3) neighbours.
Proof.
  assert (Hdim : Forall (fun e => length e = 2%nat) seven_embeddings)
    by (repeat constructor).
  assert (Hnz : Forall (fun e => dot e e <> 0) seven_embeddings)
    by (repeat constructor; cbn [dot]; lra).
  assert (Hi : (0 < length seven_nodes)%nat) by (cbn; lia).
  split; [exact seven_distinct|]. split; [reflexivity|]. split; [exact Hdim|].
  split; [exact Hnz|]. split; [exact Hi|].
  destruct (knn_edges seven_nodes seven_embeddings 2 0 seven_distinct eq_refl Hdim Hnz Hi)
    as (neighbours & Hout & _ & Hn & _ & Hin & _ & Hsorted & _ & Hbest).
  assert (Hlist : neighbours = [1; 5; 4; 6; 2]%nat).
  { pose proof seven_edges as Hrun. rewrite Hout in Hrun.
    apply (f_equal (map target_node_id)) in Hrun. rewrite !map_map in Hrun.
    cbn [knn_edge semantic_edge target_node_id] in Hrun.
    change (length seven_nodes) with 7%nat in Hn, Hin. cbn in Hn.
    destruct neighbours as [|a [|b [|c [|x [|e [|f rest]]]]]]; try discriminate.
    cbn [map] in Hrun. injection Hrun as Ha Hb Hc Hx He.
    rewrite Forall_forall in Hin.
    assert (Hpick : forall k t, (k < 7)%nat ->
              nth k (map id seven_nodes) [] = ProcessFile.idAt seven_nodes t ->
              (t < 7)%nat -> k = t).
    { intros k t Hk Heq Ht. apply (idAt_inj seven_nodes k t seven_distinct Hk Ht Heq). }
    rewrite (Hpick a 1%nat), (Hpick b 5%nat), (Hpick c 4%nat), (Hpick x 6%nat),
            (Hpick e 2%nat);
      try reflexivity; try lia; try assumption;
      match goal with |- (?k < 7)%nat => apply (Hin k); cbn; tauto end. }
  exists neighbours. split; [exact Hout|]. split; [exact Hlist|].
  split; [exact Hsorted|].
  apply (Hbest 3%nat); [cbn; lia|discriminate|].
  rewrite Hlist. cbn. intuition discriminate.
Defined.

Local Close Scope R_scope.

(* ================================================================== *)
(** * The hybrid order under weights 1 and 0                           *)
(* ================================================================== *)

Local Open Scope R_scope.

(** ** The stable sort of a descending list followed by equal keys *)

Section SortAround.

Variable A : Type.
Variable key : A -> R.
Variable compare : A -> A -> R.
Hypothesis compare_key : forall a b, compare a b = key b - key a.

Lemma insert_all_sorted (xs s : list A) :
  StronglySorted (not_below A key) (xs ++ s) ->
  fold_right (sort_insert compare) s xs = xs ++ s.
Proof.
  induction xs as [|x xs IH]; intros H; [reflexivity|].
  cbn [fold_right app] in *. inversion H as [|? ? Hs Hx]; subst.
  rewrite IH by exact Hs. now apply (sort_insert_head A key compare compare_key).
Qed.

Lemma insert_past (x : A) (zs s : list A) :
  Forall (fun z => key x < key z) zs ->
  sort_insert compare x (zs ++ s) = zs ++ sort_insert compare x s.
Proof.
  induction 1 as [|z zs Hz _ IH]; [reflexivity|].
  cbn [app sort_insert].
  rewrite (proj2 (positive_compare A key compare compare_key x z) Hz).
  now rewrite IH.
Qed.

Lemma insert_below (c : R) (below zeros : list A) :
  StronglySorted (not_below A key) below ->
  Forall (fun a => key a < c) below -> Forall (fun a => key a = c) zeros ->
  fold_right (sort_insert compare) zeros below = zeros ++ below.
Proof.
  intros Hs Hb Hz. induction Hs as [|x below Hs IH Hx]; [now rewrite app_nil_r|].
  inversion Hb as [|? ? Hxc Hb']; subst.
  cbn [fold_right]. rewrite (IH Hb'), insert_past.
  - now rewrite (sort_insert_head A key compare compare_key x below Hx).
  - eapply Forall_impl; [|exact Hz]. cbv beta. intros z ->. exact Hxc.
Qed.

(** A descending list splits at a bound. *)
Lemma split_at_bound (c : R) (l : list A) :
  StronglySorted (not_below A key) l ->
  exists above below,
    l = above ++ below
    /\ Forall (fun a => c <= key a) above /\ Forall (fun a => key a < c) below.
Proof.
  induction 1 as [|x l Hs IH Hx].
  - exists [], []. repeat split; constructor.
  - destruct (Rle_lt_dec c (key x)) as [Hc|Hc].
    + destruct IH as (above & below & -> & Ha & Hb).
      exists (x :: above), below. repeat split; [now constructor|exact Hb].
    + exists [], (x :: l). repeat split; [constructor|].
      constructor; [exact Hc|]. eapply Forall_impl; [|exact Hx].
      unfold not_below. intros a Ha. lra.
Qed.

Lemma sort_around (c : R) (above below zeros : list A) :
  StronglySorted (not_below A key) (above ++ below) ->
  Forall (fun a => c <= key a) above -> Forall (fun a => key a < c) below ->
  Forall (fun a => key a = c) zeros ->
  sort compare ((above ++ below) ++ zeros) = above ++ zeros ++ below.
Proof.
  intros Hs Ha Hb Hz.
  assert (Hzs : StronglySorted (not_below A key) zeros).
  { clear - Hz. induction Hz as [|z zs Hz Hrest IH]; constructor; [exact IH|].
    eapply Forall_impl; [|exact Hrest]. unfold not_below. intros a Ha. lra. }
  assert (Hbs : StronglySorted (not_below A key) below).
  { clear - Hs. induction above as [|x above IH]; [exact Hs|].
    cbn in Hs. inversion Hs; subst. now apply IH. }
  unfold sort. rewrite <- app_assoc, !fold_right_app.
  rewrite (insert_all_sorted zeros []) by now rewrite app_nil_r.
  rewrite app_nil_r, (insert_below c below zeros Hbs Hb Hz).
  apply insert_all_sorted.
  rewrite Forall_forall in Ha, Hb, Hz.
  assert (Hzb : StronglySorted (not_below A key) (zeros ++ below)).
  { apply sorted_app; [exact Hzs|exact Hbs|].
    intros x y Hx Hy. unfold not_below. rewrite (Hz x Hx). specialize (Hb y Hy). lra. }
  apply sorted_app; [|exact Hzb|].
  - clear - Hs. induction above as [|x above IH]; [constructor|].
    cbn in Hs. inversion Hs as [|? ? Hs' Hx]; subst. constructor; [now apply IH|].
    apply Forall_app in Hx. apply Hx.
  - intros x y Hx Hy. unfold not_below. specialize (Ha x Hx).
    apply in_app_or in Hy as [Hy|Hy]; [rewrite (Hz y Hy)|specialize (Hb y Hy)]; lra.
Qed.

End SortAround.

(** ** The merged list *)

(** With weights 1 and 0 the hybrid results are, cut to [k]: the vector
    results that are not negative, the nodes that only graph results
    brought, the vector results that are negative. *)
Lemma hybrid_by_vector (lookup : Map NodeRecord) (vr : list VR.t) (gr : list GR.t) (k : nat) :
  NoDup (map VR.nodeId vr) ->
  StronglySorted (fun a b => VR.vectorScore b <= VR.vectorScore a) vr ->
  exists above extra below : list HR.t,
    HybridSearch.hybridRank 1 0 k (HybridSearch.mergeResults lookup vr gr)
    = firstn k (above ++ extra ++ below)
    /\ map HR.nodeId (above ++ below) = map VR.nodeId vr
    /\ map HR.hybridScore (above ++ below) = map VR.vectorScore vr
    /\ Forall (fun h => 0 <= HR.hybridScore h) above
    /\ Forall (fun h => HR.hybridScore h < 0) below
    /\ NoDup (map HR.nodeId extra)
    /\ (forall i, In i (map HR.nodeId extra)
                  <-> In i (map GR.nodeId gr) /\ ~ In i (map VR.nodeId vr))
    /\ Forall (fun h => HR.vectorScore h = 0 /\ HR.hybridScore h = 0) extra.
Proof.
  intros Hnd Hsorted.
  destruct (mergeResults_shape lookup vr gr Hnd) as (m1 & extra & Hm & Hkeep & Hextra).
  destruct (Forall2_keeps_maps vr m1 Hkeep) as [Hids Hscores].
  destruct (mergeResults_well_keyed lookup vr gr) as [Hkeys Hwell].
  assert (Hk1 : map fst m1 = map VR.nodeId vr).
  { rewrite (Forall2_keeps_keys _ _ Hkeep), map_map. reflexivity. }
  rewrite Hm in Hkeys, Hwell.
  set (toH := HybridSearch.toHybridResult 1 0).
  set (H1 := map toH (map snd m1)). set (H2 := map toH (map snd extra)).
  assert (Hscore1 : map HR.hybridScore H1 = map VR.vectorScore vr).
  { unfold H1. rewrite <- Hscores, !map_map. apply map_ext. intros e. cbn. lra. }
  assert (Hid1 : map HR.nodeId H1 = map VR.nodeId vr).
  { unfold H1. rewrite <- Hids, !map_map. reflexivity. }
  assert (Hid2 : map HR.nodeId H2 = map fst extra).
  { unfold H2. rewrite !map_map. apply map_ext_in. intros e He.
    rewrite Forall_forall in Hextra. now destruct (Hextra e He) as (_ & E & _). }
  assert (Hzero : Forall (fun h => HR.vectorScore h = 0 /\ HR.hybridScore h = 0) H2).
  { unfold H2. rewrite !Forall_map. eapply Forall_impl; [|exact Hextra].
    intros e (E1 & _ & _). cbn. rewrite E1. split; [reflexivity|lra]. }
  assert (Hlist : map toH (Map_values (HybridSearch.mergeResults lookup vr gr)) = H1 ++ H2).
  { rewrite Hm. unfold Map_values. now rewrite !map_app. }
  assert (Hsorted1 : StronglySorted (not_below _ HR.hybridScore) H1).
  { assert (Hgen : forall (hs : list HR.t) (vs : list VR.t),
              map HR.hybridScore hs = map VR.vectorScore vs ->
              StronglySorted (fun a b => VR.vectorScore b <= VR.vectorScore a) vs ->
              StronglySorted (not_below _ HR.hybridScore) hs).
    { induction hs as [|h hs IH]; intros [|v vs] Heq Hs; try discriminate; [constructor|].
      simpl in Heq. injection Heq as Hh Ht.
      inversion Hs as [|? ? Hs' Hv]; subst. constructor; [now apply (IH vs)|].
      apply Forall_forall. intros h' Hh'. unfold not_below. rewrite Hh.
      apply (in_map HR.hybridScore) in Hh'. rewrite Ht in Hh'.
      apply in_map_iff in Hh' as (v' & <- & Hv').
      rewrite Forall_forall in Hv. now apply Hv. }
    now apply (Hgen H1 vr). }
  destruct (split_at_bound _ HR.hybridScore 0 H1 Hsorted1) as (above & below & E1 & Ha & Hb).
  exists above, H2, below.
  split.
  { unfold HybridSearch.hybridRank, slice0. fold toH. rewrite Hlist, E1.
    rewrite (sort_around _ HR.hybridScore HybridSearch.byHybridScore) with (c := 0);
      try assumption; try reflexivity.
    - rewrite <- E1. exact Hsorted1.
    - eapply Forall_impl; [|exact Hzero]. now intros h [_ H]. }
  rewrite <- E1.
  split; [exact Hid1|]. split; [exact Hscore1|]. split; [exact Ha|]. split; [exact Hb|].
  split.
  { rewrite Hid2. rewrite map_app in Hkeys. now apply NoDup_app_remove_l in Hkeys. }
  split; [|exact Hzero].
  intros i. rewrite Hid2. split.
  - intros Hi. apply in_map_iff in Hi as (e & <- & He).
    rewrite Forall_forall in Hextra, Hwell.
    destruct (Hextra e He) as (_ & _ & Hout). rewrite map_map in Hout. cbn [fst] in Hout.
    destruct (Hwell e (in_or_app _ _ _ (or_intror He))) as (_ & [Hv|Hg]);
      [exfalso; apply Hout; exact Hv|].
    split; [exact Hg|]. intros Hv. apply Hout. exact Hv.
  - intros [Hg Hout].
    destruct (fusion_of_node lookup vr gr i Hnd) as [_ Hfresh].
    specialize (Hfresh Hout).
    assert (Hsome : exists c, Map_get (HybridSearch.mergeResults lookup vr gr) i = Some c).
    { rewrite Hfresh. destruct (contributing i gr) as [|g rest] eqn:Ec; [|now eexists].
      exfalso. apply in_map_iff in Hg as (g & Hid & Hin).
      assert (Hc : In g (contributing i gr)).
      { apply filter_In. split; [exact Hin|]. now apply jsstring_eqb_eq. }
      rewrite Ec in Hc. destruct Hc. }
    destruct Hsome as (c & Hc). apply Map_get_entry in Hc. rewrite Hm in Hc.
    apply in_app_or in Hc as [Hc|Hc].
    + exfalso. apply Hout. rewrite <- Hk1. now apply (in_map fst) in Hc.
    + now apply (in_map fst) in Hc.
Qed.

(** C8 (amended).  For a request with [vectorWeight = 1] and
    [graphWeight = 0] on a file that has nodes, in a store whose node ids
    are distinct, the request is answered and the hybrid results are, cut
    to [topK]: first the vector results whose score is not negative, then
    the nodes that only graph results brought, each once, then the vector
    results whose score is negative; the vector results keep their order
    and have their vector score as hybrid score, the others have vector
    score 0 and hybrid score 0.  So the hybrid results are in the order of
    the vector results whenever every graph result leads to a vector
    result, and they begin with the vector results whenever no vector
    score is negative. *)
Theorem hybrid_order_under_vector_weight (req : HybridSearch.Request) (w : World) :
  HybridSearch.vectorWeight req = 1 ->
  HybridSearch.graphWeight req = 0 ->
  NoDup (map id (nodes (db w))) ->
  scope w (HybridSearch.fileId req) <> [] ->
  exists (body : HybridSearch.Body) (w' : World),
    HybridSearch.handler req w = (HybridSearch.Ok200 body, w')
    /\ (exists above extra below : list HR.t,
          HybridSearch.hybridResults body
          = firstn (HybridSearch.topK req) (above ++ extra ++ below)
          /\ map HR.nodeId (above ++ below) = map VR.nodeId (HybridSearch.vectorResults body)
          /\ map HR.hybridScore (above ++ below)
             = map VR.vectorScore (HybridSearch.vectorResults body)
          /\ Forall (fun h => 0 <= HR.hybridScore h) above
          /\ Forall (fun h => HR.hybridScore h < 0) below
          /\ NoDup (map HR.nodeId extra)
          /\ (forall i, In i (map HR.nodeId extra)
                        <-> In i (map GR.nodeId (HybridSearch.graphResults body))
                            /\ ~ In i (map VR.nodeId (HybridSearch.vectorResults body)))
          /\ Forall (fun h => HR.vectorScore h = 0 /\ HR.hybridScore h = 0) extra)
    /\ (Forall (fun g => In (GR.nodeId g) (map VR.nodeId (HybridSearch.vectorResults body)))
               (HybridSearch.graphResults body) ->
        map HR.nodeId (HybridSearch.hybridResults body)
        = map VR.nodeId (HybridSearch.vectorResults body))
    /\ (Forall (fun v => 0 <= VR.vectorScore v) (HybridSearch.vectorResults body) ->
        firstn (length (HybridSearch.vectorResults body))
               (map HR.nodeId (HybridSearch.hybridResults body))
        = map VR.nodeId (HybridSearch.vectorResults body)).
Proof.
  intros Hwv Hwg Hnd Hne.
  destruct (handler_runs req w Hne) as (lookup & w' & Hrun). cbv zeta in Hrun.
  eexists _, w'. split; [exact Hrun|].
  cbn [HybridSearch.hybridResults HybridSearch.vectorResults HybridSearch.graphResults].
  rewrite Hwv, Hwg.
  set (vr := HybridSearch.vectorSearch _ _ _).
  assert (Hlen : (length vr <= HybridSearch.topK req)%nat).
  { unfold vr, HybridSearch.vectorSearch, slice0. apply firstn_le_length. }
  generalize (map (HybridSearch.toGraphResult lookup)
                  (outgoing w (map HybridSearch.VectorResult.nodeId vr))) as gr.
  intros gr.
  destruct (hybrid_by_vector lookup vr gr (HybridSearch.topK req))
    as (above & extra & below & Hrank & Hids & Hscores & Ha & Hb & Hx & Hin & Hzero).
  { now apply vectorSearch_distinct. }
  { apply vectorSearch_sorted. }
  assert (Hcount : (length above + length below = length vr)%nat).
  { rewrite <- length_app, <- (length_map HR.nodeId), Hids. apply length_map. }
  split; [|split].
  - exists above, extra, below. now repeat (split; [assumption|]).
  - intros Hall. rewrite Hrank.
    assert (extra = []) as ->.
    { destruct extra as [|h extra']; [reflexivity|]. exfalso.
      destruct (proj1 (Hin (HR.nodeId h)) (or_introl eq_refl)) as [Hg Hout].
      apply Hout. apply in_map_iff in Hg as (g & <- & Hg).
      rewrite Forall_forall in Hall. now apply Hall. }
    cbn [app]. rewrite firstn_all2 by (rewrite length_app; lia). exact Hids.
  - intros Hpos.
    assert (below = []) as ->.
    { destruct below as [|h below']; [reflexivity|]. exfalso.
      inversion Hb as [|? ? Hh _]; subst.
      assert (Hs : In (HR.hybridScore h) (map VR.vectorScore vr)).
      { rewrite <- Hscores, map_app. apply in_or_app. right. now left. }
      apply in_map_iff in Hs as (v & Hv & Hvin).
      rewrite Forall_forall in Hpos. specialize (Hpos v Hvin). lra. }
    rewrite app_nil_r in *. cbn [length] in Hcount. rewrite Nat.add_0_r in Hcount.
    rewrite Hrank, <- firstn_map, firstn_firstn, map_app, <- Hids, <- Hcount.
    rewrite Nat.min_l by lia.
    rewrite <- (length_map HR.nodeId above), firstn_app, Nat.sub_diag, firstn_all.
    cbn [firstn]. apply app_nil_r.
Qed.

(** The three nodes of the counterexample, asked for two results: the
    vector results are [n1] (score 1) and [n2] (score -1), the one graph
    result leads to [n3]. *)
Lemma hybrid_order_under_vector_weight_witness :
  HybridSearch.vectorWeight (ask (js "alpha") 1 0 2) = 1
  /\ HybridSearch.graphWeight (ask (js "alpha") 1 0 2) = 0
  /\ NoDup (map id (nodes (db three_nodes)))
  /\ scope three_nodes (HybridSearch.fileId (ask (js "alpha") 1 0 2)) <> []
  /\ exists (body : HybridSearch.Body) (w' : World),
       HybridSearch.handler (ask (js "alpha") 1 0 2) three_nodes = (HybridSearch.Ok200 body, w')
       /\ exists above extra below : list HR.t,
            HybridSearch.hybridResults body = firstn 2 (above ++ extra ++ below)
            /\ map HR.nodeId above = [js "n1"]
            /\ map HR.nodeId extra = [js "n3"]
            /\ map HR.nodeId below = [js "n2"].
Proof.
  assert (Hnd : NoDup (map id (nodes (db three_nodes)))).
  { cbn. repeat (constructor; [cbn; intuition discriminate|]). constructor. }
  assert (Hne : scope three_nodes (HybridSearch.fileId (ask (js "alpha") 1 0 2)) <> []).
  { unfold scope. simpl. discriminate. }
  split; [reflexivity|]. split; [reflexivity|]. split; [exact Hnd|]. split; [exact Hne|].
  destruct (hybrid_order_under_vector_weight (ask (js "alpha") 1 0 2) three_nodes
              eq_refl eq_refl Hnd Hne)
    as (body & w' & Hrun & (above & extra & below & Hrank & Hids & Hscores & Ha & Hb
                            & Hx & Hin & _) & _ & _).
  exists body, w'. split; [exact Hrun|].
  destruct (handler_runs (ask (js "alpha") 1 0 2) three_nodes Hne) as (lookup & w2 & Hrun2).
  cbv zeta in Hrun2. rewrite Hrun in Hrun2.
  change (HybridSearch.fileId (ask (js "alpha") 1 0 2)) with (js "f1") in Hrun2.
  change (HybridSearch.query (ask (js "alpha") 1 0 2)) with (js "alpha") in Hrun2.
  change (HybridSearch.topK (ask (js "alpha") 1 0 2)) with 2%nat in Hrun2.
  rewrite three_nodes_vectorResults in Hrun2.
  change (outgoing three_nodes _) with [ semantic (js "n1") (js "n3") (1 / 2) ] in Hrun2.
  cbn [map] in Hrun2.
  injection Hrun2 as Hbody _. subst body.
  cbn [HybridSearch.vectorResults HybridSearch.graphResults map VR.nodeId VR.vectorScore
       scored GR.nodeId HybridSearch.toGraphResult target_node_id semantic] in *.
  exists above, extra, below. split; [exact Hrank|].
  assert (Hsplit : map HR.nodeId above = [js "n1"] /\ map HR.nodeId below = [js "n2"]).
  { assert (Hl : (length above + length below = 2)%nat).
    { apply (f_equal (@length jsstring)) in Hids.
      now rewrite length_map, length_app in Hids. }
    destruct above as [|a [|a' [|a'' above]]], below as [|b [|b' [|b'' below]]];
      cbn [length] in Hl; try lia; cbn in Hids, Hscores.
    - exfalso. injection Hscores as H1 H2.
      inversion Hb as [|? ? Hneg _]; subst. lra.
    - injection Hids as H1 H2. cbn. now rewrite H1, H2.
    - exfalso. injection Hscores as H1 H2.
      inversion Ha as [|? ? _ Ha']; subst. inversion Ha' as [|? ? Hpos _]; subst. lra. }
  split; [apply Hsplit|]. split; [|apply Hsplit].
  assert (H3 : In (js "n3") (map HR.nodeId extra)).
  { apply Hin. split; [now left|]. intros [H|[H|[]]]; discriminate. }
  assert (Honly : forall i, In i (map HR.nodeId extra) -> i = js "n3").
  { intros i Hi. apply Hin in Hi as [[<-|[]] _]. reflexivity. }
  destruct (map HR.nodeId extra) as [|x [|y rest]] eqn:E.
  - destruct H3.
  - now rewrite (Honly x (or_introl eq_refl)).
  - exfalso. inversion Hx as [|? ? Hnot _]; subst. apply Hnot.
    rewrite (Honly x (or_introl eq_refl)), (Honly y (or_intror (or_introl eq_refl))).
    now left.
Defined.

Local Close Scope R_scope.
